(** * erateEstimate: iterative overlap error-rate re-estimation

    A shallow embedding of [src/erateEstimate/erateEstimate.C] (canu):
    the bit-packed overlap record [ESToverlap], the derived span
    [ESToverlapSpan], the per-read profile [readErrorEstimate], the
    iteration [recomputeErrorProfile] and the output pass
    [outputOverlaps]; then what [main] does around them (the command
    line, the selection of the reads, the index of the overlaps and the
    loop that loads them), and the overlap partitioner that follows in the
    same source file ([loadReadLengths], [partitionLength]).

    Conventions.
    - A C++ [uint32]/[uint64]/[uint16] value is a [Z] in its range, with the
      wrap-around written out ([wrap32], [wrap16], ...); an [int32] is a
      [Z] in the signed range ([int32_of]).
    - An array is a [list]; reading outside of it is [Undefined]
      (the C++ behaviour is undefined there), a failing [assert] is
      [AssertFailed] (the process aborts).
    - [double] arithmetic and the two quantisation macros
      [AS_OVS_decodeEvalue] / [AS_OVS_encodeEvalue] (declared in a header
      that is not part of the sources at hand) are parameters, gathered in
      the class [DoubleOps].
    - [intervalList] (its header is not part of the sources either) is
      modelled from the specification, see [intervalDepth]. *)

From Stdlib Require Import ZArith Lia QArith Qround Bool Sorted.
From stdpp Require Import base list strings gmap.

Local Open Scope Z_scope.

(** ** Machine integers *)

Module Mach.

Definition wrap (w : Z) (x : Z) : Z := x mod 2 ^ w.

(** Signed reading of the low [w] bits of [x] (two's complement). *)
Definition sext (w : Z) (x : Z) : Z :=
  let r := x mod 2 ^ w in
  if r <? 2 ^ (w - 1) then r else r - 2 ^ w.

Definition wrap16 : Z -> Z := wrap 16.
Definition wrap32 : Z -> Z := wrap 32.
Definition wrap64 : Z -> Z := wrap 64.
Definition int32_of : Z -> Z := sext 32.

Definition fits_signed (w : Z) (x : Z) : Prop := - 2 ^ (w - 1) <= x < 2 ^ (w - 1).

End Mach.
Import Mach.

(** ** Outcomes of a run *)

Inductive outcome (A : Type) : Type :=
| Done (a : A)
| AssertFailed
| Undefined.
Arguments Done {A} a.
Arguments AssertFailed {A}.
Arguments Undefined {A}.

Definition obind {A B : Type} (m : outcome A) (k : A -> outcome B) : outcome B :=
  match m with
  | Done a => k a
  | AssertFailed => AssertFailed
  | Undefined => Undefined
  end.

Notation "'let!' x ':=' m 'in' k" := (obind m (fun x => k))
  (at level 10, x name, m at level 100, k at level 200).
Notation "'assert!' b ';' k" := (if b then k else AssertFailed)
  (at level 10, b at level 100, k at level 200).

(** [a[i]]: the cell when [i] lies inside the array. *)
Definition aget {A : Type} (a : list A) (i : Z) : outcome A :=
  if (i <? 0) || (Z.of_nat (length a) <=? i) then Undefined
  else match a !! Z.to_nat i with
       | Some x => Done x
       | None => Undefined
       end.

(** ** Floating point and the quantiser, as parameters *)

Class DoubleOps : Type := {
  double : Type;
  (** conversion of an integer to [double] *)
  double_of_Z : Z -> double;
  double_add : double -> double -> double;
  double_div : double -> double -> double;
  double_ltb : double -> double -> bool;
  double_leb : double -> double -> bool;
  double_eqb : double -> double -> bool;
  (** [AS_OVS_decodeEvalue]: quantised value to error rate *)
  AS_OVS_decodeEvalue : Z -> double;
  (** [AS_OVS_encodeEvalue]: error rate to quantised value *)
  AS_OVS_encodeEvalue : double -> Z
}.

Section Engine.

Context `{DoubleOps}.

(** [#define ERATE_TOLERANCE 0.03]: the decimal literal is the correctly
    rounded quotient of 3 by 100. *)
Definition ERATE_TOLERANCE : double := double_div (double_of_Z 3) (double_of_Z 100).

(** ** Data *)

(** [class readErrorEstimate]: [errorMeanS] is the summed error, [errorMeanU]
    the error estimate being rebuilt; both are allocated with [seqLen + 1]
    cells and not initialised. *)
Record readErrorEstimate : Type := {
  seqLen : Z;
  errorMeanS : list Z;
  errorMeanU : list Z
}.

(** What [populate] reads of a native [ovOverlap] record: the members
    [a_iid], [b_iid] and the accessors [a_hang()], [b_hang()], [evalue()],
    [erate()], [flipped()]. *)
Record ovOverlap : Type := {
  ovl_a_iid : Z;
  ovl_b_iid : Z;
  ovl_a_hang : Z;
  ovl_b_hang : Z;
  ovl_evalue : Z;
  ovl_erate : double;
  ovl_flipped : bool
}.

(** [class ESToverlap], one field per bit-field. *)
Record ESToverlap : Type := {
  a_iid : Z;        (* uint32 : 23 *)
  b_iid_hi : Z;     (* uint32 :  9 *)
  b_iid_lo : Z;     (* uint32 : 14 *)
  a_hang : Z;       (* int32  : 17 *)
  b_hang : Z;       (* int32  : 17 *)
  erate : Z;        (* uint32 : 12 *)
  flipped : bool;   (* uint32 :  1 *)
  discarded : bool  (* uint32 :  1 *)
}.

Definition set_discarded (o : ESToverlap) : ESToverlap :=
  {| a_iid := a_iid o; b_iid_hi := b_iid_hi o; b_iid_lo := b_iid_lo o;
     a_hang := a_hang o; b_hang := b_hang o; erate := erate o;
     flipped := flipped o; discarded := true |}.

(** [(b_iid_hi << 14) | b_iid_lo], as written wherever [b_iid] is needed. *)
Definition b_iid (o : ESToverlap) : Z :=
  Z.lor (Z.shiftl (b_iid_hi o) 14) (b_iid_lo o).

(** ** [ESToverlap::populate] *)

(** The eight assignments of [populate]; a bit-field keeps the low bits of
    what is stored in it. *)
Definition populate_fields (ovl : ovOverlap) : ESToverlap :=
  {| a_iid := wrap 23 (ovl_a_iid ovl);
     b_iid_hi := wrap 9 (Z.land (Z.shiftr (ovl_b_iid ovl) 14) 0x1ff);
     b_iid_lo := wrap 14 (Z.land (Z.shiftr (ovl_b_iid ovl) 0) 0x3fff);
     a_hang := sext 17 (ovl_a_hang ovl);
     b_hang := sext 17 (ovl_b_hang ovl);
     erate := wrap 12 (ovl_evalue ovl);
     flipped := ovl_flipped ovl;
     discarded := false |}.

(** The six assertions that follow the assignments. *)
Definition populate (ovl : ovOverlap) : outcome ESToverlap :=
  let c := populate_fields ovl in
  assert! ovl_a_iid ovl =? a_iid c;
  assert! ovl_b_iid ovl =? b_iid c;
  assert! ovl_a_hang ovl =? a_hang c;
  assert! ovl_b_hang ovl =? b_hang c;
  assert! double_eqb (ovl_erate ovl) (double_of_Z (erate c));
  assert! eqb (ovl_flipped ovl) (flipped c);
  Done c.

(** ** [ESToverlapSpan] *)

Record ESToverlapSpan : Type := {
  span_a_iid : Z;
  span_b_iid : Z;
  a_beg : Z;
  a_end : Z;
  b_beg : Z;
  b_end : Z;
  fwd : bool;
  span_erate : Z
}.

(** The coordinate arithmetic of the constructor, given the two lengths as
    the [int32] locals [seqLenA], [seqLenB]; each result is stored in a
    [uint32]. *)
Definition span_of (ovl : ESToverlap) (seqLenA seqLenB : Z) : ESToverlapSpan :=
  let abgn := wrap32 (if a_hang ovl <? 0 then 0 else a_hang ovl) in
  let aend := wrap32 (if b_hang ovl <? 0 then seqLenA + b_hang ovl else seqLenA) in
  let bbgn := wrap32 (if a_hang ovl <? 0 then - a_hang ovl else 0) in
  let bend := wrap32 (if b_hang ovl <? 0 then seqLenB else seqLenB - b_hang ovl) in
  {| span_a_iid := a_iid ovl;
     span_b_iid := b_iid ovl;
     a_beg := abgn; a_end := aend; b_beg := bbgn; b_end := bend;
     fwd := negb (flipped ovl);
     span_erate := erate ovl |}.

(** The constructor: the lengths come from [readProfile[a_iid - iidMin]]
    and [readProfile[b_iid - iidMin]] (unsigned index arithmetic). *)
Definition mkSpan (ovl : ESToverlap) (readProfile : list readErrorEstimate)
    (iidMin : Z) : outcome ESToverlapSpan :=
  let! pa := aget readProfile (wrap32 (a_iid ovl - iidMin)) in
  let! pb := aget readProfile (wrap32 (b_iid ovl - iidMin)) in
  Done (span_of ovl (int32_of (seqLen pa)) (int32_of (seqLen pb))).

(** ** [computeEstimatedErate] *)

Definition computeEstimatedErate (iidMin : Z) (ovl : ESToverlapSpan)
    (readProfile : list readErrorEstimate) : outcome double :=
  let ab := a_beg ovl in
  let ae := a_end ovl in
  assert! ab <? ae;
  let! pa := aget readProfile (wrap32 (span_a_iid ovl - iidMin)) in
  let! sae := aget (errorMeanS pa) ae in
  let! sab := aget (errorMeanS pa) ab in
  let estErrorA := wrap32 (sae - sab) in
  let bb := b_beg ovl in
  let be := b_end ovl in
  assert! bb <? be;
  let! pb := aget readProfile (wrap32 (span_b_iid ovl - iidMin)) in
  let! sbe := aget (errorMeanS pb) be in
  let! sbb := aget (errorMeanS pb) bb in
  let estErrorB := wrap32 (sbe - sbb) in
  Done (AS_OVS_decodeEvalue (wrap64 (estErrorA / 2 + estErrorB / 2))).

(** ** [intervalList<uint32,double>] *)

(** Modelled from the spec: an input of the aggregator, a triple
    [(lo, hi, value)]. *)
Record ilEntry : Type := { il_lo : Z; il_hi : Z; il_value : double }.

(** Modelled from the spec: an output of the aggregator,
    [(lo, hi, weight, depth)]. *)
Record interval : Type := { iv_lo : Z; iv_hi : Z; iv_value : double; iv_depth : Z }.

(** Modelled from the spec: [add(position, length, value)] appends the
    triple [(position, position + length, value)]; positions are [uint32]. *)
Definition il_add (l : list ilEntry) (pos len : Z) (val : double) : list ilEntry :=
  l ++ [ {| il_lo := pos; il_hi := wrap32 (pos + len); il_value := val |} ].

(** Modelled from the spec: the end points of the inputs, in increasing
    order and without repetition. *)
Fixpoint insert_bp (x : Z) (l : list Z) : list Z :=
  match l with
  | [] => [x]
  | y :: l' =>
      if x <? y then x :: l
      else if x =? y then l
      else y :: insert_bp x l'
  end.

Definition breakpoints (l : list ilEntry) : list Z :=
  foldr (fun e acc => insert_bp (il_lo e) (insert_bp (il_hi e) acc)) [] l.

(** Modelled from the spec: the sub-intervals between consecutive end
    points. *)
Fixpoint pieces (bps : list Z) : list (Z * Z) :=
  match bps with
  | [] => []
  | p :: t =>
      match t with
      | [] => []
      | q :: _ => (p, q) :: pieces t
      end
  end.

(** Modelled from the spec: the input [e] covers the sub-interval
    [[p, q)]. *)
Definition covers (p q : Z) (e : ilEntry) : bool :=
  (il_lo e <=? p) && (q <=? il_hi e).

(** Modelled from the spec: a sub-interval with its depth (the number of
    inputs covering it) and weight (the sum of their values). *)
Definition piece_interval (l : list ilEntry) (pq : Z * Z) : interval :=
  let c := List.filter (covers (fst pq) (snd pq)) l in
  {| iv_lo := fst pq; iv_hi := snd pq;
     iv_value := fold_left (fun acc e => double_add acc (il_value e)) c (double_of_Z 0);
     iv_depth := Z.of_nat (length c) |}.

(** Modelled from the spec: the depth constructor of [intervalList]
    ([intervalList.H] is not among the sources).  The inputs are flattened
    into the non-overlapping sub-intervals, in increasing order, that cover
    the union of the input ranges; each carries its depth (the number of
    inputs covering it) and the sum of their values. *)
Definition intervalDepth (l : list ilEntry) : list interval :=
  List.filter (fun iv => 0 <? iv_depth iv)
    (map (piece_interval l) (pieces (breakpoints l))).

(** ** [recomputeErrorProfile] *)

Record ESTstate : Type := {
  overlapIndex : list Z;
  overlaps : list ESToverlap;
  readProfile : list readErrorEstimate
}.

(** The [erate / 2] handed to the interval list. *)
Definition half (x : double) : double := double_div x (double_of_Z 2).

(** One turn of the loop over the overlaps of read [iid] (lines 318-351);
    [continue] is the early [Done]. *)
Definition overlapStep (iidMin : Z) (rp : list readErrorEstimate) (iter iid : Z)
    (oo : Z) (acc : list ESToverlap * list ilEntry)
  : outcome (list ESToverlap * list ilEntry) :=
  let ovs := fst acc in
  let eRateList := snd acc in
  let! o := aget ovs oo in
  if discarded o then Done (ovs, eRateList)
  else
    let! ovl := mkSpan o rp iidMin in
    assert! span_a_iid ovl =? wrap32 (iid + iidMin);
    assert! a_beg ovl <=? a_end ovl;
    let erate := AS_OVS_decodeEvalue (span_erate ovl) in
    if 0 <? iter then
      let! estError := computeEstimatedErate iidMin ovl rp in
      if double_ltb (double_add estError ERATE_TOLERANCE) erate then
        Done (<[Z.to_nat oo := set_discarded o]> ovs, eRateList)
      else
        Done (ovs, il_add eRateList (a_beg ovl) (wrap32 (a_end ovl - a_beg ovl)) (half erate))
    else
      Done (ovs, il_add eRateList (a_beg ovl) (wrap32 (a_end ovl - a_beg ovl)) (half erate)).

Fixpoint scanOverlaps (iidMin : Z) (rp : list readErrorEstimate) (iter iid : Z)
    (n : nat) (oo : Z) (acc : list ESToverlap * list ilEntry)
  : outcome (list ESToverlap * list ilEntry) :=
  match n with
  | O => Done acc
  | S n' =>
      let! acc' := overlapStep iidMin rp iter iid oo acc in
      scanOverlaps iidMin rp iter iid n' (oo + 1) acc'
  end.

(** The whole loop [for (oo = overlapIndex[iid]; oo < overlapIndex[iid+1]; oo++)],
    starting from an empty [eRateList]. *)
Definition scanRead (iidMin : Z) (st : ESTstate) (iter iid : Z)
  : outcome (list ESToverlap * list ilEntry) :=
  let! first := aget (overlapIndex st) iid in
  let! last := aget (overlapIndex st) (iid + 1) in
  scanOverlaps iidMin (readProfile st) iter iid (Z.to_nat (last - first)) first
    (overlaps st, []).

(** [memset(errorMeanU, 0, sizeof(uint16) * (seqLen + 1))] *)
Definition memsetU (u : list Z) (len : Z) : outcome (list Z) :=
  if Z.of_nat (length u) <? len + 1 then Undefined
  else Done (replicate (Z.to_nat (len + 1)) 0 ++ drop (Z.to_nat (len + 1)) u).

(** [a[i] = x] *)
Definition aset {A : Type} (a : list A) (i : Z) (x : A) : outcome (list A) :=
  if (i <? 0) || (Z.of_nat (length a) <=? i) then Undefined
  else Done (<[Z.to_nat i := x]> a).

(** [for (pp = lo; pp < hi; pp++) errorMeanU[pp] = eEnc], with [n] turns left. *)
Fixpoint fillU (n : nat) (pp : Z) (eEnc : Z) (u : list Z) : outcome (list Z) :=
  match n with
  | O => Done u
  | S n' => let! u' := aset u pp eEnc in fillU n' (pp + 1) eEnc u'
  end.

(** [eVal] and [eEnc] of the loop over the intervals of [eRateMap]. *)
Definition eValOf (iv : interval) : double :=
  if 0 <? iv_depth iv then double_div (iv_value iv) (double_of_Z (iv_depth iv))
  else double_of_Z 0.

Definition eEncOf (iv : interval) : Z := wrap16 (AS_OVS_encodeEvalue (eValOf iv)).

(** The body of the loop over the intervals of [eRateMap] (lines 361-373). *)
Definition unpackInterval (len : Z) (iv : interval) (u : list Z) : outcome (list Z) :=
  let eVal := eValOf iv in
  assert! double_leb (double_of_Z 0) eVal;
  assert! double_leb eVal (double_of_Z 1);
  assert! iv_hi iv <=? len;
  let eEnc := eEncOf iv in
  fillU (Z.to_nat (iv_hi iv - iv_lo iv)) (iv_lo iv) eEnc u.

Fixpoint unpackMap (len : Z) (m : list interval) (u : list Z) : outcome (list Z) :=
  match m with
  | [] => Done u
  | iv :: m' => let! u' := unpackInterval len iv u in unpackMap len m' u'
  end.

Definition set_errorMeanU (p : readErrorEstimate) (u : list Z) : readErrorEstimate :=
  {| seqLen := seqLen p; errorMeanS := errorMeanS p; errorMeanU := u |}.

Definition set_errorMeanS (p : readErrorEstimate) (s : list Z) : readErrorEstimate :=
  {| seqLen := seqLen p; errorMeanS := s; errorMeanU := errorMeanU p |}.

(** The work item of read [iid]: the body of the parallel loop
    (lines 307-379). *)
Definition processRead (iidMin : Z) (iter : Z) (iid : Z) (st : ESTstate)
  : outcome ESTstate :=
  let! p := aget (readProfile st) iid in
  if seqLen p =? 0 then Done st
  else
    let! scanned := scanRead iidMin st iter iid in
    let eRateMap := intervalDepth (snd scanned) in
    let! u0 := memsetU (errorMeanU p) (seqLen p) in
    let! u := unpackMap (seqLen p) eRateMap u0 in
    Done {| overlapIndex := overlapIndex st;
            overlaps := fst scanned;
            readProfile := <[Z.to_nat iid := set_errorMeanU p u]> (readProfile st) |}.

(** [for (ii = 1; ii < seqLen; ii++) errorMeanS[ii] = errorMeanS[ii-1] + errorMeanU[ii]],
    with [n] turns left. *)
Fixpoint sumLoop (n : nat) (ii : Z) (u s : list Z) : outcome (list Z) :=
  match n with
  | O => Done s
  | S n' =>
      let! prev := aget s (ii - 1) in
      let! x := aget u ii in
      let! s' := aset s ii (wrap32 (prev + x)) in
      sumLoop n' (ii + 1) u s'
  end.

(** The body of the second loop (lines 384-392) for one read. *)
Definition rebuildSum (p : readErrorEstimate) : outcome readErrorEstimate :=
  if seqLen p =? 0 then Done p
  else
    let! u0 := aget (errorMeanU p) 0 in
    let! s0 := aset (errorMeanS p) 0 u0 in
    let! s := sumLoop (Z.to_nat (seqLen p - 1)) 1 (errorMeanU p) s0 in
    Done (set_errorMeanS p s).

(** The second loop (lines 384-392), with [n] turns left. *)
Definition sumRead (iid : Z) (rp : list readErrorEstimate)
  : outcome (list readErrorEstimate) :=
  let! p := aget rp iid in
  let! p' := rebuildSum p in
  Done (<[Z.to_nat iid := p']> rp).

Fixpoint sumAll (n : nat) (iid : Z) (rp : list readErrorEstimate)
  : outcome (list readErrorEstimate) :=
  match n with
  | O => Done rp
  | S n' => let! rp' := sumRead iid rp in sumAll n' (iid + 1) rp'
  end.

(** [for (iid = 0; iid < numIIDs; iid++)] over the work items, with [n]
    turns left.  The loop is an OpenMP parallel-for; a work item writes the
    [discarded] bits of its own slice and its own [errorMeanU], and reads
    only [seqLen], [errorMeanS] and its own slice, so the turns commute and
    the sequential order is one of the possible schedules. *)
Fixpoint readLoop (iidMin iter : Z) (n : nat) (iid : Z) (st : ESTstate)
  : outcome ESTstate :=
  match n with
  | O => Done st
  | S n' =>
      let! st' := processRead iidMin iter iid st in
      readLoop iidMin iter n' (iid + 1) st'
  end.

(** The statistics counters [nDiscarded], [nDiscard], [nRemain] are only
    printed and are left out. *)
Definition recomputeErrorProfile (iidMin : Z) (numIIDs : Z) (st : ESTstate) (iter : Z)
  : outcome ESTstate :=
  let! st1 := readLoop iidMin iter (Z.to_nat numIIDs) 0 st in
  let! rp := sumAll (Z.to_nat numIIDs) 0 (readProfile st1) in
  Done {| overlapIndex := overlapIndex st1;
          overlaps := overlaps st1;
          readProfile := rp |}.

(** ** [outputOverlaps] *)

Fixpoint takeZ {A : Type} (n : Z) (l : list A) : list A :=
  match l with
  | [] => []
  | x :: l' => if 0 <? n then x :: takeZ (n - 1) l' else []
  end.

Fixpoint dropZ {A : Type} (n : Z) (l : list A) : list A :=
  match l with
  | [] => []
  | x :: l' => if 0 <? n then dropZ (n - 1) l' else l
  end.

(** The loop over one loaded block (lines 446-463): [block] is what is left
    of [ovl[xx..nLoad)], [no] the position in [overlaps], [out] what has
    been written to [outStore] so far. *)
Fixpoint writeBlock (block : list ovOverlap) (no : Z) (ovs : list ESToverlap)
    (out : list ovOverlap) : outcome (Z * list ovOverlap) :=
  match block with
  | [] => Done (no, out)
  | r :: block' =>
      let! o := aget ovs no in
      assert! ovl_a_iid r =? a_iid o;
      assert! ovl_b_iid r =? b_iid o;
      if discarded o then writeBlock block' (no + 1) ovs out
      else writeBlock block' (no + 1) ovs (out ++ [r])
  end.

(** The loop [for (no = 0; no < numOvls; )] (lines 441-464).  [stream] is
    what the input store has not delivered yet; [loadBlockOfOverlaps]
    delivers its next [ovlLen] records, or all of them when fewer are left.
    Every turn asserts that at least one record was loaded, so [no] grows
    and [fuel = numOvls] turns are never exhausted
    (lemma [blockLoop_fuel]). *)
Fixpoint blockLoop (fuel : nat) (ovlLen numOvls : Z) (no : Z)
    (stream : list ovOverlap) (ovs : list ESToverlap) (out : list ovOverlap)
  : outcome (list ovOverlap) :=
  if no <? numOvls then
    match fuel with
    | O => Undefined
    | S fuel' =>
        let block := takeZ ovlLen stream in
        let nLoad := Z.of_nat (length block) in
        assert! 0 <? nLoad;
        let! r := writeBlock block no ovs out in
        blockLoop fuel' ovlLen numOvls (fst r) (dropZ ovlLen stream) ovs (snd r)
    end
  else Done out.

Definition outputOverlapsWith (ovlLen : Z) (numOvls : Z) (store : list ovOverlap)
    (ovs : list ESToverlap) : outcome (list ovOverlap) :=
  blockLoop (Z.to_nat numOvls) ovlLen numOvls 0 store ovs [].

(** [uint32 ovlLen = 100000000] *)
Definition outputOverlaps : Z -> list ovOverlap -> list ESToverlap -> outcome (list ovOverlap) :=
  outputOverlapsWith 100000000.

(** ** The iterations of [main] *)

(** [for (ii = first; ...) recomputeErrorProfile(..., ii)], [n] turns. *)
Fixpoint runIterations (iidMin numIIDs : Z) (n : nat) (ii : Z) (st : ESTstate)
  : outcome ESTstate :=
  match n with
  | O => Done st
  | S n' =>
      let! st' := recomputeErrorProfile iidMin numIIDs st ii in
      runIterations iidMin numIIDs n' (ii + 1) st'
  end.

(** The four iterations followed by the output pass; the result is the
    engine state the output pass leaves behind, and the written store. *)
Definition engine (iidMin numIIDs : Z) (store : list ovOverlap) (st : ESTstate)
  : outcome (ESTstate * list ovOverlap) :=
  let! st' := runIterations iidMin numIIDs 4 0 st in
  let! out := outputOverlaps (Z.of_nat (length store)) store (overlaps st') in
  Done (st', out).

(** ** The loop body as a verdict followed by its effect

    The body of the loop over the overlaps of a read decides one of three
    things for the overlap at hand, and then acts on it.  [examine] is the
    decision, [applyVerdict] the action; lemma [overlapStep_examine] shows
    that [overlapStep] is the one followed by the other. *)

Inductive verdict : Type :=
| Skip                    (* discarded in an earlier iteration *)
| Discard                 (* discarded now *)
| Keep (e : ilEntry).     (* added to the interval list *)

Definition spanEntry (ovl : ESToverlapSpan) : ilEntry :=
  {| il_lo := a_beg ovl;
     il_hi := wrap32 (a_beg ovl + wrap32 (a_end ovl - a_beg ovl));
     il_value := half (AS_OVS_decodeEvalue (span_erate ovl)) |}.

Definition examine (iidMin : Z) (rp : list readErrorEstimate) (iter iid : Z)
    (o : ESToverlap) : outcome verdict :=
  if discarded o then Done Skip
  else
    let! ovl := mkSpan o rp iidMin in
    assert! span_a_iid ovl =? wrap32 (iid + iidMin);
    assert! a_beg ovl <=? a_end ovl;
    if 0 <? iter then
      let! estError := computeEstimatedErate iidMin ovl rp in
      if double_ltb (double_add estError ERATE_TOLERANCE)
           (AS_OVS_decodeEvalue (span_erate ovl))
      then Done Discard
      else Done (Keep (spanEntry ovl))
    else Done (Keep (spanEntry ovl)).

Definition applyVerdict (oo : Z) (o : ESToverlap) (v : verdict)
    (acc : list ESToverlap * list ilEntry) : list ESToverlap * list ilEntry :=
  match v with
  | Skip => acc
  | Discard => (<[Z.to_nat oo := set_discarded o]> (fst acc), snd acc)
  | Keep e => (fst acc, snd acc ++ [e])
  end.

(** The record after the verdict has been acted upon. *)
Definition flagged (o : ESToverlap) (v : verdict) : ESToverlap :=
  match v with
  | Discard => set_discarded o
  | _ => o
  end.

(** The test of lines 335-338 holds for the overlap: its span and the
    estimate over it exist, and [estError + ERATE_TOLERANCE < erate]. *)
Definition judgedInconsistent (iidMin : Z) (rp : list readErrorEstimate)
    (o : ESToverlap) : Prop :=
  exists ovl estError,
    mkSpan o rp iidMin = Done ovl
    /\ computeEstimatedErate iidMin ovl rp = Done estError
    /\ double_ltb (double_add estError ERATE_TOLERANCE)
         (AS_OVS_decodeEvalue (erate o)) = true.

(** What an overlap puts into the interval list of its read: the span on
    the read, with half the decoded error rate. *)
Definition contribution (iidMin : Z) (rp : list readErrorEstimate)
    (o : ESToverlap) (e : ilEntry) : Prop :=
  exists ovl,
    mkSpan o rp iidMin = Done ovl
    /\ e = {| il_lo := a_beg ovl; il_hi := a_end ovl;
              il_value := half (AS_OVS_decodeEvalue (erate o)) |}.

(** [l[first .. first + n)] *)
Definition subrange {A : Type} (first : Z) (n : nat) (l : list A) : list A :=
  take n (drop (Z.to_nat first) l).

(** The overlaps of read [iid]: [overlaps[overlapIndex[iid] .. overlapIndex[iid+1])]. *)
Definition sliceOf (idx : list Z) (iid : Z) (ovs : list ESToverlap) : list ESToverlap :=
  match aget idx iid, aget idx (iid + 1) with
  | Done first, Done last => subrange first (Z.to_nat (last - first)) ovs
  | _, _ => []
  end.

(** Position [k] lies in the slice of read [iid]. *)
Definition inSlice (idx : list Z) (iid : Z) (k : nat) : Prop :=
  exists first last,
    aget idx iid = Done first /\ aget idx (iid + 1) = Done last
    /\ first <= Z.of_nat k < last.

Definition notDiscarded (o : ESToverlap) : bool := negb (discarded o).

(** Read [iid] is not a deleted read. *)
Definition activeRead (rp : list readErrorEstimate) (iid : Z) : Prop :=
  exists p, aget rp iid = Done p /\ seqLen p <> 0.

(** [ovs'] is [ovs] with some more [discarded] bits set, and nothing else
    changed. *)
Definition flagsOnly (ovs ovs' : list ESToverlap) : Prop :=
  length ovs' = length ovs
  /\ forall (k : nat) (o : ESToverlap),
       ovs !! k = Some o ->
       ovs' !! k = Some o \/ ovs' !! k = Some (set_discarded o).

(** What the first loop reads of the profiles. *)
Definition sums (p : readErrorEstimate) : Z * list Z := (seqLen p, errorMeanS p).

Definition sameSums (rp rp' : list readErrorEstimate) : Prop :=
  map sums rp = map sums rp'.

(** ** What the output pass is expected to write *)

(** The assertions of lines 450-451 on one record. *)
Definition idsAgree (r : ovOverlap) (o : ESToverlap) : bool :=
  (ovl_a_iid r =? a_iid o) && (ovl_b_iid r =? b_iid o).

Definition lockStep (store : list ovOverlap) (ovs : list ESToverlap) : bool :=
  forallb (fun ro => idsAgree (fst ro) (snd ro)) (combine store ovs).

(** The records of the store whose position holds an overlap that is not
    discarded, in the order of the store. *)
Definition retained (store : list ovOverlap) (ovs : list ESToverlap) : list ovOverlap :=
  map fst (List.filter (fun ro => notDiscarded (snd ro)) (combine store ovs)).

(** ** Well-formed engine states

    What [main] sets up before the first iteration: profile arrays of
    [seqLen + 1] cells, and every overlap lying in the slice of the read
    that is its [a_iid] (the overlaps are stored sorted by first read). *)

Definition wf_profile_b (p : readErrorEstimate) : bool :=
  (0 <=? seqLen p) && (seqLen p <? 2 ^ 31)
  && (Z.of_nat (length (errorMeanS p)) =? seqLen p + 1)
  && (Z.of_nat (length (errorMeanU p)) =? seqLen p + 1)
  && forallb (fun x => (0 <=? x) && (x <? 2 ^ 16)) (errorMeanU p).

Definition in_slice_b (idx : list Z) (iid oo : Z) : bool :=
  match idx !! Z.to_nat iid, idx !! Z.to_nat (iid + 1) with
  | Some first, Some last => (first <=? oo) && (oo <? last)
  | _, _ => false
  end.

Definition wf_overlap_b (iidMin numIIDs : Z) (idx : list Z) (oo : Z) (o : ESToverlap) : bool :=
  (0 <=? a_iid o) && (a_iid o <? 2 ^ 23)
  && (- 2 ^ 16 <=? a_hang o) && (a_hang o <? 2 ^ 16)
  && (- 2 ^ 16 <=? b_hang o) && (b_hang o <? 2 ^ 16)
  && (wrap32 (a_iid o - iidMin) <? numIIDs)
  && in_slice_b idx (wrap32 (a_iid o - iidMin)) oo.

Fixpoint wf_overlaps_b (iidMin numIIDs : Z) (idx : list Z) (oo : Z) (ovs : list ESToverlap) : bool :=
  match ovs with
  | [] => true
  | o :: ovs' => wf_overlap_b iidMin numIIDs idx oo o && wf_overlaps_b iidMin numIIDs idx (oo + 1) ovs'
  end.

Definition wf_state_b (iidMin numIIDs : Z) (st : ESTstate) : bool :=
  (0 <=? iidMin) && (iidMin <? 2 ^ 32)
  && (0 <=? numIIDs) && (numIIDs <? 2 ^ 32)
  && (Z.of_nat (length (readProfile st)) =? numIIDs)
  && forallb wf_profile_b (readProfile st)
  && wf_overlaps_b iidMin numIIDs (overlapIndex st) 0 (overlaps st).

End Engine.

(** ** An instance over the rationals

    Exact arithmetic; a quantised value [e] stands for the error rate
    [e / 10000], the encoder rounds to the nearest quantised value and
    saturates at the largest 12-bit one.  It serves to run the engine on
    concrete inputs; the theorems below hold for every instance. *)

Module Sample.

Definition Qltb (x y : Q) : bool := negb (Qle_bool y x).

Definition decodeQ (e : Z) : Q := (inject_Z e / inject_Z 10000)%Q.

Definition encodeQ (q : Q) : Z :=
  if Qltb q (decodeQ 4095) then Qfloor (inject_Z 10000 * q + (1 # 2))%Q else 4095.

#[export] Instance QOps : DoubleOps := {|
  double := Q;
  double_of_Z := inject_Z;
  double_add := Qplus;
  double_div := Qdiv;
  double_ltb := Qltb;
  double_leb := Qle_bool;
  double_eqb := Qeq_bool;
  AS_OVS_decodeEvalue := decodeQ;
  AS_OVS_encodeEvalue := encodeQ
|}.

Definition mkOverlap (a b ahang bhang e : Z) (d : bool) : ESToverlap :=
  {| a_iid := a; b_iid_hi := Z.shiftr b 14; b_iid_lo := Z.land b 0x3fff;
     a_hang := ahang; b_hang := bhang; erate := e;
     flipped := false; discarded := d |}.

Definition mkProfile (len : Z) (s u : list Z) : readErrorEstimate :=
  {| seqLen := len; errorMeanS := s; errorMeanU := u |}.

(** Two reads (ids 1 and 2) of length 4 and the overlap between them in both
    directions, with error rate 0.02; the profile arrays hold arbitrary
    values, as after allocation. *)
Definition st_pair : ESTstate :=
  {| overlapIndex := [0; 1; 2];
     overlaps := [mkOverlap 1 2 0 0 200 false; mkOverlap 2 1 0 0 200 false];
     readProfile := [mkProfile 4 [11; 22; 33; 44; 55] [7; 7; 7; 7; 7];
                     mkProfile 4 [5; 4; 3; 2; 1] [9; 9; 9; 9; 9]] |}.

(** Two reads of length 2 overlapping over their whole length, with summed
    error arrays whose two range sums are both odd. *)
Definition rp_odd : list readErrorEstimate :=
  [mkProfile 2 [0; 5; 1] [0; 5; 0]; mkProfile 2 [2; 9; 3] [2; 7; 0]].
Definition sp_odd : ESToverlapSpan := span_of (mkOverlap 1 2 0 0 200 false) 2 2.

(** Two reads of length 4 and the overlap between them in both directions,
    reported at error rate 0.40; [st_outlier_1] is the state after
    iteration 0 and [st_outlier_2] the state after iteration 1. *)
Definition st_outlier : ESTstate :=
  {| overlapIndex := [0; 1; 2];
     overlaps := [mkOverlap 1 2 0 0 4000 false; mkOverlap 2 1 0 0 4000 false];
     readProfile := [mkProfile 4 [0; 0; 0; 0; 5000] [0; 0; 0; 0; 0];
                     mkProfile 4 [0; 0; 0; 0; 5000] [0; 0; 0; 0; 0]] |}.

Definition st_outlier_1 : ESTstate :=
  {| overlapIndex := [0; 1; 2];
     overlaps := [mkOverlap 1 2 0 0 4000 false; mkOverlap 2 1 0 0 4000 false];
     readProfile := [mkProfile 4 [2000; 4000; 6000; 8000; 5000] [2000; 2000; 2000; 2000; 0];
                     mkProfile 4 [2000; 4000; 6000; 8000; 5000] [2000; 2000; 2000; 2000; 0]] |}.

Definition st_outlier_2 : ESTstate :=
  {| overlapIndex := [0; 1; 2];
     overlaps := [mkOverlap 1 2 0 0 4000 true; mkOverlap 2 1 0 0 4000 true];
     readProfile := [mkProfile 4 [0; 0; 0; 0; 5000] [0; 0; 0; 0; 0];
                     mkProfile 4 [0; 0; 0; 0; 5000] [0; 0; 0; 0; 0]] |}.

(** [st_pair] after iteration 0. *)
Definition st_pair_0 : ESTstate :=
  {| overlapIndex := [0; 1; 2];
     overlaps := [mkOverlap 1 2 0 0 200 false; mkOverlap 2 1 0 0 200 false];
     readProfile := [mkProfile 4 [100; 200; 300; 400; 55] [100; 100; 100; 100; 0];
                     mkProfile 4 [100; 200; 300; 400; 1] [100; 100; 100; 100; 0]] |}.

(** An overlap whose [b_hang] reaches past the second read: [b_end] wraps
    around. *)
Definition o_reach : ESToverlap := mkOverlap 1 2 0 10 200 false.
Definition st_reach : ESTstate :=
  {| overlapIndex := [0; 1; 1];
     overlaps := [o_reach];
     readProfile := [mkProfile 4 [0; 0; 0; 0; 0] [0; 0; 0; 0; 0];
                     mkProfile 4 [0; 0; 0; 0; 0] [0; 0; 0; 0; 0]] |}.

(** An overlap whose span on the first read is empty. *)
Definition o_empty : ESToverlap := mkOverlap 1 2 4 0 200 false.
Definition st_empty : ESTstate :=
  {| overlapIndex := [0; 1; 1];
     overlaps := [o_empty];
     readProfile := [mkProfile 4 [0; 0; 0; 0; 0] [0; 0; 0; 0; 0];
                     mkProfile 4 [0; 0; 0; 0; 0] [0; 0; 0; 0; 0]] |}.

(** An overlap whose [b_hang] reaches before the start of a read of
    length 5. *)
Definition o_before : ESToverlap := mkOverlap 1 2 0 (-10) 0 false.

Definition mkNative (a b ahang bhang e : Z) (r : Q) (f : bool) : ovOverlap :=
  {| ovl_a_iid := a; ovl_b_iid := b; ovl_a_hang := ahang; ovl_b_hang := bhang;
     ovl_evalue := e; ovl_erate := r; ovl_flipped := f |}.




(** Two reads of length 4 whose summed errors give the estimate 0.20 for
    an overlap over their whole length, and the overlap between them
    reported at 0.23 in one direction and at 0.2301 in the other: the first
    is at the tolerance, the second one quantum beyond it. *)
Definition st_edge : ESTstate :=
  {| overlapIndex := [0; 1; 2];
     overlaps := [mkOverlap 1 2 0 0 2300 false; mkOverlap 2 1 0 0 2301 false];
     readProfile := [mkProfile 4 [0; 500; 1000; 1500; 2000] [500; 500; 500; 500; 0];
                     mkProfile 4 [0; 500; 1000; 1500; 2000] [500; 500; 500; 500; 0]] |}.

(** [st_edge] after iteration 1. *)
Definition st_edge_1 : ESTstate :=
  {| overlapIndex := [0; 1; 2];
     overlaps := [mkOverlap 1 2 0 0 2300 false; mkOverlap 2 1 0 0 2301 true];
     readProfile := [mkProfile 4 [1150; 2300; 3450; 4600; 2000] [1150; 1150; 1150; 1150; 0];
                     mkProfile 4 [0; 0; 0; 0; 2000] [0; 0; 0; 0; 0]] |}.

Definition store_pair : list ovOverlap :=
  [mkNative 1 2 0 0 4000 (2 # 5) false; mkNative 2 1 0 0 4000 (2 # 5) false].

(** The first overlap of the pair discarded, the second not. *)
Definition ovs_half : list ESToverlap :=
  [mkOverlap 1 2 0 0 4000 true; mkOverlap 2 1 0 0 4000 false].

End Sample.

(** ** Formulas of the data model, for comparison *)

(** The span coordinates as the formulas of the data model read over the
    integers, for comparison with [span_of]. *)
Definition formula_a_beg (ahang : Z) : Z := if ahang <? 0 then 0 else ahang.
Definition formula_a_end (bhang lenA : Z) : Z := if bhang <? 0 then lenA + bhang else lenA.
Definition formula_b_beg (ahang : Z) : Z := if ahang <? 0 then - ahang else 0.
Definition formula_b_end (bhang lenB : Z) : Z := if bhang <? 0 then lenB else lenB - bhang.

(** The estimate as the spec's formula: half the sum of the two range
    sums, decoded. *)
Definition formula_estimate `{DoubleOps} (sumA sumB : Z) : double :=
  AS_OVS_decodeEvalue ((sumA + sumB) / 2).

(** [u[0] + ... + u[n-1]] *)
Definition sumU (u : list Z) (n : nat) : Z := foldr Z.add 0 (take n u).

(** * The rest of [erateEstimate]: the set-up of [main] *)

(** ** The work items of the parallel loop, in any order *)

Section Schedule.

Context `{DoubleOps}.

(** The work items of the parallel loop (lines 306-379), run one after the
    other in the order [items]. *)
Fixpoint runItems (iidMin iter : Z) (items : list Z) (st : ESTstate)
  : outcome ESTstate :=
  match items with
  | [] => Done st
  | iid :: rest =>
      let! st' := processRead iidMin iter iid st in
      runItems iidMin iter rest st'
  end.

(** What the first iteration reads of the profiles: the lengths of the
    reads. *)
Definition sameLengths (rp rp' : list readErrorEstimate) : Prop :=
  map seqLen rp = map seqLen rp'.

End Schedule.

(** The index is non-decreasing. *)
Fixpoint sorted_b (idx : list Z) : bool :=
  match idx with
  | [] => true
  | x :: t =>
      match t with
      | [] => true
      | y :: _ => (x <=? y) && sorted_b t
      end
  end.

(** ** The command line *)

Definition UINT32_MAX : Z := 2 ^ 32 - 1.

(** The variables the options are parsed into (lines 513-543 of [main]); a
    [char*] is the null pointer ([None]) or a string. *)
Record options : Type := {
  opt_seqName : option string;
  opt_ovlStoreName : option string;
  opt_ovlCacheName : option string;
  opt_iidMin : Z;
  opt_iidMax : Z;
  opt_partNum : Z;
  opt_partMax : Z;
  opt_err : Z
}.

(** Their initial values. *)
Definition options0 : options :=
  {| opt_seqName := None; opt_ovlStoreName := None; opt_ovlCacheName := None;
     opt_iidMin := UINT32_MAX; opt_iidMax := UINT32_MAX;
     opt_partNum := 0; opt_partMax := 1; opt_err := 0 |}.

Definition set_seqName (v : option string) (o : options) : options :=
  {| opt_seqName := v; opt_ovlStoreName := opt_ovlStoreName o;
     opt_ovlCacheName := opt_ovlCacheName o;
     opt_iidMin := opt_iidMin o; opt_iidMax := opt_iidMax o;
     opt_partNum := opt_partNum o; opt_partMax := opt_partMax o;
     opt_err := opt_err o |}.

Definition set_ovlStoreName (v : option string) (o : options) : options :=
  {| opt_seqName := opt_seqName o; opt_ovlStoreName := v;
     opt_ovlCacheName := opt_ovlCacheName o;
     opt_iidMin := opt_iidMin o; opt_iidMax := opt_iidMax o;
     opt_partNum := opt_partNum o; opt_partMax := opt_partMax o;
     opt_err := opt_err o |}.

Definition set_ovlCacheName (v : option string) (o : options) : options :=
  {| opt_seqName := opt_seqName o; opt_ovlStoreName := opt_ovlStoreName o;
     opt_ovlCacheName := v;
     opt_iidMin := opt_iidMin o; opt_iidMax := opt_iidMax o;
     opt_partNum := opt_partNum o; opt_partMax := opt_partMax o;
     opt_err := opt_err o |}.

Definition set_range (iidMin iidMax partNum partMax : Z) (o : options) : options :=
  {| opt_seqName := opt_seqName o; opt_ovlStoreName := opt_ovlStoreName o;
     opt_ovlCacheName := opt_ovlCacheName o;
     opt_iidMin := iidMin; opt_iidMax := iidMax;
     opt_partNum := partNum; opt_partMax := partMax;
     opt_err := opt_err o |}.

(** [err++] *)
Definition count_error (o : options) : options :=
  {| opt_seqName := opt_seqName o; opt_ovlStoreName := opt_ovlStoreName o;
     opt_ovlCacheName := opt_ovlCacheName o;
     opt_iidMin := opt_iidMin o; opt_iidMax := opt_iidMax o;
     opt_partNum := opt_partNum o; opt_partMax := opt_partMax o;
     opt_err := opt_err o + 1 |}.

(** The strings the loop compares [argv[arg]] with. *)
Definition isOption (a : string) : bool :=
  String.eqb a "-S" || String.eqb a "-O" || String.eqb a "-C" || String.eqb a "-b"
  || String.eqb a "-e" || String.eqb a "-p" || String.eqb a "-L" || String.eqb a "-E".

Section CommandLine.

(** [atoi] of the C library: the [int] a string converts to. *)
Variable atoi : string -> Z.

(** The loop [while (arg < argc)] (lines 545-581) over what is left of
    [argv], after [AS_configure] has taken its own options.
    [argv[++arg]] past the last argument is the null pointer that ends
    [argv]: an option that takes a name stores it, [atoi] of it is
    undefined.  [atoi(...) - 1] is [int] arithmetic, stored in a [uint32].
    The options [-L] and [-E] take nothing: the statements that read their
    value are commented out. *)
Fixpoint parseArgs (argv : list string) (o : options) : outcome options :=
  match argv with
  | [] => Done o
  | a :: rest =>
      if String.eqb a "-S" then
        match rest with
        | [] => Done (set_seqName None o)
        | v :: rest' => parseArgs rest' (set_seqName (Some v) o)
        end
      else if String.eqb a "-O" then
        match rest with
        | [] => Done (set_ovlStoreName None o)
        | v :: rest' => parseArgs rest' (set_ovlStoreName (Some v) o)
        end
      else if String.eqb a "-C" then
        match rest with
        | [] => Done (set_ovlCacheName None o)
        | v :: rest' => parseArgs rest' (set_ovlCacheName (Some v) o)
        end
      else if String.eqb a "-b" then
        match rest with
        | [] => Undefined
        | v :: rest' => parseArgs rest' (set_range (wrap32 (atoi v)) (opt_iidMax o) 0 0 o)
        end
      else if String.eqb a "-e" then
        match rest with
        | [] => Undefined
        | v :: rest' => parseArgs rest' (set_range (opt_iidMin o) (wrap32 (atoi v)) 0 0 o)
        end
      else if String.eqb a "-p" then
        match rest with
        | v1 :: v2 :: rest' =>
            if atoi v1 =? - 2 ^ 31 then Undefined
            else parseArgs rest'
                   (set_range (opt_iidMin o) (opt_iidMax o)
                              (wrap32 (atoi v1 - 1)) (wrap32 (atoi v2)) o)
        | _ => Undefined
        end
      else if String.eqb a "-L" then parseArgs rest o
      else if String.eqb a "-E" then parseArgs rest o
      else parseArgs rest (count_error o)
  end.

End CommandLine.

(** ** The range of reads *)

(** Lines 597-613 of [main]: [(iidMin, iidMax, numIIDs)] from what the
    options left in [iidMin], [iidMax], [partNum], [partMax], and the
    number of reads [nf] of the store.  All of them are [uint32]; the
    division is reached only with [partNum < partMax], so never by zero. *)
Definition main_range (iidMin iidMax partNum partMax nf : Z) : Z * Z * Z :=
  let lo :=
    if partNum <? partMax
    then wrap32 (wrap32 (wrap32 (partNum + 0) * nf) / partMax + 1)
    else iidMin in
  let hi :=
    if partNum <? partMax
    then (if wrap32 (partNum + 1) =? partMax then nf
          else wrap32 (wrap32 (partNum + 1) * nf) / partMax)
    else iidMax in
  let lo := if lo =? UINT32_MAX then 1 else lo in
  let hi := if hi =? UINT32_MAX then nf else hi in
  (lo, hi, wrap32 (hi - lo + 1)).

(** Lines 545-613: the options, [exit(1)] ([None]) when one of them was
    not known, and the range of reads for a store of [nf] reads. *)
Definition main_select (atoi : string -> Z) (argv : list string) (nf : Z)
  : outcome (option (Z * Z * Z)) :=
  let! o := parseArgs atoi argv options0 in
  if opt_err o =? 0
  then Done (Some (main_range (opt_iidMin o) (opt_iidMax o)
                              (opt_partNum o) (opt_partMax o) nf))
  else Done None.

(** ** The index of the overlaps *)

(** [for (iid = 0; iid < numIIDs; iid++)
       overlapIndex[iid+1] = overlapIndex[iid] + overlapLen[iid+1]]
    (lines 658-659), with [n] turns left; [iid] is [uint32], the index is
    [uint64]. *)
Fixpoint indexLoop (n : nat) (iid : Z) (overlapLen idx : list Z) : outcome (list Z) :=
  match n with
  | O => Done idx
  | S n' =>
      let! prev := aget idx iid in
      let! len := aget overlapLen (wrap32 (iid + 1)) in
      let! idx' := aset idx (wrap32 (iid + 1)) (wrap64 (prev + len)) in
      indexLoop n' (iid + 1) overlapLen idx'
  end.

(** Lines 651-661 of [main]: [fresh] is the array [new uint64 [numIIDs + 1]]
    as allocated, [overlapLen] what [numOverlapsPerRead] returned. *)
Definition main_index (numIIDs numOvls : Z) (overlapLen fresh : list Z)
  : outcome (list Z) :=
  let! idx0 := aset fresh 0 0 in
  let! idx := indexLoop (Z.to_nat numIIDs) 0 overlapLen idx0 in
  let! last := aget idx numIIDs in
  assert! last =? numOvls;
  Done idx.

(** ** Loading the overlaps *)

Section Load.

Context `{DoubleOps}.

(** [for (xx = 0; xx < nLoad; xx++) overlaps[no++].populate(ovl[xx])]
    (lines 695-696): [populate] writes the fields of [overlaps[no]] and
    then checks its assertions. *)
Fixpoint populateBlock (block : list ovOverlap) (no : Z) (ovs : list ESToverlap)
  : outcome (Z * list ESToverlap) :=
  match block with
  | [] => Done (no, ovs)
  | r :: block' =>
      let! ovs' := aset ovs no (populate_fields r) in
      let! c := populate r in
      populateBlock block' (no + 1) ovs'
  end.

(** The loop [for (no = 0; no < numOvls; )] that loads the overlaps
    (lines 692-703).  [stream] is what the store has not delivered yet;
    [loadBlockOfOverlaps] delivers its next [ovlLen] records, or all of
    them when fewer are left.  Nothing is asserted about the number of
    records loaded, so the loop keeps turning when the store has run dry:
    [None] is a loop still running after [fuel] turns. *)
Fixpoint loadLoop (fuel : nat) (ovlLen numOvls : Z) (no : Z)
    (stream : list ovOverlap) (ovs : list ESToverlap)
  : option (outcome (list ESToverlap)) :=
  if no <? numOvls then
    match fuel with
    | O => None
    | S fuel' =>
        match populateBlock (takeZ ovlLen stream) no ovs with
        | Done r => loadLoop fuel' ovlLen numOvls (fst r) (dropZ ovlLen stream) (snd r)
        | AssertFailed => Some AssertFailed
        | Undefined => Some Undefined
        end
    end
  else Some (Done ovs).

(** Lines 684-703 when no cache file exists: [uint32 ovlLen = 100000000];
    [fresh] is [new ESToverlap [numOvls]] as allocated.  The copy written
    to the cache file is left out. *)
Definition main_load (fuel : nat) (numOvls : Z) (store : list ovOverlap)
    (fresh : list ESToverlap) : option (outcome (list ESToverlap)) :=
  loadLoop fuel 100000000 numOvls 0 store fresh.

(** The record passes the assertions of [populate]. *)
Definition populate_ok (r : ovOverlap) : bool :=
  match populate r with
  | Done _ => true
  | _ => false
  end.

End Load.

(** The first reads of the overlaps a store delivers for the reads
    [iidMin .. iidMin + numIIDs - 1] when it is sorted by first read and
    [overlapLen[iid + 1]] is the number of overlaps of read [iidMin + iid]. *)
Definition sortedByRead (iidMin numIIDs : Z) (overlapLen : list Z) : list Z :=
  flat_map (fun i : nat =>
              replicate (Z.to_nat (default 0 (overlapLen !! S i))) (iidMin + Z.of_nat i))
           (seq 0 (Z.to_nat numIIDs)).

(** ** Further concrete inputs *)

Module Cases.

Import Sample.

(** [st_pair] with other values in the profile arrays. *)
Definition st_pair_other : ESTstate :=
  {| overlapIndex := [0; 1; 2];
     overlaps := [mkOverlap 1 2 0 0 200 false; mkOverlap 2 1 0 0 200 false];
     readProfile := [mkProfile 4 [1; 2; 3; 4; 5] [60000; 0; 1; 2; 3];
                     mkProfile 4 [0; 0; 0; 0; 0] [4; 4; 4; 4; 4]] |}.

(** Read 1 of length 4 and the deleted read 2, with an overlap stored
    for the deleted read. *)
Definition st_deleted : ESTstate :=
  {| overlapIndex := [0; 0; 1];
     overlaps := [mkOverlap 2 1 0 0 200 false];
     readProfile := [mkProfile 4 [11; 22; 33; 44; 55] [7; 7; 7; 7; 7];
                     mkProfile 0 [13] [17]] |}.

(** Two native records that pass the assertions of [populate]. *)
Definition store_zero : list ovOverlap :=
  [mkNative 1 2 0 0 0 0 false; mkNative 2 1 0 0 0 0 false].

(** An array of two packed records as allocated. *)
Definition fresh_pair : list ESToverlap :=
  [mkOverlap 9 9 9 9 9 true; mkOverlap 8 8 8 8 8 true].

(** The engine state of reads 1 and 2 with the records of [store_zero]. *)
Definition st_zero : ESTstate :=
  {| overlapIndex := [0; 1; 2];
     overlaps := map populate_fields store_zero;
     readProfile := [mkProfile 4 [11; 22; 33; 44; 55] [7; 7; 7; 7; 7];
                     mkProfile 4 [5; 4; 3; 2; 1] [9; 9; 9; 9; 9]] |}.

(** The value of a decimal digit. *)
Definition digit (c : Ascii.ascii) : option Z :=
  let n := Z.of_nat (Ascii.nat_of_ascii c) in
  if (48 <=? n) && (n <=? 57) then Some (n - 48) else None.

(** The number a string of decimal digits starts with. *)
Fixpoint digits (s : string) (acc : Z) : Z :=
  match s with
  | String.EmptyString => acc
  | String.String c s' =>
      match digit c with
      | Some d => digits s' (10 * acc + d)
      | None => acc
      end
  end.

(** An [atoi] for unsigned decimal numbers. *)
Definition atoi10 (s : string) : Z := digits s 0.

End Cases.

(** * The overlap partitioner

    The second program of the sources: it reads the lengths of the reads
    and cuts the store into jobs for the overlapper, each a range of reads
    to load into the hash table and a range of reads to stream against
    it. *)

Module Partition.

(** [uint32 batchMax = 1000] *)
Definition batchMax : Z := 1000.

(** What the partitioner reads of a read of the store: [sqRead_readID()],
    [sqRead_libraryID()] and [sqRead_sequenceLength()].  The lengths of
    the raw, corrected and trimmed versions only feed the table printed on
    the error stream and are left out. *)
Record sqRead : Type := {
  sqRead_readID : Z;
  sqRead_libraryID : Z;
  sqRead_sequenceLength : Z
}.

(** The four reference parameters of [loadReadLengths]. *)
Record ranges : Type := {
  hashMin : Z;
  hashMax : Z;
  refMin : Z;
  refMax : Z
}.

(** [doHash[i] = (libToHash.count(i) == 0) ? false : true] for
    [i = 0 .. numLibs] (lines 834-840). *)
Definition libFlags (numLibs : Z) (libs : gset Z) : list bool :=
  map (fun i : nat => bool_decide (Z.of_nat i ∈ libs)) (seq 0 (Z.to_nat (numLibs + 1))).

(** [if ((test == true) && (flags[lib] == true)) { lo = min(lo, ii); hi = max(hi, ii); }] *)
Definition widen (test : bool) (flags : list bool) (lib ii : Z) (lohi : Z * Z)
  : outcome (Z * Z) :=
  if test then
    let! d := aget flags lib in
    if d then Done (Z.min (fst lohi) ii, Z.max (snd lohi) ii) else Done lohi
  else Done lohi.

(** One turn of the loop over the reads (lines 858-900), for the read
    [ii] of the store. *)
Definition lengthStep (testHash testRef : bool) (doHash doRef : list bool)
    (ii : Z) (read : sqRead) (acc : list Z * ranges) : outcome (list Z * ranges) :=
  let readLen := fst acc in
  let r := snd acc in
  assert! sqRead_readID read =? ii;
  let! readLen' := aset readLen ii (sqRead_sequenceLength read) in
  let! h := widen testHash doHash (sqRead_libraryID read) ii (hashMin r, hashMax r) in
  let! f := widen testRef doRef (sqRead_libraryID read) ii (refMin r, refMax r) in
  Done (readLen',
        {| hashMin := fst h; hashMax := snd h; refMin := fst f; refMax := snd f |}).

(** [for (ii = 1; ii <= numReads; ii++)] over the reads the store has
    left to give. *)
Fixpoint lengthLoop (testHash testRef : bool) (doHash doRef : list bool)
    (ii : Z) (reads : list sqRead) (acc : list Z * ranges)
  : outcome (list Z * ranges) :=
  match reads with
  | [] => Done acc
  | read :: rest =>
      let! acc' := lengthStep testHash testRef doHash doRef ii read acc in
      lengthLoop testHash testRef doHash doRef (ii + 1) rest acc'
  end.

(** [loadReadLengths] (lines 811-911): [reads] are the reads
    [1 .. numReads] of the store, [r] what the caller holds in the four
    reference parameters; the result is the array [readLen] and their new
    values. *)
Definition loadReadLengths (numLibs : Z) (reads : list sqRead)
    (libToHash libToRef : gset Z) (r : ranges) : outcome (list Z * ranges) :=
  let numReads := length reads in
  let testHash := negb (size libToHash =? 0)%nat in
  let testRef := negb (size libToRef =? 0)%nat in
  let r1 :=
    {| hashMin := if testHash then UINT32_MAX else hashMin r;
       hashMax := if testHash then 0 else hashMax r;
       refMin := if testRef then UINT32_MAX else refMin r;
       refMax := if testRef then 0 else refMax r |} in
  lengthLoop testHash testRef (libFlags numLibs libToHash) (libFlags numLibs libToRef)
    1 reads (replicate (numReads + 1) 0, r1).

(** A line of each of the three output files: the batch name, the job
    name, and the options of the job (the two ranges, and the number of
    bases to load when the hash range holds a read long enough). *)
Record job : Type := {
  batchName : Z;
  jobName : Z;
  hashBeg : Z;
  hashEnd : Z;
  refBeg : Z;
  refEnd : Z;
  hashReads : Z;
  hashBases : Z
}.

(** The counters of the jobs: [batchSize], [batchName], [jobName]. *)
Record counters : Type := {
  c_batchSize : Z;
  c_batchName : Z;
  c_jobName : Z
}.

(** Lines 1023-1030: the counters after a job. *)
Definition nextJob (c : counters) : counters :=
  let batchSize := wrap32 (c_batchSize c + 1) in
  {| c_batchSize := if batchMax <=? batchSize then 0 else batchSize;
     c_batchName := if batchMax <=? batchSize then wrap32 (c_batchName c + 1)
                    else c_batchName c;
     c_jobName := wrap32 (c_jobName c + 1) |}.

(** The loop [do { hashEnd++; ... } while ((hashLen < ovlHashBlockLength)
    && (hashEnd < hashMax))] (lines 968-978) with [fuel] turns left; the
    state is [(hashEnd, hashLen, hashReads, hashBases)].  [hashEnd] and
    [hashReads] are [uint32], the other two [uint64]; [readLen[hashEnd] + 1]
    is computed in [uint32].  The turns are at most [hashMax + 1], so the
    last branch is not reached with that much fuel. *)
Fixpoint hashBlock (fuel : nat) (readLen : list Z)
    (minOverlapLength ovlHashBlockLength hashMax : Z)
    (hashEnd hashLen hashReads hashBases : Z) : outcome (Z * Z * Z * Z) :=
  match fuel with
  | O => Undefined
  | S fuel' =>
      let hashEnd := wrap32 (hashEnd + 1) in
      let! len := aget readLen hashEnd in
      let skip := len <? minOverlapLength in
      let hashLen := if skip then hashLen else wrap64 (hashLen + wrap32 (len + 1)) in
      let hashReads := if skip then hashReads else wrap32 (hashReads + 1) in
      let hashBases := if skip then hashBases else wrap64 (hashBases + wrap32 (len + 1)) in
      if (hashLen <? ovlHashBlockLength) && (hashEnd <? hashMax)
      then hashBlock fuel' readLen minOverlapLength ovlHashBlockLength hashMax
             hashEnd hashLen hashReads hashBases
      else Done (hashEnd, hashLen, hashReads, hashBases)
  end.

(** The loop [do { refEnd++; ... } while ((refLen < ovlRefBlockLength)
    && (refEnd < refMax))] (lines 992-1002); the state is
    [(refEnd, refLen)], the counters [refReads] and [refBases] are only
    printed. *)
Fixpoint refBlock (fuel : nat) (readLen : list Z)
    (minOverlapLength ovlRefBlockLength refMax : Z)
    (refEnd refLen : Z) : outcome (Z * Z) :=
  match fuel with
  | O => Undefined
  | S fuel' =>
      let refEnd := wrap32 (refEnd + 1) in
      let! len := aget readLen refEnd in
      let refLen := if len <? minOverlapLength then refLen else wrap64 (refLen + len) in
      if (refLen <? ovlRefBlockLength) && (refEnd <? refMax)
      then refBlock fuel' readLen minOverlapLength ovlRefBlockLength refMax refEnd refLen
      else Done (refEnd, refLen)
  end.

(** The loop over the reference ranges of one hash range
    (lines 985-1033), with [fuel] turns left.  [sameLibs] is
    [libToHash.size() != 0 && libToHash == libToRef]. *)
Fixpoint refLoop (fuel : nat) (readLen : list Z)
    (minOverlapLength ovlRefBlockLength refMax : Z) (sameLibs : bool)
    (hashBeg hashEnd hashReads hashBases : Z)
    (refBeg refEnd : Z) (c : counters) (out : list job)
  : outcome (counters * list job) :=
  if (refBeg <? refMax) && ((refBeg <? hashEnd) || sameLibs) then
    match fuel with
    | O => Undefined
    | S fuel' =>
        let! rb := refBlock (S (Z.to_nat refMax)) readLen minOverlapLength
                     ovlRefBlockLength refMax refEnd 0 in
        let refEnd := fst rb in
        let refEnd := if refMax <? refEnd then refMax else refEnd in
        let refEnd := if (hashEnd <? refEnd) && negb sameLibs then hashEnd else refEnd in
        let j := {| batchName := c_batchName c; jobName := c_jobName c;
                    hashBeg := hashBeg; hashEnd := hashEnd;
                    refBeg := refBeg; refEnd := refEnd;
                    hashReads := hashReads; hashBases := hashBases |} in
        refLoop fuel' readLen minOverlapLength ovlRefBlockLength refMax sameLibs
          hashBeg hashEnd hashReads hashBases
          (wrap32 (refEnd + 1)) refEnd (nextJob c) (out ++ [j])
    end
  else Done (c, out).

(** The loop over the hash ranges (lines 957-1036), with [fuel] turns
    left. *)
Fixpoint hashLoop (fuel : nat) (readLen : list Z)
    (minOverlapLength ovlHashBlockLength ovlRefBlockLength : Z) (sameLibs : bool)
    (hashMax refMin refMax : Z)
    (hashBeg hashEnd : Z) (c : counters) (out : list job)
  : outcome (list job) :=
  if hashBeg <? hashMax then
    match fuel with
    | O => Undefined
    | S fuel' =>
        assert! hashEnd =? wrap32 (hashBeg - 1);
        let! hb := hashBlock (S (Z.to_nat hashMax)) readLen minOverlapLength
                     ovlHashBlockLength hashMax hashEnd 0 0 0 in
        let hashEnd := fst (fst (fst hb)) in
        let hashReads := snd (fst hb) in
        let hashBases := snd hb in
        assert! hashEnd <=? hashMax;
        let! r := refLoop (S (Z.to_nat refMax)) readLen minOverlapLength
                    ovlRefBlockLength refMax sameLibs
                    hashBeg hashEnd hashReads hashBases refMin 0 c out in
        hashLoop fuel' readLen minOverlapLength ovlHashBlockLength ovlRefBlockLength
          sameLibs hashMax refMin refMax (wrap32 (hashEnd + 1)) hashEnd (fst r) (snd r)
    end
  else Done out.

(** [partitionLength] (lines 915-1038): the jobs, in the order in which
    their lines are written to the three files. *)
Definition partitionLength (numReads : Z) (readLen : list Z)
    (minOverlapLength ovlHashBlockLength ovlRefBlockLength : Z)
    (libToHash libToRef : gset Z) (r : ranges) : outcome (list job) :=
  let hashMax := if numReads <? hashMax r then numReads else hashMax r in
  let refMax := if numReads <? refMax r then numReads else refMax r in
  let sameLibs := negb (size libToHash =? 0)%nat && bool_decide (libToHash = libToRef) in
  hashLoop (S (Z.to_nat hashMax)) readLen minOverlapLength ovlHashBlockLength
    ovlRefBlockLength sameLibs hashMax (refMin r) refMax
    (hashMin r) (wrap32 (hashMin r - 1))
    {| c_batchSize := 0; c_batchName := 1; c_jobName := 1 |} [].


End Partition.

(** ** What holds of the jobs *)

(** The ranges of a job lie within the limits: the hash range starts
    below [hashMax] and ends at or below it, the reference range starts
    below [refMax] and ends between 1 and [refMax], and, unless the same
    libraries are given for both, the reference range starts and ends
    below the end of the hash range.  The reference range starts at
    [refMin], or else after read 1 and not after its own end. *)
Definition jobInRange (hashMin hashMax refMin refMax : Z) (sameLibs : bool)
    (j : Partition.job) : Prop :=
  hashMin <= Partition.hashBeg j < hashMax
  /\ Partition.hashBeg j <= Partition.hashEnd j <= hashMax
  /\ Partition.refBeg j < refMax
  /\ 1 <= Partition.refEnd j <= refMax
  /\ (Partition.refBeg j = refMin \/ 1 < Partition.refBeg j <= Partition.refEnd j)
  /\ (sameLibs = false ->
      Partition.refBeg j < Partition.hashEnd j
      /\ Partition.refEnd j <= Partition.hashEnd j).

(** The counters after [n] jobs. *)
Definition countersAt (n : Z) (c : Partition.counters) : Prop :=
  Partition.c_batchSize c = n mod Partition.batchMax
  /\ Partition.c_batchName c = wrap32 (1 + n / Partition.batchMax)
  /\ Partition.c_jobName c = wrap32 (1 + n).

(** The jobs are named by their place in the output. *)
Definition numbered (out : list Partition.job) : Prop :=
  forall (k : nat) (j : Partition.job),
    out !! k = Some j ->
    Partition.jobName j = wrap32 (1 + Z.of_nat k)
    /\ Partition.batchName j = wrap32 (1 + Z.of_nat k / Partition.batchMax).

(** The least and the greatest of [lohi] and of the places, counted from
    [ii], of the reads of [reads] whose library is in [libs]. *)
Fixpoint spanOf (libs : gset Z) (ii : Z) (reads : list Partition.sqRead) (lohi : Z * Z)
  : Z * Z :=
  match reads with
  | [] => lohi
  | read :: rest =>
      spanOf libs (ii + 1) rest
        (if bool_decide (Partition.sqRead_libraryID read ∈ libs)
         then (Z.min (fst lohi) ii, Z.max (snd lohi) ii)
         else lohi)
  end.

(** [lo .. hi] is what [loadReadLengths] leaves in a pair of its reference
    parameters that held [lo0 .. hi0], for the set of libraries [libs]:
    nothing changes when no library is given; else every read of one of
    the libraries lies in [lo .. hi], and [lo] and [hi] are such reads, or
    [UINT32_MAX] and 0 when there is none. *)
Definition rangeOfLibs (libs : gset Z) (reads : list Partition.sqRead)
    (lo0 hi0 lo hi : Z) : Prop :=
  (libs = ∅ -> lo = lo0 /\ hi = hi0)
  /\ (libs <> ∅ ->
      (forall (k : nat) (read : Partition.sqRead),
          reads !! k = Some read -> Partition.sqRead_libraryID read ∈ libs ->
          lo <= Z.of_nat k + 1 <= hi)
      /\ ((lo = UINT32_MAX /\ hi = 0
           /\ forall (k : nat) (read : Partition.sqRead),
                reads !! k = Some read -> Partition.sqRead_libraryID read ∉ libs)
          \/ (exists (k1 k2 : nat) (read1 read2 : Partition.sqRead),
                reads !! k1 = Some read1 /\ Partition.sqRead_libraryID read1 ∈ libs
                /\ reads !! k2 = Some read2 /\ Partition.sqRead_libraryID read2 ∈ libs
                /\ lo = Z.of_nat k1 + 1 /\ hi = Z.of_nat k2 + 1))).

(** The lengths of the reads [b .. e] that are at least
    [minOverlapLength] long, the reads the loops count. *)
Definition longReads (minOverlapLength : Z) (readLen : list Z) (b e : Z) : list Z :=
  List.filter (fun len => negb (len <? minOverlapLength))
    (take (Z.to_nat (e + 1 - b)) (drop (Z.to_nat b) readLen)).

(** The bytes of the hash table for reads of these lengths: one for every
    base and one more for every read, [readLen[hashEnd] + 1] in
    [uint32]. *)
Definition hashBytes (lens : list Z) : Z :=
  fold_right (fun len s => wrap32 (len + 1) + s) 0 lens.

(** What a job says of its hash range: the number of its reads that are
    long enough, their bytes, that the range is full (it ends at
    [hashMax] or holds [limit] bytes) and that it was not full without its
    last read. *)
Definition hashCounts (minOverlapLength limit hashMax : Z) (readLen : list Z)
    (j : Partition.job) : Prop :=
  let lens := longReads minOverlapLength readLen (Partition.hashBeg j) (Partition.hashEnd j) in
  Partition.hashReads j = Z.of_nat (length lens)
  /\ Partition.hashBases j = wrap64 (hashBytes lens)
  /\ (Partition.hashEnd j = hashMax \/ limit <= Partition.hashBases j)
  /\ (Partition.hashEnd j = Partition.hashBeg j
      \/ wrap64 (hashBytes (longReads minOverlapLength readLen (Partition.hashBeg j)
                              (Partition.hashEnd j - 1))) < limit).

(** ** Stores for the partitioner *)

Module PartitionCases.

Import Partition.

(** Three reads, the first of library 1 and the others of library 2. *)
Definition reads3 : list sqRead :=
  [ {| sqRead_readID := 1; sqRead_libraryID := 1; sqRead_sequenceLength := 10 |};
    {| sqRead_readID := 2; sqRead_libraryID := 2; sqRead_sequenceLength := 20 |};
    {| sqRead_readID := 3; sqRead_libraryID := 2; sqRead_sequenceLength := 30 |} ].

(** Five reads of one library, the third too short for an overlap of 8. *)
Definition reads5 : list sqRead :=
  [ {| sqRead_readID := 1; sqRead_libraryID := 1; sqRead_sequenceLength := 10 |};
    {| sqRead_readID := 2; sqRead_libraryID := 1; sqRead_sequenceLength := 10 |};
    {| sqRead_readID := 3; sqRead_libraryID := 1; sqRead_sequenceLength := 5 |};
    {| sqRead_readID := 4; sqRead_libraryID := 1; sqRead_sequenceLength := 10 |};
    {| sqRead_readID := 5; sqRead_libraryID := 1; sqRead_sequenceLength := 10 |} ].

Definition lens5 : list Z := [0; 10; 10; 5; 10; 10].

Definition lens3 : list Z := [0; 10; 20; 30].

Definition lib2 : gset Z := {[ 2 ]}.

(** The limits after [loadReadLengths] on [reads3] when library 2 is to
    be streamed. *)
Definition stream_lib2 : ranges :=
  {| hashMin := 1; hashMax := UINT32_MAX; refMin := 2; refMax := 3 |}.

(** The limits [main] starts from. *)
Definition all_reads : ranges :=
  {| hashMin := 1; hashMax := UINT32_MAX; refMin := 1; refMax := UINT32_MAX |}.

End PartitionCases.

(** * Properties *)

(** ** Machine integers *)

Lemma wrap_small w x : 0 <= x < 2 ^ w -> wrap w x = x.
Proof. intros Hx. unfold wrap. apply Z.mod_small. exact Hx. Qed.

Lemma wrap_range w x : 0 <= w -> 0 <= wrap w x < 2 ^ w.
Proof. intros Hw. unfold wrap. apply Z.mod_pos_bound. apply Z.pow_pos_nonneg; lia. Qed.

Lemma wrap32_small x : 0 <= x < 2 ^ 32 -> wrap32 x = x.
Proof. apply wrap_small. Qed.

Lemma wrap32_range x : 0 <= wrap32 x < 2 ^ 32.
Proof. apply wrap_range. lia. Qed.

Lemma wrap32_neg x : - 2 ^ 32 <= x < 0 -> wrap32 x = x + 2 ^ 32.
Proof.
  intros Hx. unfold wrap32, wrap.
  symmetry. apply Z.mod_unique with (q := -1); lia.
Qed.

Lemma wrap32_add_l x y : wrap32 (wrap32 x + y) = wrap32 (x + y).
Proof. unfold wrap32, wrap. apply Zplus_mod_idemp_l. Qed.

Lemma sext_small w x : 0 < w -> - 2 ^ (w - 1) <= x < 2 ^ (w - 1) -> sext w x = x.
Proof.
  intros Hw Hx. unfold sext.
  assert (Hp : 2 ^ w = 2 * 2 ^ (w - 1)).
  { replace w with (Z.succ (w - 1)) at 1 by lia. apply Z.pow_succ_r. lia. }
  destruct (Z.neg_nonneg_cases x) as [Hneg | Hpos].
  - assert (Hm : x mod 2 ^ w = x + 2 ^ w).
    { symmetry. apply Z.mod_unique with (q := -1); lia. }
    rewrite Hm. destruct (Z.ltb_spec (x + 2 ^ w) (2 ^ (w - 1))); lia.
  - rewrite Z.mod_small by lia.
    destruct (Z.ltb_spec x (2 ^ (w - 1))); lia.
Qed.

Lemma int32_of_small x : 0 <= x < 2 ^ 31 -> int32_of x = x.
Proof. intros Hx. apply sext_small; simpl in *; lia. Qed.

(** Reading a [uint32] as [int32] changes it by a multiple of [2^32]. *)
Lemma wrap32_int32_of x y : wrap32 (int32_of x + y) = wrap32 (x + y).
Proof.
  unfold int32_of, sext, wrap32, wrap.
  destruct (Z.ltb_spec (x mod 2 ^ 32) (2 ^ (32 - 1))).
  - apply Zplus_mod_idemp_l.
  - replace (x mod 2 ^ 32 - 2 ^ 32 + y) with ((x mod 2 ^ 32 + y) + (-1) * 2 ^ 32) by ring.
    rewrite Z_mod_plus_full. apply Zplus_mod_idemp_l.
Qed.

Lemma wrap32_int32_of0 x : wrap32 (int32_of x) = wrap32 x.
Proof.
  rewrite <- (Z.add_0_r (int32_of x)). rewrite wrap32_int32_of.
  rewrite Z.add_0_r. reflexivity.
Qed.


(** ** Arrays *)

Lemma aget_Done {A : Type} (a : list A) (i : Z) (x : A) :
  aget a i = Done x <-> 0 <= i /\ a !! Z.to_nat i = Some x.
Proof.
  unfold aget. destruct (Z.ltb_spec i 0) as [Hneg | Hpos]; simpl.
  - split; [discriminate | intros [Hi _]; lia].
  - destruct (Z.leb_spec (Z.of_nat (length a)) i) as [Hge | Hlt].
    + split; [discriminate |]. intros [_ Hx]. apply lookup_lt_Some in Hx. lia.
    + destruct (a !! Z.to_nat i); split.
      * intros Heq. inversion Heq. auto.
      * intros [_ Heq]. congruence.
      * discriminate.
      * intros [_ Heq]. discriminate.
Qed.

Lemma aget_nat {A : Type} (a : list A) (k : nat) (x : A) :
  aget a (Z.of_nat k) = Done x <-> a !! k = Some x.
Proof.
  rewrite aget_Done, Nat2Z.id. split; [intros [_ Hk]; exact Hk | intros Hk; split; [lia | exact Hk]].
Qed.

Lemma aget_lt {A : Type} (a : list A) (i : Z) (x : A) :
  aget a i = Done x -> 0 <= i < Z.of_nat (length a).
Proof.
  intros Hg. apply aget_Done in Hg. destruct Hg as [Hi Hg].
  apply lookup_lt_Some in Hg. lia.
Qed.

Lemma aset_Done {A : Type} (a a' : list A) (i : Z) (x : A) :
  aset a i x = Done a' <->
  0 <= i /\ (Z.to_nat i < length a)%nat /\ a' = <[Z.to_nat i := x]> a.
Proof.
  unfold aset. destruct (Z.ltb_spec i 0) as [Hneg | Hpos]; simpl.
  { split; [discriminate | intros [Hi _]; lia]. }
  destruct (Z.leb_spec (Z.of_nat (length a)) i) as [Hge | Hlt]; split.
  - discriminate.
  - intros (_ & Hlt & _). lia.
  - intros Heq. inversion Heq. repeat split; [exact Hpos | lia].
  - intros (_ & _ & ->). reflexivity.
Qed.

Lemma aset_nat {A : Type} (a : list A) (k : nat) (x : A) :
  (k < length a)%nat -> aset a (Z.of_nat k) x = Done (<[k := x]> a).
Proof.
  intros Hk. apply aset_Done. rewrite Nat2Z.id. split; [lia | split; [exact Hk | reflexivity]].
Qed.

Section Properties.

Context `{DoubleOps}.

(** ** [populate] *)



(** ** [ESToverlapSpan] *)

(** C6, amended.  The coordinates are the four formulas reduced to unsigned
    32 bits, for every record and every pair of lengths; they are the
    formulas themselves as soon as each formula's value is representable,
    that is for hangs that do not reach past the reads ([- b_hang <= lenA]
    when [b_hang < 0], [b_hang <= lenB] otherwise; lengths below [2^31]). *)
Theorem span_of_coordinates (ovl : ESToverlap) (lenA lenB : Z) :
  fits_signed 17 (a_hang ovl) ->
  fits_signed 17 (b_hang ovl) ->
  let sp := span_of ovl (int32_of lenA) (int32_of lenB) in
  (a_beg sp = formula_a_beg (a_hang ovl)
   /\ a_end sp = formula_a_end (b_hang ovl) lenA mod 2 ^ 32
   /\ b_beg sp = formula_b_beg (a_hang ovl)
   /\ b_end sp = formula_b_end (b_hang ovl) lenB mod 2 ^ 32)
  /\ (0 <= lenA < 2 ^ 31 -> 0 <= lenB < 2 ^ 31 ->
      - b_hang ovl <= lenA -> b_hang ovl <= lenB ->
      a_end sp = formula_a_end (b_hang ovl) lenA
      /\ b_end sp = formula_b_end (b_hang ovl) lenB).
Proof.
  intros [Hal Hah] [Hbl Hbh] sp. simpl in Hal, Hah, Hbl, Hbh.
  assert (Hae : a_end sp = formula_a_end (b_hang ovl) lenA mod 2 ^ 32).
  { unfold sp, span_of, formula_a_end. simpl a_end.
    destruct (b_hang ovl <? 0).
    - apply wrap32_int32_of.
    - apply wrap32_int32_of0. }
  assert (Hbe : b_end sp = formula_b_end (b_hang ovl) lenB mod 2 ^ 32).
  { unfold sp, span_of, formula_b_end. simpl b_end.
    destruct (b_hang ovl <? 0).
    - apply wrap32_int32_of0.
    - unfold Z.sub. apply wrap32_int32_of. }
  split; [split; [| split; [| split]] |].
  - unfold sp, span_of, formula_a_beg. simpl a_beg.
    apply wrap32_small. destruct (Z.ltb_spec (a_hang ovl) 0); lia.
  - exact Hae.
  - unfold sp, span_of, formula_b_beg. simpl b_beg.
    apply wrap32_small. destruct (Z.ltb_spec (a_hang ovl) 0); lia.
  - exact Hbe.
  - intros HlenA HlenB HA HB. split.
    + rewrite Hae. apply Z.mod_small. unfold formula_a_end.
      destruct (Z.ltb_spec (b_hang ovl) 0); lia.
    + rewrite Hbe. apply Z.mod_small. unfold formula_b_end.
      destruct (Z.ltb_spec (b_hang ovl) 0); lia.
Qed.

(** ** [computeEstimatedErate] *)

Lemma half_sum_range a b :
  0 <= a < 2 ^ 32 -> 0 <= b < 2 ^ 32 -> wrap64 (a / 2 + b / 2) = a / 2 + b / 2.
Proof.
  intros Ha Hb. apply wrap_small.
  assert (0 <= a / 2 < 2 ^ 32) by (split; [apply Z.div_pos; lia | apply Z.div_lt_upper_bound; lia]).
  assert (0 <= b / 2 < 2 ^ 32) by (split; [apply Z.div_pos; lia | apply Z.div_lt_upper_bound; lia]).
  change (2 ^ 64) with (2 ^ 32 * 2 ^ 32). nia.
Qed.

Lemma halves_even a b :
  Z.even a || Z.even b = true -> a / 2 + b / 2 = (a + b) / 2.
Proof.
  intros Hev.
  pose proof (Z.div_mod a 2 ltac:(lia)) as Ha.
  pose proof (Z.div_mod b 2 ltac:(lia)) as Hb.
  pose proof (Z.div_mod (a + b) 2 ltac:(lia)) as Hab.
  pose proof (Z.mod_pos_bound (a + b) 2 ltac:(lia)) as Hr.
  rewrite Zmod_even in Ha, Hb.
  destruct (Z.even a), (Z.even b); try discriminate; lia.
Qed.

Lemma halves_odd a b :
  Z.odd a && Z.odd b = true -> a / 2 + b / 2 = (a + b) / 2 - 1.
Proof.
  intros Hodd. apply andb_true_iff in Hodd. destruct Hodd as [Hoa Hob].
  pose proof (Z.div_mod a 2 ltac:(lia)) as Ha.
  pose proof (Z.div_mod b 2 ltac:(lia)) as Hb.
  pose proof (Z.div_mod (a + b) 2 ltac:(lia)) as Hab.
  pose proof (Z.mod_pos_bound (a + b) 2 ltac:(lia)) as Hr.
  rewrite Zmod_odd in Ha, Hb. rewrite Hoa in Ha. rewrite Hob in Hb. lia.
Qed.

(** C2, amended.  When both spans are non-empty and the four cells of the
    summed-error arrays exist, the estimate is the decoded sum of the two
    halved range sums, each range sum being the 32-bit difference
    [errorMeanS[end] - errorMeanS[begin]] and each halving an integer
    division; this is the decoded half of the sum of the two range sums
    when at least one of them is even, and one quantum less than that when
    both are odd. *)
Theorem computeEstimatedErate_value (iidMin : Z) (ovl : ESToverlapSpan)
    (rp : list readErrorEstimate) (pa pb : readErrorEstimate) (sae sab sbe sbb : Z) :
  aget rp (wrap32 (span_a_iid ovl - iidMin)) = Done pa ->
  aget rp (wrap32 (span_b_iid ovl - iidMin)) = Done pb ->
  aget (errorMeanS pa) (a_end ovl) = Done sae ->
  aget (errorMeanS pa) (a_beg ovl) = Done sab ->
  aget (errorMeanS pb) (b_end ovl) = Done sbe ->
  aget (errorMeanS pb) (b_beg ovl) = Done sbb ->
  a_beg ovl < a_end ovl ->
  b_beg ovl < b_end ovl ->
  let sumA := wrap32 (sae - sab) in
  let sumB := wrap32 (sbe - sbb) in
  computeEstimatedErate iidMin ovl rp = Done (AS_OVS_decodeEvalue (sumA / 2 + sumB / 2))
  /\ (Z.even sumA || Z.even sumB = true ->
      computeEstimatedErate iidMin ovl rp = Done (formula_estimate sumA sumB))
  /\ (Z.odd sumA && Z.odd sumB = true ->
      computeEstimatedErate iidMin ovl rp
      = Done (AS_OVS_decodeEvalue ((sumA + sumB) / 2 - 1))).
Proof.
  intros Hpa Hpb Hsae Hsab Hsbe Hsbb Ha Hb sumA sumB.
  assert (Hval : computeEstimatedErate iidMin ovl rp
                 = Done (AS_OVS_decodeEvalue (sumA / 2 + sumB / 2))).
  { unfold computeEstimatedErate.
    destruct (Z.ltb_spec (a_beg ovl) (a_end ovl)) as [_ | Hge]; [| lia].
    rewrite Hpa. simpl. rewrite Hsae. simpl. rewrite Hsab. simpl.
    destruct (Z.ltb_spec (b_beg ovl) (b_end ovl)) as [_ | Hge]; [| lia].
    rewrite Hpb. simpl. rewrite Hsbe. simpl. rewrite Hsbb. simpl.
    rewrite half_sum_range by apply wrap32_range. reflexivity. }
  split; [exact Hval |]. split.
  - intros Hev. rewrite Hval. unfold formula_estimate.
    rewrite (halves_even _ _ Hev). reflexivity.
  - intros Hodd. rewrite Hval. rewrite (halves_odd _ _ Hodd). reflexivity.
Qed.

(** ** The rebuild of the summed-error array *)

Lemma foldr_add_snoc (l : list Z) (x : Z) :
  foldr Z.add 0 (l ++ [x]) = foldr Z.add 0 l + x.
Proof. induction l as [| y l IH]; simpl; [lia | rewrite IH; lia]. Qed.

Lemma sumU_0 (u : list Z) : sumU u 0 = 0.
Proof. reflexivity. Qed.

Lemma sumU_S (u : list Z) (k : nat) (x : Z) :
  u !! k = Some x -> sumU u (S k) = sumU u k + x.
Proof.
  intros Hk. unfold sumU. rewrite (take_S_r u k x Hk). apply foldr_add_snoc.
Qed.

Lemma sumU_mono (u : list Z) (i j : nat) :
  Forall (fun x => 0 <= x) u -> (i <= j)%nat -> sumU u i <= sumU u j.
Proof.
  intros Hpos Hij. induction Hij as [| j Hij IH]; [lia |].
  destruct (u !! j) as [x |] eqn:Hj.
  - rewrite (sumU_S u j x Hj).
    assert (0 <= x) by (eapply (proj1 (Forall_lookup _ u) Hpos); exact Hj). lia.
  - unfold sumU in *. apply lookup_ge_None in Hj.
    rewrite (take_ge u (S j)) by lia. rewrite (take_ge u j) in IH by lia. exact IH.
Qed.

Lemma sumLoop_spec (u : list Z) (n : nat) :
  forall (m : nat) (s : list Z),
    (1 <= m)%nat -> (m + n <= length u)%nat -> (m + n <= length s)%nat ->
    exists s',
      sumLoop n (Z.of_nat m) u s = Done s'
      /\ length s' = length s
      /\ (forall k : nat, (k < m)%nat \/ (m + n <= k)%nat -> s' !! k = s !! k)
      /\ (s !! (m - 1)%nat = Some (wrap32 (sumU u m)) ->
          forall k : nat, (m <= k < m + n)%nat ->
            s' !! k = Some (wrap32 (sumU u (S k)))).
Proof.
  induction n as [| n IH]; intros m s Hm Hu Hs.
  - exists s. simpl. repeat split; try reflexivity. intros _ k Hk. lia.
  - simpl sumLoop.
    destruct (lookup_lt_is_Some_2 s (m - 1)) as [prev Hprev]; [lia |].
    destruct (lookup_lt_is_Some_2 u m) as [x Hx]; [lia |].
    assert (Hg1 : aget s (Z.of_nat m - 1) = Done prev).
    { replace (Z.of_nat m - 1) with (Z.of_nat (m - 1)) by lia. apply aget_nat. exact Hprev. }
    assert (Hg2 : aget u (Z.of_nat m) = Done x) by (apply aget_nat; exact Hx).
    rewrite Hg1. simpl. rewrite Hg2. simpl.
    set (s1 := <[m := wrap32 (prev + x)]> s).
    assert (Hset : aset s (Z.of_nat m) (wrap32 (prev + x)) = Done s1).
    { apply aset_nat. lia. }
    rewrite Hset. simpl.
    assert (Hlen1 : length s1 = length s) by apply length_insert.
    destruct (IH (S m) s1) as (s' & Hrun & Hlen & Hout & Hin); [lia | lia | lia |].
    exists s'. replace (Z.of_nat m + 1) with (Z.of_nat (S m)) by lia.
    split; [exact Hrun |]. split; [lia |]. split.
    + intros k Hk. rewrite Hout by lia. unfold s1. apply list_lookup_insert_ne. lia.
    + intros Hinv k Hk.
      assert (Hm1 : s1 !! m = Some (wrap32 (sumU u (S m)))).
      { unfold s1. rewrite list_lookup_insert_eq by lia.
        rewrite Hinv in Hprev. inversion Hprev; subst prev.
        rewrite (sumU_S u m x Hx). rewrite wrap32_add_l. reflexivity. }
      destruct (Nat.eq_dec k m) as [-> | Hne].
      * rewrite Hout by lia. exact Hm1.
      * apply Hin; [| lia]. replace (S m - 1)%nat with m by lia. exact Hm1.
Qed.

Lemma wf_profile_spec (p : readErrorEstimate) :
  wf_profile_b p = true ->
  0 <= seqLen p < 2 ^ 31
  /\ Z.of_nat (length (errorMeanS p)) = seqLen p + 1
  /\ Z.of_nat (length (errorMeanU p)) = seqLen p + 1
  /\ Forall (fun x => 0 <= x < 2 ^ 16) (errorMeanU p).
Proof.
  unfold wf_profile_b. rewrite !andb_true_iff.
  intros ((((H0 & H1) & H2) & H3) & H4).
  apply Z.leb_le in H0. apply Z.ltb_lt in H1.
  apply Z.eqb_eq in H2. apply Z.eqb_eq in H3.
  repeat split; try assumption.
  apply Forall_forall. intros x Hx.
  apply list_elem_of_In in Hx.
  pose proof (proj1 (forallb_forall _ _) H4 x Hx) as Hb.
  apply andb_true_iff in Hb. destruct Hb as [Hb1 Hb2].
  apply Z.leb_le in Hb1. apply Z.ltb_lt in Hb2. lia.
Qed.

(** One turn of the second loop, on a read that is not deleted and whose
    arrays have [seqLen + 1] cells: it succeeds and leaves in
    [errorMeanS[i]], for [i < seqLen], the 32-bit sum of
    [errorMeanU[0 .. i]]. *)
Lemma rebuildSum_spec (p : readErrorEstimate) :
  wf_profile_b p = true ->
  seqLen p <> 0 ->
  exists s',
    rebuildSum p = Done (set_errorMeanS p s')
    /\ length s' = length (errorMeanS p)
    /\ s' !! 0%nat = errorMeanU p !! 0%nat
    /\ (forall i : nat, Z.of_nat i < seqLen p ->
          s' !! i = Some (wrap32 (sumU (errorMeanU p) (S i))))
    /\ (sumU (errorMeanU p) (Z.to_nat (seqLen p)) < 2 ^ 32 ->
        forall i j : nat, (i <= j)%nat -> Z.of_nat j < seqLen p ->
          exists x y,
            s' !! i = Some x /\ s' !! j = Some y /\ x <= y
            /\ y - x = sumU (errorMeanU p) (S j) - sumU (errorMeanU p) (S i)).
Proof.
  intros Hwf Hlen.
  destruct (wf_profile_spec p Hwf) as (Hrange & HlenS & HlenU & HU).
  unfold rebuildSum.
  destruct (Z.eqb_spec (seqLen p) 0) as [Hz | _]; [contradiction |].
  destruct (lookup_lt_is_Some_2 (errorMeanU p) 0) as [u0 Hu0]; [lia |].
  assert (Hg : aget (errorMeanU p) 0 = Done u0) by (apply (aget_nat _ 0); exact Hu0).
  rewrite Hg. simpl obind.
  set (s0 := <[0%nat := u0]> (errorMeanS p)).
  assert (Hs0 : aset (errorMeanS p) 0 u0 = Done s0).
  { apply (aset_nat _ 0). lia. }
  rewrite Hs0. simpl obind.
  assert (Hu0r : 0 <= u0 < 2 ^ 16).
  { eapply (proj1 (Forall_lookup _ _) HU). exact Hu0. }
  assert (Hlen0 : length s0 = length (errorMeanS p)) by apply length_insert.
  destruct (sumLoop_spec (errorMeanU p) (Z.to_nat (seqLen p - 1)) 1 s0)
    as (s' & Hrun & Hlen' & Hout & Hin); [lia | lia | lia |].
  change (Z.of_nat 1) with 1 in Hrun. rewrite Hrun. simpl obind.
  assert (Hinv : s0 !! (1 - 1)%nat = Some (wrap32 (sumU (errorMeanU p) 1))).
  { simpl. unfold s0. rewrite list_lookup_insert_eq by lia.
    rewrite (sumU_S _ 0 u0 Hu0), sumU_0. simpl.
    rewrite wrap32_small by (simpl in *; lia). reflexivity. }
  assert (Hcells : forall i : nat, Z.of_nat i < seqLen p ->
            s' !! i = Some (wrap32 (sumU (errorMeanU p) (S i)))).
  { intros i Hi. destruct i as [| i].
    - rewrite Hout by lia. exact Hinv.
    - apply (Hin Hinv). lia. }
  exists s'. split; [reflexivity |]. split; [lia |]. split.
  { rewrite Hout by lia. unfold s0. rewrite list_lookup_insert_eq by lia.
    symmetry. exact Hu0. }
  split; [exact Hcells |].
  intros Htot i j Hij Hj.
  assert (Hpos : Forall (fun x => 0 <= x) (errorMeanU p)).
  { eapply Forall_impl; [exact HU |]. simpl. intros x Hx. lia. }
  assert (Hb : forall k : nat, Z.of_nat k < seqLen p ->
            0 <= sumU (errorMeanU p) (S k) < 2 ^ 32).
  { intros k Hk. split.
    - rewrite <- (sumU_0 (errorMeanU p)). apply sumU_mono; [exact Hpos | lia].
    - eapply Z.le_lt_trans; [| exact Htot]. apply sumU_mono; [exact Hpos | lia]. }
  exists (sumU (errorMeanU p) (S i)), (sumU (errorMeanU p) (S j)).
  split; [| split; [| split]].
  - rewrite Hcells by lia. rewrite wrap32_small by (apply Hb; lia). reflexivity.
  - rewrite Hcells by lia. rewrite wrap32_small by (apply Hb; lia). reflexivity.
  - apply sumU_mono; [exact Hpos | lia].
  - reflexivity.
Qed.

(** The loop stops at [seqLen - 1]: the last cell keeps what it held. *)
Lemma rebuildSum_last_cell (p p' : readErrorEstimate) :
  wf_profile_b p = true ->
  rebuildSum p = Done p' ->
  errorMeanS p' !! Z.to_nat (seqLen p) = errorMeanS p !! Z.to_nat (seqLen p).
Proof.
  intros Hwf Hrun.
  destruct (wf_profile_spec p Hwf) as (Hrange & HlenS & HlenU & HU).
  unfold rebuildSum in Hrun.
  destruct (Z.eqb_spec (seqLen p) 0) as [Hz | Hnz].
  { inversion Hrun. reflexivity. }
  destruct (aget (errorMeanU p) 0) as [u0 | |] eqn:Hg; try discriminate.
  simpl in Hrun.
  destruct (aset (errorMeanS p) 0 u0) as [s0 | |] eqn:Hs0; try discriminate.
  simpl in Hrun. apply aset_Done in Hs0. destruct Hs0 as (_ & _ & ->).
  destruct (sumLoop_spec (errorMeanU p) (Z.to_nat (seqLen p - 1)) 1
              (<[Z.to_nat 0 := u0]> (errorMeanS p)))
    as (s' & Hrun' & Hlen' & Hout & _);
    [lia | lia | rewrite length_insert; lia |].
  change (Z.of_nat 1) with 1 in Hrun'. rewrite Hrun' in Hrun. simpl in Hrun.
  inversion Hrun. simpl. rewrite Hout by lia.
  apply list_lookup_insert_ne. simpl. lia.
Qed.

(** ** The loop over the overlaps of a read *)

Lemma set_discarded_id (o : ESToverlap) :
  discarded o = true -> set_discarded o = o.
Proof. destruct o; simpl; intros ->; reflexivity. Qed.

Lemma set_discarded_neq (o : ESToverlap) :
  discarded o = false -> set_discarded o <> o.
Proof. intros Hd Heq. rewrite <- Heq in Hd. simpl in Hd. discriminate. Qed.

Lemma overlapStep_examine iidMin rp iter iid oo (acc : list ESToverlap * list ilEntry) :
  overlapStep iidMin rp iter iid oo acc =
  (let! o := aget (fst acc) oo in
   let! v := examine iidMin rp iter iid o in
   Done (applyVerdict oo o v acc)).
Proof.
  destruct acc as [ovs el]. unfold overlapStep, examine. simpl fst. simpl snd.
  destruct (aget ovs oo) as [o | |]; simpl; try reflexivity.
  destruct (discarded o); simpl; [reflexivity |].
  destruct (mkSpan o rp iidMin) as [ovl | |]; simpl; try reflexivity.
  destruct (span_a_iid ovl =? wrap32 (iid + iidMin)); [| reflexivity].
  destruct (a_beg ovl <=? a_end ovl); [| reflexivity].
  destruct (0 <? iter).
  - destruct (computeEstimatedErate iidMin ovl rp) as [est | |]; simpl; try reflexivity.
    destruct (double_ltb _ _); reflexivity.
  - reflexivity.
Qed.

Lemma mkSpan_fields (o : ESToverlap) rp iidMin (ovl : ESToverlapSpan) :
  mkSpan o rp iidMin = Done ovl ->
  span_a_iid ovl = a_iid o /\ span_b_iid ovl = b_iid o /\ span_erate ovl = erate o
  /\ 0 <= a_beg ovl < 2 ^ 32 /\ 0 <= a_end ovl < 2 ^ 32
  /\ 0 <= b_beg ovl < 2 ^ 32 /\ 0 <= b_end ovl < 2 ^ 32.
Proof.
  unfold mkSpan. intros Hmk.
  destruct (aget rp (wrap32 (a_iid o - iidMin))) as [pa | |]; try discriminate.
  destruct (aget rp (wrap32 (b_iid o - iidMin))) as [pb | |]; try discriminate.
  simpl in Hmk. inversion Hmk. unfold span_of. simpl.
  repeat split; try reflexivity; apply wrap32_range.
Qed.

Lemma spanEntry_contribution (o : ESToverlap) rp iidMin (ovl : ESToverlapSpan) :
  mkSpan o rp iidMin = Done ovl ->
  a_beg ovl <= a_end ovl ->
  contribution iidMin rp o (spanEntry ovl).
Proof.
  intros Hmk Hle. exists ovl. split; [exact Hmk |].
  destruct (mkSpan_fields _ _ _ _ Hmk) as (_ & _ & He & Hab & Hae & _).
  unfold spanEntry. rewrite He. f_equal.
  rewrite (wrap32_small (a_end ovl - a_beg ovl)) by lia.
  rewrite wrap32_small by lia. ring.
Qed.

Lemma computeEstimatedErate_strict iidMin (ovl : ESToverlapSpan) rp est :
  computeEstimatedErate iidMin ovl rp = Done est ->
  a_beg ovl < a_end ovl /\ b_beg ovl < b_end ovl.
Proof.
  unfold computeEstimatedErate. intros Hrun.
  destruct (Z.ltb_spec (a_beg ovl) (a_end ovl)) as [Ha | _]; [| discriminate].
  destruct (aget rp (wrap32 (span_a_iid ovl - iidMin))) as [pa | |]; try discriminate.
  simpl in Hrun.
  destruct (aget (errorMeanS pa) (a_end ovl)); try discriminate. simpl in Hrun.
  destruct (aget (errorMeanS pa) (a_beg ovl)); try discriminate. simpl in Hrun.
  destruct (Z.ltb_spec (b_beg ovl) (b_end ovl)) as [Hb | _]; [| discriminate].
  split; assumption.
Qed.

(** What each verdict of [examine] means. *)
Lemma examine_Skip iidMin rp iter iid (o : ESToverlap) :
  examine iidMin rp iter iid o = Done Skip <-> discarded o = true.
Proof.
  unfold examine. destruct (discarded o); split; try reflexivity; try discriminate.
  intros Hrun.
  destruct (mkSpan o rp iidMin) as [ovl | |]; try discriminate. simpl in Hrun.
  destruct (span_a_iid ovl =? wrap32 (iid + iidMin)); [| discriminate].
  destruct (a_beg ovl <=? a_end ovl); [| discriminate].
  destruct (0 <? iter); [| discriminate].
  destruct (computeEstimatedErate iidMin ovl rp); try discriminate. simpl in Hrun.
  destruct (double_ltb _ _); discriminate.
Qed.

Lemma examine_Discard iidMin rp iter iid (o : ESToverlap) :
  examine iidMin rp iter iid o = Done Discard ->
  discarded o = false /\ 0 < iter /\ judgedInconsistent iidMin rp o
  /\ a_iid o = wrap32 (iid + iidMin)
  /\ exists ovl, mkSpan o rp iidMin = Done ovl
                 /\ a_beg ovl < a_end ovl /\ b_beg ovl < b_end ovl.
Proof.
  unfold examine. destruct (discarded o); [discriminate |]. intros Hrun.
  destruct (mkSpan o rp iidMin) as [ovl | |] eqn:Hmk; try discriminate. simpl in Hrun.
  destruct (Z.eqb_spec (span_a_iid ovl) (wrap32 (iid + iidMin))) as [Hid |]; [| discriminate].
  destruct (a_beg ovl <=? a_end ovl); [| discriminate].
  destruct (Z.ltb_spec 0 iter) as [Hit |]; [| discriminate].
  destruct (computeEstimatedErate iidMin ovl rp) as [est | |] eqn:Hest; try discriminate.
  simpl in Hrun.
  destruct (double_ltb _ _) eqn:Hlt; [| discriminate].
  destruct (mkSpan_fields _ _ _ _ Hmk) as (Ha & _ & He & _).
  split; [reflexivity |]. split; [exact Hit |]. split.
  - exists ovl, est. rewrite <- He. auto.
  - split; [congruence |]. exists ovl. split; [reflexivity |].
    eapply computeEstimatedErate_strict. exact Hest.
Qed.

Lemma examine_Keep iidMin rp iter iid (o : ESToverlap) (e : ilEntry) :
  examine iidMin rp iter iid o = Done (Keep e) ->
  discarded o = false
  /\ a_iid o = wrap32 (iid + iidMin)
  /\ contribution iidMin rp o e
  /\ ~ (0 < iter /\ judgedInconsistent iidMin rp o)
  /\ exists ovl, mkSpan o rp iidMin = Done ovl
                 /\ a_beg ovl <= a_end ovl
                 /\ (0 < iter ->
                     exists est, computeEstimatedErate iidMin ovl rp = Done est).
Proof.
  unfold examine. destruct (discarded o); [discriminate |]. intros Hrun.
  destruct (mkSpan o rp iidMin) as [ovl | |] eqn:Hmk; try discriminate. simpl in Hrun.
  destruct (Z.eqb_spec (span_a_iid ovl) (wrap32 (iid + iidMin))) as [Hid |]; [| discriminate].
  destruct (Z.leb_spec (a_beg ovl) (a_end ovl)) as [Hle |]; [| discriminate].
  destruct (mkSpan_fields _ _ _ _ Hmk) as (Ha & _ & He & _).
  assert (Hnot : forall est, computeEstimatedErate iidMin ovl rp = Done est ->
            double_ltb (double_add est ERATE_TOLERANCE)
              (AS_OVS_decodeEvalue (span_erate ovl)) = false ->
            ~ judgedInconsistent iidMin rp o).
  { intros est Hest Hlt (ovl' & est' & Hmk' & Hest' & Hlt').
    rewrite Hmk in Hmk'. inversion Hmk'; subst ovl'.
    rewrite Hest in Hest'. inversion Hest'; subst est'.
    rewrite He in Hlt. congruence. }
  destruct (Z.ltb_spec 0 iter) as [Hit | Hit].
  - destruct (computeEstimatedErate iidMin ovl rp) as [est | |] eqn:Hest; try discriminate.
    simpl in Hrun.
    destruct (double_ltb _ _) eqn:Hlt; [discriminate |].
    inversion Hrun; subst e.
    split; [reflexivity |]. split; [congruence |].
    split; [apply spanEntry_contribution; assumption |].
    split; [intros [_ Hj]; exact (Hnot est eq_refl Hlt Hj) |].
    exists ovl. split; [reflexivity |]. split; [exact Hle |].
    intros _. exists est. exact Hest.
  - inversion Hrun; subst e.
    split; [reflexivity |]. split; [congruence |].
    split; [apply spanEntry_contribution; assumption |].
    split; [intros [Hpos _]; lia |].
    exists ovl. split; [reflexivity |]. split; [exact Hle |]. intros Hpos. lia.
Qed.

Lemma scanOverlaps_spec iidMin rp iter iid (n : nat) :
  forall (oo : nat) (ovs : list ESToverlap) (el : list ilEntry) ovs' el',
    scanOverlaps iidMin rp iter iid n (Z.of_nat oo) (ovs, el) = Done (ovs', el') ->
    length ovs' = length ovs
    /\ (forall k : nat, (k < oo)%nat \/ (oo + n <= k)%nat -> ovs' !! k = ovs !! k)
    /\ (forall k : nat, (oo <= k < oo + n)%nat ->
          exists o v, ovs !! k = Some o
                      /\ examine iidMin rp iter iid o = Done v
                      /\ ovs' !! k = Some (flagged o v))
    /\ exists added,
         el' = el ++ added
         /\ Forall2 (contribution iidMin rp)
              (List.filter notDiscarded (take n (drop oo ovs'))) added.
Proof.
  induction n as [| n IH]; intros oo ovs el ovs' el' Hrun.
  - simpl in Hrun. inversion Hrun; subst ovs' el'.
    split; [reflexivity |]. split; [reflexivity |]. split; [intros k Hk; lia |].
    exists []. rewrite app_nil_r. split; [reflexivity |]. simpl. constructor.
  - simpl in Hrun. rewrite overlapStep_examine in Hrun. simpl fst in Hrun.
    destruct (aget ovs (Z.of_nat oo)) as [o | |] eqn:Hget; try discriminate.
    apply aget_nat in Hget.
    simpl in Hrun.
    destruct (examine iidMin rp iter iid o) as [v | |] eqn:Hex; try discriminate.
    simpl in Hrun.
    replace (Z.of_nat oo + 1) with (Z.of_nat (S oo)) in Hrun by lia.
    destruct (applyVerdict (Z.of_nat oo) o v (ovs, el)) as [ovs1 el1] eqn:Happ.
    destruct (IH (S oo) ovs1 el1 ovs' el' Hrun) as (Hlen & Hframe & Hrange & added & Hel & Hadd).
    assert (Hovs1 : ovs1 = match v with
                           | Discard => <[oo := set_discarded o]> ovs
                           | _ => ovs
                           end).
    { destruct v; simpl in Happ; inversion Happ; try reflexivity.
      rewrite Nat2Z.id. reflexivity. }
    assert (Hel1 : el1 = match v with Keep e => el ++ [e] | _ => el end).
    { destruct v; simpl in Happ; inversion Happ; reflexivity. }
    assert (Hlen1 : length ovs1 = length ovs).
    { rewrite Hovs1. destruct v; try reflexivity. apply length_insert. }
    assert (Hother : forall k : nat, k <> oo -> ovs1 !! k = ovs !! k).
    { intros k Hk. rewrite Hovs1. destruct v; try reflexivity.
      apply list_lookup_insert_ne. lia. }
    assert (Hat : ovs1 !! oo = Some (flagged o v)).
    { rewrite Hovs1. destruct v; simpl; try exact Hget.
      apply list_lookup_insert_eq. eapply lookup_lt_Some. exact Hget. }
    assert (Hat' : ovs' !! oo = Some (flagged o v)).
    { rewrite Hframe by lia. exact Hat. }
    split; [lia |]. split; [| split].
    + intros k Hk. rewrite Hframe by lia. apply Hother. lia.
    + intros k Hk. destruct (Nat.eq_dec k oo) as [-> | Hne].
      * exists o, v. auto.
      * destruct (Hrange k) as (o2 & v2 & Ho2 & Hv2 & Hk2); [lia |].
        exists o2, v2. rewrite <- (Hother k Hne). auto.
    + rewrite (drop_S ovs' (flagged o v) oo Hat'). simpl take. simpl List.filter.
      destruct v as [| | e]; simpl flagged; unfold notDiscarded at 1.
      * apply examine_Skip in Hex. rewrite Hex. simpl.
        exists added. subst el1. auto.
      * simpl. exists added. subst el1. auto.
      * destruct (examine_Keep _ _ _ _ _ _ Hex) as (Hd & _ & Hc & _).
        rewrite Hd. simpl. exists (e :: added). split.
        -- rewrite Hel, Hel1. rewrite <- app_assoc. reflexivity.
        -- constructor; assumption.
Qed.

(** ** What the first loop reads of the profiles *)

Lemma sameSums_refl rp : sameSums rp rp.
Proof. reflexivity. Qed.

Lemma sameSums_trans rp1 rp2 rp3 :
  sameSums rp1 rp2 -> sameSums rp2 rp3 -> sameSums rp1 rp3.
Proof. unfold sameSums. congruence. Qed.

Lemma sameSums_aget rp rp' (i : Z) :
  sameSums rp rp' ->
  match aget rp i, aget rp' i with
  | Done p, Done p' => sums p = sums p'
  | Undefined, Undefined => True
  | _, _ => False
  end.
Proof.
  intros Hs. unfold aget.
  assert (Hlen : length rp = length rp').
  { rewrite <- (length_map sums rp), <- (length_map sums rp'). rewrite Hs. reflexivity. }
  rewrite Hlen.
  destruct ((i <? 0) || (Z.of_nat (length rp') <=? i)); [exact I |].
  assert (Hl : sums <$> (rp !! Z.to_nat i) = sums <$> (rp' !! Z.to_nat i)).
  { rewrite <- !list_lookup_fmap. unfold sameSums in Hs.
    change (map sums rp) with (sums <$> rp) in Hs.
    change (map sums rp') with (sums <$> rp') in Hs. rewrite Hs. reflexivity. }
  destruct (rp !! Z.to_nat i), (rp' !! Z.to_nat i); simpl in Hl;
    try discriminate; [congruence | exact I].
Qed.

Lemma sameSums_insert rp (i : nat) (p : readErrorEstimate) (u : list Z) :
  rp !! i = Some p -> sameSums rp (<[i := set_errorMeanU p u]> rp).
Proof.
  intros Hp. unfold sameSums.
  change (map sums rp) with (sums <$> rp).
  change (map sums (<[i := set_errorMeanU p u]> rp)) with (sums <$> <[i := set_errorMeanU p u]> rp).
  rewrite list_fmap_insert. change (sums (set_errorMeanU p u)) with (sums p).
  symmetry. apply list_insert_id. rewrite list_lookup_fmap, Hp. reflexivity.
Qed.

Lemma mkSpan_sameSums (o : ESToverlap) rp rp' iidMin :
  sameSums rp rp' -> mkSpan o rp iidMin = mkSpan o rp' iidMin.
Proof.
  intros Hs. unfold mkSpan.
  pose proof (sameSums_aget rp rp' (wrap32 (a_iid o - iidMin)) Hs) as Ha.
  pose proof (sameSums_aget rp rp' (wrap32 (b_iid o - iidMin)) Hs) as Hb.
  destruct (aget rp (wrap32 (a_iid o - iidMin))) as [pa | |],
           (aget rp' (wrap32 (a_iid o - iidMin))) as [pa' | |];
    try contradiction; try reflexivity.
  simpl.
  destruct (aget rp (wrap32 (b_iid o - iidMin))) as [pb | |],
           (aget rp' (wrap32 (b_iid o - iidMin))) as [pb' | |];
    try contradiction; try reflexivity.
  simpl. unfold sums in Ha, Hb. inversion Ha. inversion Hb. congruence.
Qed.

Lemma computeEstimatedErate_sameSums iidMin (ovl : ESToverlapSpan) rp rp' :
  sameSums rp rp' ->
  computeEstimatedErate iidMin ovl rp = computeEstimatedErate iidMin ovl rp'.
Proof.
  intros Hs. unfold computeEstimatedErate.
  pose proof (sameSums_aget rp rp' (wrap32 (span_a_iid ovl - iidMin)) Hs) as Ha.
  pose proof (sameSums_aget rp rp' (wrap32 (span_b_iid ovl - iidMin)) Hs) as Hb.
  destruct (a_beg ovl <? a_end ovl); [| reflexivity].
  destruct (aget rp (wrap32 (span_a_iid ovl - iidMin))) as [pa | |],
           (aget rp' (wrap32 (span_a_iid ovl - iidMin))) as [pa' | |];
    try contradiction; try reflexivity.
  simpl. unfold sums in Ha. inversion Ha as [[Hlen HS]]. rewrite HS.
  destruct (aget (errorMeanS pa') (a_end ovl)); try reflexivity. simpl.
  destruct (aget (errorMeanS pa') (a_beg ovl)); try reflexivity. simpl.
  destruct (b_beg ovl <? b_end ovl); [| reflexivity].
  destruct (aget rp (wrap32 (span_b_iid ovl - iidMin))) as [pb | |],
           (aget rp' (wrap32 (span_b_iid ovl - iidMin))) as [pb' | |];
    try contradiction; try reflexivity.
  simpl. unfold sums in Hb. inversion Hb as [[Hlen' HS']]. rewrite HS'. reflexivity.
Qed.

Lemma judgedInconsistent_sameSums iidMin rp rp' (o : ESToverlap) :
  sameSums rp rp' ->
  judgedInconsistent iidMin rp o <-> judgedInconsistent iidMin rp' o.
Proof.
  intros Hs. unfold judgedInconsistent.
  split; intros (ovl & est & Hmk & Hest & Hlt); exists ovl, est.
  - rewrite <- (mkSpan_sameSums o rp rp' iidMin Hs).
    rewrite <- (computeEstimatedErate_sameSums iidMin ovl rp rp' Hs). auto.
  - rewrite (mkSpan_sameSums o rp rp' iidMin Hs).
    rewrite (computeEstimatedErate_sameSums iidMin ovl rp rp' Hs). auto.
Qed.

Lemma activeRead_sameSums rp rp' (iid : Z) :
  sameSums rp rp' -> activeRead rp iid <-> activeRead rp' iid.
Proof.
  intros Hs. pose proof (sameSums_aget rp rp' iid Hs) as Ha. unfold activeRead.
  destruct (aget rp iid) as [p | |], (aget rp' iid) as [p' | |]; try contradiction.
  - unfold sums in Ha. inversion Ha as [[Hlen HS]].
    split; intros (q & Hq & Hne); inversion Hq; subst q; eexists; split;
      try reflexivity; congruence.
  - split; intros (q & Hq & _); discriminate.
Qed.

(** ** The work item of a read *)

Lemma scanRead_spec iidMin (st : ESTstate) iter iid ovs' el :
  scanRead iidMin st iter iid = Done (ovs', el) ->
  length ovs' = length (overlaps st)
  /\ (forall k : nat, ~ inSlice (overlapIndex st) iid k -> ovs' !! k = overlaps st !! k)
  /\ (forall k : nat, inSlice (overlapIndex st) iid k ->
        exists o v, overlaps st !! k = Some o
                    /\ examine iidMin (readProfile st) iter iid o = Done v
                    /\ ovs' !! k = Some (flagged o v))
  /\ Forall2 (contribution iidMin (readProfile st))
       (List.filter notDiscarded (sliceOf (overlapIndex st) iid ovs')) el.
Proof.
  unfold scanRead. intros Hrun.
  destruct (aget (overlapIndex st) iid) as [first | |] eqn:Hfirst; try discriminate.
  simpl in Hrun.
  destruct (aget (overlapIndex st) (iid + 1)) as [last | |] eqn:Hlast; try discriminate.
  simpl in Hrun.
  assert (Hin : forall k : nat, inSlice (overlapIndex st) iid k <-> first <= Z.of_nat k < last).
  { intros k. unfold inSlice. split.
    - intros (f & l & Hf & Hl & Hk). congruence.
    - intros Hk. exists first, last. auto. }
  unfold sliceOf. rewrite Hfirst, Hlast. unfold subrange.
  destruct (Z.to_nat (last - first)) as [| n] eqn:Hn.
  - simpl in Hrun. inversion Hrun; subst ovs' el.
    split; [reflexivity |]. split; [reflexivity |]. split.
    + intros k Hk. apply Hin in Hk. lia.
    + simpl. constructor.
  - assert (Hpos : 0 <= first).
    { simpl in Hrun. rewrite overlapStep_examine in Hrun. simpl fst in Hrun.
      destruct (aget (overlaps st) first) eqn:Hg; try discriminate.
      apply aget_lt in Hg. lia. }
    rewrite <- (Z2Nat.id first Hpos) in Hrun.
    destruct (scanOverlaps_spec _ _ _ _ _ _ _ _ _ _ Hrun)
      as (Hlen & Hframe & Hrange & added & Hel & Hadd).
    simpl in Hel. subst added.
    split; [exact Hlen |]. split; [| split].
    + intros k Hk. apply Hframe. rewrite Hin in Hk. lia.
    + intros k Hk. apply Hrange. rewrite Hin in Hk. lia.
    + exact Hadd.
Qed.

Lemma processRead_inv iidMin iter iid (st st' : ESTstate) :
  processRead iidMin iter iid st = Done st' ->
  exists p,
    aget (readProfile st) iid = Done p
    /\ ((seqLen p = 0 /\ st' = st)
        \/ (seqLen p <> 0
            /\ exists el u0 u,
                 scanRead iidMin st iter iid = Done (overlaps st', el)
                 /\ memsetU (errorMeanU p) (seqLen p) = Done u0
                 /\ unpackMap (seqLen p) (intervalDepth el) u0 = Done u
                 /\ overlapIndex st' = overlapIndex st
                 /\ readProfile st'
                    = <[Z.to_nat iid := set_errorMeanU p u]> (readProfile st))).
Proof.
  unfold processRead. intros Hrun.
  destruct (aget (readProfile st) iid) as [p | |] eqn:Hp; try discriminate.
  simpl in Hrun. exists p. split; [reflexivity |].
  destruct (Z.eqb_spec (seqLen p) 0) as [Hz | Hnz].
  - left. inversion Hrun. auto.
  - right. split; [exact Hnz |].
    destruct (scanRead iidMin st iter iid) as [[ovs' el] | |] eqn:Hscan; try discriminate.
    simpl in Hrun.
    destruct (memsetU (errorMeanU p) (seqLen p)) as [u0 | |] eqn:Hmem; try discriminate.
    simpl in Hrun.
    destruct (unpackMap (seqLen p) (intervalDepth el) u0) as [u | |] eqn:Hun; try discriminate.
    simpl in Hrun. inversion Hrun. simpl.
    exists el, u0, u. repeat split; try reflexivity; assumption.
Qed.

Lemma flagsOnly_refl ovs : flagsOnly ovs ovs.
Proof. split; [reflexivity | auto]. Qed.

Lemma flagsOnly_trans ovs1 ovs2 ovs3 :
  flagsOnly ovs1 ovs2 -> flagsOnly ovs2 ovs3 -> flagsOnly ovs1 ovs3.
Proof.
  intros [Hl12 H12] [Hl23 H23]. split; [congruence |].
  intros k o Ho. destruct (H12 k o Ho) as [H2 | H2].
  - apply H23. exact H2.
  - right. destruct (H23 k _ H2) as [H3 | H3]; exact H3.
Qed.

(** The effect of one work item on the overlaps and on what the first loop
    reads. *)
Lemma processRead_spec iidMin iter iid (st st' : ESTstate) :
  processRead iidMin iter iid st = Done st' ->
  overlapIndex st' = overlapIndex st
  /\ sameSums (readProfile st) (readProfile st')
  /\ flagsOnly (overlaps st) (overlaps st')
  /\ (forall (k : nat) (o : ESToverlap),
        overlaps st !! k = Some o -> overlaps st' !! k <> Some o ->
        discarded o = false /\ 0 < iter
        /\ judgedInconsistent iidMin (readProfile st) o
        /\ a_iid o = wrap32 (iid + iidMin)
        /\ activeRead (readProfile st) iid
        /\ inSlice (overlapIndex st) iid k)
  /\ (forall (k : nat) (o : ESToverlap),
        activeRead (readProfile st) iid -> inSlice (overlapIndex st) iid k ->
        overlaps st !! k = Some o -> discarded o = false -> 0 < iter ->
        judgedInconsistent iidMin (readProfile st) o ->
        overlaps st' !! k = Some (set_discarded o)).
Proof.
  intros Hrun. destruct (processRead_inv _ _ _ _ _ Hrun) as (p & Hp & Hcase).
  destruct Hcase as [[Hz ->] | (Hnz & el & u0 & u & Hscan & _ & _ & Hidx & Hrp)].
  - split; [reflexivity |]. split; [apply sameSums_refl |].
    split; [apply flagsOnly_refl |]. split.
    + intros k o Ho Hne. contradiction.
    + intros k o (q & Hq & Hqn) _ _ _ _ _. congruence.
  - destruct (scanRead_spec _ _ _ _ _ _ Hscan) as (Hlen & Hframe & Hrange & _).
    assert (Hact : activeRead (readProfile st) iid) by (exists p; auto).
    assert (Hdec : forall k : nat,
              inSlice (overlapIndex st) iid k \/ ~ inSlice (overlapIndex st) iid k).
    { intros k. unfold inSlice.
      destruct (aget (overlapIndex st) iid) as [first | |];
        try (right; intros (f & l & Hf & _); discriminate).
      destruct (aget (overlapIndex st) (iid + 1)) as [last | |];
        try (right; intros (f & l & _ & Hl & _); discriminate).
      destruct (Z_le_dec first (Z.of_nat k)) as [Hle | Hnle];
        [destruct (Z_lt_dec (Z.of_nat k) last) as [Hlt | Hnlt] |].
      - left. exists first, last. auto.
      - right. intros (f & l & Hf & Hl & Hk). inversion Hf. inversion Hl. subst. lia.
      - right. intros (f & l & Hf & Hl & Hk). inversion Hf. inversion Hl. subst. lia. }
    split; [exact Hidx |]. split.
    { rewrite Hrp. apply aget_Done in Hp. destruct Hp as [_ Hp].
      apply sameSums_insert. exact Hp. }
    split; [| split].
    + split; [exact Hlen |]. intros k o Ho.
      destruct (Hdec k) as [Hin | Hout].
      * destruct (Hrange k Hin) as (o2 & v & Ho2 & _ & Hk).
        rewrite Ho in Ho2. inversion Ho2; subst o2.
        rewrite Hk. destruct v; simpl; auto.
      * left. rewrite (Hframe k Hout). exact Ho.
    + intros k o Ho Hne. destruct (Hdec k) as [Hin | Hout].
      * destruct (Hrange k Hin) as (o2 & v & Ho2 & Hex & Hk).
        rewrite Ho in Ho2. inversion Ho2; subst o2.
        destruct v as [| | e]; simpl in Hk; try contradiction.
        destruct (examine_Discard _ _ _ _ _ Hex) as (Hd & Hit & Hj & Ha & _).
        auto 10.
      * rewrite (Hframe k Hout) in Hne. contradiction.
    + intros k o _ Hin Ho Hd Hit Hj.
      destruct (Hrange k Hin) as (o2 & v & Ho2 & Hex & Hk).
      rewrite Ho in Ho2. inversion Ho2; subst o2.
      destruct v as [| | e]; simpl in Hk.
      * apply examine_Skip in Hex. congruence.
      * exact Hk.
      * destruct (examine_Keep _ _ _ _ _ _ Hex) as (_ & _ & _ & Hnot & _).
        exfalso. apply Hnot. auto.
Qed.

(** ** The loop over the reads *)

Lemma flagsOnly_discarded ovs ovs' (k : nat) (o : ESToverlap) :
  flagsOnly ovs ovs' -> ovs !! k = Some o -> discarded o = true -> ovs' !! k = Some o.
Proof.
  intros [_ Hf] Ho Hd. destruct (Hf k o Ho) as [Hk | Hk]; [exact Hk |].
  rewrite (set_discarded_id o Hd) in Hk. exact Hk.
Qed.

Lemma flagsOnly_set ovs ovs' (k : nat) (o : ESToverlap) :
  flagsOnly ovs ovs' -> ovs !! k = Some (set_discarded o) ->
  ovs' !! k = Some (set_discarded o).
Proof.
  intros Hf Ho. eapply flagsOnly_discarded; [exact Hf | exact Ho | reflexivity].
Qed.

Lemma readLoop_spec iidMin iter (n : nat) :
  forall (iid : Z) (st st' : ESTstate),
    readLoop iidMin iter n iid st = Done st' ->
    overlapIndex st' = overlapIndex st
    /\ sameSums (readProfile st) (readProfile st')
    /\ flagsOnly (overlaps st) (overlaps st')
    /\ (forall (k : nat) (o : ESToverlap),
          overlaps st !! k = Some o -> overlaps st' !! k <> Some o ->
          discarded o = false /\ 0 < iter
          /\ judgedInconsistent iidMin (readProfile st) o
          /\ exists r, iid <= r < iid + Z.of_nat n
                       /\ a_iid o = wrap32 (r + iidMin)
                       /\ activeRead (readProfile st) r
                       /\ inSlice (overlapIndex st) r k)
    /\ (forall (k : nat) (o : ESToverlap) (r : Z),
          iid <= r < iid + Z.of_nat n ->
          activeRead (readProfile st) r -> inSlice (overlapIndex st) r k ->
          overlaps st !! k = Some o -> discarded o = false -> 0 < iter ->
          judgedInconsistent iidMin (readProfile st) o ->
          overlaps st' !! k = Some (set_discarded o)).
Proof.
  induction n as [| n IH]; intros iid st st' Hrun.
  - simpl in Hrun. inversion Hrun; subst st'.
    split; [reflexivity |]. split; [apply sameSums_refl |].
    split; [apply flagsOnly_refl |]. split.
    + intros k o Ho Hne. contradiction.
    + intros k o r Hr. lia.
  - simpl in Hrun.
    destruct (processRead iidMin iter iid st) as [st1 | |] eqn:Hstep; try discriminate.
    simpl in Hrun.
    destruct (processRead_spec _ _ _ _ _ Hstep) as (Hidx1 & Hs1 & Hf1 & Hsound1 & Hcompl1).
    destruct (IH _ _ _ Hrun) as (Hidx2 & Hs2 & Hf2 & Hsound2 & Hcompl2).
    split; [congruence |]. split; [eapply sameSums_trans; eassumption |].
    split; [eapply flagsOnly_trans; eassumption |]. split.
    + intros k o Ho Hne.
      destruct (proj2 Hf1 k o Ho) as [H1 | H1].
      * destruct (Hsound2 k o H1 Hne) as (Hd & Hit & Hj & r & Hr & Ha & Hact & Hin).
        split; [exact Hd |]. split; [exact Hit |].
        split; [apply (judgedInconsistent_sameSums _ _ _ _ Hs1); exact Hj |].
        exists r. split; [lia |]. split; [exact Ha |].
        split; [apply (activeRead_sameSums _ _ _ Hs1); exact Hact |].
        rewrite <- Hidx1. exact Hin.
      * assert (Hd : discarded o = false).
        { destruct (discarded o) eqn:Hd; [| reflexivity].
          rewrite (set_discarded_id o Hd) in H1.
          rewrite (flagsOnly_discarded _ _ _ _ Hf2 H1 Hd) in Hne. contradiction. }
        assert (Hne1 : overlaps st1 !! k <> Some o).
        { rewrite H1. intros Heq. inversion Heq as [Heq'].
          exact (set_discarded_neq o Hd Heq'). }
        destruct (Hsound1 k o Ho Hne1) as (_ & Hit & Hj & Ha & Hact & Hin).
        split; [exact Hd |]. split; [exact Hit |]. split; [exact Hj |].
        exists iid. split; [lia |]. auto.
    + intros k o r Hr Hact Hin Ho Hd Hit Hj.
      destruct (proj2 Hf1 k o Ho) as [H1 | H1].
      * destruct (Z.eq_dec r iid) as [-> | Hne].
        -- rewrite (Hcompl1 k o Hact Hin Ho Hd Hit Hj) in H1.
           inversion H1 as [Heq]. exfalso. exact (set_discarded_neq o Hd Heq).
        -- apply (Hcompl2 k o r); try assumption.
           ++ lia.
           ++ apply (activeRead_sameSums _ _ _ Hs1). exact Hact.
           ++ rewrite Hidx1. exact Hin.
           ++ apply (judgedInconsistent_sameSums _ _ _ _ Hs1). exact Hj.
      * eapply flagsOnly_set; eassumption.
Qed.

(** ** Iterations *)

(** An iteration, as far as the overlaps go. *)
Lemma recomputeErrorProfile_overlaps iidMin numIIDs (st st' : ESTstate) iter :
  recomputeErrorProfile iidMin numIIDs st iter = Done st' ->
  exists st1,
    readLoop iidMin iter (Z.to_nat numIIDs) 0 st = Done st1
    /\ overlaps st' = overlaps st1
    /\ overlapIndex st' = overlapIndex st1
    /\ sumAll (Z.to_nat numIIDs) 0 (readProfile st1) = Done (readProfile st').
Proof.
  unfold recomputeErrorProfile. intros Hrun.
  destruct (readLoop iidMin iter (Z.to_nat numIIDs) 0 st) as [st1 | |]; try discriminate.
  simpl in Hrun.
  destruct (sumAll (Z.to_nat numIIDs) 0 (readProfile st1)) as [rp | |] eqn:Hsum;
    try discriminate.
  simpl in Hrun. inversion Hrun. simpl. exists st1.
  repeat split; try reflexivity. exact Hsum.
Qed.

Lemma recomputeErrorProfile_flags iidMin numIIDs (st st' : ESTstate) iter :
  recomputeErrorProfile iidMin numIIDs st iter = Done st' ->
  overlapIndex st' = overlapIndex st /\ flagsOnly (overlaps st) (overlaps st').
Proof.
  intros Hrun.
  destruct (recomputeErrorProfile_overlaps _ _ _ _ _ Hrun) as (st1 & Hloop & Hovs & Hidx & _).
  destruct (readLoop_spec _ _ _ _ _ _ Hloop) as (Hidx1 & _ & Hf & _).
  rewrite Hovs, Hidx. auto.
Qed.

Lemma runIterations_flags iidMin numIIDs (n : nat) :
  forall (ii : Z) (st st' : ESTstate),
    runIterations iidMin numIIDs n ii st = Done st' ->
    overlapIndex st' = overlapIndex st /\ flagsOnly (overlaps st) (overlaps st').
Proof.
  induction n as [| n IH]; intros ii st st' Hrun; simpl in Hrun.
  - inversion Hrun. split; [reflexivity | apply flagsOnly_refl].
  - destruct (recomputeErrorProfile iidMin numIIDs st ii) as [st1 | |] eqn:Hstep;
      try discriminate.
    simpl in Hrun.
    destruct (recomputeErrorProfile_flags _ _ _ _ _ Hstep) as [Hi1 Hf1].
    destruct (IH _ _ _ Hrun) as [Hi2 Hf2].
    split; [congruence | eapply flagsOnly_trans; eassumption].
Qed.

Lemma engine_inv iidMin numIIDs store (st st' : ESTstate) out :
  engine iidMin numIIDs store st = Done (st', out) ->
  runIterations iidMin numIIDs 4 0 st = Done st'
  /\ outputOverlaps (Z.of_nat (length store)) store (overlaps st') = Done out.
Proof.
  unfold engine. intros Hrun.
  destruct (runIterations iidMin numIIDs 4 0 st) as [st4 | |]; try discriminate.
  simpl obind in Hrun.
  destruct (outputOverlaps (Z.of_nat (length store)) store (overlaps st4)) as [o | |] eqn:Hout;
    try discriminate.
  simpl in Hrun. inversion Hrun; subst. auto.
Qed.

(** C4.  A [discarded] bit that is set stays set: through an iteration,
    through any number of consecutive iterations from any iteration index,
    and through the whole engine run (the four iterations and the output
    pass, which leaves the array as the last iteration left it). *)
Theorem discarded_never_reset (iidMin numIIDs : Z) :
  (forall (st st' : ESTstate) (iter : Z),
      recomputeErrorProfile iidMin numIIDs st iter = Done st' ->
      forall (k : nat) (o : ESToverlap),
        overlaps st !! k = Some o -> discarded o = true ->
        overlaps st' !! k = Some o)
  /\ (forall (n : nat) (ii : Z) (st st' : ESTstate),
        runIterations iidMin numIIDs n ii st = Done st' ->
        forall (k : nat) (o : ESToverlap),
          overlaps st !! k = Some o -> discarded o = true ->
          overlaps st' !! k = Some o)
  /\ (forall (store : list ovOverlap) (st st' : ESTstate) (out : list ovOverlap),
        engine iidMin numIIDs store st = Done (st', out) ->
        forall (k : nat) (o : ESToverlap),
          overlaps st !! k = Some o -> discarded o = true ->
          overlaps st' !! k = Some o).
Proof.
  split; [| split].
  - intros st st' iter Hrun k o Ho Hd.
    destruct (recomputeErrorProfile_flags _ _ _ _ _ Hrun) as [_ Hf].
    eapply flagsOnly_discarded; eassumption.
  - intros n ii st st' Hrun k o Ho Hd.
    destruct (runIterations_flags _ _ _ _ _ _ Hrun) as [_ Hf].
    eapply flagsOnly_discarded; eassumption.
  - intros store st st' out Hrun k o Ho Hd.
    destruct (engine_inv _ _ _ _ _ _ Hrun) as [Hit _].
    destruct (runIterations_flags _ _ _ _ _ _ Hit) as [_ Hf].
    eapply flagsOnly_discarded; eassumption.
Qed.

(** C10.  An iteration leaves the overlap index as it was and changes no
    field of any overlap other than [discarded]; and a work item changes an
    overlap only by setting its [discarded] bit, only inside its own slice,
    and only when the overlap's [a_iid] is the read of the work item. *)
Theorem iteration_frame (iidMin numIIDs : Z) (st st' : ESTstate) (iter : Z) :
  recomputeErrorProfile iidMin numIIDs st iter = Done st' ->
  overlapIndex st' = overlapIndex st
  /\ length (overlaps st') = length (overlaps st)
  /\ (forall (k : nat) (o : ESToverlap),
        overlaps st !! k = Some o ->
        exists o', overlaps st' !! k = Some o'
                   /\ a_iid o' = a_iid o
                   /\ b_iid_hi o' = b_iid_hi o /\ b_iid_lo o' = b_iid_lo o
                   /\ a_hang o' = a_hang o /\ b_hang o' = b_hang o
                   /\ erate o' = erate o /\ flipped o' = flipped o)
  /\ (forall (iid : Z) (s s' : ESTstate),
        processRead iidMin iter iid s = Done s' ->
        forall (k : nat) (o : ESToverlap),
          overlaps s !! k = Some o -> overlaps s' !! k <> Some o ->
          overlaps s' !! k = Some (set_discarded o)
          /\ a_iid o = wrap32 (iid + iidMin)
          /\ inSlice (overlapIndex s) iid k).
Proof.
  intros Hrun.
  destruct (recomputeErrorProfile_flags _ _ _ _ _ Hrun) as [Hidx [Hlen Hf]].
  split; [exact Hidx |]. split; [exact Hlen |]. split.
  - intros k o Ho. destruct (Hf k o Ho) as [Hk | Hk].
    + exists o. repeat split; try reflexivity. exact Hk.
    + exists (set_discarded o). repeat split; try reflexivity. exact Hk.
  - intros iid s s' Hstep k o Ho Hne.
    destruct (processRead_spec _ _ _ _ _ Hstep) as (_ & _ & [_ Hfs] & Hsound & _).
    destruct (Hsound k o Ho Hne) as (_ & _ & _ & Ha & _ & Hin).
    destruct (Hfs k o Ho) as [Hk | Hk]; [contradiction |]. auto.
Qed.

(** ** Well-formed states *)

Lemma wf_overlaps_spec iidMin numIIDs idx (ovs : list ESToverlap) :
  forall (oo : Z) (k : nat) (o : ESToverlap),
    wf_overlaps_b iidMin numIIDs idx oo ovs = true ->
    ovs !! k = Some o ->
    wf_overlap_b iidMin numIIDs idx (oo + Z.of_nat k) o = true.
Proof.
  induction ovs as [| x ovs IH]; intros oo k o Hwf Hk; [discriminate |].
  simpl in Hwf. apply andb_true_iff in Hwf. destruct Hwf as [Hx Hrest].
  destruct k as [| k]; simpl in Hk.
  - inversion Hk; subst x. rewrite Z.add_0_r. exact Hx.
  - replace (oo + Z.of_nat (S k)) with (oo + 1 + Z.of_nat k) by lia.
    apply IH; assumption.
Qed.

Lemma in_slice_b_inSlice idx (iid : Z) (k : nat) :
  0 <= iid -> in_slice_b idx iid (Z.of_nat k) = true -> inSlice idx iid k.
Proof.
  intros Hiid. unfold in_slice_b, inSlice.
  destruct (idx !! Z.to_nat iid) as [first |] eqn:Hf; [| discriminate].
  destruct (idx !! Z.to_nat (iid + 1)) as [last |] eqn:Hl; [| discriminate].
  intros Hb. apply andb_true_iff in Hb. destruct Hb as [H1 H2].
  apply Z.leb_le in H1. apply Z.ltb_lt in H2.
  exists first, last. split; [apply aget_Done; split; [lia | exact Hf] |].
  split; [apply aget_Done; split; [lia | exact Hl] |]. lia.
Qed.

Lemma wf_state_spec iidMin numIIDs (st : ESTstate) :
  wf_state_b iidMin numIIDs st = true ->
  0 <= numIIDs
  /\ (forall (i : Z) (p : readErrorEstimate),
        aget (readProfile st) i = Done p -> wf_profile_b p = true)
  /\ (forall (k : nat) (o : ESToverlap),
        overlaps st !! k = Some o ->
        0 <= wrap32 (a_iid o - iidMin) < numIIDs
        /\ inSlice (overlapIndex st) (wrap32 (a_iid o - iidMin)) k
        /\ fits_signed 17 (a_hang o) /\ fits_signed 17 (b_hang o)
        /\ 0 <= a_iid o < 2 ^ 23)
  /\ 0 <= iidMin < 2 ^ 32 /\ numIIDs < 2 ^ 32
  /\ Z.of_nat (length (readProfile st)) = numIIDs.
Proof.
  unfold wf_state_b. rewrite !andb_true_iff.
  intros ((((((H0 & H1) & H2) & H3) & H4) & H5) & H6).
  apply Z.leb_le in H0. apply Z.ltb_lt in H1. apply Z.ltb_lt in H3.
  apply Z.eqb_eq in H4.
  apply Z.leb_le in H2.
  split; [exact H2 |]. split; [| split; [| auto]].
  - intros i p Hp. apply aget_Done in Hp. destruct Hp as [_ Hp].
    apply (proj1 (forallb_forall _ _) H5). apply list_elem_of_In.
    eapply list_elem_of_lookup_2. exact Hp.
  - intros k o Ho.
    pose proof (wf_overlaps_spec _ _ _ _ 0 k o H6 Ho) as Hw.
    rewrite Z.add_0_l in Hw. unfold wf_overlap_b in Hw.
    rewrite !andb_true_iff in Hw.
    destruct Hw as (((((((Hi1 & Hi2) & Ha1) & Ha2) & Hb1) & Hb2) & Hlt) & Hin).
    apply Z.leb_le in Hi1. apply Z.ltb_lt in Hi2.
    apply Z.ltb_lt in Hlt.
    apply Z.leb_le in Ha1. apply Z.ltb_lt in Ha2.
    apply Z.leb_le in Hb1. apply Z.ltb_lt in Hb2.
    pose proof (wrap32_range (a_iid o - iidMin)) as Hr.
    split; [lia |]. split; [apply in_slice_b_inSlice; [lia | exact Hin] |].
    unfold fits_signed. simpl. lia.
Qed.

Lemma computeEstimatedErate_reads iidMin (ovl : ESToverlapSpan) rp est :
  computeEstimatedErate iidMin ovl rp = Done est ->
  a_beg ovl < a_end ovl /\ b_beg ovl < b_end ovl
  /\ exists pa pb,
       aget rp (wrap32 (span_a_iid ovl - iidMin)) = Done pa
       /\ aget rp (wrap32 (span_b_iid ovl - iidMin)) = Done pb
       /\ 0 <= a_beg ovl /\ a_end ovl < Z.of_nat (length (errorMeanS pa))
       /\ 0 <= b_beg ovl /\ b_end ovl < Z.of_nat (length (errorMeanS pb)).
Proof.
  unfold computeEstimatedErate. intros Hrun.
  destruct (Z.ltb_spec (a_beg ovl) (a_end ovl)) as [Ha | _]; [| discriminate].
  destruct (aget rp (wrap32 (span_a_iid ovl - iidMin))) as [pa | |]; try discriminate.
  simpl in Hrun.
  destruct (aget (errorMeanS pa) (a_end ovl)) eqn:Hae; try discriminate. simpl in Hrun.
  destruct (aget (errorMeanS pa) (a_beg ovl)) eqn:Hab; try discriminate. simpl in Hrun.
  destruct (Z.ltb_spec (b_beg ovl) (b_end ovl)) as [Hb | _]; [| discriminate].
  destruct (aget rp (wrap32 (span_b_iid ovl - iidMin))) as [pb | |]; try discriminate.
  simpl in Hrun.
  destruct (aget (errorMeanS pb) (b_end ovl)) eqn:Hbe; try discriminate. simpl in Hrun.
  destruct (aget (errorMeanS pb) (b_beg ovl)) eqn:Hbb; try discriminate.
  apply aget_lt in Hae, Hab, Hbe, Hbb.
  split; [exact Ha |]. split; [exact Hb |]. exists pa, pb.
  repeat split; try reflexivity; lia.
Qed.

(** In a well-formed state the estimate exists only for overlaps of reads
    that are not deleted. *)
Lemma judged_active iidMin numIIDs (st : ESTstate) (o : ESToverlap) :
  wf_state_b iidMin numIIDs st = true ->
  judgedInconsistent iidMin (readProfile st) o ->
  activeRead (readProfile st) (wrap32 (a_iid o - iidMin)).
Proof.
  intros Hwf (ovl & est & Hmk & Hest & _).
  destruct (wf_state_spec _ _ _ Hwf) as (_ & Hprof & _ & _).
  destruct (mkSpan_fields _ _ _ _ Hmk) as (Ha & _ & _ & Hab & _).
  destruct (computeEstimatedErate_reads _ _ _ _ Hest)
    as (Hlt & _ & pa & _ & Hpa & _ & _ & Hae & _).
  rewrite Ha in Hpa. exists pa. split; [exact Hpa |]. intros Hz.
  destruct (wf_profile_spec pa (Hprof _ _ Hpa)) as (_ & HlenS & _).
  lia.
Qed.

(** ** Unpacking the depth map into [errorMeanU] *)

Lemma memsetU_spec (u u0 : list Z) (len : Z) :
  0 <= len ->
  memsetU u len = Done u0 ->
  length u0 = length u
  /\ (forall k : nat, Z.of_nat k <= len -> u0 !! k = Some 0)
  /\ (Z.of_nat (length u) = len + 1 -> u0 = replicate (Z.to_nat (len + 1)) 0).
Proof.
  intros Hlen. unfold memsetU.
  destruct (Z.ltb_spec (Z.of_nat (length u)) (len + 1)) as [| Hge]; [discriminate |].
  intros Heq. inversion Heq; subst u0. clear Heq.
  split; [| split].
  - rewrite length_app, length_replicate, length_drop. lia.
  - intros k Hk. rewrite lookup_app_l by (rewrite length_replicate; lia).
    apply lookup_replicate_2. lia.
  - intros Hexact. rewrite drop_ge by lia. apply app_nil_r.
Qed.

Lemma fillU_spec (e : Z) (n : nat) :
  forall (pp : Z) (u u' : list Z),
    fillU n pp e u = Done u' ->
    length u' = length u
    /\ forall k : nat,
         (pp <= Z.of_nat k < pp + Z.of_nat n -> u' !! k = Some e)
         /\ (~ (pp <= Z.of_nat k < pp + Z.of_nat n) -> u' !! k = u !! k).
Proof.
  induction n as [| n IH]; intros pp u u' Hrun; simpl in Hrun.
  - inversion Hrun; subst u'. split; [reflexivity |].
    intros k. split; [lia | reflexivity].
  - destruct (aset u pp e) as [u1 | |] eqn:Hset; try discriminate. simpl in Hrun.
    apply aset_Done in Hset. destruct Hset as (Hpp & Hlt & ->).
    destruct (IH _ _ _ Hrun) as [Hlen Hcells].
    rewrite length_insert in Hlen. split; [exact Hlen |].
    intros k. destruct (Hcells k) as [Hin Hout]. split.
    + intros Hk. destruct (Z.eq_dec (Z.of_nat k) pp) as [Heq | Hne].
      * rewrite Hout by lia. replace k with (Z.to_nat pp) by lia.
        apply list_lookup_insert_eq. exact Hlt.
      * apply Hin. lia.
    + intros Hk. rewrite Hout by lia. apply list_lookup_insert_ne. lia.
Qed.

Lemma unpackInterval_spec (len : Z) (iv : interval) (u u' : list Z) :
  unpackInterval len iv u = Done u' ->
  iv_hi iv <= len
  /\ length u' = length u
  /\ forall k : nat,
       (iv_lo iv <= Z.of_nat k < iv_hi iv -> u' !! k = Some (eEncOf iv))
       /\ (~ (iv_lo iv <= Z.of_nat k < iv_hi iv) -> u' !! k = u !! k).
Proof.
  unfold unpackInterval. intros Hrun.
  destruct (double_leb (double_of_Z 0) (eValOf iv)); [| discriminate].
  destruct (double_leb (eValOf iv) (double_of_Z 1)); [| discriminate].
  destruct (Z.leb_spec (iv_hi iv) len) as [Hhi |]; [| discriminate].
  destruct (fillU_spec _ _ _ _ _ Hrun) as [Hlen Hcells].
  split; [exact Hhi |]. split; [exact Hlen |].
  intros k. destruct (Hcells k) as [Hin Hout]. split.
  - intros Hk. apply Hin. lia.
  - intros Hk. apply Hout. lia.
Qed.

Lemma unpackMap_spec (len : Z) (m : list interval) :
  forall (u u' : list Z),
    unpackMap len m u = Done u' ->
    length u' = length u
    /\ (forall iv, In iv m -> iv_hi iv <= len)
    /\ forall k : nat,
         u' !! k = u !! k
         \/ exists iv, In iv m /\ iv_lo iv <= Z.of_nat k < iv_hi iv
                       /\ u' !! k = Some (eEncOf iv).
Proof.
  induction m as [| iv m IH]; intros u u' Hrun; simpl in Hrun.
  - inversion Hrun. split; [reflexivity |]. split; [intros iv [] | auto].
  - destruct (unpackInterval len iv u) as [u1 | |] eqn:Hstep; try discriminate.
    simpl in Hrun.
    destruct (unpackInterval_spec _ _ _ _ Hstep) as (Hhi & Hlen1 & Hcells).
    destruct (IH _ _ Hrun) as (Hlen & Hall & Hk).
    split; [congruence |]. split.
    + intros iv' [<- | Hin]; [exact Hhi | apply Hall; exact Hin].
    + intros k. destruct (Hk k) as [Hsame | (iv' & Hin & Hr & Hv)].
      * destruct (Hcells k) as [Hin Hout].
        destruct (Z_le_dec (iv_lo iv) (Z.of_nat k)) as [Hl |];
          [destruct (Z_lt_dec (Z.of_nat k) (iv_hi iv)) as [Hh |] |].
        -- right. exists iv. split; [left; reflexivity |]. split; [lia |].
           rewrite Hsame. apply Hin. lia.
        -- left. rewrite Hsame. apply Hout. lia.
        -- left. rewrite Hsame. apply Hout. lia.
      * right. exists iv'. split; [right; exact Hin |]. auto.
Qed.

(** ** The depth map *)

Lemma intervalDepth_In (el : list ilEntry) (iv : interval) :
  In iv (intervalDepth el) ->
  exists e, In e el /\ il_lo e <= iv_lo iv /\ iv_hi iv <= il_hi e.
Proof.
  unfold intervalDepth. intros Hin.
  apply filter_In in Hin. destruct Hin as [Hin Hdepth].
  apply in_map_iff in Hin. destruct Hin as ([p q] & <- & _).
  unfold piece_interval in *. simpl in *.
  apply Z.ltb_lt in Hdepth.
  destruct (List.filter (covers p q) el) as [| e c] eqn:Hc; [simpl in Hdepth; lia |].
  assert (He : In e (List.filter (covers p q) el)) by (rewrite Hc; left; reflexivity).
  apply filter_In in He. destruct He as [He Hcov].
  unfold covers in Hcov. apply andb_true_iff in Hcov. destruct Hcov as [H1 H2].
  apply Z.leb_le in H1. apply Z.leb_le in H2.
  exists e. auto.
Qed.

Lemma insert_bp_In (x y : Z) (l : list Z) :
  In y (insert_bp x l) <-> y = x \/ In y l.
Proof.
  induction l as [| z l IH]; simpl.
  - intuition.
  - destruct (Z.ltb_spec x z).
    + simpl. intuition.
    + destruct (Z.eqb_spec x z).
      * subst z. simpl. intuition.
      * simpl. rewrite IH. intuition.
Qed.

Lemma insert_bp_sorted (x : Z) (l : list Z) :
  StronglySorted Z.lt l -> StronglySorted Z.lt (insert_bp x l).
Proof.
  induction l as [| z l IH]; intros Hs; simpl.
  - constructor; [constructor | constructor].
  - inversion Hs as [| ? ? Hs' Hall]; subst.
    destruct (Z.ltb_spec x z).
    + constructor; [exact Hs |]. constructor; [exact H0 |].
      eapply Forall_impl; [exact Hall |]. simpl. intros a Ha. lia.
    + destruct (Z.eqb_spec x z); [exact Hs |].
      constructor; [apply IH; exact Hs' |].
      apply Forall_forall. intros a Ha. apply list_elem_of_In in Ha.
      apply insert_bp_In in Ha. destruct Ha as [-> | Ha]; [lia |].
      apply (proj1 (Forall_forall _ _) Hall). apply list_elem_of_In. exact Ha.
Qed.

Lemma breakpoints_sorted (el : list ilEntry) : StronglySorted Z.lt (breakpoints el).
Proof.
  induction el as [| e el IH]; simpl.
  - constructor.
  - apply insert_bp_sorted, insert_bp_sorted, IH.
Qed.

Lemma breakpoints_In (el : list ilEntry) (e : ilEntry) :
  In e el -> In (il_lo e) (breakpoints el) /\ In (il_hi e) (breakpoints el).
Proof.
  induction el as [| x el IH]; intros Hin; [contradiction |].
  simpl. rewrite !insert_bp_In. destruct Hin as [-> | Hin].
  - auto.
  - destruct (IH Hin). auto.
Qed.

(** In a sorted list of breakpoints, every breakpoint [h] above another
    one, [l], ends a piece that starts at or after [l]. *)
Lemma pieces_ending (bps : list Z) :
  StronglySorted Z.lt bps ->
  forall l h : Z, In l bps -> In h bps -> l < h ->
    exists p, In (p, h) (pieces bps) /\ l <= p.
Proof.
  induction bps as [| x t IH]; intros Hs l h Hl Hh Hlt; [contradiction |].
  inversion Hs as [| ? ? Hs' Hall]; subst.
  assert (Habove : forall a, In a t -> x < a).
  { intros a Ha. apply (proj1 (Forall_forall _ _) Hall). apply list_elem_of_In. exact Ha. }
  destruct Hh as [<- | Hh].
  { destruct Hl as [<- | Hl]; [lia |]. specialize (Habove l Hl). lia. }
  destruct t as [| y t']; [contradiction |].
  simpl pieces.
  destruct Hl as [<- | Hl].
  - destruct (Z.eq_dec h y) as [-> | Hne].
    + exists x. split; [left; reflexivity | lia].
    + destruct Hh as [<- | Hh]; [contradiction |].
      inversion Hs' as [| ? ? _ Hall']; subst.
      assert (y < h).
      { apply (proj1 (Forall_forall _ _) Hall'). apply list_elem_of_In. exact Hh. }
      destruct (IH Hs' y h) as (p & Hp & Hle); [left; reflexivity | right; exact Hh | lia |].
      exists p. split; [right; exact Hp |].
      specialize (Habove y (or_introl eq_refl)). lia.
  - destruct (IH Hs' l h Hl Hh Hlt) as (p & Hp & Hle).
    exists p. split; [right; exact Hp | exact Hle].
Qed.

(** Every non-empty input of the depth map ends one of its intervals. *)
Lemma intervalDepth_hi (el : list ilEntry) (e : ilEntry) :
  In e el -> il_lo e < il_hi e ->
  exists iv, In iv (intervalDepth el) /\ iv_hi iv = il_hi e.
Proof.
  intros He Hlt.
  destruct (breakpoints_In el e He) as [Hlo Hhi].
  destruct (pieces_ending _ (breakpoints_sorted el) _ _ Hlo Hhi Hlt) as (p & Hp & Hle).
  exists (piece_interval el (p, il_hi e)). split; [| reflexivity].
  unfold intervalDepth. apply filter_In. split.
  - apply in_map. exact Hp.
  - unfold piece_interval. simpl iv_depth. apply Z.ltb_lt.
    assert (Hin : In e (List.filter (covers p (il_hi e)) el)).
    { apply filter_In. split; [exact He |]. unfold covers.
      apply andb_true_iff. split; apply Z.leb_le; lia. }
    destruct (List.filter (covers p (il_hi e)) el); [contradiction | simpl; lia].
Qed.

(** The work item of an active read writes [errorMeanU] from scratch: the
    array it leaves is the depth map of the surviving overlaps of the read
    unpacked over an all-zero array. *)
Lemma processRead_errorMeanU (iidMin iter iid : Z) (st st' : ESTstate)
    (p : readErrorEstimate) :
  processRead iidMin iter iid st = Done st' ->
  aget (readProfile st) iid = Done p ->
  seqLen p <> 0 ->
  wf_profile_b p = true ->
  exists (el : list ilEntry) (u : list Z),
    scanRead iidMin st iter iid = Done (overlaps st', el)
    /\ Forall2 (contribution iidMin (readProfile st))
         (List.filter notDiscarded (sliceOf (overlapIndex st) iid (overlaps st'))) el
    /\ aget (readProfile st') iid = Done (set_errorMeanU p u)
    /\ unpackMap (seqLen p) (intervalDepth el)
         (replicate (Z.to_nat (seqLen p + 1)) 0) = Done u
    /\ (forall k : nat,
          Z.of_nat k <= seqLen p ->
          (forall e, In e el -> ~ (il_lo e <= Z.of_nat k < il_hi e)) ->
          u !! k = Some 0)
    /\ (forall k : nat,
          Z.of_nat k <= seqLen p ->
          u !! k = Some 0
          \/ exists iv, In iv (intervalDepth el)
                        /\ iv_lo iv <= Z.of_nat k < iv_hi iv
                        /\ u !! k = Some (eEncOf iv)).
Proof.
  intros Hrun Hp Hnz Hwf.
  destruct (processRead_inv _ _ _ _ _ Hrun) as (q & Hq & Hcase).
  rewrite Hp in Hq. inversion Hq; subst q. clear Hq.
  destruct Hcase as [[Hz _] | (_ & el & u0 & u & Hscan & Hmem & Hun & Hidx & Hrp)];
    [contradiction |].
  destruct (wf_profile_spec p Hwf) as (Hrange & _ & HlenU & _).
  destruct (memsetU_spec _ _ _ (proj1 Hrange) Hmem) as (Hlen0 & Hzero & Hexact).
  destruct (unpackMap_spec _ _ _ _ Hun) as (_ & _ & Hcells).
  destruct (scanRead_spec _ _ _ _ _ _ Hscan) as (_ & _ & _ & Hc).
  assert (Hbase : forall k : nat,
            Z.of_nat k <= seqLen p ->
            u !! k = Some 0
            \/ exists iv, In iv (intervalDepth el)
                          /\ iv_lo iv <= Z.of_nat k < iv_hi iv
                          /\ u !! k = Some (eEncOf iv)).
  { intros k Hk. destruct (Hcells k) as [Hsame | Hiv].
    - left. rewrite Hsame. apply Hzero. exact Hk.
    - right. exact Hiv. }
  exists el, u. split; [exact Hscan |]. split; [exact Hc |]. split; [| split; [| split]].
  - rewrite Hrp. apply aget_Done in Hp. destruct Hp as [Hi Hp].
    apply aget_Done. split; [exact Hi |].
    apply list_lookup_insert_eq. eapply lookup_lt_Some. exact Hp.
  - rewrite <- (Hexact HlenU). exact Hun.
  - intros k Hk Hnone. destruct (Hbase k Hk) as [Hz | (iv & Hin & Hr & _)]; [exact Hz |].
    destruct (intervalDepth_In el iv Hin) as (e & He & Hlo & Hhi).
    exfalso. apply (Hnone e He). lia.
  - exact Hbase.
Qed.

(** ** The checks on the spans *)

Lemma wrap32_add_sub x y : wrap32 (wrap32 (x + y) - y) = wrap32 x.
Proof.
  unfold Z.sub. rewrite wrap32_add_l. f_equal. ring.
Qed.

Lemma mkSpan_inv (o : ESToverlap) rp iidMin (ovl : ESToverlapSpan) :
  mkSpan o rp iidMin = Done ovl ->
  exists pa pb,
    aget rp (wrap32 (a_iid o - iidMin)) = Done pa
    /\ aget rp (wrap32 (b_iid o - iidMin)) = Done pb
    /\ ovl = span_of o (int32_of (seqLen pa)) (int32_of (seqLen pb)).
Proof.
  unfold mkSpan. intros Hmk.
  destruct (aget rp (wrap32 (a_iid o - iidMin))) as [pa | |]; try discriminate.
  destruct (aget rp (wrap32 (b_iid o - iidMin))) as [pb | |]; try discriminate.
  simpl in Hmk. inversion Hmk. exists pa, pb. auto.
Qed.

(** Every span ends at the last cell of one of the two summed-error
    arrays: [b_end] is [seqLenB] when [b_hang < 0], and [a_end] is [seqLenA]
    otherwise. *)
Lemma span_reaches_end (o : ESToverlap) (lenA lenB : Z) :
  0 <= lenA < 2 ^ 31 -> 0 <= lenB < 2 ^ 31 ->
  let sp := span_of o (int32_of lenA) (int32_of lenB) in
  (b_hang o < 0 -> b_end sp = lenB) /\ (0 <= b_hang o -> a_end sp = lenA).
Proof.
  intros HA HB sp. unfold sp, span_of. simpl a_end. simpl b_end.
  rewrite (int32_of_small lenA HA), (int32_of_small lenB HB).
  split; intros Hh.
  - destruct (Z.ltb_spec (b_hang o) 0); [| lia]. apply wrap32_small. lia.
  - destruct (Z.ltb_spec (b_hang o) 0); [lia |]. apply wrap32_small. lia.
Qed.

(** With a hang of 17 bits the end on the first read is inside the read or
    has wrapped around to the top of the 32-bit range. *)
Lemma span_a_end_cases (o : ESToverlap) (lenA lenB : Z) :
  0 <= lenA < 2 ^ 31 -> fits_signed 17 (a_hang o) -> fits_signed 17 (b_hang o) ->
  let sp := span_of o (int32_of lenA) (int32_of lenB) in
  a_beg sp < 2 ^ 16 /\ (a_end sp <= lenA \/ 2 ^ 32 - 2 ^ 16 <= a_end sp).
Proof.
  intros HlenA [Ha1 Ha2] [Hb1 Hb2] sp. simpl in Ha1, Ha2, Hb1, Hb2.
  unfold sp, span_of. simpl a_beg. simpl a_end.
  rewrite (int32_of_small lenA HlenA). split.
  - destruct (Z.ltb_spec (a_hang o) 0); rewrite wrap32_small; lia.
  - destruct (Z.ltb_spec (b_hang o) 0).
    + destruct (Z.neg_nonneg_cases (lenA + b_hang o)) as [Hneg | Hpos].
      * right. rewrite wrap32_neg by lia. lia.
      * left. rewrite wrap32_small by lia. lia.
    + left. rewrite wrap32_small by lia. lia.
Qed.

Lemma sliceOf_In idx (iid : Z) (ovs : list ESToverlap) (k : nat) (o : ESToverlap) :
  inSlice idx iid k -> ovs !! k = Some o -> In o (sliceOf idx iid ovs).
Proof.
  intros (first & last & Hf & Hl & Hk) Ho. unfold sliceOf. rewrite Hf, Hl.
  unfold subrange. apply list_elem_of_In.
  apply list_elem_of_lookup. exists (k - Z.to_nat first)%nat.
  rewrite lookup_take_lt by lia. rewrite lookup_drop.
  replace (Z.to_nat first + (k - Z.to_nat first))%nat with k by lia. exact Ho.
Qed.

Lemma Forall2_filter_In {A B : Type} (R : A -> B -> Prop) (f : A -> bool)
    (l : list A) (l' : list B) (x : A) :
  Forall2 R (List.filter f l) l' -> In x l -> f x = true ->
  exists y, In y l' /\ R x y.
Proof.
  intros HF Hin Hfx.
  assert (Hx : In x (List.filter f l)) by (apply filter_In; auto).
  clear Hin Hfx. induction HF as [| a b la lb Hab HF IH]; [contradiction |].
  destruct Hx as [-> | Hx].
  - exists b. split; [left; reflexivity | exact Hab].
  - destruct (IH Hx) as (y & Hy & HR). exists y. split; [right; exact Hy | exact HR].
Qed.

Lemma examine_abort iidMin rp iter iid (o : ESToverlap) (ovl : ESToverlapSpan) :
  discarded o = false ->
  mkSpan o rp iidMin = Done ovl ->
  a_end ovl < a_beg ovl \/ (0 < iter /\ a_end ovl = a_beg ovl) ->
  examine iidMin rp iter iid o = AssertFailed.
Proof.
  intros Hd Hmk Hbad. unfold examine. rewrite Hd, Hmk. simpl.
  destruct (span_a_iid ovl =? wrap32 (iid + iidMin)); [| reflexivity].
  destruct Hbad as [Hlt | [Hit Heq]].
  - destruct (Z.leb_spec (a_beg ovl) (a_end ovl)); [lia | reflexivity].
  - destruct (Z.leb_spec (a_beg ovl) (a_end ovl)); [| reflexivity].
    destruct (Z.ltb_spec 0 iter); [| lia].
    unfold computeEstimatedErate.
    destruct (Z.ltb_spec (a_beg ovl) (a_end ovl)); [lia | reflexivity].
Qed.

Lemma estimate_bounds iidMin numIIDs (st : ESTstate) (o : ESToverlap)
    (ovl : ESToverlapSpan) (est : double) :
  wf_state_b iidMin numIIDs st = true ->
  mkSpan o (readProfile st) iidMin = Done ovl ->
  computeEstimatedErate iidMin ovl (readProfile st) = Done est ->
  a_beg ovl < a_end ovl /\ b_beg ovl < b_end ovl
  /\ exists pa pb,
       aget (readProfile st) (wrap32 (a_iid o - iidMin)) = Done pa
       /\ aget (readProfile st) (wrap32 (b_iid o - iidMin)) = Done pb
       /\ a_end ovl <= seqLen pa /\ b_end ovl <= seqLen pb.
Proof.
  intros Hwf Hmk Hest.
  destruct (wf_state_spec _ _ _ Hwf) as (_ & Hprof & _).
  destruct (mkSpan_fields _ _ _ _ Hmk) as (Ha & Hb & _).
  destruct (computeEstimatedErate_reads _ _ _ _ Hest)
    as (Hlta & Hltb & pa & pb & Hpa & Hpb & _ & Hae & _ & Hbe).
  rewrite Ha in Hpa. rewrite Hb in Hpb.
  destruct (wf_profile_spec pa (Hprof _ _ Hpa)) as (_ & HlenA & _).
  destruct (wf_profile_spec pb (Hprof _ _ Hpb)) as (_ & HlenB & _).
  split; [exact Hlta |]. split; [exact Hltb |].
  exists pa, pb. repeat split; try assumption; lia.
Qed.

(** The spans a work item builds, when it runs to completion from a
    well-formed state. *)
Lemma processRead_span_checks (iidMin numIIDs iter iid : Z) (st st' : ESTstate)
    (p : readErrorEstimate) :
  wf_state_b iidMin numIIDs st = true ->
  processRead iidMin iter iid st = Done st' ->
  aget (readProfile st) iid = Done p ->
  seqLen p <> 0 ->
  forall (k : nat) (o : ESToverlap),
    inSlice (overlapIndex st) iid k ->
    overlaps st !! k = Some o ->
    discarded o = false ->
    exists ovl,
      mkSpan o (readProfile st) iidMin = Done ovl
      /\ span_a_iid ovl = wrap32 (iid + iidMin)
      /\ a_beg ovl <= a_end ovl
      /\ (overlaps st' !! k = Some o -> a_end ovl <= seqLen p)
      /\ (0 < iter ->
          a_beg ovl < a_end ovl /\ b_beg ovl < b_end ovl
          /\ a_end ovl <= seqLen p
          /\ exists pb,
               aget (readProfile st) (wrap32 (span_b_iid ovl - iidMin)) = Done pb
               /\ b_end ovl <= seqLen pb).
Proof.
  intros Hwf Hrun Hp Hnz.
  destruct (processRead_inv _ _ _ _ _ Hrun) as (q & Hq & Hcase).
  rewrite Hp in Hq. inversion Hq; subst q. clear Hq.
  destruct Hcase as [[Hz _] | (_ & el & u0 & u & Hscan & Hmem & Hun & Hidx & Hrp)];
    [contradiction |].
  destruct (scanRead_spec _ _ _ _ _ _ Hscan) as (_ & _ & Hrange & Hc).
  destruct (unpackMap_spec _ _ _ _ Hun) as (_ & Hhis & _).
  destruct (wf_state_spec _ _ _ Hwf) as (_ & Hprof & Hovs & HiidMin & HnumIIDs & Hlen).
  pose proof (aget_lt _ _ _ Hp) as Hiid.
  assert (Hself : forall o : ESToverlap,
            a_iid o = wrap32 (iid + iidMin) -> wrap32 (a_iid o - iidMin) = iid).
  { intros o ->. rewrite wrap32_add_sub. apply wrap32_small. lia. }
  assert (Hest : forall (o : ESToverlap) (ovl : ESToverlapSpan) (est : double),
            a_iid o = wrap32 (iid + iidMin) ->
            mkSpan o (readProfile st) iidMin = Done ovl ->
            computeEstimatedErate iidMin ovl (readProfile st) = Done est ->
            a_beg ovl < a_end ovl /\ b_beg ovl < b_end ovl
            /\ a_end ovl <= seqLen p
            /\ exists pb,
                 aget (readProfile st) (wrap32 (span_b_iid ovl - iidMin)) = Done pb
                 /\ b_end ovl <= seqLen pb).
  { intros o ovl est Ha Hmk He.
    destruct (estimate_bounds _ _ _ _ _ _ Hwf Hmk He)
      as (H1 & H2 & pa & pb & Hpa & Hpb & Hea & Heb).
    rewrite (Hself o Ha) in Hpa. rewrite Hp in Hpa. inversion Hpa; subst pa.
    destruct (mkSpan_fields _ _ _ _ Hmk) as (_ & Hb & _).
    split; [exact H1 |]. split; [exact H2 |]. split; [exact Hea |].
    exists pb. rewrite Hb. auto. }
  intros k o Hin Ho Hd.
  destruct (Hrange k Hin) as (o2 & v & Ho2 & Hex & Hk).
  rewrite Ho in Ho2. inversion Ho2; subst o2. clear Ho2.
  destruct v as [| | e].
  - apply examine_Skip in Hex. congruence.
  - destruct (examine_Discard _ _ _ _ _ Hex)
      as (_ & Hit & (ovl & est & Hmk & He & _) & Ha & _).
    destruct (mkSpan_fields _ _ _ _ Hmk) as (Hsa & _).
    destruct (Hest o ovl est Ha Hmk He) as (H1 & H2 & H3 & H4).
    exists ovl. split; [exact Hmk |]. split; [congruence |]. split; [lia |].
    split; [| auto].
    intros Hkept. simpl in Hk. rewrite Hk in Hkept. inversion Hkept as [Heq].
    exfalso. exact (set_discarded_neq o Hd Heq).
  - destruct (examine_Keep _ _ _ _ _ _ Hex)
      as (_ & Ha & (ovl' & Hmk' & He') & _ & ovl & Hmk & Hle & Hpos).
    rewrite Hmk in Hmk'. inversion Hmk'; subst ovl'. clear Hmk'.
    destruct (mkSpan_fields _ _ _ _ Hmk) as (Hsa & _).
    exists ovl. split; [exact Hmk |]. split; [congruence |]. split; [exact Hle |].
    split.
    + intros Hkept.
      destruct (mkSpan_inv _ _ _ _ Hmk) as (pa & pb & Hpa & Hpb & Hspan).
      rewrite (Hself o Ha) in Hpa. rewrite Hp in Hpa. inversion Hpa; subst pa.
      destruct (wf_profile_spec p (Hprof _ _ Hp)) as (Hrng & _).
      destruct (Hovs k o Ho) as (_ & _ & Hah & Hbh & _).
      pose proof (span_a_end_cases o (seqLen p) (seqLen pb) Hrng Hah Hbh) as Hcases.
      cbv zeta in Hcases. rewrite <- Hspan in Hcases.
      destruct Hcases as [Hbeg [Hok | Hwrapped]]; [exact Hok |].
      assert (Hne : a_beg ovl < a_end ovl) by (simpl in *; lia).
      assert (Hino : In o (sliceOf (overlapIndex st) iid (overlaps st'))).
      { eapply sliceOf_In; eassumption. }
      destruct (Forall2_filter_In _ _ _ _ o Hc Hino) as (e2 & He2 & ovl2 & Hmk2 & Heq2).
      { unfold notDiscarded. rewrite Hd. reflexivity. }
      rewrite Hmk in Hmk2. inversion Hmk2; subst ovl2.
      destruct (intervalDepth_hi el e2 He2) as (iv & Hiv & Hhi).
      { subst e2. simpl. exact Hne. }
      specialize (Hhis iv Hiv). subst e2. simpl in Hhi. lia.
    + intros Hit. destruct (Hpos Hit) as (est & Hestim).
      exact (Hest o ovl est Ha Hmk Hestim).
Qed.

(** ** The output pass *)

Lemma takeZ_dropZ {A : Type} (l : list A) : forall n : Z, takeZ n l ++ dropZ n l = l.
Proof.
  induction l as [| x l IH]; intros n; simpl; [reflexivity |].
  destruct (0 <? n); simpl; [rewrite IH |]; reflexivity.
Qed.

Lemma takeZ_nonempty {A : Type} (l : list A) (n : Z) :
  0 < n -> l <> [] -> (0 < length (takeZ n l))%nat.
Proof.
  intros Hn Hl. destruct l as [| x l]; [contradiction |]. simpl.
  destruct (Z.ltb_spec 0 n); [simpl; lia | lia].
Qed.

Lemma combine_app_l {A B : Type} (l1 l2 : list A) :
  forall l' : list B,
    combine (l1 ++ l2) l' = combine l1 l' ++ combine l2 (drop (length l1) l').
Proof.
  induction l1 as [| x l1 IH]; intros l'; simpl.
  - rewrite drop_0. reflexivity.
  - destruct l' as [| y l']; simpl.
    + destruct l2; reflexivity.
    + rewrite IH. reflexivity.
Qed.

Lemma lockStep_app (s1 s2 : list ovOverlap) (ovs : list ESToverlap) :
  lockStep (s1 ++ s2) ovs = lockStep s1 ovs && lockStep s2 (drop (length s1) ovs).
Proof. unfold lockStep. rewrite combine_app_l. apply List.forallb_app. Qed.

Lemma retained_app (s1 s2 : list ovOverlap) (ovs : list ESToverlap) :
  retained (s1 ++ s2) ovs = retained s1 ovs ++ retained s2 (drop (length s1) ovs).
Proof.
  unfold retained. rewrite combine_app_l, List.filter_app, List.map_app. reflexivity.
Qed.

Lemma writeBlock_spec (ovs : list ESToverlap) (block : list ovOverlap) :
  forall (no : nat) (out : list ovOverlap),
    (no + length block <= length ovs)%nat ->
    writeBlock block (Z.of_nat no) ovs out =
    if lockStep block (drop no ovs)
    then Done (Z.of_nat (no + length block), out ++ retained block (drop no ovs))
    else AssertFailed.
Proof.
  induction block as [| r block IH]; intros no out Hlen.
  - simpl. rewrite Nat.add_0_r, app_nil_r. reflexivity.
  - simpl in Hlen. simpl writeBlock.
    destruct (lookup_lt_is_Some_2 ovs no) as [o Ho]; [lia |].
    rewrite (proj2 (aget_nat ovs no o) Ho). simpl obind.
    rewrite (drop_S ovs o no Ho).
    unfold lockStep, retained. simpl combine. simpl forallb. simpl List.filter.
    unfold idsAgree at 1. simpl fst. simpl snd.
    destruct (ovl_a_iid r =? a_iid o); [| reflexivity].
    destruct (ovl_b_iid r =? b_iid o); [| reflexivity].
    simpl andb.
    replace (Z.of_nat no + 1) with (Z.of_nat (S no)) by lia.
    unfold notDiscarded at 1. simpl snd.
    destruct (discarded o); simpl negb; cbv iota.
    + rewrite IH by lia. fold (lockStep block (drop (S no) ovs)).
      fold (retained block (drop (S no) ovs)).
      replace (S no + length block)%nat with (no + S (length block))%nat by lia.
      reflexivity.
    + rewrite IH by lia. fold (lockStep block (drop (S no) ovs)).
      fold (retained block (drop (S no) ovs)).
      replace (S no + length block)%nat with (no + S (length block))%nat by lia.
      simpl map. rewrite <- app_assoc. reflexivity.
Qed.

Lemma blockLoop_unfold fuel ovlLen numOvls no stream (ovs : list ESToverlap) out :
  blockLoop fuel ovlLen numOvls no stream ovs out =
  if no <? numOvls then
    match fuel with
    | O => Undefined
    | S fuel' =>
        let block := takeZ ovlLen stream in
        assert! 0 <? Z.of_nat (length block);
        let! r := writeBlock block no ovs out in
        blockLoop fuel' ovlLen numOvls (fst r) (dropZ ovlLen stream) ovs (snd r)
    end
  else Done out.
Proof. destruct fuel; reflexivity. Qed.

(** The loop over the blocks never runs out of fuel: with as many turns as
    records are left, it writes the retained records or stops at a failed
    assertion. *)
Lemma blockLoop_fuel (ovlLen : Z) (ovs : list ESToverlap) (fuel : nat) :
  0 < ovlLen ->
  forall (stream : list ovOverlap) (no : nat) (out : list ovOverlap),
    (length stream <= fuel)%nat ->
    (no + length stream <= length ovs)%nat ->
    blockLoop fuel ovlLen (Z.of_nat (no + length stream)) (Z.of_nat no) stream ovs out =
    if lockStep stream (drop no ovs)
    then Done (out ++ retained stream (drop no ovs))
    else AssertFailed.
Proof.
  intros HovlLen. induction fuel as [| fuel IH]; intros stream no out Hfuel Hlen;
    rewrite blockLoop_unfold.
  - destruct stream; [| simpl in Hfuel; lia].
    simpl length. rewrite Nat.add_0_r, Z.ltb_irrefl.
    unfold lockStep, retained. simpl. rewrite app_nil_r. reflexivity.
  - destruct stream as [| r0 stream0] eqn:Hstream.
    { simpl length. rewrite Nat.add_0_r, Z.ltb_irrefl.
      unfold lockStep, retained. simpl. rewrite app_nil_r. reflexivity. }
    rewrite <- Hstream in *.
    assert (Hne : stream <> []) by (rewrite Hstream; discriminate).
    destruct (Z.ltb_spec (Z.of_nat no) (Z.of_nat (no + length stream))) as [_ | Hbad];
      [| rewrite Hstream in Hbad; simpl in Hbad; lia].
    cbv zeta.
    pose proof (takeZ_nonempty stream ovlLen HovlLen Hne) as Hblock.
    pose proof (takeZ_dropZ stream ovlLen) as Hsplit.
    set (block := takeZ ovlLen stream) in *.
    set (rest := dropZ ovlLen stream) in *.
    assert (Hlens : length stream = (length block + length rest)%nat).
    { rewrite <- Hsplit at 1. apply length_app. }
    destruct (Z.ltb_spec 0 (Z.of_nat (length block))) as [_ | Hbad]; [| lia].
    assert (HL : lockStep stream (drop no ovs)
                 = lockStep block (drop no ovs)
                   && lockStep rest (drop (no + length block) ovs)).
    { rewrite <- Hsplit, lockStep_app, drop_drop. reflexivity. }
    assert (HR : retained stream (drop no ovs)
                 = retained block (drop no ovs)
                   ++ retained rest (drop (no + length block) ovs)).
    { rewrite <- Hsplit, retained_app, drop_drop. reflexivity. }
    rewrite writeBlock_spec by lia. rewrite HL, HR.
    destruct (lockStep block (drop no ovs)); [| reflexivity].
    simpl obind. simpl fst. simpl snd.
    replace (no + length stream)%nat with ((no + length block) + length rest)%nat by lia.
    rewrite IH by lia. simpl andb.
    destruct (lockStep rest (drop (no + length block) ovs)); [| reflexivity].
    rewrite app_assoc. reflexivity.
Qed.

Lemma retained_In (store : list ovOverlap) :
  forall (ovs : list ESToverlap) (r : ovOverlap),
    In r (retained store ovs) <->
    exists (i : nat) (o : ESToverlap),
      store !! i = Some r /\ ovs !! i = Some o /\ discarded o = false.
Proof.
  induction store as [| x store IH]; intros ovs r.
  - unfold retained. simpl. split; [contradiction |].
    intros (i & o & Hi & _). discriminate.
  - destruct ovs as [| y ovs].
    + unfold retained. simpl. split; [contradiction |].
      intros (i & o & _ & Hi & _). discriminate.
    + assert (Hcons : retained (x :: store) (y :: ovs)
                      = if discarded y then retained store ovs
                        else x :: retained store ovs).
      { unfold retained. simpl. unfold notDiscarded at 1. simpl.
        destruct (discarded y); reflexivity. }
      rewrite Hcons. split.
      * intros Hin. destruct (discarded y) eqn:Hy.
        -- apply IH in Hin. destruct Hin as (i & o & H1 & H2 & H3).
           exists (S i), o. auto.
        -- destruct Hin as [<- | Hin].
           ++ exists 0%nat, y. auto.
           ++ apply IH in Hin. destruct Hin as (i & o & H1 & H2 & H3).
              exists (S i), o. auto.
      * intros (i & o & H1 & H2 & H3). destruct i as [| i]; simpl in H1, H2.
        -- inversion H1; inversion H2; subst. rewrite H3. left. reflexivity.
        -- assert (Hin : In r (retained store ovs)) by (apply IH; eauto).
           destruct (discarded y); [exact Hin | right; exact Hin].
Qed.

Lemma retained_sublist (store : list ovOverlap) :
  forall ovs : list ESToverlap, sublist (retained store ovs) store.
Proof.
  induction store as [| x store IH]; intros ovs.
  - unfold retained. simpl. constructor.
  - destruct ovs as [| y ovs].
    + unfold retained. simpl. apply sublist_nil_l.
    + unfold retained. simpl. unfold notDiscarded at 1. simpl.
      destruct (discarded y); simpl.
      * apply sublist_cons. apply IH.
      * apply sublist_skip. apply IH.
Qed.

Lemma lockStep_spec (store : list ovOverlap) :
  forall ovs : list ESToverlap,
    lockStep store ovs = true <->
    forall (i : nat) (r : ovOverlap) (o : ESToverlap),
      store !! i = Some r -> ovs !! i = Some o ->
      ovl_a_iid r = a_iid o /\ ovl_b_iid r = b_iid o.
Proof.
  induction store as [| x store IH]; intros ovs.
  - unfold lockStep. simpl. split; [intros _ i r o Hi; discriminate | reflexivity].
  - destruct ovs as [| y ovs].
    + unfold lockStep. simpl. split; [intros _ i r o _ Hi; discriminate | reflexivity].
    + unfold lockStep. simpl forallb. fold (lockStep store ovs).
      rewrite andb_true_iff, IH. unfold idsAgree. simpl fst. simpl snd.
      rewrite andb_true_iff, !Z.eqb_eq. split.
      * intros [Hxy Hrest] i r o Hi Ho. destruct i as [| i]; simpl in Hi, Ho.
        -- inversion Hi; inversion Ho; subst. exact Hxy.
        -- eapply Hrest; eassumption.
      * intros Hall. split.
        -- apply (Hall 0%nat); reflexivity.
        -- intros i r o Hi Ho. apply (Hall (S i)); assumption.
Qed.

(** C8.  Streaming a store of as many records as the array holds overlaps
    (in blocks of any positive size, in particular of [100000000]), the
    output pass asserts for every position that the record's [a_iid] and
    [b_iid] are those of the overlap at that position; when they all agree
    it writes exactly the records at the positions whose overlap is not
    discarded, unchanged and in the order of the store, and when some do not
    it fails an assertion. *)
Theorem outputOverlaps_writes (ovlLen : Z) (store : list ovOverlap)
    (ovs : list ESToverlap) :
  0 < ovlLen ->
  (length store <= length ovs)%nat ->
  outputOverlapsWith ovlLen (Z.of_nat (length store)) store ovs
    = (if lockStep store ovs then Done (retained store ovs) else AssertFailed)
  /\ outputOverlaps (Z.of_nat (length store)) store ovs
     = (if lockStep store ovs then Done (retained store ovs) else AssertFailed)
  /\ (lockStep store ovs = true <->
      forall (i : nat) (r : ovOverlap) (o : ESToverlap),
        store !! i = Some r -> ovs !! i = Some o ->
        ovl_a_iid r = a_iid o /\ ovl_b_iid r = b_iid o)
  /\ (forall r : ovOverlap,
        In r (retained store ovs) <->
        exists (i : nat) (o : ESToverlap),
          store !! i = Some r /\ ovs !! i = Some o /\ discarded o = false)
  /\ sublist (retained store ovs) store.
Proof.
  intros HovlLen Hlen.
  assert (Hany : forall n : Z, 0 < n ->
            outputOverlapsWith n (Z.of_nat (length store)) store ovs
            = (if lockStep store ovs then Done (retained store ovs) else AssertFailed)).
  { intros n Hn. unfold outputOverlapsWith. rewrite Nat2Z.id.
    pose proof (blockLoop_fuel n ovs (length store) Hn store 0 []) as Hloop.
    simpl in Hloop. rewrite drop_0 in Hloop. apply Hloop; lia. }
  split; [apply Hany; exact HovlLen |].
  split; [apply Hany; lia |].
  split; [apply lockStep_spec |].
  split; [apply retained_In | apply retained_sublist].
Qed.

(** ** Well-formedness is kept by an iteration *)

Lemma wf_profile_intro (p : readErrorEstimate) :
  0 <= seqLen p < 2 ^ 31 ->
  Z.of_nat (length (errorMeanS p)) = seqLen p + 1 ->
  Z.of_nat (length (errorMeanU p)) = seqLen p + 1 ->
  Forall (fun x => 0 <= x < 2 ^ 16) (errorMeanU p) ->
  wf_profile_b p = true.
Proof.
  intros [H0 H1] H2 H3 H4. unfold wf_profile_b. rewrite !andb_true_iff.
  repeat split.
  - apply Z.leb_le. exact H0.
  - apply Z.ltb_lt. exact H1.
  - apply Z.eqb_eq. exact H2.
  - apply Z.eqb_eq. exact H3.
  - apply forallb_forall. intros x Hx. apply list_elem_of_In in Hx.
    pose proof (proj1 (Forall_forall _ _) H4 x Hx) as Hr. simpl in Hr.
    apply andb_true_iff. split; [apply Z.leb_le | apply Z.ltb_lt]; lia.
Qed.

Lemma forallb_Forall {A : Type} (f : A -> bool) (l : list A) :
  forallb f l = true <-> Forall (fun x => f x = true) l.
Proof.
  induction l as [| x l IH]; simpl.
  - split; [constructor | reflexivity].
  - rewrite andb_true_iff, IH. split.
    + intros [Hx Hl]. constructor; assumption.
    + intros Hall. inversion Hall. auto.
Qed.

Lemma processRead_profiles iidMin iter iid (st st' : ESTstate) :
  Forall (fun p => wf_profile_b p = true) (readProfile st) ->
  processRead iidMin iter iid st = Done st' ->
  Forall (fun p => wf_profile_b p = true) (readProfile st').
Proof.
  intros Hall Hrun.
  destruct (processRead_inv _ _ _ _ _ Hrun) as (p & Hp & Hcase).
  destruct Hcase as [[_ ->] | (_ & el & u0 & u & _ & Hmem & Hun & _ & Hrp)];
    [exact Hall |].
  rewrite Hrp. apply Forall_insert; [exact Hall |].
  apply aget_Done in Hp. destruct Hp as [_ Hp].
  pose proof (proj1 (Forall_lookup _ _) Hall _ _ Hp) as Hwf. simpl in Hwf.
  destruct (wf_profile_spec p Hwf) as (Hrange & HlenS & HlenU & HU).
  destruct (memsetU_spec _ _ _ (proj1 Hrange) Hmem) as (Hlen0 & _ & Hexact).
  destruct (unpackMap_spec _ _ _ _ Hun) as (Hlen & _ & Hcells).
  apply wf_profile_intro; simpl; try assumption; [lia |].
  apply Forall_lookup. intros k x Hk.
  destruct (Hcells k) as [Hsame | (iv & _ & _ & Hv)].
  - rewrite Hsame, (Hexact HlenU) in Hk.
    apply lookup_replicate in Hk. destruct Hk as [-> _]. lia.
  - rewrite Hv in Hk. inversion Hk. unfold eEncOf. apply (wrap_range 16). lia.
Qed.

Lemma readLoop_profiles iidMin iter (n : nat) :
  forall (iid : Z) (st st' : ESTstate),
    Forall (fun p => wf_profile_b p = true) (readProfile st) ->
    readLoop iidMin iter n iid st = Done st' ->
    Forall (fun p => wf_profile_b p = true) (readProfile st').
Proof.
  induction n as [| n IH]; intros iid st st' Hall Hrun; simpl in Hrun.
  - inversion Hrun; subst. exact Hall.
  - destruct (processRead iidMin iter iid st) as [st1 | |] eqn:Hstep; try discriminate.
    simpl in Hrun. eapply IH; [| exact Hrun].
    eapply processRead_profiles; eassumption.
Qed.

Lemma sumAll_spec (n : nat) :
  forall (i0 : nat) (rp rp' : list readErrorEstimate),
    sumAll n (Z.of_nat i0) rp = Done rp' ->
    length rp' = length rp
    /\ forall (k : nat) (p : readErrorEstimate),
         rp !! k = Some p ->
         ((i0 <= k < i0 + n)%nat ->
          exists p', rebuildSum p = Done p' /\ rp' !! k = Some p')
         /\ (~ (i0 <= k < i0 + n)%nat -> rp' !! k = Some p).
Proof.
  induction n as [| n IH]; intros i0 rp rp' Hrun; simpl in Hrun.
  - inversion Hrun; subst. split; [reflexivity |].
    intros k p Hk. split; [lia | auto].
  - unfold sumRead in Hrun.
    destruct (aget rp (Z.of_nat i0)) as [p0 | |] eqn:Hp0; try discriminate.
    simpl in Hrun.
    destruct (rebuildSum p0) as [p0' | |] eqn:Hsum; try discriminate.
    simpl in Hrun. rewrite Nat2Z.id in Hrun.
    replace (Z.of_nat i0 + 1) with (Z.of_nat (S i0)) in Hrun by lia.
    apply aget_nat in Hp0.
    destruct (IH _ _ _ Hrun) as [Hlen Hcells].
    rewrite length_insert in Hlen. split; [exact Hlen |].
    intros k p Hk. destruct (Nat.eq_dec k i0) as [-> | Hne].
    + rewrite Hp0 in Hk. inversion Hk; subst p0.
      assert (H1 : <[i0 := p0']> rp !! i0 = Some p0').
      { apply list_lookup_insert_eq. eapply lookup_lt_Some. exact Hp0. }
      destruct (Hcells i0 p0' H1) as [_ Hout].
      split; [| lia]. intros _. exists p0'. split; [exact Hsum | apply Hout; lia].
    + assert (H1 : <[i0 := p0']> rp !! k = Some p).
      { rewrite list_lookup_insert_ne by lia. exact Hk. }
      destruct (Hcells k p H1) as [Hin Hout]. split.
      * intros Hr. apply Hin. lia.
      * intros Hr. apply Hout. lia.
Qed.

Lemma rebuildSum_fields (p p' : readErrorEstimate) :
  rebuildSum p = Done p' ->
  seqLen p' = seqLen p /\ errorMeanU p' = errorMeanU p.
Proof.
  unfold rebuildSum. intros Hrun.
  destruct (seqLen p =? 0); [inversion Hrun; auto |].
  destruct (aget (errorMeanU p) 0) as [u0 | |]; try discriminate. simpl in Hrun.
  destruct (aset (errorMeanS p) 0 u0) as [s0 | |]; try discriminate. simpl in Hrun.
  destruct (sumLoop _ _ _ _) as [s | |]; try discriminate. simpl in Hrun.
  inversion Hrun. auto.
Qed.

(** What an iteration leaves in the profile of a read: the profile the
    first loop left, with [errorMeanS] rewritten by [rebuildSum]. *)
Lemma recomputeErrorProfile_profile iidMin numIIDs (st st' : ESTstate) iter
    (iid : Z) (p' : readErrorEstimate) :
  wf_state_b iidMin numIIDs st = true ->
  recomputeErrorProfile iidMin numIIDs st iter = Done st' ->
  aget (readProfile st') iid = Done p' ->
  exists p1, wf_profile_b p1 = true /\ rebuildSum p1 = Done p'.
Proof.
  intros Hwf Hrun Hp'.
  destruct (recomputeErrorProfile_overlaps _ _ _ _ _ Hrun) as (st1 & Hloop & _ & _ & Hsum).
  destruct (wf_state_spec _ _ _ Hwf) as (HnumIIDs & Hprof & _ & _ & _ & Hlen).
  assert (Hall : Forall (fun p => wf_profile_b p = true) (readProfile st)).
  { apply Forall_lookup. intros k p Hk. apply (Hprof (Z.of_nat k)).
    apply aget_nat. exact Hk. }
  pose proof (readLoop_profiles _ _ _ _ _ _ Hall Hloop) as Hall1.
  destruct (readLoop_spec _ _ _ _ _ _ Hloop) as (_ & Hs & _).
  assert (Hlen1 : length (readProfile st1) = length (readProfile st)).
  { unfold sameSums in Hs.
    rewrite <- (length_map sums (readProfile st1)), <- Hs. apply length_map. }
  change 0 with (Z.of_nat 0) in Hsum.
  destruct (sumAll_spec _ _ _ _ Hsum) as [Hlen' Hcells].
  apply aget_Done in Hp'. destruct Hp' as [Hiid Hp'].
  assert (Hk : (Z.to_nat iid < length (readProfile st1))%nat).
  { apply lookup_lt_Some in Hp'. lia. }
  destruct (lookup_lt_is_Some_2 _ _ Hk) as [p1 Hp1].
  destruct (Hcells _ _ Hp1) as [Hin _].
  destruct Hin as (q & Hq & Hq'); [lia |].
  rewrite Hp' in Hq'. inversion Hq'; subst q.
  exists p1. split; [| exact Hq].
  exact (proj1 (Forall_lookup _ _) Hall1 _ _ Hp1).
Qed.

Lemma rebuildSum_wf (p p' : readErrorEstimate) :
  wf_profile_b p = true -> rebuildSum p = Done p' -> wf_profile_b p' = true.
Proof.
  intros Hwf Hrun.
  destruct (Z.eq_dec (seqLen p) 0) as [Hz | Hnz].
  - unfold rebuildSum in Hrun. rewrite Hz in Hrun. simpl in Hrun.
    inversion Hrun; subst. exact Hwf.
  - destruct (rebuildSum_spec p Hwf Hnz) as (s' & Hrun' & Hlen & _).
    rewrite Hrun' in Hrun. inversion Hrun; subst p'.
    destruct (wf_profile_spec p Hwf) as (Hrange & HlenS & HlenU & HU).
    apply wf_profile_intro; simpl; try assumption. lia.
Qed.

Lemma wf_overlaps_flags iidMin numIIDs idx (ovs ovs' : list ESToverlap) :
  Forall2 (fun o o' => o' = o \/ o' = set_discarded o) ovs ovs' ->
  forall oo : Z,
    wf_overlaps_b iidMin numIIDs idx oo ovs' = wf_overlaps_b iidMin numIIDs idx oo ovs.
Proof.
  induction 1 as [| o o' ovs ovs' Ho _ IH]; intros oo; [reflexivity |].
  simpl. rewrite IH. f_equal. destruct Ho as [-> | ->]; reflexivity.
Qed.

Lemma flagsOnly_Forall2 (ovs ovs' : list ESToverlap) :
  flagsOnly ovs ovs' ->
  Forall2 (fun o o' => o' = o \/ o' = set_discarded o) ovs ovs'.
Proof.
  intros [Hlen Hf]. apply Forall2_same_length_lookup_2; [congruence |].
  intros k o o' Ho Ho'. destruct (Hf k o Ho) as [Hk | Hk];
    rewrite Hk in Ho'; inversion Ho'; auto.
Qed.

(** A completed iteration leaves a well-formed state well-formed, so every
    iteration of a run starts from one. *)
Lemma recomputeErrorProfile_wf iidMin numIIDs (st st' : ESTstate) iter :
  wf_state_b iidMin numIIDs st = true ->
  recomputeErrorProfile iidMin numIIDs st iter = Done st' ->
  wf_state_b iidMin numIIDs st' = true.
Proof.
  intros Hwf Hrun.
  destruct (recomputeErrorProfile_flags _ _ _ _ _ Hrun) as [Hidx Hflags].
  destruct (recomputeErrorProfile_overlaps _ _ _ _ _ Hrun) as (st1 & Hloop & _ & _ & Hsum).
  destruct (readLoop_spec _ _ _ _ _ _ Hloop) as (_ & Hs & _).
  assert (Hlen1 : length (readProfile st1) = length (readProfile st)).
  { unfold sameSums in Hs.
    rewrite <- (length_map sums (readProfile st1)), <- Hs. apply length_map. }
  change 0 with (Z.of_nat 0) in Hsum.
  destruct (sumAll_spec _ _ _ _ Hsum) as [Hlen' Hcells].
  unfold wf_state_b in *. rewrite !andb_true_iff in *.
  destruct Hwf as ((((((H0 & H1) & H2) & H3) & H4) & H5) & H6).
  repeat split; try assumption.
  - apply Z.eqb_eq in H4. apply Z.eqb_eq. lia.
  - apply forallb_Forall. apply forallb_Forall in H5.
    pose proof (readLoop_profiles _ _ _ _ _ _ H5 Hloop) as Hall1.
    apply Forall_lookup. intros k p' Hk.
    assert (Hk1 : (k < length (readProfile st1))%nat).
    { apply lookup_lt_Some in Hk. lia. }
    destruct (lookup_lt_is_Some_2 _ _ Hk1) as [p1 Hp1].
    pose proof (proj1 (Forall_lookup _ _) Hall1 _ _ Hp1) as Hwf1. simpl in Hwf1.
    destruct (Hcells _ _ Hp1) as [Hin Hout].
    destruct (le_lt_dec (Z.to_nat numIIDs) k) as [Hge | Hlt].
    + rewrite Hout in Hk by lia. inversion Hk; subst. exact Hwf1.
    + destruct Hin as (q & Hq & Hq'); [lia |].
      rewrite Hk in Hq'. inversion Hq'; subst q.
      eapply rebuildSum_wf; eassumption.
  - rewrite Hidx. rewrite (wf_overlaps_flags _ _ _ _ _ (flagsOnly_Forall2 _ _ Hflags)).
    exact H6.
Qed.

Lemma runIterations_wf iidMin numIIDs (n : nat) :
  forall (ii : Z) (st st' : ESTstate),
    wf_state_b iidMin numIIDs st = true ->
    runIterations iidMin numIIDs n ii st = Done st' ->
    wf_state_b iidMin numIIDs st' = true.
Proof.
  induction n as [| n IH]; intros ii st st' Hwf Hrun; simpl in Hrun.
  - inversion Hrun; subst. exact Hwf.
  - destruct (recomputeErrorProfile iidMin numIIDs st ii) as [st1 | |] eqn:Hstep;
      try discriminate.
    simpl in Hrun. eapply IH; [| exact Hrun].
    eapply recomputeErrorProfile_wf; eassumption.
Qed.

(** C1, amended.  After an iteration that runs to completion from a
    well-formed state, the profile of every read that is not deleted has
    arrays of [seqLen + 1] cells and holds in [errorMeanS[i]], for every
    [i < seqLen], the 32-bit sum [errorMeanU[0] + ... + errorMeanU[i]] of
    the freshly written [errorMeanU] (the running sum including base [i]; in
    particular [errorMeanS[0]] is [errorMeanU[0]]).  When the total is below
    [2^32] the cells [0 .. seqLen - 1] are non-decreasing, and the
    difference of two of them is the sum of [errorMeanU] over the bases
    after the first and up to the second. *)
Theorem errorMeanS_running_sum (iidMin numIIDs : Z) (st st' : ESTstate) (iter iid : Z)
    (p' : readErrorEstimate) :
  wf_state_b iidMin numIIDs st = true ->
  recomputeErrorProfile iidMin numIIDs st iter = Done st' ->
  aget (readProfile st') iid = Done p' ->
  seqLen p' <> 0 ->
  Z.of_nat (length (errorMeanS p')) = seqLen p' + 1
  /\ Z.of_nat (length (errorMeanU p')) = seqLen p' + 1
  /\ errorMeanS p' !! 0%nat = errorMeanU p' !! 0%nat
  /\ (forall i : nat, Z.of_nat i < seqLen p' ->
        errorMeanS p' !! i = Some (wrap32 (sumU (errorMeanU p') (S i))))
  /\ (sumU (errorMeanU p') (Z.to_nat (seqLen p')) < 2 ^ 32 ->
      forall i j : nat, (i <= j)%nat -> Z.of_nat j < seqLen p' ->
        exists x y,
          errorMeanS p' !! i = Some x /\ errorMeanS p' !! j = Some y /\ x <= y
          /\ y - x = sumU (errorMeanU p') (S j) - sumU (errorMeanU p') (S i)).
Proof.
  intros Hwf Hrun Hp' Hnz.
  destruct (recomputeErrorProfile_profile _ _ _ _ _ _ _ Hwf Hrun Hp') as (p1 & Hwf1 & Hsum).
  destruct (rebuildSum_fields _ _ Hsum) as [Hlen HU].
  destruct (wf_profile_spec p1 Hwf1) as (_ & HlenS & HlenU & _).
  destruct (rebuildSum_spec p1 Hwf1) as (s' & Hrun1 & Hlens' & H0 & Hcells & Hmono);
    [congruence |].
  rewrite Hrun1 in Hsum. inversion Hsum; subst p'. simpl in *.
  split; [lia |]. split; [lia |]. split; [exact H0 |]. split; [exact Hcells |].
  exact Hmono.
Qed.

(** ** A work item inside the loop over the reads *)

Lemma wf_state_intro iidMin numIIDs (st st' : ESTstate) :
  wf_state_b iidMin numIIDs st = true ->
  overlapIndex st' = overlapIndex st ->
  flagsOnly (overlaps st) (overlaps st') ->
  length (readProfile st') = length (readProfile st) ->
  Forall (fun p => wf_profile_b p = true) (readProfile st') ->
  wf_state_b iidMin numIIDs st' = true.
Proof.
  intros Hwf Hidx Hflags Hlen Hall.
  unfold wf_state_b in *. rewrite !andb_true_iff in *.
  destruct Hwf as ((((((H0 & H1) & H2) & H3) & H4) & H5) & H6).
  repeat split; try assumption.
  - apply Z.eqb_eq in H4. apply Z.eqb_eq. lia.
  - apply forallb_Forall. exact Hall.
  - rewrite Hidx. rewrite (wf_overlaps_flags _ _ _ _ _ (flagsOnly_Forall2 _ _ Hflags)).
    exact H6.
Qed.

Lemma wf_state_profiles iidMin numIIDs (st : ESTstate) :
  wf_state_b iidMin numIIDs st = true ->
  Forall (fun p => wf_profile_b p = true) (readProfile st).
Proof.
  unfold wf_state_b. rewrite !andb_true_iff.
  intros ((_ & H5) & _). apply forallb_Forall. exact H5.
Qed.

Lemma sameSums_length rp rp' : sameSums rp rp' -> length rp' = length rp.
Proof.
  unfold sameSums. intros Hs.
  rewrite <- (length_map sums rp'), <- Hs. apply length_map.
Qed.

Lemma sameSums_sym rp rp' : sameSums rp rp' -> sameSums rp' rp.
Proof. unfold sameSums. congruence. Qed.

Lemma processRead_wf iidMin numIIDs iter iid (st st' : ESTstate) :
  wf_state_b iidMin numIIDs st = true ->
  processRead iidMin iter iid st = Done st' ->
  wf_state_b iidMin numIIDs st' = true.
Proof.
  intros Hwf Hrun.
  destruct (processRead_spec _ _ _ _ _ Hrun) as (Hidx & Hs & Hf & _).
  apply (wf_state_intro _ _ st); try assumption.
  - apply sameSums_length. exact Hs.
  - eapply processRead_profiles; [| exact Hrun]. eapply wf_state_profiles. exact Hwf.
Qed.

Lemma readLoop_wf iidMin numIIDs iter (n : nat) :
  forall (iid : Z) (st st' : ESTstate),
    wf_state_b iidMin numIIDs st = true ->
    readLoop iidMin iter n iid st = Done st' ->
    wf_state_b iidMin numIIDs st' = true.
Proof.
  induction n as [| n IH]; intros iid st st' Hwf Hrun; simpl in Hrun.
  - inversion Hrun; subst. exact Hwf.
  - destruct (processRead iidMin iter iid st) as [st1 | |] eqn:Hstep; try discriminate.
    simpl in Hrun. eapply IH; [| exact Hrun].
    eapply processRead_wf; eassumption.
Qed.

(** The loop over the reads, cut at the work item of read [i0 + m]. *)
Lemma readLoop_split iidMin iter (m : nat) :
  forall (n : nat) (i0 : Z) (st st' : ESTstate),
    (m < n)%nat ->
    readLoop iidMin iter n i0 st = Done st' ->
    exists s s1,
      readLoop iidMin iter m i0 st = Done s
      /\ processRead iidMin iter (i0 + Z.of_nat m) s = Done s1
      /\ readLoop iidMin iter (n - m - 1) (i0 + Z.of_nat m + 1) s1 = Done st'.
Proof.
  induction m as [| m IH]; intros n i0 st st' Hlt Hrun.
  - destruct n as [| n]; [lia |]. simpl in Hrun.
    destruct (processRead iidMin iter i0 st) as [s1 | |] eqn:Hstep; try discriminate.
    simpl in Hrun. exists st, s1. rewrite Z.add_0_r.
    replace (S n - 0 - 1)%nat with n by lia. auto.
  - destruct n as [| n]; [lia |]. simpl in Hrun.
    destruct (processRead iidMin iter i0 st) as [t | |] eqn:Hstep; try discriminate.
    simpl in Hrun.
    destruct (IH n (i0 + 1) t st') as (s & s1 & Hpre & Hitem & Hpost); [lia | exact Hrun |].
    exists s, s1. split; [| split].
    + simpl. rewrite Hstep. simpl. exact Hpre.
    + replace (i0 + Z.of_nat (S m)) with (i0 + 1 + Z.of_nat m) by lia. exact Hitem.
    + replace (i0 + Z.of_nat (S m) + 1) with (i0 + 1 + Z.of_nat m + 1) by lia.
      replace (S n - S m - 1)%nat with (n - m - 1)%nat by lia. exact Hpost.
Qed.

Lemma processRead_profile_frame iidMin iter iid (st st' : ESTstate) (k : nat) :
  processRead iidMin iter iid st = Done st' ->
  Z.of_nat k <> iid ->
  readProfile st' !! k = readProfile st !! k.
Proof.
  intros Hrun Hne. destruct (processRead_inv _ _ _ _ _ Hrun) as (p & Hp & Hcase).
  destruct Hcase as [[_ ->] | (_ & el & u0 & u & _ & _ & _ & _ & Hrp)]; [reflexivity |].
  rewrite Hrp. apply list_lookup_insert_ne.
  apply aget_Done in Hp. destruct Hp as [Hi _]. lia.
Qed.

Lemma readLoop_profile_frame iidMin iter (n : nat) :
  forall (i0 : Z) (st st' : ESTstate) (k : nat),
    readLoop iidMin iter n i0 st = Done st' ->
    ~ (i0 <= Z.of_nat k < i0 + Z.of_nat n) ->
    readProfile st' !! k = readProfile st !! k.
Proof.
  induction n as [| n IH]; intros i0 st st' k Hrun Hk; simpl in Hrun.
  - inversion Hrun. reflexivity.
  - destruct (processRead iidMin iter i0 st) as [st1 | |] eqn:Hstep; try discriminate.
    simpl in Hrun. rewrite (IH _ _ _ k Hrun) by lia.
    eapply processRead_profile_frame; [exact Hstep | lia].
Qed.

Lemma wrap32_shift_inj a b c :
  0 <= a < 2 ^ 32 -> 0 <= b < 2 ^ 32 -> wrap32 (a + c) = wrap32 (b + c) -> a = b.
Proof.
  unfold wrap32, wrap. intros Ha Hb Heq.
  pose proof (Z.div_mod (a + c) (2 ^ 32) ltac:(lia)) as H1.
  pose proof (Z.div_mod (b + c) (2 ^ 32) ltac:(lia)) as H2.
  rewrite Heq in H1. lia.
Qed.

(** Once the work item of read [iid] is through, what is not discarded in
    its slice belongs to read [iid]. *)
Lemma processRead_survivors iidMin iter iid (st st' : ESTstate) (k : nat)
    (o' : ESToverlap) :
  processRead iidMin iter iid st = Done st' ->
  activeRead (readProfile st) iid ->
  inSlice (overlapIndex st) iid k ->
  overlaps st' !! k = Some o' ->
  discarded o' = false ->
  a_iid o' = wrap32 (iid + iidMin).
Proof.
  intros Hrun (p & Hp & Hnz) Hin Ho' Hd.
  destruct (processRead_inv _ _ _ _ _ Hrun) as (q & Hq & Hcase).
  rewrite Hp in Hq. inversion Hq; subst q.
  destruct Hcase as [[Hz _] | (_ & el & u0 & u & Hscan & _)]; [contradiction |].
  destruct (scanRead_spec _ _ _ _ _ _ Hscan) as (_ & _ & Hrange & _).
  destruct (Hrange k Hin) as (o & v & Ho & Hex & Hk).
  rewrite Ho' in Hk. inversion Hk; subst o'.
  destruct v as [| | e]; simpl in *.
  - apply examine_Skip in Hex. congruence.
  - discriminate.
  - destruct (examine_Keep _ _ _ _ _ _ Hex) as (_ & Ha & _). exact Ha.
Qed.

Lemma subrange_ext {A : Type} (first : Z) (n : nat) (l l' : list A) :
  (forall k : nat, (Z.to_nat first <= k < Z.to_nat first + n)%nat -> l' !! k = l !! k) ->
  subrange first n l' = subrange first n l.
Proof.
  intros Hext. unfold subrange. apply list_eq. intros i.
  destruct (le_lt_dec n i) as [Hge | Hlt].
  - rewrite !lookup_take_ge by lia. reflexivity.
  - rewrite !lookup_take_lt by lia. rewrite !lookup_drop. apply Hext. lia.
Qed.

Lemma contribution_sameSums iidMin rp rp' (o : ESToverlap) (e : ilEntry) :
  sameSums rp rp' -> contribution iidMin rp o e -> contribution iidMin rp' o e.
Proof.
  intros Hs (ovl & Hmk & He). exists ovl.
  rewrite <- (mkSpan_sameSums o rp rp' iidMin Hs). auto.
Qed.

Lemma readLoop_untouched iidMin iter (n : nat) (i0 : Z) (st st' : ESTstate)
    (j : nat) (o : ESToverlap) :
  readLoop iidMin iter n i0 st = Done st' ->
  overlaps st !! j = Some o ->
  (forall r, i0 <= r < i0 + Z.of_nat n -> a_iid o <> wrap32 (r + iidMin)) ->
  overlaps st' !! j = Some o.
Proof.
  intros Hrun Ho Hother.
  destruct (readLoop_spec _ _ _ _ _ _ Hrun) as (_ & _ & [_ Hf] & Hsound & _).
  destruct (Hf j o Ho) as [Hj | Hj]; [exact Hj |].
  destruct (discarded o) eqn:Hd.
  - rewrite (set_discarded_id o Hd) in Hj. exact Hj.
  - assert (Hne : overlaps st' !! j <> Some o).
    { rewrite Hj. intros Heq. inversion Heq as [Heq'].
      exact (set_discarded_neq o Hd Heq'). }
    destruct (Hsound j o Ho Hne) as (_ & _ & _ & r & Hr & Ha & _).
    exfalso. exact (Hother r Hr Ha).
Qed.

(** The work item of read [k] inside the loop over the reads: the state
    [s] it starts from and the state [s1] it leaves differ from the states
    at the two ends of the loop only in what the other work items write. *)
Lemma readLoop_item iidMin numIIDs iter (st st1 : ESTstate) (k : nat) :
  wf_state_b iidMin numIIDs st = true ->
  readLoop iidMin iter (Z.to_nat numIIDs) 0 st = Done st1 ->
  Z.of_nat k < numIIDs ->
  exists s s1,
    wf_state_b iidMin numIIDs s = true
    /\ processRead iidMin iter (Z.of_nat k) s = Done s1
    /\ overlapIndex s = overlapIndex st
    /\ sameSums (readProfile st) (readProfile s)
    /\ readProfile s !! k = readProfile st !! k
    /\ readProfile st1 !! k = readProfile s1 !! k
    /\ flagsOnly (overlaps st) (overlaps s)
    /\ flagsOnly (overlaps s1) (overlaps st1)
    /\ (forall (j : nat) (o : ESToverlap),
          overlaps st !! j = Some o -> a_iid o = wrap32 (Z.of_nat k + iidMin) ->
          overlaps s !! j = Some o)
    /\ (forall (j : nat) (o1 : ESToverlap),
          overlaps s1 !! j = Some o1 ->
          a_iid o1 = wrap32 (Z.of_nat k + iidMin) \/ discarded o1 = true ->
          overlaps st1 !! j = Some o1).
Proof.
  intros Hwf Hloop Hk.
  destruct (wf_state_spec _ _ _ Hwf) as (_ & _ & _ & _ & HnumIIDs & _).
  destruct (readLoop_split iidMin iter k (Z.to_nat numIIDs) 0 st st1)
    as (s & s1 & Hpre & Hitem & Hpost); [lia | exact Hloop |].
  rewrite Z.add_0_l in Hitem, Hpost.
  destruct (readLoop_spec _ _ _ _ _ _ Hpre) as (Hidx & Hs & Hfpre & _).
  destruct (readLoop_spec _ _ _ _ _ _ Hpost) as (_ & _ & Hfpost & _).
  assert (Hdistinct : forall r, 0 <= r < numIIDs -> r <> Z.of_nat k ->
            wrap32 (Z.of_nat k + iidMin) <> wrap32 (r + iidMin)).
  { intros r Hr Hne Heq. apply Hne. symmetry.
    apply (wrap32_shift_inj (Z.of_nat k) r iidMin); [lia | lia | exact Heq]. }
  exists s, s1.
  split; [eapply readLoop_wf; eassumption |].
  split; [exact Hitem |]. split; [exact Hidx |]. split; [exact Hs |].
  split; [| split; [| split; [exact Hfpre | split; [exact Hfpost | split]]]].
  - eapply readLoop_profile_frame; [exact Hpre | lia].
  - eapply readLoop_profile_frame; [exact Hpost | lia].
  - intros j o Ho Ha. eapply readLoop_untouched; [exact Hpre | exact Ho |].
    intros r Hr. rewrite Ha. apply Hdistinct; lia.
  - intros j o1 Ho1 [Ha | Hd].
    + eapply readLoop_untouched; [exact Hpost | exact Ho1 |].
      intros r Hr. rewrite Ha. apply Hdistinct; lia.
    + eapply flagsOnly_discarded; eassumption.
Qed.

Lemma scanRead_first iidMin (st : ESTstate) iter iid ovs' el (first last : Z) :
  scanRead iidMin st iter iid = Done (ovs', el) ->
  aget (overlapIndex st) iid = Done first ->
  aget (overlapIndex st) (iid + 1) = Done last ->
  last <= first \/ 0 <= first.
Proof.
  unfold scanRead. intros Hrun Hf Hl. rewrite Hf, Hl in Hrun. simpl in Hrun.
  destruct (Z.to_nat (last - first)) as [| n] eqn:Hn; [left; lia |].
  right. simpl in Hrun. rewrite overlapStep_examine in Hrun. simpl fst in Hrun.
  destruct (aget (overlaps st) first) eqn:Hg; try discriminate.
  apply aget_lt in Hg. lia.
Qed.

(** The slice of a read holds the same overlaps at the end of the first
    loop as when the work item of the read was through. *)
Lemma slice_settled iidMin iter iid (s s1 : ESTstate) (ovs : list ESToverlap) :
  processRead iidMin iter iid s = Done s1 ->
  activeRead (readProfile s) iid ->
  length ovs = length (overlaps s1) ->
  (forall (j : nat) (o1 : ESToverlap),
      overlaps s1 !! j = Some o1 ->
      a_iid o1 = wrap32 (iid + iidMin) \/ discarded o1 = true ->
      ovs !! j = Some o1) ->
  sliceOf (overlapIndex s) iid ovs = sliceOf (overlapIndex s) iid (overlaps s1).
Proof.
  intros Hitem Hact Hlen Hkeep. unfold sliceOf.
  destruct (aget (overlapIndex s) iid) as [first | |] eqn:Hf; try reflexivity.
  destruct (aget (overlapIndex s) (iid + 1)) as [last | |] eqn:Hl; try reflexivity.
  destruct (processRead_inv _ _ _ _ _ Hitem) as (q & Hq & Hcase).
  destruct Hact as (p & Hp & Hnz). rewrite Hp in Hq. inversion Hq; subst q.
  destruct Hcase as [[Hz _] | (_ & el & u0 & u & Hscan & _)]; [contradiction |].
  destruct (scanRead_first _ _ _ _ _ _ _ _ Hscan Hf Hl) as [Hempty | Hpos].
  { unfold subrange. replace (Z.to_nat (last - first)) with 0%nat by lia. reflexivity. }
  apply subrange_ext. intros j Hj.
  destruct (overlaps s1 !! j) as [o1 |] eqn:Ho1.
  - apply Hkeep; [exact Ho1 |].
    destruct (discarded o1) eqn:Hd; [right; reflexivity | left].
    eapply processRead_survivors; try eassumption.
    + exists p. auto.
    + exists first, last. split; [exact Hf |]. split; [exact Hl |]. lia.
  - apply lookup_ge_None. apply lookup_ge_None in Ho1. lia.
Qed.

(** What an iteration aggregates for a read that is not deleted: the
    contributions of the overlaps of its slice that are not discarded at the
    end of the iteration, unpacked over an all-zero array. *)
Lemma iteration_aggregation (iidMin numIIDs : Z) (st st' : ESTstate) (iter iid : Z)
    (p' : readErrorEstimate) :
  wf_state_b iidMin numIIDs st = true ->
  recomputeErrorProfile iidMin numIIDs st iter = Done st' ->
  aget (readProfile st') iid = Done p' ->
  seqLen p' <> 0 ->
  0 <= seqLen p'
  /\ exists el : list ilEntry,
       Forall2 (contribution iidMin (readProfile st))
         (List.filter notDiscarded (sliceOf (overlapIndex st) iid (overlaps st'))) el
       /\ unpackMap (seqLen p') (intervalDepth el)
            (replicate (Z.to_nat (seqLen p' + 1)) 0) = Done (errorMeanU p').
Proof.
  intros Hwf Hrun Hp' Hnz.
  destruct (recomputeErrorProfile_overlaps _ _ _ _ _ Hrun)
    as (st1 & Hloop & Hovs & _ & Hsum).
  destruct (wf_state_spec _ _ _ Hwf) as (_ & _ & _ & _ & _ & Hlen).
  destruct (readLoop_spec _ _ _ _ _ _ Hloop) as (_ & Hs1 & _).
  pose proof (sameSums_length _ _ Hs1) as Hlen1.
  change 0 with (Z.of_nat 0) in Hsum.
  destruct (sumAll_spec _ _ _ _ Hsum) as [Hlen' Hcells].
  apply aget_Done in Hp'. destruct Hp' as [Hiid Hp'].
  set (k := Z.to_nat iid).
  assert (Hk : (k < length (readProfile st1))%nat).
  { apply lookup_lt_Some in Hp'. unfold k. lia. }
  destruct (lookup_lt_is_Some_2 _ _ Hk) as [p1 Hp1].
  destruct (Hcells _ _ Hp1) as [Hin _].
  destruct Hin as (q & Hq & Hq'); [lia |].
  fold k in Hp'. rewrite Hp' in Hq'. inversion Hq'; subst q. clear Hq'.
  destruct (rebuildSum_fields _ _ Hq) as [HseqLen HU].
  destruct (readLoop_item iidMin numIIDs iter st st1 k Hwf Hloop)
    as (s & s1 & Hwfs & Hitem & Hidx & Hs & _ & Hsame1 & _ & [Hlenpost _] & _ & Hkeep);
    [lia |].
  replace (Z.of_nat k) with iid in * by (unfold k; lia).
  rewrite Hsame1 in Hp1.
  destruct (processRead_inv _ _ _ _ _ Hitem) as (ps & Hps & Hcase).
  assert (Hps' : readProfile s !! k = Some ps).
  { apply aget_Done in Hps. exact (proj2 Hps). }
  assert (Hnzs : seqLen ps <> 0).
  { destruct Hcase as [[Hz ->] | (Hnzs & _)]; [| exact Hnzs].
    rewrite Hps' in Hp1. inversion Hp1; subst p1. congruence. }
  assert (Hwfps : wf_profile_b ps = true).
  { exact (proj1 (Forall_lookup _ _) (wf_state_profiles _ _ _ Hwfs) _ _ Hps'). }
  destruct (processRead_errorMeanU _ _ _ _ _ _ Hitem Hps Hnzs Hwfps)
    as (el & u & Hscan & Hc & Hget & Hun & _).
  apply aget_Done in Hget. destruct Hget as [_ Hget]. fold k in Hget.
  rewrite Hget in Hp1. inversion Hp1; subst p1. simpl in HseqLen, HU.
  rewrite HseqLen, HU.
  split; [destruct (wf_profile_spec ps Hwfps) as ((H0 & _) & _); exact H0 |].
  exists el. split; [| exact Hun].
  assert (Hslice : sliceOf (overlapIndex s) iid (overlaps st1)
                   = sliceOf (overlapIndex s) iid (overlaps s1)).
  { apply (slice_settled iidMin iter iid s s1); try assumption.
    exists ps. auto. }
  rewrite Hovs, <- Hidx, Hslice.
  eapply Forall2_impl; [exact Hc |].
  intros o e. apply contribution_sameSums. apply sameSums_sym. exact Hs.
Qed.

(** C5, amended.  In an iteration that runs to completion from a
    well-formed state, the span of every overlap that was not discarded
    before and whose first read is not deleted exists and has
    [a_beg <= a_end]; if the overlap is still not discarded after the
    iteration, [a_end <= seqLenA]; and when the iteration index is positive,
    [a_beg < a_end], [b_beg < b_end], [a_end <= seqLenA] and
    [b_end <= seqLenB].  A span with [a_end < a_beg], and for a positive
    iteration index also an empty span, fails an assertion. *)
Theorem span_checks (iidMin numIIDs : Z) (st st' : ESTstate) (iter : Z) :
  wf_state_b iidMin numIIDs st = true ->
  recomputeErrorProfile iidMin numIIDs st iter = Done st' ->
  (forall (k : nat) (o : ESToverlap) (p : readErrorEstimate),
      overlaps st !! k = Some o ->
      discarded o = false ->
      aget (readProfile st) (wrap32 (a_iid o - iidMin)) = Done p ->
      seqLen p <> 0 ->
      exists ovl,
        mkSpan o (readProfile st) iidMin = Done ovl
        /\ a_beg ovl <= a_end ovl
        /\ (overlaps st' !! k = Some o -> a_end ovl <= seqLen p)
        /\ (0 < iter ->
            a_beg ovl < a_end ovl /\ b_beg ovl < b_end ovl
            /\ a_end ovl <= seqLen p
            /\ exists pb,
                 aget (readProfile st) (wrap32 (span_b_iid ovl - iidMin)) = Done pb
                 /\ b_end ovl <= seqLen pb))
  /\ (forall (rp : list readErrorEstimate) (r : Z) (o : ESToverlap)
        (ovl : ESToverlapSpan),
        discarded o = false ->
        mkSpan o rp iidMin = Done ovl ->
        a_end ovl < a_beg ovl \/ (0 < iter /\ a_end ovl = a_beg ovl) ->
        examine iidMin rp iter r o = AssertFailed).
Proof.
  intros Hwf Hrun.
  split; [| intros rp r o ovl; apply examine_abort].
  intros k o p Ho Hd Hp Hnz.
  destruct (recomputeErrorProfile_overlaps _ _ _ _ _ Hrun) as (st1 & Hloop & Hovs & _ & _).
  destruct (wf_state_spec _ _ _ Hwf) as (_ & _ & Hslices & HiidMin & _ & _).
  destruct (Hslices k o Ho) as (Hr & Hin & _ & _ & Hai).
  set (r := wrap32 (a_iid o - iidMin)) in *.
  assert (Hown : a_iid o = wrap32 (r + iidMin)).
  { unfold r. rewrite wrap32_add_l.
    replace (a_iid o - iidMin + iidMin) with (a_iid o) by ring.
    symmetry. apply wrap32_small. lia. }
  destruct (readLoop_item iidMin numIIDs iter st st1 (Z.to_nat r) Hwf Hloop)
    as (s & s1 & Hwfs & Hitem & Hidx & Hs & Hsame & _ & _ & Hfpost & Hpre & _); [lia |].
  rewrite Z2Nat.id in Hitem, Hpre by lia.
  assert (Hps : aget (readProfile s) r = Done p).
  { apply aget_Done in Hp. destruct Hp as [H0 Hp].
    apply aget_Done. split; [exact H0 |]. rewrite Hsame. exact Hp. }
  assert (Hos : overlaps s !! k = Some o) by (apply Hpre; assumption).
  rewrite <- Hidx in Hin.
  destruct (processRead_span_checks _ _ _ _ _ _ _ Hwfs Hitem Hps Hnz k o Hin Hos Hd)
    as (ovl & Hmk & _ & Hle & Hkept & Hpos).
  exists ovl. split; [rewrite (mkSpan_sameSums o _ _ iidMin Hs); exact Hmk |].
  split; [exact Hle |]. split.
  - intros Hend. apply Hkept. rewrite Hovs in Hend.
    destruct (processRead_spec _ _ _ _ _ Hitem) as (_ & _ & [_ Hf] & _).
    destruct (Hf k o Hos) as [Hk | Hk]; [exact Hk |].
    rewrite (flagsOnly_set _ _ _ _ Hfpost Hk) in Hend.
    inversion Hend as [Heq]. exfalso. exact (set_discarded_neq o Hd Heq).
  - intros Hit. destruct (Hpos Hit) as (H1 & H2 & H3 & pb & Hpb & H4).
    split; [exact H1 |]. split; [exact H2 |]. split; [exact H3 |].
    pose proof (sameSums_aget _ _ (wrap32 (span_b_iid ovl - iidMin)) Hs) as Hb.
    rewrite Hpb in Hb.
    destruct (aget (readProfile st) (wrap32 (span_b_iid ovl - iidMin))) as [pb' | |];
      try contradiction.
    exists pb'. split; [reflexivity |].
    unfold sums in Hb. inversion Hb. lia.
Qed.

(** C7.  In an iteration that runs to completion from a well-formed state,
    the [errorMeanU] left for a read that is not deleted is the depth map of
    the overlaps of its slice that are not discarded at the end of the
    iteration, unpacked over an all-zero array of [seqLen + 1] cells,
    whatever the array held before; a base up to [seqLen] inside no such
    overlap's span holds 0, and every other base holds the encoded mean of
    an interval of the depth map that contains it. *)
Theorem errorMeanU_rebuilt (iidMin numIIDs : Z) (st st' : ESTstate) (iter iid : Z)
    (p' : readErrorEstimate) :
  wf_state_b iidMin numIIDs st = true ->
  recomputeErrorProfile iidMin numIIDs st iter = Done st' ->
  aget (readProfile st') iid = Done p' ->
  seqLen p' <> 0 ->
  exists el : list ilEntry,
    Forall2 (contribution iidMin (readProfile st))
      (List.filter notDiscarded (sliceOf (overlapIndex st) iid (overlaps st'))) el
    /\ unpackMap (seqLen p') (intervalDepth el)
         (replicate (Z.to_nat (seqLen p' + 1)) 0) = Done (errorMeanU p')
    /\ (forall k : nat,
          Z.of_nat k <= seqLen p' ->
          (forall e, In e el -> ~ (il_lo e <= Z.of_nat k < il_hi e)) ->
          errorMeanU p' !! k = Some 0)
    /\ (forall k : nat,
          Z.of_nat k <= seqLen p' ->
          errorMeanU p' !! k = Some 0
          \/ exists iv, In iv (intervalDepth el)
                        /\ iv_lo iv <= Z.of_nat k < iv_hi iv
                        /\ errorMeanU p' !! k = Some (eEncOf iv)).
Proof.
  intros Hwf Hrun Hp' Hnz.
  destruct (iteration_aggregation _ _ _ _ _ _ _ Hwf Hrun Hp' Hnz)
    as (Hpos & el & Hc & Hun).
  destruct (unpackMap_spec _ _ _ _ Hun) as (_ & _ & Hcells).
  assert (Hbase : forall k : nat,
            Z.of_nat k <= seqLen p' ->
            errorMeanU p' !! k = Some 0
            \/ exists iv, In iv (intervalDepth el)
                          /\ iv_lo iv <= Z.of_nat k < iv_hi iv
                          /\ errorMeanU p' !! k = Some (eEncOf iv)).
  { intros k Hk. destruct (Hcells k) as [Hsame | Hiv]; [left | right; exact Hiv].
    rewrite Hsame. apply lookup_replicate_2. lia. }
  exists el. split; [exact Hc |]. split; [exact Hun |]. split; [| exact Hbase].
  intros k Hk Hnone. destruct (Hbase k Hk) as [Hz | (iv & Hin & Hr & _)]; [exact Hz |].
  destruct (intervalDepth_In el iv Hin) as (e & He & Hlo & Hhi).
  exfalso. apply (Hnone e He). lia.
Qed.

(** C3.  In an iteration that runs to completion from a well-formed state,
    an overlap gets marked discarded exactly when the iteration index is
    positive, the overlap was not discarded before, and its estimate plus
    0.03, the quotient of 3 by 100 in [double], is below its decoded error
    rate; iteration 0 changes no overlap.  The tolerance is written out in
    the statement, not taken from [ERATE_TOLERANCE].
    The profile the iteration leaves for a read is
    aggregated from the contributions of exactly those overlaps of its slice
    that are not discarded at the end of the iteration, so an overlap
    discarded in it contributes to none; the state it leaves is well-formed
    again, and a set bit stays set through all later iterations, so the
    overlap contributes to none later either. *)
Theorem discard_rule (iidMin numIIDs : Z) (st st' : ESTstate) (iter : Z) :
  wf_state_b iidMin numIIDs st = true ->
  recomputeErrorProfile iidMin numIIDs st iter = Done st' ->
  (forall (k : nat) (o : ESToverlap),
      overlaps st !! k = Some o ->
      exists o',
        overlaps st' !! k = Some o'
        /\ (discarded o = false /\ discarded o' = true
            <-> 0 < iter /\ discarded o = false
                /\ exists (ovl : ESToverlapSpan) (estimate : double),
                     mkSpan o (readProfile st) iidMin = Done ovl
                     /\ computeEstimatedErate iidMin ovl (readProfile st) = Done estimate
                     /\ double_ltb
                          (double_add estimate
                             (double_div (double_of_Z 3) (double_of_Z 100)))
                          (AS_OVS_decodeEvalue (erate o)) = true))
  /\ (iter = 0 -> overlaps st' = overlaps st)
  /\ (forall (iid : Z) (p' : readErrorEstimate),
        aget (readProfile st') iid = Done p' ->
        seqLen p' <> 0 ->
        exists el : list ilEntry,
          Forall2 (contribution iidMin (readProfile st))
            (List.filter notDiscarded (sliceOf (overlapIndex st) iid (overlaps st'))) el
          /\ unpackMap (seqLen p') (intervalDepth el)
               (replicate (Z.to_nat (seqLen p' + 1)) 0) = Done (errorMeanU p'))
  /\ wf_state_b iidMin numIIDs st' = true
  /\ (forall (n : nat) (ii : Z) (st'' : ESTstate),
        runIterations iidMin numIIDs n ii st' = Done st'' ->
        wf_state_b iidMin numIIDs st'' = true
        /\ forall (k : nat) (o' : ESToverlap),
             overlaps st' !! k = Some o' -> discarded o' = true ->
             overlaps st'' !! k = Some o').
Proof.
  intros Hwf Hrun.
  assert (Htest : forall o : ESToverlap,
             judgedInconsistent iidMin (readProfile st) o
             <-> exists (ovl : ESToverlapSpan) (estimate : double),
                   mkSpan o (readProfile st) iidMin = Done ovl
                   /\ computeEstimatedErate iidMin ovl (readProfile st) = Done estimate
                   /\ double_ltb
                        (double_add estimate
                           (double_div (double_of_Z 3) (double_of_Z 100)))
                        (AS_OVS_decodeEvalue (erate o)) = true).
  { intros o. unfold judgedInconsistent, ERATE_TOLERANCE. reflexivity. }
  destruct (recomputeErrorProfile_overlaps _ _ _ _ _ Hrun) as (st1 & Hloop & Hovs & _ & _).
  destruct (readLoop_spec _ _ _ _ _ _ Hloop) as (_ & _ & [Hlen Hf] & Hsound & Hcompl).
  rewrite <- Hovs in Hlen, Hf, Hsound, Hcompl.
  destruct (wf_state_spec _ _ _ Hwf) as (HnumIIDs & _ & Hslices & _).
  split; [| split; [| split; [| split]]].
  - intros k o Ho. destruct (Hf k o Ho) as [Hk | Hk].
    + exists o. split; [exact Hk |]. split.
      * intros [Hd Hd']. congruence.
      * intros (Hit & Hd & Hj). apply Htest in Hj.
        destruct (Hslices k o Ho) as (Hr & Hin & _).
        pose proof (judged_active _ _ _ _ Hwf Hj) as Hact.
        assert (Hset : overlaps st' !! k = Some (set_discarded o)).
        { apply (Hcompl k o (wrap32 (a_iid o - iidMin))); try assumption. lia. }
        rewrite Hk in Hset. inversion Hset as [Heq].
        exfalso. exact (set_discarded_neq o Hd (eq_sym Heq)).
    + exists (set_discarded o). split; [exact Hk |]. split.
      * intros [Hd _].
        assert (Hne : overlaps st' !! k <> Some o).
        { rewrite Hk. intros Heq. inversion Heq as [Heq'].
          exact (set_discarded_neq o Hd Heq'). }
        destruct (Hsound k o Ho Hne) as (_ & Hit & Hj & _).
        apply Htest in Hj. split; [exact Hit |]. split; [exact Hd | exact Hj].
      * intros (_ & Hd & _). split; [exact Hd | reflexivity].
  - intros Hiter. apply list_eq. intros k.
    destruct (overlaps st !! k) as [o |] eqn:Ho.
    + destruct (Hf k o Ho) as [Hk | Hk]; [exact Hk |].
      destruct (discarded o) eqn:Hd.
      * rewrite (set_discarded_id o Hd) in Hk. exact Hk.
      * assert (Hne : overlaps st' !! k <> Some o).
        { rewrite Hk. intros Heq. inversion Heq as [Heq'].
          exact (set_discarded_neq o Hd Heq'). }
        destruct (Hsound k o Ho Hne) as (_ & Hit & _). lia.
    + apply lookup_ge_None. apply lookup_ge_None in Ho. lia.
  - intros iid p' Hp' Hnz.
    destruct (iteration_aggregation _ _ _ _ _ _ _ Hwf Hrun Hp' Hnz) as (_ & el & Hc & Hun).
    exists el. auto.
  - eapply recomputeErrorProfile_wf; eassumption.
  - intros n ii st'' Hlater.
    split; [eapply runIterations_wf; [| exact Hlater];
            eapply recomputeErrorProfile_wf; eassumption |].
    intros k o' Ho' Hd'.
    destruct (runIterations_flags _ _ _ _ _ _ Hlater) as [_ Hfl].
    eapply flagsOnly_discarded; eassumption.
Qed.

End Properties.

(** ** The set-up of [main] and the schedule of the loop *)

Lemma sorted_b_lookup (idx : list Z) :
  sorted_b idx = true ->
  forall (a b : nat) (x y : Z),
    (a <= b)%nat -> idx !! a = Some x -> idx !! b = Some y -> x <= y.
Proof.
  induction idx as [|h t IH]; intros Hs a b x y Hab Ha Hb.
  - discriminate.
  - destruct t as [|h' t'].
    + destruct a, b; simpl in *; try discriminate. inversion Ha; inversion Hb; lia.
    + simpl in Hs. apply andb_true_iff in Hs as (Hh & Hs). apply Z.leb_le in Hh.
      destruct a as [|a], b as [|b]; simpl in Ha, Hb.
      * inversion Ha; inversion Hb; lia.
      * inversion Ha; subst h.
        assert (h' <= y); [|lia].
        apply (IH Hs 0%nat b h' y); [lia|reflexivity|assumption].
      * lia.
      * apply (IH Hs a b x y); [lia|assumption|assumption].
Qed.

Lemma main_range_partition (p partMax nf : Z) :
  0 <= p < partMax -> partMax < 2 ^ 32 -> 0 <= nf -> partMax * nf < 2 ^ 32 ->
  main_range UINT32_MAX UINT32_MAX p partMax nf
  = (p * nf / partMax + 1, (p + 1) * nf / partMax,
     (p + 1) * nf / partMax - p * nf / partMax)
  /\ 0 <= p * nf / partMax <= (p + 1) * nf / partMax
  /\ (p + 1) * nf / partMax <= nf.
Proof.
  intros Hp Hpm32 Hnf Hbound.
  assert (Hpm : 0 < partMax) by lia.
  assert (Hpn : 0 <= p * nf <= (p + 1) * nf) by nia.
  assert (Hpn1 : (p + 1) * nf <= partMax * nf) by nia.
  assert (Hd1 : 0 <= p * nf / partMax) by (apply Z.div_pos; lia).
  assert (Hd2 : p * nf / partMax <= (p + 1) * nf / partMax) by (apply Z.div_le_mono; lia).
  assert (Hd3 : (p + 1) * nf / partMax <= nf).
  { apply Z.div_le_upper_bound; [lia|]. nia. }
  assert (Hnf32 : nf < 2 ^ 32) by nia.
  assert (Hd4 : p * nf / partMax + 1 <= Z.max nf 1).
  { destruct (Z.eq_dec nf 0) as [->|Hn].
    - rewrite Z.mul_0_r, Z.div_0_l by lia. lia.
    - assert (p * nf / partMax < nf); [|lia].
      apply Z.div_lt_upper_bound; [lia|]. nia. }
  split; [|lia].
  unfold main_range.
  destruct (p <? partMax) eqn:E; [|apply Z.ltb_ge in E; lia].
  rewrite Z.add_0_r.
  rewrite (wrap32_small p) by lia.
  rewrite (wrap32_small (p * nf)) by lia.
  rewrite (wrap32_small (p * nf / partMax + 1)) by lia.
  rewrite (wrap32_small (p + 1)) by lia.
  assert (Hlo : (p * nf / partMax + 1 =? UINT32_MAX) = false).
  { apply Z.eqb_neq. unfold UINT32_MAX. intros Heq.
    assert (nf = 2 ^ 32 - 1) by lia.
    assert (partMax = 1) by nia. assert (p = 0) by lia. subst.
    rewrite Z.mul_0_l, Z.div_0_l in Heq by lia. lia. }
  rewrite Hlo.
  assert (Hhi : (if (if p + 1 =? partMax then nf else wrap32 ((p + 1) * nf) / partMax) =? UINT32_MAX
                 then nf
                 else if p + 1 =? partMax then nf else wrap32 ((p + 1) * nf) / partMax)
                = (p + 1) * nf / partMax).
  { destruct (p + 1 =? partMax) eqn:E1.
    - apply Z.eqb_eq in E1. rewrite E1. rewrite (Z.mul_comm partMax nf), Z.div_mul by lia.
      destruct (nf =? UINT32_MAX); reflexivity.
    - apply Z.eqb_neq in E1. rewrite (wrap32_small ((p + 1) * nf)) by lia.
      destruct ((p + 1) * nf / partMax =? UINT32_MAX) eqn:E2; [|reflexivity].
      apply Z.eqb_eq in E2. unfold UINT32_MAX in E2.
      assert (nf = 2 ^ 32 - 1) by lia. nia. }
  rewrite Hhi. f_equal.
  rewrite wrap32_small by lia. lia.
Qed.

Lemma sumU_bound (u : list Z) (B : Z) (k : nat) :
  0 <= B -> Forall (fun x => 0 <= x < B) u -> 0 <= sumU u k <= Z.of_nat k * B.
Proof.
  intros HB Hu. induction k as [|k IH]; [rewrite sumU_0; lia|].
  destruct (u !! k) as [x|] eqn:Hk.
  - rewrite (sumU_S u k x Hk).
    assert (0 <= x < B) by (eapply (proj1 (Forall_lookup _ u) Hu); exact Hk). nia.
  - unfold sumU in *. apply lookup_ge_None in Hk.
    rewrite (take_ge u (S k)) by lia. rewrite (take_ge u k) in IH by lia. nia.
Qed.

Lemma indexLoop_spec (overlapLen : list Z) (n : nat) :
  Forall (fun x => 0 <= x < 2 ^ 32) overlapLen ->
  forall (m : nat) (idx : list Z),
    Z.of_nat (m + n) < 2 ^ 32 ->
    (m + n < length idx)%nat ->
    (m + n < length overlapLen)%nat ->
    idx !! m = Some (sumU (drop 1 overlapLen) m) ->
    exists idx',
      indexLoop n (Z.of_nat m) overlapLen idx = Done idx'
      /\ length idx' = length idx
      /\ (forall k : nat, (k < m)%nat \/ (m + n < k)%nat -> idx' !! k = idx !! k)
      /\ (forall k : nat, (m <= k <= m + n)%nat ->
            idx' !! k = Some (sumU (drop 1 overlapLen) k)).
Proof.
  intros Hlen. induction n as [|n IH]; intros m idx Hm Hli Hlo Hprev; simpl.
  - exists idx. split; [reflexivity|]. split; [reflexivity|]. split; [reflexivity|].
    intros k Hk. replace k with m by lia. assumption.
  - rewrite (proj2 (aget_nat idx m _) Hprev). simpl.
    rewrite wrap32_small by lia.
    replace (Z.of_nat m + 1) with (Z.of_nat (S m)) by lia.
    destruct (lookup_lt_is_Some_2 overlapLen (S m)) as (len & Hl); [lia|].
    rewrite (proj2 (aget_nat overlapLen (S m) len) Hl). simpl.
    rewrite aset_nat by lia. simpl.
    assert (Hd : drop 1 overlapLen !! m = Some len).
    { rewrite lookup_drop. exact Hl. }
    assert (Hsum : wrap64 (sumU (drop 1 overlapLen) m + len) = sumU (drop 1 overlapLen) (S m)).
    { rewrite (sumU_S _ _ _ Hd).
      assert (Hf : Forall (fun x => 0 <= x < 2 ^ 32) (drop 1 overlapLen)).
      { apply Forall_drop. assumption. }
      pose proof (sumU_bound (drop 1 overlapLen) (2 ^ 32) (S m) ltac:(lia) Hf) as Hb.
      rewrite (sumU_S _ _ _ Hd) in Hb.
      unfold wrap64, wrap. apply Z.mod_small. split; [lia|].
      assert (Z.of_nat (S m) * 2 ^ 32 < 2 ^ 64); [|lia].
      change (2 ^ 64) with (2 ^ 32 * 2 ^ 32). nia. }
    rewrite Hsum.
    destruct (IH (S m) (<[S m := sumU (drop 1 overlapLen) (S m)]> idx))
      as (idx' & Hrun & Hl' & Hout & Hin).
    + lia.
    + rewrite length_insert. lia.
    + lia.
    + apply list_lookup_insert_eq. lia.
    + exists idx'. split; [exact Hrun|]. split; [rewrite Hl', length_insert; reflexivity|].
      split.
      * intros k Hk. rewrite Hout by lia. apply list_lookup_insert_ne. lia.
      * intros k Hk. destruct (Nat.eq_dec k m) as [->|Hne].
        -- rewrite Hout by lia. rewrite list_lookup_insert_ne by lia. assumption.
        -- apply Hin. lia.
Qed.

Lemma sorted_b_intro (idx : list Z) :
  (forall (i : nat) (x y : Z), idx !! i = Some x -> idx !! S i = Some y -> x <= y) ->
  sorted_b idx = true.
Proof.
  induction idx as [|h t IH]; intros Hm; [reflexivity|].
  destruct t as [|h' t']; [reflexivity|].
  change (sorted_b (h :: h' :: t')) with ((h <=? h') && sorted_b (h' :: t')).
  apply andb_true_iff. split.
  - apply Z.leb_le. apply (Hm 0%nat); reflexivity.
  - apply IH. intros i x y Hx Hy. apply (Hm (S i)); assumption.
Qed.

(** What [main] leaves in [overlapIndex]. *)
Lemma main_index_spec (numIIDs numOvls : Z) (overlapLen fresh : list Z) :
  0 <= numIIDs < 2 ^ 32 ->
  Z.of_nat (length fresh) = numIIDs + 1 ->
  numIIDs < Z.of_nat (length overlapLen) ->
  Forall (fun x => 0 <= x < 2 ^ 32) overlapLen ->
  exists idx,
    length idx = length fresh
    /\ (forall k : nat, Z.of_nat k <= numIIDs ->
          idx !! k = Some (sumU (drop 1 overlapLen) k))
    /\ main_index numIIDs numOvls overlapLen fresh
       = (if sumU (drop 1 overlapLen) (Z.to_nat numIIDs) =? numOvls
          then Done idx else AssertFailed).
Proof.
  intros Hn Hfresh Hlen Hall. unfold main_index.
  pose proof (aset_nat fresh 0%nat 0 ltac:(lia)) as H0.
  change (Z.of_nat 0) with 0 in H0. rewrite H0. simpl obind.
  destruct (indexLoop_spec overlapLen (Z.to_nat numIIDs) Hall 0%nat (<[0%nat := 0]> fresh))
    as (idx & Hrun & Hl & Hout & Hin).
  - lia.
  - rewrite length_insert. lia.
  - lia.
  - rewrite list_lookup_insert_eq by lia. rewrite sumU_0. reflexivity.
  - exists idx. split; [rewrite Hl, length_insert; reflexivity|]. split.
    + intros k Hk. apply Hin. lia.
    + change (Z.of_nat 0) with 0 in Hrun. rewrite Hrun. simpl obind.
      assert (Hlast : aget idx numIIDs = Done (sumU (drop 1 overlapLen) (Z.to_nat numIIDs))).
      { apply aget_Done. split; [lia|]. apply Hin. lia. }
      rewrite Hlast. reflexivity.
Qed.

Lemma parseArgs_err atoi (argv : list string) :
  forall (n : nat), (length argv <= n)%nat ->
  forall o o', parseArgs atoi argv o = Done o' -> opt_err o <= opt_err o'.
Proof.
  intros n. revert argv. induction n as [|n IH]; intros argv Hn o o' Hrun.
  - destruct argv; [|simpl in Hn; lia]. simpl in Hrun. inversion Hrun. lia.
  - destruct argv as [|a rest]; [simpl in Hrun; inversion Hrun; lia|].
    simpl in Hn. simpl in Hrun.
    repeat match type of Hrun with
           | (if ?b then _ else _) = _ => destruct b
           | match ?l with [] => _ | _ :: _ => _ end = _ => destruct l; simpl in Hn
           end;
      try discriminate;
      try (inversion Hrun; subst; simpl; lia);
      try (apply IH in Hrun; [simpl in Hrun; lia | simpl; lia]).
Qed.

Lemma parseArgs_count_error atoi (argv : list string) :
  forall (n : nat), (length argv <= n)%nat ->
  forall o,
    parseArgs atoi argv (count_error o)
    = let! o' := parseArgs atoi argv o in Done (count_error o').
Proof.
  intros n. revert argv. induction n as [|n IH]; intros argv Hn o.
  - destruct argv; [reflexivity | simpl in Hn; lia].
  - destruct argv as [|a rest]; [reflexivity |].
    simpl in Hn. simpl.
    repeat match goal with
           | |- context [if ?b then _ else _] => destruct b
           | |- context [match ?l with [] => _ | _ :: _ => _ end] =>
               destruct l; simpl in Hn
           end;
      try reflexivity;
      try (apply IH; simpl; lia);
      match goal with
      | |- parseArgs _ _ (?f (count_error ?o1)) = _ =>
          change (f (count_error o1)) with (count_error (f o1)); apply IH; simpl; lia
      end.
Qed.

Lemma parseArgs_no_assert atoi (argv : list string) (o : options) :
  parseArgs atoi argv o <> AssertFailed.
Proof.
  assert (Hgen : forall (n : nat) (argv : list string), (length argv <= n)%nat ->
                 forall o, parseArgs atoi argv o <> AssertFailed).
  { clear argv o. induction n as [|n IH]; intros argv Hn o.
    - destruct argv; [discriminate | simpl in Hn; lia].
    - destruct argv as [|a rest]; [discriminate |].
      simpl in Hn. simpl.
      repeat match goal with
             | |- context [if ?b then _ else _] => destruct b
             | |- context [match ?l with [] => _ | _ :: _ => _ end] =>
                 destruct l; simpl in Hn
             end;
        try discriminate; apply IH; simpl; lia. }
  exact (Hgen (length argv) argv (le_n _) o).
Qed.

Section MoreProperties.

Context `{DoubleOps}.

Lemma sameSums_lookup rp rp' (k : nat) (p : readErrorEstimate) :
  sameSums rp rp' -> rp !! k = Some p ->
  exists p', rp' !! k = Some p' /\ sums p' = sums p.
Proof.
  unfold sameSums. intros Hm Hk.
  assert (Hl : map sums rp !! k = Some (sums p)).
  { rewrite list_lookup_fmap, Hk. reflexivity. }
  rewrite Hm, list_lookup_fmap in Hl.
  destruct (rp' !! k) as [p'|] eqn:E; simpl in Hl; [|discriminate].
  exists p'. split; [reflexivity|congruence].
Qed.

(** A profile after an iteration: the one before it, with [errorMeanU]
    rewritten by the first loop, put through [rebuildSum]. *)
Lemma recomputeErrorProfile_profile_from iidMin numIIDs (st st' : ESTstate) iter
    (k : nat) (p : readErrorEstimate) :
  wf_state_b iidMin numIIDs st = true ->
  recomputeErrorProfile iidMin numIIDs st iter = Done st' ->
  readProfile st !! k = Some p ->
  exists st1 p1 p',
    readLoop iidMin iter (Z.to_nat numIIDs) 0 st = Done st1
    /\ readProfile st1 !! k = Some p1
    /\ readProfile st' !! k = Some p'
    /\ wf_profile_b p1 = true
    /\ sums p1 = sums p
    /\ rebuildSum p1 = Done p'.
Proof.
  intros Hwf Hrun Hk.
  destruct (recomputeErrorProfile_overlaps _ _ _ _ _ Hrun) as (st1 & Hloop & _ & _ & Hsum).
  destruct (readLoop_spec _ _ _ _ _ _ Hloop) as (_ & Hss & _).
  destruct (sameSums_lookup _ _ _ _ Hss Hk) as (p1 & Hk1 & Hs1).
  pose proof (readLoop_wf _ _ _ _ _ _ _ Hwf Hloop) as Hwf1.
  pose proof (wf_state_profiles _ _ _ Hwf1) as Hall.
  destruct (wf_state_spec _ _ _ Hwf1) as (Hn & _ & _ & _ & _ & Hlen).
  destruct (sumAll_spec _ 0%nat _ _ Hsum) as (_ & Hcells).
  destruct (Hcells _ _ Hk1) as (Hin & _).
  apply lookup_lt_Some in Hk1 as Hlt.
  destruct Hin as (p' & Hp' & Hk'); [lia|].
  exists st1, p1, p'. repeat split; try assumption.
  eapply (Forall_lookup_1 _ _ _ _ Hall Hk1).
Qed.

Lemma recomputeErrorProfile_last_cell iidMin numIIDs (st st' : ESTstate) iter
    (k : nat) (p : readErrorEstimate) :
  wf_state_b iidMin numIIDs st = true ->
  recomputeErrorProfile iidMin numIIDs st iter = Done st' ->
  readProfile st !! k = Some p ->
  exists p', readProfile st' !! k = Some p'
             /\ seqLen p' = seqLen p
             /\ errorMeanS p' !! Z.to_nat (seqLen p) = errorMeanS p !! Z.to_nat (seqLen p).
Proof.
  intros Hwf Hrun Hk.
  destruct (recomputeErrorProfile_profile_from _ _ _ _ _ _ _ Hwf Hrun Hk)
    as (st1 & p1 & p' & _ & _ & Hk' & Hwp & Hs & Hre).
  unfold sums in Hs. injection Hs as Hlen HS.
  exists p'. split; [assumption|].
  destruct (rebuildSum_fields _ _ Hre) as (Hl' & _).
  split; [congruence|].
  rewrite <- Hlen, <- HS. apply rebuildSum_last_cell; assumption.
Qed.

(** The first loop leaves the profile of a deleted read alone. *)
Lemma readLoop_deleted iidMin iter (n : nat) :
  forall (i0 : Z) (st st' : ESTstate) (k : nat) (p : readErrorEstimate),
    readLoop iidMin iter n i0 st = Done st' ->
    readProfile st !! k = Some p ->
    seqLen p = 0 ->
    readProfile st' !! k = Some p.
Proof.
  induction n as [|n IH]; intros i0 st st' k p Hrun Hk Hz; simpl in Hrun.
  - inversion Hrun; subst. assumption.
  - destruct (processRead iidMin iter i0 st) as [s1| |] eqn:E1; try discriminate.
    simpl in Hrun.
    apply (IH _ _ _ _ _ Hrun); [|assumption].
    destruct (Z.eq_dec (Z.of_nat k) i0) as [<-|Hne].
    + destruct (processRead_inv _ _ _ _ _ E1) as (q & Hq & [[_ ->]|(Hnz & _)]).
      * assumption.
      * apply aget_nat in Hq. congruence.
    + rewrite (processRead_profile_frame _ _ _ _ _ _ E1 Hne). assumption.
Qed.

Lemma recomputeErrorProfile_deleted iidMin numIIDs (st st' : ESTstate) iter
    (k : nat) (p : readErrorEstimate) :
  wf_state_b iidMin numIIDs st = true ->
  recomputeErrorProfile iidMin numIIDs st iter = Done st' ->
  readProfile st !! k = Some p ->
  seqLen p = 0 ->
  readProfile st' !! k = Some p.
Proof.
  intros Hwf Hrun Hk Hz.
  destruct (recomputeErrorProfile_overlaps _ _ _ _ _ Hrun) as (st1 & Hloop & _ & _ & Hsum).
  pose proof (readLoop_deleted _ _ _ _ _ _ _ _ Hloop Hk Hz) as Hk1.
  destruct (sumAll_spec _ 0%nat _ _ Hsum) as (_ & Hcells).
  destruct (Hcells _ _ Hk1) as (Hin & Hout).
  destruct (Nat.lt_ge_cases k (Z.to_nat numIIDs)) as [Hlt|Hge].
  - destruct Hin as (p' & Hp' & Hk'); [lia|].
    unfold rebuildSum in Hp'. rewrite Hz in Hp'. simpl in Hp'. congruence.
  - apply Hout. lia.
Qed.

(** An overlap whose first read is deleted keeps its flag. *)
Lemma recomputeErrorProfile_deleted_overlap iidMin numIIDs (st st' : ESTstate) iter
    (k : nat) (o : ESToverlap) (p : readErrorEstimate) :
  wf_state_b iidMin numIIDs st = true ->
  recomputeErrorProfile iidMin numIIDs st iter = Done st' ->
  overlaps st !! k = Some o ->
  aget (readProfile st) (wrap32 (a_iid o - iidMin)) = Done p ->
  seqLen p = 0 ->
  overlaps st' !! k = Some o.
Proof.
  intros Hwf Hrun Hk Hp Hz.
  destruct (recomputeErrorProfile_overlaps _ _ _ _ _ Hrun) as (st1 & Hloop & Hov & _ & _).
  rewrite Hov.
  destruct (readLoop_spec _ _ _ _ _ _ Hloop) as (_ & _ & (_ & Hfl) & Hch & _).
  destruct (Hfl _ _ Hk) as [Heq|Heq]; [assumption|].
  destruct (discarded o) eqn:Hd.
  { rewrite Heq, set_discarded_id by assumption. reflexivity. }
  assert (Hne : overlaps st1 !! k <> Some o).
  { rewrite Heq. intros [=E]. apply (set_discarded_neq o Hd). assumption. }
  exfalso.
  destruct (Hch _ _ Hk Hne) as (_ & _ & _ & r & Hr & Ha & (q & Hq & Hnz) & _).
  destruct (wf_state_spec _ _ _ Hwf) as (_ & _ & _ & Hmin & Hnum & _).
  assert (Hrr : wrap32 (a_iid o - iidMin) = r).
  { rewrite Ha. unfold wrap32, wrap.
    rewrite Zminus_mod_idemp_l. replace (r + iidMin - iidMin) with r by lia.
    apply Z.mod_small. lia. }
  rewrite Hrr in Hp. congruence.
Qed.

Lemma sameLengths_aget rp rp' (i : Z) :
  sameLengths rp rp' ->
  match aget rp i, aget rp' i with
  | Done p, Done p' => seqLen p = seqLen p'
  | Undefined, Undefined => True
  | _, _ => False
  end.
Proof.
  intros Hs. unfold aget.
  assert (Hlen : length rp = length rp').
  { rewrite <- (length_map seqLen rp), <- (length_map seqLen rp'). rewrite Hs. reflexivity. }
  rewrite Hlen.
  destruct ((i <? 0) || (Z.of_nat (length rp') <=? i)); [exact I |].
  assert (Hl : seqLen <$> (rp !! Z.to_nat i) = seqLen <$> (rp' !! Z.to_nat i)).
  { rewrite <- !list_lookup_fmap. unfold sameLengths in Hs.
    change (map seqLen rp) with (seqLen <$> rp) in Hs.
    change (map seqLen rp') with (seqLen <$> rp') in Hs. rewrite Hs. reflexivity. }
  destruct (rp !! Z.to_nat i), (rp' !! Z.to_nat i); simpl in Hl;
    try discriminate; [congruence | exact I].
Qed.

Lemma sameSums_sameLengths rp rp' : sameSums rp rp' -> sameLengths rp rp'.
Proof.
  unfold sameSums, sameLengths. intros Hs.
  assert (E : forall l : list readErrorEstimate, map seqLen l = map fst (map sums l)).
  { intros l. rewrite List.map_map. reflexivity. }
  rewrite !E, Hs. reflexivity.
Qed.

Lemma sameLengths_insert rp rp' (i : nat) (p p' : readErrorEstimate) :
  sameLengths rp rp' -> seqLen p = seqLen p' ->
  sameLengths (<[i := p]> rp) (<[i := p']> rp').
Proof.
  unfold sameLengths. intros Hs Hp.
  change (seqLen <$> <[i := p]> rp = seqLen <$> <[i := p']> rp').
  rewrite !list_fmap_insert. rewrite Hp. f_equal. exact Hs.
Qed.

Lemma mkSpan_sameLengths (o : ESToverlap) rp rp' iidMin :
  sameLengths rp rp' -> mkSpan o rp iidMin = mkSpan o rp' iidMin.
Proof.
  intros Hs. unfold mkSpan.
  pose proof (sameLengths_aget rp rp' (wrap32 (a_iid o - iidMin)) Hs) as Ha.
  pose proof (sameLengths_aget rp rp' (wrap32 (b_iid o - iidMin)) Hs) as Hb.
  destruct (aget rp (wrap32 (a_iid o - iidMin))) as [pa | |],
           (aget rp' (wrap32 (a_iid o - iidMin))) as [pa' | |];
    try contradiction; try reflexivity.
  simpl.
  destruct (aget rp (wrap32 (b_iid o - iidMin))) as [pb | |],
           (aget rp' (wrap32 (b_iid o - iidMin))) as [pb' | |];
    try contradiction; try reflexivity.
  simpl. congruence.
Qed.

Lemma contribution_sameLengths iidMin rp rp' (o : ESToverlap) (e : ilEntry) :
  sameLengths rp rp' -> contribution iidMin rp o e -> contribution iidMin rp' o e.
Proof.
  intros Hs (ovl & Hmk & He). exists ovl.
  rewrite <- (mkSpan_sameLengths o rp rp' iidMin Hs). auto.
Qed.

Lemma contribution_functional iidMin rp (o : ESToverlap) (e e' : ilEntry) :
  contribution iidMin rp o e -> contribution iidMin rp o e' -> e = e'.
Proof.
  intros (ovl & Hmk & He) (ovl' & Hmk' & He'). congruence.
Qed.

Lemma Forall2_functional {A B : Type} (R : A -> B -> Prop) (l : list A) :
  (forall a b b', R a b -> R a b' -> b = b') ->
  forall k k' : list B, Forall2 R l k -> Forall2 R l k' -> k = k'.
Proof.
  intros Hf. induction l as [|a l IH]; intros k k' H1 H2.
  - inversion H1; inversion H2; reflexivity.
  - inversion H1; subst. inversion H2; subst. f_equal; eauto.
Qed.

(** In the first iteration the verdict on an overlap depends on the
    profiles through the lengths of the reads only. *)
Lemma examine_first_iteration iidMin rp rp' iter iid (o : ESToverlap) :
  iter <= 0 -> sameLengths rp rp' ->
  examine iidMin rp iter iid o = examine iidMin rp' iter iid o.
Proof.
  intros Hi Hs. unfold examine.
  rewrite (mkSpan_sameLengths o rp rp' iidMin Hs).
  destruct (0 <? iter) eqn:E; [apply Z.ltb_lt in E; lia|]. reflexivity.
Qed.

Lemma scanOverlaps_ext iidMin rp rp' iter iter' iid (n : nat) :
  (forall o, examine iidMin rp iter iid o = examine iidMin rp' iter' iid o) ->
  forall (oo : Z) acc,
    scanOverlaps iidMin rp iter iid n oo acc = scanOverlaps iidMin rp' iter' iid n oo acc.
Proof.
  intros He. induction n as [|n IH]; intros oo acc; simpl; [reflexivity|].
  rewrite !overlapStep_examine.
  destruct (aget (fst acc) oo) as [o| |]; simpl; try reflexivity.
  rewrite He. destruct (examine iidMin rp' iter' iid o); simpl; try reflexivity.
  apply IH.
Qed.

Lemma rebuildSum_total (p : readErrorEstimate) :
  wf_profile_b p = true -> exists p', rebuildSum p = Done p'.
Proof.
  intros Hwf. destruct (Z.eq_dec (seqLen p) 0) as [Hz|Hnz].
  - exists p. unfold rebuildSum. rewrite Hz. reflexivity.
  - destruct (rebuildSum_spec p Hwf Hnz) as (s' & Hs & _). eauto.
Qed.

Lemma sumAll_total (n : nat) :
  forall (i0 : nat) (rp : list readErrorEstimate),
    Forall (fun p => wf_profile_b p = true) rp ->
    (i0 + n <= length rp)%nat ->
    exists rp', sumAll n (Z.of_nat i0) rp = Done rp'.
Proof.
  induction n as [|n IH]; intros i0 rp Hall Hlen; simpl.
  - eauto.
  - unfold sumRead.
    destruct (lookup_lt_is_Some_2 rp i0) as (p & Hp); [lia|].
    rewrite (proj2 (aget_nat rp i0 p) Hp). simpl.
    pose proof (Forall_lookup_1 _ _ _ _ Hall Hp) as Hwp.
    destruct (rebuildSum_total p Hwp) as (p' & Hp'). rewrite Hp'. simpl.
    replace (Z.of_nat i0 + 1) with (Z.of_nat (S i0)) by lia.
    rewrite Nat2Z.id.
    apply IH.
    + apply Forall_insert; [assumption|]. exact (rebuildSum_wf _ _ Hwp Hp').
    + rewrite length_insert. lia.
Qed.

Lemma memsetU_wf (p : readErrorEstimate) :
  wf_profile_b p = true ->
  memsetU (errorMeanU p) (seqLen p) = Done (replicate (Z.to_nat (seqLen p + 1)) 0).
Proof.
  intros Hwf. destruct (wf_profile_spec p Hwf) as (Hr & _ & Hu & _).
  unfold memsetU. destruct (Z.of_nat (length (errorMeanU p)) <? seqLen p + 1) eqn:E.
  - apply Z.ltb_lt in E. lia.
  - rewrite drop_ge by lia. rewrite app_nil_r. reflexivity.
Qed.

Lemma scanRead_first_iteration iidMin iter iid (s1 s2 : ESTstate) :
  iter <= 0 ->
  overlapIndex s1 = overlapIndex s2 -> overlaps s1 = overlaps s2 ->
  sameLengths (readProfile s1) (readProfile s2) ->
  scanRead iidMin s1 iter iid = scanRead iidMin s2 iter iid.
Proof.
  intros Hi Hidx Hov Hs. unfold scanRead. rewrite Hidx, Hov.
  destruct (aget (overlapIndex s2) iid); simpl; try reflexivity.
  destruct (aget (overlapIndex s2) (iid + 1)); simpl; try reflexivity.
  apply scanOverlaps_ext. intros o. apply examine_first_iteration; assumption.
Qed.

Lemma processRead_first_iteration iidMin iter iid (s1 s2 s1' : ESTstate) :
  iter <= 0 ->
  overlapIndex s1 = overlapIndex s2 -> overlaps s1 = overlaps s2 ->
  sameLengths (readProfile s1) (readProfile s2) ->
  Forall (fun p => wf_profile_b p = true) (readProfile s1) ->
  Forall (fun p => wf_profile_b p = true) (readProfile s2) ->
  processRead iidMin iter iid s1 = Done s1' ->
  exists s2',
    processRead iidMin iter iid s2 = Done s2'
    /\ overlapIndex s1' = overlapIndex s2' /\ overlaps s1' = overlaps s2'
    /\ sameLengths (readProfile s1') (readProfile s2')
    /\ (forall p1', aget (readProfile s1') iid = Done p1' -> seqLen p1' <> 0 ->
          exists p2', aget (readProfile s2') iid = Done p2'
                      /\ errorMeanU p2' = errorMeanU p1').
Proof.
  intros Hi Hidx Hov Hs Hw1 Hw2 Hrun.
  destruct (processRead_inv _ _ _ _ _ Hrun) as (p1 & Hp1 & Hcase).
  pose proof (sameLengths_aget _ _ iid Hs) as Hag. rewrite Hp1 in Hag.
  destruct (aget (readProfile s2) iid) as [p2| |] eqn:Hp2; try contradiction.
  unfold processRead. rewrite Hp2. simpl.
  destruct Hcase as [(Hz & ->)|(Hnz & el & u0 & u & Hscan & Hmem & Hun & Hidx' & Hrp')].
  - rewrite <- Hag, Hz. simpl. exists s2. repeat split; try assumption.
    intros p1' Hp1' Hne. congruence.
  - destruct (seqLen p2 =? 0) eqn:E; [apply Z.eqb_eq in E; congruence|].
    rewrite <- (scanRead_first_iteration iidMin iter iid s1 s2 Hi Hidx Hov Hs).
    rewrite Hscan. simpl.
    destruct (aget_Done (readProfile s1) iid p1) as [Hd1 _]. destruct (Hd1 Hp1) as (Hi0 & Hl1).
    destruct (aget_Done (readProfile s2) iid p2) as [Hd2 _]. destruct (Hd2 Hp2) as (_ & Hl2).
    pose proof (Forall_lookup_1 _ _ _ _ Hw1 Hl1) as Hwp1.
    pose proof (Forall_lookup_1 _ _ _ _ Hw2 Hl2) as Hwp2.
    rewrite (memsetU_wf p2 Hwp2). simpl.
    rewrite (memsetU_wf p1 Hwp1) in Hmem. inversion Hmem; subst u0.
    rewrite <- Hag. rewrite Hun. simpl.
    eexists. split; [reflexivity|]. simpl.
    split; [congruence|]. split; [reflexivity|]. split.
    + rewrite Hrp'. apply sameLengths_insert; [assumption|]. simpl. assumption.
    + intros p1' Hp1' _. rewrite Hrp' in Hp1'.
      apply aget_Done in Hp1' as (_ & Hp1').
      rewrite list_lookup_insert_eq in Hp1' by (eapply lookup_lt_Some; eassumption).
      inversion Hp1'; subst p1'.
      exists (set_errorMeanU p2 u). split; [|reflexivity].
      apply aget_Done. split; [assumption|].
      apply list_lookup_insert_eq. eapply lookup_lt_Some; eassumption.
Qed.

Lemma readLoop_first_iteration iidMin iter (n : nat) :
  iter <= 0 ->
  forall (i0 : nat) (s1 s2 s1' : ESTstate),
    overlapIndex s1 = overlapIndex s2 -> overlaps s1 = overlaps s2 ->
    sameLengths (readProfile s1) (readProfile s2) ->
    Forall (fun p => wf_profile_b p = true) (readProfile s1) ->
    Forall (fun p => wf_profile_b p = true) (readProfile s2) ->
    readLoop iidMin iter n (Z.of_nat i0) s1 = Done s1' ->
    exists s2',
      readLoop iidMin iter n (Z.of_nat i0) s2 = Done s2'
      /\ overlapIndex s1' = overlapIndex s2' /\ overlaps s1' = overlaps s2'
      /\ sameLengths (readProfile s1') (readProfile s2')
      /\ forall (k : nat) (p1' : readErrorEstimate),
           (i0 <= k < i0 + n)%nat ->
           readProfile s1' !! k = Some p1' -> seqLen p1' <> 0 ->
           exists p2', readProfile s2' !! k = Some p2'
                       /\ errorMeanU p2' = errorMeanU p1'.
Proof.
  intros Hi. induction n as [|n IH];
    intros i0 s1 s2 s1' Hidx Hov Hs Hw1 Hw2 Hrun; simpl in Hrun |- *.
  - inversion Hrun; subst s1'. exists s2. repeat split; try assumption. intros; lia.
  - destruct (processRead iidMin iter (Z.of_nat i0) s1) as [t1| |] eqn:E1; try discriminate.
    simpl in Hrun.
    destruct (processRead_first_iteration _ _ _ _ _ _ Hi Hidx Hov Hs Hw1 Hw2 E1)
      as (t2 & E2 & Hidx' & Hov' & Hs' & Hu).
    rewrite E2. simpl.
    pose proof (processRead_profiles _ _ _ _ _ Hw1 E1) as Hw1'.
    pose proof (processRead_profiles _ _ _ _ _ Hw2 E2) as Hw2'.
    replace (Z.of_nat i0 + 1) with (Z.of_nat (S i0)) in Hrun |- * by lia.
    destruct (IH _ _ _ _ Hidx' Hov' Hs' Hw1' Hw2' Hrun)
      as (s2' & Hrun2 & Hidx'' & Hov'' & Hs'' & Hrest).
    exists s2'. repeat split; try assumption.
    intros k p1' Hk Hp1' Hnz.
    destruct (Nat.eq_dec k i0) as [->|Hne].
    + assert (Hfr1 : readProfile s1' !! i0 = readProfile t1 !! i0).
      { eapply readLoop_profile_frame; [eassumption|]. lia. }
      assert (Hfr2 : readProfile s2' !! i0 = readProfile t2 !! i0).
      { eapply readLoop_profile_frame; [eassumption|]. lia. }
      rewrite Hfr1 in Hp1'. rewrite Hfr2.
      destruct (Hu p1') as (p2' & Hp2' & HU); [apply aget_nat; assumption|assumption|].
      exists p2'. split; [apply aget_nat; assumption|assumption].
    + apply Hrest; [lia|assumption|assumption].
Qed.

Lemma rebuildSum_take (p1 p2 p1' p2' : readErrorEstimate) :
  wf_profile_b p1 = true -> wf_profile_b p2 = true ->
  seqLen p1 = seqLen p2 -> errorMeanU p1 = errorMeanU p2 ->
  rebuildSum p1 = Done p1' -> rebuildSum p2 = Done p2' ->
  take (Z.to_nat (seqLen p1)) (errorMeanS p1') = take (Z.to_nat (seqLen p1)) (errorMeanS p2').
Proof.
  intros Hw1 Hw2 Hl HU H1 H2.
  destruct (Z.eq_dec (seqLen p1) 0) as [Hz|Hnz].
  { rewrite Hz. reflexivity. }
  destruct (rebuildSum_spec p1 Hw1 Hnz) as (s1 & E1 & Hlen1 & _ & Hc1 & _).
  destruct (rebuildSum_spec p2 Hw2) as (s2 & E2 & Hlen2 & _ & Hc2 & _); [congruence|].
  rewrite E1 in H1. rewrite E2 in H2. inversion H1; inversion H2; subst. simpl.
  destruct (wf_profile_spec p1 Hw1) as (Hr1 & HS1 & _).
  destruct (wf_profile_spec p2 Hw2) as (Hr2 & HS2 & _).
  apply list_eq. intros i.
  destruct (Nat.lt_ge_cases i (Z.to_nat (seqLen p1))) as [Hlt|Hge].
  - rewrite !lookup_take_lt by assumption.
    rewrite Hc1 by lia. rewrite Hc2 by lia. rewrite HU. reflexivity.
  - rewrite !lookup_take_ge by assumption. reflexivity.
Qed.

(** The iteration index matters only as zero or not. *)
Lemma recomputeErrorProfile_later iidMin numIIDs (st : ESTstate) (i j : Z) :
  0 < i -> 0 < j ->
  recomputeErrorProfile iidMin numIIDs st i = recomputeErrorProfile iidMin numIIDs st j.
Proof.
  intros Hi Hj.
  assert (Hex : forall rp iid o, examine iidMin rp i iid o = examine iidMin rp j iid o).
  { intros rp iid o. unfold examine.
    destruct (0 <? i) eqn:Ei; [|apply Z.ltb_ge in Ei; lia].
    destruct (0 <? j) eqn:Ej; [|apply Z.ltb_ge in Ej; lia]. reflexivity. }
  assert (Hpr : forall iid s, processRead iidMin i iid s = processRead iidMin j iid s).
  { intros iid s. unfold processRead, scanRead.
    destruct (aget (readProfile s) iid) as [p| |]; simpl; try reflexivity.
    destruct (seqLen p =? 0); [reflexivity|].
    destruct (aget (overlapIndex s) iid); simpl; try reflexivity.
    destruct (aget (overlapIndex s) (iid + 1)); simpl; try reflexivity.
    rewrite (scanOverlaps_ext iidMin (readProfile s) (readProfile s) i j iid _ (Hex _ iid)).
    reflexivity. }
  assert (Hlo : forall n iid s, readLoop iidMin i n iid s = readLoop iidMin j n iid s).
  { induction n as [|n IH]; intros iid s; simpl; [reflexivity|].
    rewrite Hpr. destruct (processRead iidMin j iid s); simpl; try reflexivity. apply IH. }
  unfold recomputeErrorProfile. rewrite Hlo. reflexivity.
Qed.

Lemma sumAll_sameLengths (n : nat) (i0 : nat) (rp rp' : list readErrorEstimate) :
  sumAll n (Z.of_nat i0) rp = Done rp' -> sameLengths rp rp'.
Proof.
  intros Hsum. destruct (sumAll_spec _ _ _ _ Hsum) as (Hlen & Hc).
  unfold sameLengths. change (seqLen <$> rp = seqLen <$> rp').
  apply list_eq. intros k. rewrite !list_lookup_fmap.
  destruct (rp !! k) as [p|] eqn:Hk.
  - destruct (Hc _ _ Hk) as (Hin & Hout).
    destruct (decide (i0 <= k < i0 + n)%nat) as [Hr|Hr].
    + destruct (Hin Hr) as (p' & Hre & Hk'). rewrite Hk'. simpl.
      destruct (rebuildSum_fields _ _ Hre) as (-> & _). reflexivity.
    + rewrite (Hout Hr). reflexivity.
  - apply lookup_ge_None in Hk.
    rewrite (proj2 (lookup_ge_None rp' k)) by lia. reflexivity.
Qed.

Lemma recomputeErrorProfile_sameLengths iidMin numIIDs (st st' : ESTstate) iter :
  recomputeErrorProfile iidMin numIIDs st iter = Done st' ->
  sameLengths (readProfile st) (readProfile st').
Proof.
  intros Hrun.
  destruct (recomputeErrorProfile_overlaps _ _ _ _ _ Hrun) as (st1 & Hloop & _ & _ & Hsum).
  destruct (readLoop_spec _ _ _ _ _ _ Hloop) as (_ & Hss & _).
  apply sameSums_sameLengths in Hss.
  pose proof (sumAll_sameLengths _ 0%nat _ _ Hsum) as Hs2.
  unfold sameLengths in *. congruence.
Qed.

(** [rebuildSum] gives the same sums on two profiles that agree on
    [errorMeanU] and on the last cell of [errorMeanS]. *)
Lemma rebuildSum_agree (q0 q p1 p2 : readErrorEstimate) :
  wf_profile_b q0 = true -> wf_profile_b q = true ->
  rebuildSum q0 = Done p1 -> rebuildSum q = Done p2 ->
  seqLen q = seqLen q0 -> errorMeanU q = errorMeanU q0 ->
  errorMeanS q = errorMeanS p1 ->
  p2 = p1.
Proof.
  intros Hw0 Hw Hr0 Hr Hl HU HS.
  destruct (Z.eq_dec (seqLen q0) 0) as [Hz|Hnz].
  { unfold rebuildSum in Hr0, Hr. rewrite Hz in Hr0. rewrite Hl, Hz in Hr. simpl in *.
    inversion Hr0; inversion Hr; subst.
    destruct p1, p2; simpl in *; congruence. }
  pose proof (rebuildSum_last_cell _ _ Hw Hr) as Hlast.
  destruct (rebuildSum_spec q0 Hw0 Hnz) as (s0 & E0 & Hlen0 & _ & Hc0 & _).
  destruct (rebuildSum_spec q Hw) as (s & E & Hlen & _ & Hc & _); [congruence|].
  rewrite E0 in Hr0. rewrite E in Hr. inversion Hr0; inversion Hr; subst p1 p2.
  simpl in HS, Hlast.
  destruct (wf_profile_spec q0 Hw0) as (Hr1 & HS1 & _).
  destruct (wf_profile_spec q Hw) as (Hr2 & HS2 & _).
  unfold set_errorMeanS. rewrite Hl, HU. f_equal.
  apply list_eq. intros k.
  destruct (Z_lt_ge_dec (Z.of_nat k) (seqLen q0)) as [Hlt|Hge].
  - rewrite Hc by lia. rewrite Hc0 by lia. rewrite HU. reflexivity.
  - destruct (Z.eq_dec (Z.of_nat k) (seqLen q0)) as [He|Hne].
    + replace k with (Z.to_nat (seqLen q)) by lia. rewrite Hlast, HS. reflexivity.
    + rewrite (proj2 (lookup_ge_None s k)) by lia.
      rewrite (proj2 (lookup_ge_None s0 k)) by lia. reflexivity.
Qed.

Lemma examine_sameSums iidMin rp rp' iter iid (o : ESToverlap) :
  sameSums rp rp' -> examine iidMin rp iter iid o = examine iidMin rp' iter iid o.
Proof.
  intros Hs. unfold examine.
  rewrite (mkSpan_sameSums o rp rp' iidMin Hs).
  destruct (discarded o); [reflexivity|].
  destruct (mkSpan o rp' iidMin) as [ovl| |]; simpl; try reflexivity.
  rewrite (computeEstimatedErate_sameSums iidMin ovl rp rp' Hs). reflexivity.
Qed.

Lemma inSlice_dec idx (iid : Z) (k : nat) : inSlice idx iid k \/ ~ inSlice idx iid k.
Proof.
  unfold inSlice.
  destruct (aget idx iid) as [first| |] eqn:Hf;
    [|right; intros (f & l & Hf' & _); discriminate
     |right; intros (f & l & Hf' & _); discriminate].
  destruct (aget idx (iid + 1)) as [last| |] eqn:Hl;
    [|right; intros (f & l & _ & Hl' & _); discriminate
     |right; intros (f & l & _ & Hl' & _); discriminate].
  destruct (Z_le_dec first (Z.of_nat k)) as [H1|H1];
    [|right; intros (f & l & Hf' & Hl' & Hk); inversion Hf'; inversion Hl'; lia].
  destruct (Z_lt_dec (Z.of_nat k) last) as [H2|H2];
    [|right; intros (f & l & Hf' & Hl' & Hk); inversion Hf'; inversion Hl'; lia].
  left. exists first, last. auto.
Qed.

(** With a non-decreasing index the slices of two reads are disjoint. *)
Lemma slices_disjoint idx (i j : Z) (k : nat) :
  sorted_b idx = true -> i <> j ->
  inSlice idx i k -> inSlice idx j k -> False.
Proof.
  intros Hs Hne (fi & li & Hfi & Hli & Hki) (fj & lj & Hfj & Hlj & Hkj).
  apply aget_Done in Hfi as (Hi0 & Hfi). apply aget_Done in Hli as (_ & Hli).
  apply aget_Done in Hfj as (Hj0 & Hfj). apply aget_Done in Hlj as (_ & Hlj).
  destruct (Z_lt_ge_dec i j) as [Hlt|Hge].
  - assert (li <= fj); [|lia].
    apply (sorted_b_lookup idx Hs (Z.to_nat (i + 1)) (Z.to_nat j)); [lia|assumption|assumption].
  - assert (lj <= fi); [|lia].
    apply (sorted_b_lookup idx Hs (Z.to_nat (j + 1)) (Z.to_nat i)); [lia|assumption|assumption].
Qed.

Lemma scanOverlaps_local iidMin rp rp' iter iid (n : nat) :
  (forall o, examine iidMin rp iter iid o = examine iidMin rp' iter iid o) ->
  forall (oo : nat) (ovsA ovsB : list ESToverlap) (el : list ilEntry) ovsA' el',
    length ovsA = length ovsB ->
    (forall k : nat, (oo <= k < oo + n)%nat -> ovsB !! k = ovsA !! k) ->
    scanOverlaps iidMin rp iter iid n (Z.of_nat oo) (ovsA, el) = Done (ovsA', el') ->
    exists ovsB',
      scanOverlaps iidMin rp' iter iid n (Z.of_nat oo) (ovsB, el) = Done (ovsB', el')
      /\ length ovsB' = length ovsB
      /\ (forall k : nat, (oo <= k < oo + n)%nat -> ovsB' !! k = ovsA' !! k)
      /\ (forall k : nat, ~ (oo <= k < oo + n)%nat -> ovsB' !! k = ovsB !! k).
Proof.
  intros He. induction n as [|n IH]; intros oo ovsA ovsB el ovsA' el' Hlen Hag Hrun.
  - simpl in Hrun |- *. inversion Hrun; subst. exists ovsB.
    split; [reflexivity|]. split; [reflexivity|]. split; [intros; lia|reflexivity].
  - simpl in Hrun |- *. rewrite overlapStep_examine in Hrun |- *. simpl fst in Hrun |- *.
    destruct (aget ovsA (Z.of_nat oo)) as [o| |] eqn:Ho; try discriminate.
    simpl in Hrun.
    apply aget_nat in Ho.
    assert (HoB : ovsB !! oo = Some o) by (rewrite Hag by lia; exact Ho).
    rewrite (proj2 (aget_nat ovsB oo o) HoB). simpl.
    rewrite <- He.
    destruct (examine iidMin rp iter iid o) as [v| |] eqn:Hv; try discriminate.
    simpl in Hrun |- *.
    replace (Z.of_nat oo + 1) with (Z.of_nat (S oo)) in Hrun |- * by lia.
    destruct (applyVerdict (Z.of_nat oo) o v (ovsA, el)) as (ovsA1 & el1) eqn:EA.
    destruct (applyVerdict (Z.of_nat oo) o v (ovsB, el)) as (ovsB1 & el1') eqn:EB.
    assert (Hrel : el1' = el1 /\ length ovsA1 = length ovsB1
                   /\ (forall k, ovsA1 !! k = ovsA !! k \/ (k = oo /\ ovsA1 !! k = Some (set_discarded o) /\ v = Discard))
                   /\ (forall k, ovsB1 !! k = ovsB !! k \/ (k = oo /\ ovsB1 !! k = Some (set_discarded o) /\ v = Discard))
                   /\ ovsB1 !! oo = ovsA1 !! oo /\ length ovsB1 = length ovsB).
    { destruct v; simpl in EA, EB; inversion EA; inversion EB; subst; clear EA EB.
      - repeat split; auto. congruence.
      - rewrite Nat2Z.id. rewrite !length_insert.
        split; [reflexivity|]. split; [assumption|].
        assert (HA : (oo < length ovsA)%nat) by (eapply lookup_lt_Some; eassumption).
        assert (HB : (oo < length ovsB)%nat) by (eapply lookup_lt_Some; eassumption).
        split; [|split; [|split]].
        + intros k. destruct (Nat.eq_dec k oo) as [->|Hne].
          * right. rewrite list_lookup_insert_eq by assumption. auto.
          * left. apply list_lookup_insert_ne. congruence.
        + intros k. destruct (Nat.eq_dec k oo) as [->|Hne].
          * right. rewrite list_lookup_insert_eq by assumption. auto.
          * left. apply list_lookup_insert_ne. congruence.
        + rewrite !list_lookup_insert_eq by assumption. reflexivity.
        + reflexivity.
      - repeat split; auto. congruence. }
    destruct Hrel as (-> & Hlen1 & HchA & HchB & Hoo & HlenB).
    assert (Hag1 : forall k : nat, (S oo <= k < S oo + n)%nat -> ovsB1 !! k = ovsA1 !! k).
    { intros k Hk.
      destruct (HchA k) as [EA'|(Hk' & _)]; [|lia].
      destruct (HchB k) as [EB'|(Hk' & _)]; [|lia].
      rewrite EA', EB'. apply Hag. lia. }
    destruct (IH (S oo) ovsA1 ovsB1 el1 ovsA' el' Hlen1 Hag1 Hrun)
      as (ovsB' & HrunB & HlenB' & Hin & Hout).
    exists ovsB'. split; [exact HrunB|]. split; [congruence|]. split.
    + intros k Hk. destruct (Nat.eq_dec k oo) as [->|Hne].
      * rewrite Hout by lia.
        destruct (scanOverlaps_spec _ _ _ _ _ _ _ _ _ _ Hrun) as (_ & Hfr & _).
        rewrite Hfr by lia. exact Hoo.
      * apply Hin. lia.
    + intros k Hk. rewrite Hout by lia.
      destruct (HchB k) as [EB'|(Hk' & _)]; [assumption|lia].
Qed.

Lemma scanRead_local iidMin iter iid (s t : ESTstate) ovs' el :
  overlapIndex s = overlapIndex t ->
  sameSums (readProfile s) (readProfile t) ->
  length (overlaps s) = length (overlaps t) ->
  (forall k : nat, inSlice (overlapIndex s) iid k -> overlaps t !! k = overlaps s !! k) ->
  scanRead iidMin s iter iid = Done (ovs', el) ->
  exists ovt',
    scanRead iidMin t iter iid = Done (ovt', el)
    /\ length ovt' = length (overlaps t)
    /\ (forall k : nat, inSlice (overlapIndex s) iid k -> ovt' !! k = ovs' !! k)
    /\ (forall k : nat, ~ inSlice (overlapIndex s) iid k -> ovt' !! k = overlaps t !! k).
Proof.
  intros Hidx Hss Hlen Hag Hrun. unfold scanRead in Hrun |- *. rewrite <- Hidx.
  destruct (aget (overlapIndex s) iid) as [first | |] eqn:Hfirst; try discriminate.
  simpl in Hrun |- *.
  destruct (aget (overlapIndex s) (iid + 1)) as [last | |] eqn:Hlast; try discriminate.
  simpl in Hrun |- *.
  assert (Hin : forall k : nat, inSlice (overlapIndex s) iid k <-> first <= Z.of_nat k < last).
  { intros k. unfold inSlice. split.
    - intros (f & l & Hf & Hl & Hk). congruence.
    - intros Hk. exists first, last. auto. }
  destruct (Z.to_nat (last - first)) as [| n] eqn:Hn.
  - simpl in Hrun |- *. inversion Hrun; subst ovs' el.
    exists (overlaps t). split; [reflexivity|]. split; [reflexivity|]. split.
    + intros k Hk. apply Hin in Hk. lia.
    + reflexivity.
  - assert (Hpos : 0 <= first).
    { simpl in Hrun. rewrite overlapStep_examine in Hrun. simpl fst in Hrun.
      destruct (aget (overlaps s) first) eqn:Hg; try discriminate.
      apply aget_lt in Hg. lia. }
    rewrite <- (Z2Nat.id first Hpos) in Hrun |- *.
    destruct (scanOverlaps_local iidMin (readProfile s) (readProfile t) iter iid (S n)
                (fun o => examine_sameSums iidMin _ _ iter iid o Hss)
                (Z.to_nat first) (overlaps s) (overlaps t) [] ovs' el Hlen)
      as (ovt' & HrunT & HlenT & HinT & HoutT); [|exact Hrun|].
    + intros k Hk. apply Hag, Hin. lia.
    + exists ovt'. split; [exact HrunT|]. split; [exact HlenT|]. split.
      * intros k Hk. apply HinT. apply Hin in Hk. lia.
      * intros k Hk. apply HoutT. rewrite Hin in Hk. lia.
Qed.

(** A work item reads the index, the lengths and sums of the profiles, its
    own profile and its own slice of the overlaps, and writes its own
    profile and its own slice. *)
Lemma processRead_local iidMin iter iid (s t s' : ESTstate) :
  overlapIndex s = overlapIndex t ->
  sameSums (readProfile s) (readProfile t) ->
  readProfile t !! Z.to_nat iid = readProfile s !! Z.to_nat iid ->
  length (overlaps s) = length (overlaps t) ->
  (forall k : nat, inSlice (overlapIndex s) iid k -> overlaps t !! k = overlaps s !! k) ->
  processRead iidMin iter iid s = Done s' ->
  exists t',
    processRead iidMin iter iid t = Done t'
    /\ overlapIndex t' = overlapIndex t
    /\ length (overlaps t') = length (overlaps t)
    /\ (forall k : nat, inSlice (overlapIndex s) iid k -> overlaps t' !! k = overlaps s' !! k)
    /\ (forall k : nat, ~ inSlice (overlapIndex s) iid k -> overlaps t' !! k = overlaps t !! k)
    /\ readProfile t' !! Z.to_nat iid = readProfile s' !! Z.to_nat iid
    /\ (forall k : nat, k <> Z.to_nat iid -> readProfile t' !! k = readProfile t !! k)
    /\ length (readProfile t') = length (readProfile t).
Proof.
  intros Hidx Hss Hp Hlen Hag Hrun.
  destruct (processRead_inv _ _ _ _ _ Hrun) as (p & Hps & Hcase).
  apply aget_Done in Hps as (Hi0 & Hps).
  assert (Hpt : aget (readProfile t) iid = Done p).
  { apply aget_Done. split; [assumption|]. rewrite Hp. assumption. }
  unfold processRead. rewrite Hpt. simpl.
  destruct Hcase as [(Hz & ->)|(Hnz & el & u0 & u & Hscan & Hmem & Hun & Hidx' & Hrp')].
  - rewrite Hz. simpl. exists t. repeat split; auto.
  - destruct (seqLen p =? 0) eqn:E; [apply Z.eqb_eq in E; congruence|].
    destruct (scanRead_local _ _ _ _ _ _ _ Hidx Hss Hlen Hag Hscan)
      as (ovt' & HscanT & HlenT & HinT & HoutT).
    rewrite HscanT. simpl. rewrite Hmem. simpl. rewrite Hun. simpl.
    eexists. split; [reflexivity|]. simpl.
    split; [reflexivity|]. split; [assumption|]. split; [assumption|].
    split; [assumption|].
    assert (Hlt : (Z.to_nat iid < length (readProfile t))%nat).
    { eapply lookup_lt_Some. rewrite Hp. eassumption. }
    split; [|split].
    + rewrite Hrp'. rewrite !list_lookup_insert_eq; [reflexivity| |assumption].
      eapply lookup_lt_Some; eassumption.
    + intros k Hk. apply list_lookup_insert_ne. congruence.
    + apply length_insert.
Qed.

Lemma processRead_swap iidMin iter (i j : Z) (st s1 s12 : ESTstate) :
  sorted_b (overlapIndex st) = true ->
  i <> j ->
  processRead iidMin iter i st = Done s1 ->
  processRead iidMin iter j s1 = Done s12 ->
  exists s2,
    processRead iidMin iter j st = Done s2
    /\ processRead iidMin iter i s2 = Done s12.
Proof.
  intros Hsorted Hne H1 H12.
  destruct (processRead_spec _ _ _ _ _ H1) as (Hidx1 & Hss1 & (Hlen1 & _) & Hch1 & _).
  destruct (processRead_spec _ _ _ _ _ H12) as (Hidx12 & Hss12 & (Hlen12 & _) & Hch12 & _).
  destruct (processRead_inv _ _ _ _ _ H1) as (pi & Hpi & _).
  destruct (processRead_inv _ _ _ _ _ H12) as (pj & Hpj & _).
  apply aget_Done in Hpi as (Hi0 & Hpi). apply aget_Done in Hpj as (Hj0 & Hpj).
  assert (Hnat : Z.to_nat i <> Z.to_nat j) by lia.
  (* what item [i] leaves alone *)
  assert (Hkeep1 : forall k : nat, ~ inSlice (overlapIndex st) i k ->
                     overlaps s1 !! k = overlaps st !! k).
  { intros k Hk. destruct (overlaps st !! k) as [o|] eqn:Ho.
    - destruct (processRead_inv _ _ _ _ _ H1) as (p & _ & [(_ & ->)|(_ & el & u0 & u & Hscan & _)]);
        [assumption|].
      destruct (scanRead_spec _ _ _ _ _ _ Hscan) as (_ & Hfr & _).
      rewrite Hfr by assumption. assumption.
    - apply lookup_ge_None in Ho. apply lookup_ge_None. lia. }
  assert (Hkeep12 : forall k : nat, ~ inSlice (overlapIndex st) j k ->
                      overlaps s12 !! k = overlaps s1 !! k).
  { intros k Hk. destruct (overlaps s1 !! k) as [o|] eqn:Ho.
    - destruct (processRead_inv _ _ _ _ _ H12) as (p & _ & [(_ & ->)|(_ & el & u0 & u & Hscan & _)]);
        [assumption|].
      destruct (scanRead_spec _ _ _ _ _ _ Hscan) as (_ & Hfr & _).
      rewrite Hfr; [assumption|]. rewrite Hidx1. assumption.
    - apply lookup_ge_None in Ho. apply lookup_ge_None. lia. }
  (* item [j] on the initial state *)
  destruct (processRead_local iidMin iter j s1 st s12) as
    (s2 & H2 & Hidx2 & Hlen2 & Hin2 & Hout2 & Hpj2 & Hfr2 & Hlrp2); try assumption.
  { apply sameSums_sym. assumption. }
  { symmetry. apply (processRead_profile_frame _ _ _ _ _ (Z.to_nat j) H1). lia. }
  { intros k Hk. symmetry. apply Hkeep1. rewrite Hidx1 in Hk.
    intros Hki. exact (slices_disjoint _ _ _ _ Hsorted Hne Hki Hk). }
  rewrite Hidx1 in Hin2, Hout2.
  (* item [i] after item [j] *)
  destruct (processRead_spec _ _ _ _ _ H2) as (_ & Hss2 & _).
  destruct (processRead_local iidMin iter i st s2 s1) as
    (s21 & H21 & Hidx21 & Hlen21 & Hin21 & Hout21 & Hpi21 & Hfr21 & Hlrp21); try assumption.
  { congruence. }
  { apply Hfr2. lia. }
  { congruence. }
  { intros k Hk. apply Hout2. intros Hkj. exact (slices_disjoint _ _ _ _ Hsorted Hne Hk Hkj). }
  exists s2. split; [assumption|]. rewrite H21. f_equal.
  assert (Hov : overlaps s21 = overlaps s12).
  { apply list_eq. intros k.
    destruct (inSlice_dec (overlapIndex st) i k) as [Hki|Hki].
    - rewrite Hin21 by assumption. symmetry. apply Hkeep12.
      intros Hkj. exact (slices_disjoint _ _ _ _ Hsorted Hne Hki Hkj).
    - rewrite Hout21 by assumption.
      destruct (inSlice_dec (overlapIndex st) j k) as [Hkj|Hkj].
      + apply Hin2. assumption.
      + rewrite Hout2 by assumption. rewrite Hkeep12 by assumption.
        symmetry. apply Hkeep1. assumption. }
  assert (Hrp : readProfile s21 = readProfile s12).
  { apply list_eq. intros k.
    destruct (Nat.eq_dec k (Z.to_nat i)) as [->|Hki].
    - rewrite Hpi21. symmetry.
      apply (processRead_profile_frame _ _ _ _ _ (Z.to_nat i) H12). lia.
    - rewrite Hfr21 by assumption.
      destruct (Nat.eq_dec k (Z.to_nat j)) as [->|Hkj].
      + assumption.
      + rewrite Hfr2 by assumption.
        rewrite (processRead_profile_frame _ _ _ _ _ k H12) by lia.
        symmetry. apply (processRead_profile_frame _ _ _ _ _ k H1). lia. }
  destruct s21, s12; simpl in *. congruence.
Qed.

Lemma runItems_app iidMin iter (l1 l2 : list Z) (st : ESTstate) :
  runItems iidMin iter (l1 ++ l2) st =
  (let! s := runItems iidMin iter l1 st in runItems iidMin iter l2 s).
Proof.
  revert st. induction l1 as [|x l1 IH]; intros st; simpl; [reflexivity|].
  destruct (processRead iidMin iter x st); simpl; try reflexivity. apply IH.
Qed.

Lemma readLoop_runItems iidMin iter (n : nat) :
  forall (i0 : nat) (st : ESTstate),
    readLoop iidMin iter n (Z.of_nat i0) st
    = runItems iidMin iter (map Z.of_nat (seq i0 n)) st.
Proof.
  induction n as [|n IH]; intros i0 st; simpl; [reflexivity|].
  destruct (processRead iidMin iter (Z.of_nat i0) st); simpl; try reflexivity.
  replace (Z.of_nat i0 + 1) with (Z.of_nat (S i0)) by lia. apply IH.
Qed.

Lemma runItems_index iidMin iter (l : list Z) :
  forall st st', runItems iidMin iter l st = Done st' -> overlapIndex st' = overlapIndex st.
Proof.
  induction l as [|x l IH]; intros st st' Hrun; simpl in Hrun.
  - inversion Hrun; reflexivity.
  - destruct (processRead iidMin iter x st) as [s1| |] eqn:E; try discriminate.
    simpl in Hrun. rewrite (IH _ _ Hrun).
    destruct (processRead_spec _ _ _ _ _ E) as (Hidx & _). exact Hidx.
Qed.

Lemma runItems_perm iidMin iter (l l' : list Z) :
  Permutation l l' ->
  NoDup l ->
  forall st st' : ESTstate,
    sorted_b (overlapIndex st) = true ->
    runItems iidMin iter l st = Done st' ->
    runItems iidMin iter l' st = Done st'.
Proof.
  induction 1 as [|x l l' Hp IH|x y l|l l' l'' Hp1 IH1 Hp2 IH2];
    intros Hnd st st' Hs Hrun.
  - assumption.
  - simpl in Hrun |- *.
    destruct (processRead iidMin iter x st) as [s1| |] eqn:E; try discriminate.
    simpl in Hrun |- *. apply NoDup_cons in Hnd as (_ & Hnd).
    apply IH; [assumption| |assumption].
    destruct (processRead_spec _ _ _ _ _ E) as (Hidx & _). rewrite Hidx. assumption.
  - simpl in Hrun |- *.
    destruct (processRead iidMin iter y st) as [s1| |] eqn:E1; try discriminate.
    simpl in Hrun.
    destruct (processRead iidMin iter x s1) as [s12| |] eqn:E12; try discriminate.
    simpl in Hrun.
    assert (Hne : y <> x).
    { apply NoDup_cons in Hnd as (Hnin & _). intros ->. apply Hnin. left. }
    destruct (processRead_swap _ _ _ _ _ _ _ Hs Hne E1 E12) as (s2 & E2 & E21).
    rewrite E2. simpl. rewrite E21. simpl. assumption.
  - apply IH2; [rewrite <- Hp1; assumption|assumption|].
    apply IH1; assumption.
Qed.

Lemma populate_cases (r : ovOverlap) :
  populate r = (if populate_ok r then Done (populate_fields r) else AssertFailed).
Proof.
  unfold populate_ok, populate.
  destruct (ovl_a_iid r =? a_iid (populate_fields r)); [|reflexivity].
  destruct (ovl_b_iid r =? b_iid (populate_fields r)); [|reflexivity].
  destruct (ovl_a_hang r =? a_hang (populate_fields r)); [|reflexivity].
  destruct (ovl_b_hang r =? b_hang (populate_fields r)); [|reflexivity].
  destruct (double_eqb (ovl_erate r) (double_of_Z (erate (populate_fields r)))); [|reflexivity].
  destruct (eqb (ovl_flipped r) (flipped (populate_fields r))); reflexivity.
Qed.

Lemma populate_ok_ids (r : ovOverlap) :
  populate_ok r = true -> idsAgree r (populate_fields r) = true.
Proof.
  unfold populate_ok, populate, idsAgree.
  destruct (ovl_a_iid r =? a_iid (populate_fields r)); [|discriminate].
  destruct (ovl_b_iid r =? b_iid (populate_fields r)); [|discriminate].
  reflexivity.
Qed.

Lemma populateBlock_spec (block : list ovOverlap) :
  forall (no : nat) (ovs : list ESToverlap),
    (no + length block <= length ovs)%nat ->
    populateBlock block (Z.of_nat no) ovs =
    if forallb populate_ok block
    then Done (Z.of_nat (no + length block),
               take no ovs ++ map populate_fields block ++ drop (no + length block) ovs)
    else AssertFailed.
Proof.
  induction block as [|r block IH]; intros no ovs Hlen.
  - simpl. rewrite Nat.add_0_r, take_drop. reflexivity.
  - simpl in Hlen. simpl populateBlock. rewrite aset_nat by lia. simpl obind.
    rewrite populate_cases. simpl forallb.
    destruct (populate_ok r); [|reflexivity]. simpl obind. simpl andb.
    replace (Z.of_nat no + 1) with (Z.of_nat (S no)) by lia.
    rewrite IH by (rewrite length_insert; lia).
    destruct (forallb populate_ok block); [|reflexivity].
    replace (S no + length block)%nat with (no + S (length block))%nat by lia.
    f_equal. f_equal.
    rewrite drop_insert_lt by lia.
    rewrite (take_S_r (<[no:=populate_fields r]> ovs) no (populate_fields r))
      by (apply list_lookup_insert_eq; lia).
    rewrite take_insert_ge by lia.
    rewrite <- app_assoc. reflexivity.
Qed.

Lemma loadLoop_unfold fuel ovlLen numOvls no stream (ovs : list ESToverlap) :
  loadLoop fuel ovlLen numOvls no stream ovs =
  if no <? numOvls then
    match fuel with
    | O => None
    | S fuel' =>
        match populateBlock (takeZ ovlLen stream) no ovs with
        | Done r => loadLoop fuel' ovlLen numOvls (fst r) (dropZ ovlLen stream) (snd r)
        | AssertFailed => Some AssertFailed
        | Undefined => Some Undefined
        end
    end
  else Some (Done ovs).
Proof. destruct fuel; reflexivity. Qed.

(** With as many turns as records are left the loading loop ends: it has
    packed the records, or stopped at a failed assertion. *)
Lemma loadLoop_fuel (ovlLen : Z) (fuel : nat) :
  0 < ovlLen ->
  forall (stream : list ovOverlap) (no : nat) (ovs : list ESToverlap),
    (length stream <= fuel)%nat ->
    (no + length stream <= length ovs)%nat ->
    loadLoop fuel ovlLen (Z.of_nat (no + length stream)) (Z.of_nat no) stream ovs =
    Some (if forallb populate_ok stream
          then Done (take no ovs ++ map populate_fields stream
                     ++ drop (no + length stream) ovs)
          else AssertFailed).
Proof.
  intros HovlLen. induction fuel as [|fuel IH]; intros stream no ovs Hfuel Hlen;
    rewrite loadLoop_unfold.
  - destruct stream; [|simpl in Hfuel; lia].
    simpl length. rewrite Nat.add_0_r, Z.ltb_irrefl. simpl. rewrite take_drop. reflexivity.
  - destruct stream as [|r0 stream0] eqn:Hstream.
    { simpl length. rewrite Nat.add_0_r, Z.ltb_irrefl. simpl. rewrite take_drop. reflexivity. }
    rewrite <- Hstream in *.
    assert (Hne : stream <> []) by (rewrite Hstream; discriminate).
    destruct (Z.ltb_spec (Z.of_nat no) (Z.of_nat (no + length stream))) as [_ | Hbad];
      [| rewrite Hstream in Hbad; simpl in Hbad; lia].
    pose proof (takeZ_nonempty stream ovlLen HovlLen Hne) as Hblock.
    pose proof (takeZ_dropZ stream ovlLen) as Hsplit.
    set (block := takeZ ovlLen stream) in *.
    set (rest := dropZ ovlLen stream) in *.
    assert (Hlens : length stream = (length block + length rest)%nat).
    { rewrite <- Hsplit at 1. apply length_app. }
    assert (HF : forallb populate_ok stream
                 = forallb populate_ok block && forallb populate_ok rest).
    { rewrite <- Hsplit. apply List.forallb_app. }
    assert (HM : map populate_fields stream
                 = map populate_fields block ++ map populate_fields rest).
    { rewrite <- Hsplit. apply List.map_app. }
    rewrite populateBlock_spec by lia. rewrite HF, HM.
    destruct (forallb populate_ok block); [|reflexivity].
    simpl fst. simpl snd. simpl andb.
    replace (no + length stream)%nat with ((no + length block) + length rest)%nat by lia.
    rewrite IH.
    + destruct (forallb populate_ok rest); [|reflexivity].
      f_equal. f_equal.
      assert (Hlb : (no + length block)%nat
                    = length (take no ovs ++ map populate_fields block)).
      { rewrite length_app, length_take, length_map. lia. }
      rewrite (app_assoc (take no ovs)).
      rewrite (take_app_length' _ _ _ Hlb).
      rewrite (drop_app_add' _ _ _ (length rest) Hlb).
      rewrite drop_drop. rewrite <- !app_assoc. reflexivity.
    + lia.
    + rewrite !length_app, length_take, length_map, length_drop. lia.
Qed.

(** When the store holds fewer records than [numOvls], the loading loop
    never ends. *)
Lemma loadLoop_starved (ovlLen numOvls : Z) (fuel : nat) :
  forall (stream : list ovOverlap) (no : nat) (ovs : list ESToverlap),
    Z.of_nat (no + length stream) < numOvls ->
    (no + length stream <= length ovs)%nat ->
    forallb populate_ok stream = true ->
    loadLoop fuel ovlLen numOvls (Z.of_nat no) stream ovs = None.
Proof.
  induction fuel as [|fuel IH]; intros stream no ovs Hshort Hlen Hok;
    rewrite loadLoop_unfold;
    (destruct (Z.ltb_spec (Z.of_nat no) numOvls) as [_|Hbad]; [|lia]); [reflexivity|].
  pose proof (takeZ_dropZ stream ovlLen) as Hsplit.
  set (block := takeZ ovlLen stream) in *.
  set (rest := dropZ ovlLen stream) in *.
  assert (Hlens : length stream = (length block + length rest)%nat).
  { rewrite <- Hsplit at 1. apply length_app. }
  assert (HF : forallb populate_ok block = true /\ forallb populate_ok rest = true).
  { rewrite <- Hsplit in Hok. rewrite List.forallb_app in Hok.
    apply andb_true_iff in Hok. exact Hok. }
  destruct HF as (HFb & HFr).
  rewrite populateBlock_spec by lia. rewrite HFb. simpl fst. simpl snd.
  apply IH.
  - lia.
  - rewrite !length_app, length_take, length_map, length_drop. lia.
  - assumption.
Qed.

Lemma lockStep_loaded (store : list ovOverlap) :
  forallb populate_ok store = true ->
  lockStep store (map populate_fields store) = true.
Proof.
  induction store as [|r store IH]; intros Hok; [reflexivity|].
  simpl in Hok. apply andb_true_iff in Hok as (Hr & Hok).
  unfold lockStep. simpl. rewrite (populate_ok_ids r Hr). simpl. apply IH. assumption.
Qed.

Lemma lockStep_flagsOnly (store : list ovOverlap) (ovs ovs' : list ESToverlap) :
  lockStep store ovs = true -> flagsOnly ovs ovs' -> lockStep store ovs' = true.
Proof.
  intros Hl Hf. apply flagsOnly_Forall2 in Hf. revert store Hl.
  induction Hf as [|o o' ovs ovs' Ho Hrest IH]; intros store Hl.
  - destruct store; reflexivity.
  - destruct store as [|r store]; [reflexivity|].
    unfold lockStep in Hl |- *. simpl in Hl |- *.
    apply andb_true_iff in Hl as (Hr & Hl).
    apply andb_true_iff. split; [|apply IH; assumption].
    destruct Ho as [->| ->]; [assumption|]. exact Hr.
Qed.

Lemma retained_all (store : list ovOverlap) :
  forall ovs : list ESToverlap,
    length ovs = length store ->
    Forall (fun o => discarded o = false) ovs ->
    retained store ovs = store.
Proof.
  induction store as [|r store IH]; intros ovs Hlen Hnd.
  - reflexivity.
  - destruct ovs as [|o ovs]; [discriminate|]. inversion Hnd; subst.
    unfold retained. simpl. unfold notDiscarded at 1. simpl.
    rewrite H2. simpl. f_equal. apply IH; [simpl in Hlen; lia|assumption].
Qed.

Lemma outputOverlaps_lockStep (store : list ovOverlap) (ovs : list ESToverlap) :
  (length store <= length ovs)%nat ->
  lockStep store ovs = true ->
  outputOverlaps (Z.of_nat (length store)) store ovs = Done (retained store ovs).
Proof.
  intros Hlen Hl. unfold outputOverlaps, outputOverlapsWith. rewrite Nat2Z.id.
  pose proof (blockLoop_fuel 100000000 ovs (length store) ltac:(lia) store 0%nat []
                ltac:(lia) ltac:(simpl; lia)) as E.
  change (0 + length store)%nat with (length store) in E.
  change (Z.of_nat 0) with 0 in E. rewrite drop_0 in E.
  rewrite E, Hl. reflexivity.
Qed.

Lemma sumU_S_default (u : list Z) (k : nat) :
  sumU u (S k) = sumU u k + default 0 (u !! k).
Proof.
  destruct (u !! k) as [x|] eqn:Hk; simpl.
  - apply sumU_S. assumption.
  - unfold sumU. apply lookup_ge_None in Hk.
    rewrite (take_ge u (S k)) by lia. rewrite (take_ge u k) by lia. lia.
Qed.

Lemma sortedByRead_lookup (iidMin : Z) (overlapLen : list Z) (n : nat) :
  Forall (fun x => 0 <= x) overlapLen ->
  forall (i0 k : nat) (v : Z),
    flat_map (fun i : nat =>
                replicate (Z.to_nat (default 0 (overlapLen !! S i))) (iidMin + Z.of_nat i))
             (seq i0 n) !! k = Some v ->
    exists i : nat,
      (i0 <= i < i0 + n)%nat /\ v = iidMin + Z.of_nat i
      /\ sumU (drop 1 overlapLen) i - sumU (drop 1 overlapLen) i0 <= Z.of_nat k
      /\ Z.of_nat k < sumU (drop 1 overlapLen) (S i) - sumU (drop 1 overlapLen) i0.
Proof.
  intros Hpos. induction n as [|n IH]; intros i0 k v Hk; simpl in Hk.
  - rewrite lookup_nil in Hk. discriminate.
  - assert (Hlen : 0 <= default 0 (overlapLen !! S i0)).
    { destruct (overlapLen !! S i0) as [x|] eqn:E; simpl; [|lia].
      exact (proj1 (Forall_lookup _ overlapLen) Hpos _ _ E). }
    assert (HS : sumU (drop 1 overlapLen) (S i0)
                 = sumU (drop 1 overlapLen) i0 + default 0 (overlapLen !! S i0)).
    { rewrite sumU_S_default. rewrite lookup_drop. reflexivity. }
    destruct (Nat.lt_ge_cases k (Z.to_nat (default 0 (overlapLen !! S i0)))) as [Hlt|Hge].
    + rewrite lookup_app_l in Hk by (rewrite length_replicate; assumption).
      apply lookup_replicate in Hk as (-> & _).
      exists i0. split; [lia|]. split; [reflexivity|]. lia.
    + rewrite lookup_app_r in Hk by (rewrite length_replicate; assumption).
      rewrite length_replicate in Hk.
      destruct (IH _ _ _ Hk) as (i & Hi & -> & Hlo & Hhi).
      exists i. split; [lia|]. split; [reflexivity|]. lia.
Qed.

Lemma wf_overlaps_intro iidMin numIIDs idx (ovs : list ESToverlap) :
  forall oo : Z,
    (forall (k : nat) (o : ESToverlap),
        ovs !! k = Some o -> wf_overlap_b iidMin numIIDs idx (oo + Z.of_nat k) o = true) ->
    wf_overlaps_b iidMin numIIDs idx oo ovs = true.
Proof.
  induction ovs as [|o ovs IH]; intros oo Hall; [reflexivity|].
  simpl. apply andb_true_iff. split.
  - specialize (Hall 0%nat o eq_refl). rewrite Z.add_0_r in Hall. exact Hall.
  - apply IH. intros k o' Hk. specialize (Hall (S k) o' Hk).
    replace (oo + 1 + Z.of_nat k) with (oo + Z.of_nat (S k)) by lia. exact Hall.
Qed.

Lemma sext_range (w x : Z) : 0 < w -> - 2 ^ (w - 1) <= sext w x < 2 ^ (w - 1).
Proof.
  intros Hw. unfold sext.
  assert (Hp : 2 ^ w = 2 * 2 ^ (w - 1)).
  { replace w with (1 + (w - 1)) at 1 by lia. rewrite Z.pow_add_r by lia. reflexivity. }
  assert (Hpos : 0 < 2 ^ (w - 1)) by (apply Z.pow_pos_nonneg; lia).
  pose proof (Z.mod_pos_bound x (2 ^ w) ltac:(lia)) as Hm.
  destruct (x mod 2 ^ w <? 2 ^ (w - 1)) eqn:E.
  - apply Z.ltb_lt in E. lia.
  - apply Z.ltb_ge in E. lia.
Qed.

Lemma sortedByRead_length (iidMin : Z) (overlapLen : list Z) (n : nat) :
  Forall (fun x => 0 <= x) overlapLen ->
  forall i0 : nat,
    Z.of_nat (length (flat_map (fun i : nat =>
                replicate (Z.to_nat (default 0 (overlapLen !! S i))) (iidMin + Z.of_nat i))
             (seq i0 n)))
    = sumU (drop 1 overlapLen) (i0 + n) - sumU (drop 1 overlapLen) i0.
Proof.
  intros Hpos. induction n as [|n IH]; intros i0; simpl.
  - rewrite Nat.add_0_r. lia.
  - rewrite length_app, length_replicate, Nat2Z.inj_add, IH.
    assert (Hlen : 0 <= default 0 (overlapLen !! S i0)).
    { destruct (overlapLen !! S i0) as [x|] eqn:E; simpl; [|lia].
      exact (proj1 (Forall_lookup _ overlapLen) Hpos _ _ E). }
    replace (i0 + S n)%nat with (S i0 + n)%nat by lia.
    rewrite (sumU_S_default _ i0), lookup_drop. simpl (1 + i0)%nat. lia.
Qed.

Lemma populate_ok_fields (r : ovOverlap) :
  populate_ok r = true ->
  a_iid (populate_fields r) = ovl_a_iid r
  /\ 0 <= a_iid (populate_fields r) < 2 ^ 23
  /\ fits_signed 17 (a_hang (populate_fields r))
  /\ fits_signed 17 (b_hang (populate_fields r)).
Proof.
  intros Hok. unfold populate_ok, populate in Hok.
  destruct (ovl_a_iid r =? a_iid (populate_fields r)) eqn:E; [|discriminate].
  apply Z.eqb_eq in E. split; [congruence|]. split.
  - simpl. apply (wrap_range 23). lia.
  - split; apply (sext_range 17); lia.
Qed.

(** When the store holds fewer records than [numOvls], the output pass
    stops at the assertion on the number of records loaded. *)
Lemma blockLoop_starved (ovlLen numOvls : Z) (ovs : list ESToverlap) :
  0 < ovlLen ->
  forall (fuel : nat) (stream : list ovOverlap) (no : nat) (out : list ovOverlap),
    (length stream < fuel)%nat ->
    Z.of_nat (no + length stream) < numOvls ->
    (no + length stream <= length ovs)%nat ->
    blockLoop fuel ovlLen numOvls (Z.of_nat no) stream ovs out = AssertFailed.
Proof.
  intros HovlLen. induction fuel as [|fuel IH]; intros stream no out Hfuel Hshort Hlen;
    [lia|].
  rewrite blockLoop_unfold.
  destruct (Z.ltb_spec (Z.of_nat no) numOvls) as [_|Hbad]; [|lia].
  cbv zeta.
  destruct stream as [|r0 stream0] eqn:Hstream; [reflexivity|].
  rewrite <- Hstream in *.
  assert (Hne : stream <> []) by (rewrite Hstream; discriminate).
  pose proof (takeZ_nonempty stream ovlLen HovlLen Hne) as Hblock.
  pose proof (takeZ_dropZ stream ovlLen) as Hsplit.
  set (block := takeZ ovlLen stream) in *.
  set (rest := dropZ ovlLen stream) in *.
  assert (Hlens : length stream = (length block + length rest)%nat).
  { rewrite <- Hsplit at 1. apply length_app. }
  destruct (Z.ltb_spec 0 (Z.of_nat (length block))) as [_ | Hbad]; [| lia].
  rewrite writeBlock_spec by lia.
  destruct (lockStep block (drop no ovs)); [|reflexivity].
  simpl obind. simpl fst. simpl snd.
  apply IH; lia.
Qed.

(** X1. The parallel loop over the reads gives the same state in whatever
    order its work items are run: when the overlap index is
    non-decreasing, running the work items of the reads
    [0 .. numIIDs - 1] in any order [items] ends in a state [st'] exactly
    when the loop in increasing order does. *)
Theorem work_items_any_order (iidMin iter numIIDs : Z) (st st' : ESTstate)
    (items : list Z) :
  sorted_b (overlapIndex st) = true ->
  Permutation items (map Z.of_nat (seq 0 (Z.to_nat numIIDs))) ->
  runItems iidMin iter items st = Done st'
  <-> readLoop iidMin iter (Z.to_nat numIIDs) 0 st = Done st'.
Proof.
  intros Hsorted Hperm.
  change 0 with (Z.of_nat 0). rewrite readLoop_runItems.
  assert (Hnd : NoDup (map Z.of_nat (seq 0 (Z.to_nat numIIDs)))).
  { apply (NoDup_fmap_2 Z.of_nat). apply NoDup_seq. }
  split; intros Hrun.
  - apply (runItems_perm iidMin iter items _ Hperm); [|assumption|assumption].
    rewrite Hperm. exact Hnd.
  - symmetry in Hperm.
    apply (runItems_perm iidMin iter _ items Hperm); assumption.
Qed.

(** X2. The first iteration does not depend on what the profile arrays
    hold when it starts (they are allocated and not initialised): from two
    well-formed states with the same index, overlaps and read lengths,
    iteration 0 ends in both or in neither, and then with the same
    overlaps and, for every read that is not deleted, the same
    [errorMeanU] and the same cells [0 .. seqLen - 1] of [errorMeanS]. *)
Theorem first_iteration_ignores_arrays (iidMin numIIDs : Z) (s1 s2 s1' : ESTstate) :
  wf_state_b iidMin numIIDs s1 = true ->
  wf_state_b iidMin numIIDs s2 = true ->
  overlapIndex s1 = overlapIndex s2 ->
  overlaps s1 = overlaps s2 ->
  sameLengths (readProfile s1) (readProfile s2) ->
  recomputeErrorProfile iidMin numIIDs s1 0 = Done s1' ->
  exists s2',
    recomputeErrorProfile iidMin numIIDs s2 0 = Done s2'
    /\ overlapIndex s2' = overlapIndex s1'
    /\ overlaps s2' = overlaps s1'
    /\ forall (k : nat) (p1' : readErrorEstimate),
         readProfile s1' !! k = Some p1' -> seqLen p1' <> 0 ->
         exists p2',
           readProfile s2' !! k = Some p2'
           /\ seqLen p2' = seqLen p1'
           /\ errorMeanU p2' = errorMeanU p1'
           /\ take (Z.to_nat (seqLen p1')) (errorMeanS p2')
              = take (Z.to_nat (seqLen p1')) (errorMeanS p1').
Proof.
  intros Hwf1 Hwf2 Hidx Hov Hs Hrun.
  assert (Hi : 0 <= 0) by lia.
  destruct (recomputeErrorProfile_overlaps _ _ _ _ _ Hrun) as (t1 & Hloop & Hov1 & Hidx1 & Hsum).
  pose proof (wf_state_profiles _ _ _ Hwf1) as Hw1.
  pose proof (wf_state_profiles _ _ _ Hwf2) as Hw2.
  destruct (readLoop_first_iteration iidMin 0 (Z.to_nat numIIDs) Hi 0%nat
              s1 s2 t1 Hidx Hov Hs Hw1 Hw2 Hloop)
    as (t2 & Hloop2 & Hidx2 & Hov2 & Hs2 & HU).
  pose proof (readLoop_wf _ _ _ _ _ _ _ Hwf1 Hloop) as Hwt1.
  pose proof (readLoop_wf _ _ _ _ _ _ _ Hwf2 Hloop2) as Hwt2.
  destruct (wf_state_spec _ _ _ Hwt1) as (Hn & _ & _ & _ & _ & Hlen1).
  destruct (wf_state_spec _ _ _ Hwt2) as (_ & _ & _ & _ & _ & Hlen2).
  pose proof (wf_state_profiles _ _ _ Hwt1) as Hwp1.
  pose proof (wf_state_profiles _ _ _ Hwt2) as Hwp2.
  destruct (sumAll_total (Z.to_nat numIIDs) 0%nat (readProfile t2) Hwp2) as (rp2' & Hsum2); [lia|].
  unfold recomputeErrorProfile.
  change (Z.of_nat 0) with 0 in Hloop2, Hsum2.
  rewrite Hloop2. simpl. rewrite Hsum2. simpl.
  eexists. split; [reflexivity|]. simpl.
  split; [congruence|]. split; [congruence|].
  intros k p1' Hk Hnz.
  destruct (sumAll_spec _ 0%nat _ _ Hsum) as (Hl1 & Hc1).
  destruct (sumAll_spec _ 0%nat _ _ Hsum2) as (Hl2 & Hc2).
  assert (Hklt : (k < Z.to_nat numIIDs)%nat).
  { apply lookup_lt_Some in Hk. lia. }
  destruct (lookup_lt_is_Some_2 (readProfile t1) k) as (q1 & Hq1); [lia|].
  destruct (Hc1 _ _ Hq1) as (Hin1 & _).
  destruct Hin1 as (q1' & Hre1 & Hk1); [lia|].
  assert (q1' = p1') by congruence. subst q1'.
  destruct (rebuildSum_fields _ _ Hre1) as (Hlq1 & HUq1).
  destruct (HU k q1) as (q2 & Hq2 & HUq); [lia|assumption|congruence|].
  destruct (Hc2 _ _ Hq2) as (Hin2 & _).
  destruct Hin2 as (p2' & Hre2 & Hk2); [lia|].
  destruct (rebuildSum_fields _ _ Hre2) as (Hlq2 & HUq2).
  assert (Hll : seqLen q1 = seqLen q2).
  { pose proof (sameLengths_aget _ _ (Z.of_nat k) Hs2) as Hag.
    rewrite (proj2 (aget_nat _ _ _) Hq1), (proj2 (aget_nat _ _ _) Hq2) in Hag. exact Hag. }
  exists p2'. split; [assumption|]. split; [congruence|]. split; [congruence|].
  rewrite Hlq1. symmetry.
  apply (rebuildSum_take q1 q2 p1' p2');
    [exact (Forall_lookup_1 _ _ _ _ Hwp1 Hq1) | exact (Forall_lookup_1 _ _ _ _ Hwp2 Hq2)
    | assumption | congruence | assumption | assumption].
Qed.

(** X3. An iteration that discards nothing is a fixed point.  When an
    iteration run on the state [st1] left by an earlier iteration ends
    with the overlaps as they were, it ends in [st1] itself; and when that
    iteration was not the first, every later iteration of the loop of
    [main] leaves [st1] as it is. *)
Theorem quiet_iteration_is_stationary (iidMin numIIDs : Z) (st0 st1 st2 : ESTstate)
    (i j : Z) :
  wf_state_b iidMin numIIDs st0 = true ->
  recomputeErrorProfile iidMin numIIDs st0 i = Done st1 ->
  recomputeErrorProfile iidMin numIIDs st1 j = Done st2 ->
  overlaps st2 = overlaps st1 ->
  st2 = st1
  /\ (0 < j ->
      forall (n : nat) (ii : Z),
        0 < ii -> runIterations iidMin numIIDs n ii st1 = Done st1).
Proof.
  intros Hwf0 Hrun1 Hrun2 Hov.
  pose proof (recomputeErrorProfile_wf _ _ _ _ _ Hwf0 Hrun1) as Hwf1.
  pose proof (recomputeErrorProfile_wf _ _ _ _ _ Hwf1 Hrun2) as Hwf2.
  destruct (recomputeErrorProfile_flags _ _ _ _ _ Hrun1) as (Hidx1 & _).
  destruct (recomputeErrorProfile_flags _ _ _ _ _ Hrun2) as (Hidx2 & _).
  pose proof (recomputeErrorProfile_sameLengths _ _ _ _ _ Hrun1) as Hsl1.
  assert (Hrp : readProfile st2 = readProfile st1).
  { destruct (wf_state_spec _ _ _ Hwf1) as (_ & _ & _ & _ & _ & Hlen1).
    destruct (wf_state_spec _ _ _ Hwf2) as (_ & _ & _ & _ & _ & Hlen2).
    destruct (wf_state_spec _ _ _ Hwf0) as (_ & _ & _ & _ & _ & Hlen0).
    apply list_eq. intros k.
    destruct (readProfile st1 !! k) as [p1|] eqn:Hk1.
    2:{ apply lookup_ge_None in Hk1. apply lookup_ge_None. lia. }
    destruct (Z.eq_dec (seqLen p1) 0) as [Hz|Hnz].
    { exact (recomputeErrorProfile_deleted _ _ _ _ _ _ _ Hwf1 Hrun2 Hk1 Hz). }
    destruct (lookup_lt_is_Some_2 (readProfile st0) k) as (p0 & Hk0).
    { apply lookup_lt_Some in Hk1. lia. }
    destruct (recomputeErrorProfile_profile_from _ _ _ _ _ _ _ Hwf0 Hrun1 Hk0)
      as (t0 & q0 & p1' & _ & _ & Hk1' & Hwq0 & Hsq0 & Hre0).
    assert (p1' = p1) by congruence. subst p1'.
    destruct (recomputeErrorProfile_profile_from _ _ _ _ _ _ _ Hwf1 Hrun2 Hk1)
      as (t1 & q & p2 & _ & _ & Hk2 & Hwq & Hsq & Hre).
    rewrite Hk2. f_equal.
    unfold sums in Hsq0, Hsq. injection Hsq0 as Hl0 HS0. injection Hsq as Hl HS.
    destruct (rebuildSum_fields _ _ Hre0) as (Hlp1 & HUp1).
    destruct (rebuildSum_fields _ _ Hre) as (Hlp2 & HUp2).
    apply (rebuildSum_agree q0 q p1 p2); try assumption; try congruence.
    destruct (iteration_aggregation _ _ _ _ _ (Z.of_nat k) p1 Hwf0 Hrun1)
      as (_ & el1 & Hc1 & Hu1); [apply aget_nat; assumption|assumption|].
    destruct (iteration_aggregation _ _ _ _ _ (Z.of_nat k) p2 Hwf1 Hrun2)
      as (_ & el2 & Hc2 & Hu2); [apply aget_nat; assumption|congruence|].
    rewrite Hov, Hidx1 in Hc2.
    assert (Hc1' : Forall2 (contribution iidMin (readProfile st1))
              (List.filter notDiscarded
                 (sliceOf (overlapIndex st0) (Z.of_nat k) (overlaps st1))) el1).
    { eapply Forall2_impl; [exact Hc1|]. intros o e. apply contribution_sameLengths. assumption. }
    assert (Hel : el1 = el2).
    { eapply Forall2_functional; [|exact Hc1'|exact Hc2].
      intros o e e'. apply contribution_functional. }
    subst el2.
    assert (Hll : seqLen p2 = seqLen p1) by congruence.
    rewrite Hll in Hu2. rewrite Hu1 in Hu2. inversion Hu2. congruence. }
  assert (Heq : st2 = st1).
  { destruct st1, st2; simpl in *; congruence. }
  split; [exact Heq|].
  intros Hj n. induction n as [|n IH]; intros ii Hii; simpl; [reflexivity|].
  rewrite (recomputeErrorProfile_later iidMin numIIDs st1 ii j Hii Hj).
  rewrite Hrun2, Heq. simpl. apply IH. lia.
Qed.

(** X4. No iteration writes the last cell of [errorMeanS]: after any
    number of iterations the cell [errorMeanS[seqLen]] of every read holds
    what it held before the first of them, and the length of the read is
    unchanged. *)
Theorem errorMeanS_last_cell_kept (iidMin numIIDs : Z) (n : nat) :
  forall (ii : Z) (st st' : ESTstate) (k : nat) (p : readErrorEstimate),
    wf_state_b iidMin numIIDs st = true ->
    runIterations iidMin numIIDs n ii st = Done st' ->
    readProfile st !! k = Some p ->
    exists p',
      readProfile st' !! k = Some p'
      /\ seqLen p' = seqLen p
      /\ errorMeanS p' !! Z.to_nat (seqLen p) = errorMeanS p !! Z.to_nat (seqLen p).
Proof.
  induction n as [|n IH]; intros ii st st' k p Hwf Hrun Hk; simpl in Hrun.
  - inversion Hrun; subst. exists p. auto.
  - destruct (recomputeErrorProfile iidMin numIIDs st ii) as [s1| |] eqn:E1; try discriminate.
    simpl in Hrun.
    destruct (recomputeErrorProfile_last_cell _ _ _ _ _ _ _ Hwf E1 Hk) as (p1 & Hk1 & Hl1 & Hc1).
    pose proof (recomputeErrorProfile_wf _ _ _ _ _ Hwf E1) as Hwf1.
    destruct (IH _ _ _ _ _ Hwf1 Hrun Hk1) as (p' & Hk' & Hl' & Hc').
    exists p'. split; [assumption|]. split; [congruence|].
    rewrite <- Hl1, Hc'. rewrite Hl1. assumption.
Qed.

(** X5. Deleted reads are skipped.  Through any number of iterations the
    profile of a read of length 0 stays as it is, arrays included, and an
    overlap whose first read is deleted keeps its record, so it is never
    discarded. *)
Theorem deleted_reads_skipped (iidMin numIIDs : Z) (n : nat) :
  forall (ii : Z) (st st' : ESTstate),
    wf_state_b iidMin numIIDs st = true ->
    runIterations iidMin numIIDs n ii st = Done st' ->
    (forall (k : nat) (p : readErrorEstimate),
        readProfile st !! k = Some p -> seqLen p = 0 ->
        readProfile st' !! k = Some p)
    /\ (forall (k : nat) (o : ESToverlap) (p : readErrorEstimate),
          overlaps st !! k = Some o ->
          aget (readProfile st) (wrap32 (a_iid o - iidMin)) = Done p ->
          seqLen p = 0 ->
          overlaps st' !! k = Some o).
Proof.
  induction n as [|n IH]; intros ii st st' Hwf Hrun; simpl in Hrun.
  - inversion Hrun; subst. split; intros; assumption.
  - destruct (recomputeErrorProfile iidMin numIIDs st ii) as [s1| |] eqn:E1; try discriminate.
    simpl in Hrun.
    pose proof (recomputeErrorProfile_wf _ _ _ _ _ Hwf E1) as Hwf1.
    destruct (IH _ _ _ Hwf1 Hrun) as (IHp & IHo).
    split.
    + intros k p Hk Hz. apply IHp; [|assumption].
      exact (recomputeErrorProfile_deleted _ _ _ _ _ _ _ Hwf E1 Hk Hz).
    + intros k o p Hk Hp Hz.
      apply (IHo k o p); [|  |assumption].
      * exact (recomputeErrorProfile_deleted_overlap _ _ _ _ _ _ _ _ Hwf E1 Hk Hp Hz).
      * apply aget_Done in Hp as (H0 & Hp). apply aget_Done. split; [assumption|].
        exact (recomputeErrorProfile_deleted _ _ _ _ _ _ _ Hwf E1 Hp Hz).
Qed.

(** X6. The option [-p k n] selects the [k]-th of [n] parts of the reads,
    and the parts tile the store: for a store of [nf] reads with
    [n * nf < 2^32], part 1 starts at read 1, part [n] ends at read [nf],
    every part starts right after the one before it ends, and [numIIDs]
    is the number of reads from [iidMin] to [iidMax]. *)
Theorem partitions_tile (atoi : string -> Z) (partMax nf : Z) :
  0 < partMax < 2 ^ 31 -> 0 <= nf -> partMax * nf < 2 ^ 32 ->
  let part := fun p => main_range UINT32_MAX UINT32_MAX p partMax nf in
  (forall sk sn : string,
      atoi sn = partMax -> 1 <= atoi sk <= partMax ->
      main_select atoi ["-p"; sk; sn] nf = Done (Some (part (atoi sk - 1))))
  /\ fst (fst (part 0)) = 1
  /\ snd (fst (part (partMax - 1))) = nf
  /\ (forall p, 0 <= p < partMax - 1 ->
        fst (fst (part (p + 1))) = snd (fst (part p)) + 1)
  /\ (forall p, 0 <= p < partMax ->
        1 <= fst (fst (part p)) <= snd (fst (part p)) + 1
        /\ snd (fst (part p)) <= nf
        /\ snd (part p) = snd (fst (part p)) - fst (fst (part p)) + 1).
Proof.
  intros Hpm Hnf Hbound part.
  assert (Hform : forall p, 0 <= p < partMax ->
            part p = (p * nf / partMax + 1, (p + 1) * nf / partMax,
                      (p + 1) * nf / partMax - p * nf / partMax)
            /\ 0 <= p * nf / partMax <= (p + 1) * nf / partMax
            /\ (p + 1) * nf / partMax <= nf).
  { intros p Hp. apply main_range_partition; lia. }
  split; [|split; [|split; [|split]]].
  - intros sk sn Hsn Hsk. unfold main_select. simpl parseArgs.
    destruct (atoi sk =? - 2 ^ 31) eqn:E; [apply Z.eqb_eq in E; lia|].
    simpl obind. simpl opt_err. simpl opt_iidMin. simpl opt_iidMax.
    simpl opt_partNum. simpl opt_partMax. rewrite Hsn.
    rewrite (wrap32_small (atoi sk - 1)) by lia.
    rewrite (wrap32_small partMax) by lia. reflexivity.
  - destruct (Hform 0) as (-> & _); [lia|]. simpl. rewrite Z.div_0_l by lia. reflexivity.
  - destruct (Hform (partMax - 1)) as (-> & _); [lia|]. simpl.
    replace (partMax - 1 + 1) with partMax by lia.
    rewrite Z.mul_comm. apply Z.div_mul. lia.
  - intros p Hp.
    destruct (Hform p) as (-> & _); [lia|].
    destruct (Hform (p + 1)) as (-> & _); [lia|]. reflexivity.
  - intros p Hp. destruct (Hform p Hp) as (-> & Hlo & Hhi). simpl. lia.
Qed.

(** X7. The index of the overlaps is the running sum of the counts of
    overlaps per read: it starts at 0, is non-decreasing, the slice of
    read [iid] has [overlapLen[iid + 1]] places, and its last cell is the
    sum of the counts; [main] goes on exactly when that sum is the number
    of overlaps of the store, and aborts otherwise. *)
Theorem main_index_running_sum (numIIDs numOvls : Z) (overlapLen fresh : list Z) :
  0 <= numIIDs < 2 ^ 32 ->
  Z.of_nat (length fresh) = numIIDs + 1 ->
  numIIDs < Z.of_nat (length overlapLen) ->
  Forall (fun x => 0 <= x < 2 ^ 32) overlapLen ->
  let total := sumU (drop 1 overlapLen) (Z.to_nat numIIDs) in
  (total <> numOvls -> main_index numIIDs numOvls overlapLen fresh = AssertFailed)
  /\ (total = numOvls ->
      exists idx,
        main_index numIIDs numOvls overlapLen fresh = Done idx
        /\ Z.of_nat (length idx) = numIIDs + 1
        /\ idx !! 0%nat = Some 0
        /\ idx !! Z.to_nat numIIDs = Some numOvls
        /\ sorted_b idx = true
        /\ forall (i : nat) (len : Z),
             Z.of_nat i < numIIDs ->
             overlapLen !! S i = Some len ->
             exists x, idx !! i = Some x /\ idx !! S i = Some (x + len)).
Proof.
  intros Hnum Hfresh Hlen Hall total.
  destruct (main_index_spec numIIDs numOvls overlapLen fresh Hnum Hfresh Hlen Hall)
    as (idx & Hl & Hcells & Hrun).
  fold total in Hrun.
  assert (Hposd : Forall (fun x => 0 <= x) (drop 1 overlapLen)).
  { apply Forall_drop. eapply Forall_impl; [exact Hall|]. simpl. intros; lia. }
  split.
  - intros Hne. rewrite Hrun. destruct (Z.eqb_spec total numOvls); [contradiction|reflexivity].
  - intros Heq. exists idx. rewrite Hrun, Heq, Z.eqb_refl.
    split; [reflexivity|]. split; [lia|]. split; [|split; [|split]].
    + rewrite (Hcells 0%nat) by lia. rewrite sumU_0. reflexivity.
    + rewrite (Hcells (Z.to_nat numIIDs)) by lia. fold total. rewrite Heq. reflexivity.
    + apply sorted_b_intro. intros i x y Hx Hy.
      assert (Hi : Z.of_nat (S i) <= numIIDs).
      { apply lookup_lt_Some in Hy. lia. }
      rewrite Hcells in Hx by lia. rewrite Hcells in Hy by lia.
      inversion Hx; inversion Hy; subst. apply sumU_mono; [assumption|lia].
    + intros i len Hi Hlk. exists (sumU (drop 1 overlapLen) i).
      split; [apply Hcells; lia|].
      rewrite (Hcells (S i)) by lia. f_equal. apply sumU_S.
      rewrite lookup_drop. exact Hlk.
Qed.

(** X8. Loading the overlaps.  With a store that delivers as many records
    as [main] asked it for, the loading loop ends: it has packed every
    record, in the order of the store, into the array of overlaps, none of
    them discarded, or it has aborted, which it does exactly when a record
    fails an assertion of [populate]. *)
Theorem main_load_packs (store : list ovOverlap) (fresh : list ESToverlap) :
  length fresh = length store ->
  main_load (length store) (Z.of_nat (length store)) store fresh
  = Some (if forallb populate_ok store
          then Done (map populate_fields store)
          else AssertFailed)
  /\ (forall r : ovOverlap,
        populate r = (if populate_ok r then Done (populate_fields r) else AssertFailed))
  /\ Forall (fun o => discarded o = false) (map populate_fields store).
Proof.
  intros Hlen. split; [|split].
  - unfold main_load.
    pose proof (loadLoop_fuel 100000000 (length store) ltac:(lia) store 0%nat fresh
                  ltac:(lia) ltac:(simpl; lia)) as E.
    change (0 + length store)%nat with (length store) in E.
    change (Z.of_nat 0) with 0 in E. rewrite E.
    rewrite take_0, drop_ge by lia. rewrite app_nil_r. reflexivity.
  - apply populate_cases.
  - apply Forall_fmap. apply Forall_true. intros r. reflexivity.
Qed.

(** X9. What was loaded is written back.  For a store whose records pass
    [populate], the output pass run on the loaded overlaps writes the
    store back as it is; after any number of iterations it cannot fail,
    and writes the records of the overlaps that were not discarded; so the
    engine ends whenever its four iterations do. *)
Theorem loaded_store_written_back (iidMin numIIDs : Z) (store : list ovOverlap)
    (st : ESTstate) :
  forallb populate_ok store = true ->
  overlaps st = map populate_fields store ->
  outputOverlaps (Z.of_nat (length store)) store (overlaps st) = Done store
  /\ (forall (n : nat) (ii : Z) (st' : ESTstate),
        runIterations iidMin numIIDs n ii st = Done st' ->
        outputOverlaps (Z.of_nat (length store)) store (overlaps st')
        = Done (retained store (overlaps st')))
  /\ (forall st' : ESTstate,
        runIterations iidMin numIIDs 4 0 st = Done st' ->
        engine iidMin numIIDs store st = Done (st', retained store (overlaps st'))).
Proof.
  intros Hok Hov.
  pose proof (lockStep_loaded store Hok) as Hlock. rewrite <- Hov in Hlock.
  assert (Hlen : length (overlaps st) = length store).
  { rewrite Hov. apply length_map. }
  assert (Hafter : forall (n : nat) (ii : Z) (st' : ESTstate),
            runIterations iidMin numIIDs n ii st = Done st' ->
            outputOverlaps (Z.of_nat (length store)) store (overlaps st')
            = Done (retained store (overlaps st'))).
  { intros n ii st' Hrun.
    destruct (runIterations_flags _ _ _ _ _ _ Hrun) as (_ & Hfl).
    apply outputOverlaps_lockStep.
    - destruct Hfl as (Hl & _). lia.
    - exact (lockStep_flagsOnly _ _ _ Hlock Hfl). }
  split; [|split].
  - rewrite outputOverlaps_lockStep by (assumption || lia).
    f_equal. apply retained_all; [assumption|].
    rewrite Hov. apply Forall_fmap. apply Forall_true. intros r. reflexivity.
  - exact Hafter.
  - intros st' Hrun. unfold engine. rewrite Hrun. simpl obind.
    rewrite (Hafter _ _ _ Hrun). reflexivity.
Qed.

(** X10. A store that delivers fewer records than it announced.  The
    output pass asserts that every block it loads holds a record, and
    aborts; the loop of [main] that loads the overlaps asserts nothing of
    the kind and never ends. *)
Theorem starved_loops (ovlLen numOvls : Z) (store : list ovOverlap) :
  0 < ovlLen ->
  Z.of_nat (length store) < numOvls ->
  (forall ovs : list ESToverlap,
      (length store <= length ovs)%nat ->
      outputOverlapsWith ovlLen numOvls store ovs = AssertFailed)
  /\ (forall (fresh : list ESToverlap) (fuel : nat),
        (length store <= length fresh)%nat ->
        forallb populate_ok store = true ->
        loadLoop fuel ovlLen numOvls 0 store fresh = None).
Proof.
  intros HovlLen Hshort. split.
  - intros ovs Hlen. unfold outputOverlapsWith.
    apply (blockLoop_starved ovlLen numOvls ovs HovlLen (Z.to_nat numOvls) store 0%nat []);
      simpl; lia.
  - intros fresh fuel Hlen Hok.
    apply (loadLoop_starved ovlLen numOvls fuel store 0%nat fresh); simpl; (lia || assumption).
Qed.

(** X11. A string that is not an option, where an option is expected, is
    counted as an error and the loop goes on with what follows it; so is a
    value given to [-L] or to [-E], which take none.  The program then
    exits with status 1 exactly when what follows can be parsed; when a
    later [-b], [-e] or [-p] lacks its value the behaviour is undefined
    ([atoi] of the null pointer), before the exit is reached.  In no case
    does such a command line get to the selection of the reads. *)
Theorem unknown_option_exits (atoi : string -> Z) (v : string) (rest : list string)
    (nf : Z) :
  isOption v = false ->
  let exits :=
    match parseArgs atoi rest options0 with
    | Done _ => Done None
    | AssertFailed => AssertFailed
    | Undefined => Undefined
    end in
  (forall o : options,
      parseArgs atoi (v :: rest) o = parseArgs atoi rest (count_error o))
  /\ main_select atoi (v :: rest) nf = exits
  /\ main_select atoi ("-L" :: v :: rest) nf = exits
  /\ main_select atoi ("-E" :: v :: rest) nf = exits
  /\ parseArgs atoi rest options0 <> AssertFailed
  /\ (forall o o' : options,
        parseArgs atoi (v :: rest) o = Done o' -> opt_err o < opt_err o')
  /\ (forall r, main_select atoi (v :: rest) nf <> Done (Some r)).
Proof.
  intros Hv exits.
  assert (Hstep : forall o, parseArgs atoi (v :: rest) o = parseArgs atoi rest (count_error o)).
  { intros o. unfold isOption in Hv.
    repeat (apply orb_false_iff in Hv; destruct Hv as (Hv & ?)).
    simpl. rewrite Hv.
    repeat match goal with H : String.eqb v _ = false |- _ => rewrite H; clear H end.
    reflexivity. }
  assert (Herr : forall o o', parseArgs atoi (v :: rest) o = Done o' -> opt_err o < opt_err o').
  { intros o o' Hrun. rewrite Hstep in Hrun.
    apply (parseArgs_err atoi rest (length rest) (le_n _)) in Hrun. simpl in Hrun. lia. }
  assert (Hexit : main_select atoi (v :: rest) nf = exits).
  { unfold main_select, exits. rewrite Hstep.
    rewrite (parseArgs_count_error atoi rest (length rest) (le_n _)).
    destruct (parseArgs atoi rest options0) as [o'| |] eqn:E; cbn [obind]; try reflexivity.
    apply (parseArgs_err atoi rest (length rest) (le_n _)) in E. simpl in E.
    destruct (opt_err (count_error o') =? 0) eqn:E0; [|reflexivity].
    apply Z.eqb_eq in E0. simpl in E0. lia. }
  split; [exact Hstep|]. split; [exact Hexit|].
  split; [exact Hexit|]. split; [exact Hexit|].
  split; [apply parseArgs_no_assert|]. split; [exact Herr|].
  intros r. rewrite Hexit. unfold exits.
  destruct (parseArgs atoi rest options0); discriminate.
Qed.

(** X12. The state [main] sets up is well formed.  When the store is
    sorted by first read with [overlapLen[iid + 1]] overlaps for the read
    [iidMin + iid], its records pass [populate], and the profiles are
    allocated for reads shorter than [2^31], the index built by [main]
    and the loaded overlaps make a well-formed engine state with a
    non-decreasing index, and the number of overlaps is the number of
    records of the store. *)
Theorem main_setup_wellformed (iidMin numIIDs numOvls : Z) (overlapLen freshIdx : list Z)
    (store : list ovOverlap) (idx : list Z) (rp : list readErrorEstimate) :
  0 <= iidMin < 2 ^ 32 ->
  0 <= numIIDs < 2 ^ 32 ->
  Z.of_nat (length freshIdx) = numIIDs + 1 ->
  numIIDs < Z.of_nat (length overlapLen) ->
  Forall (fun x => 0 <= x < 2 ^ 32) overlapLen ->
  map ovl_a_iid store = sortedByRead iidMin numIIDs overlapLen ->
  forallb populate_ok store = true ->
  Z.of_nat (length rp) = numIIDs ->
  forallb wf_profile_b rp = true ->
  main_index numIIDs numOvls overlapLen freshIdx = Done idx ->
  wf_state_b iidMin numIIDs
    {| overlapIndex := idx; overlaps := map populate_fields store; readProfile := rp |} = true
  /\ sorted_b idx = true
  /\ Z.of_nat (length store) = numOvls.
Proof.
  intros Hmin Hnum Hfresh Hlen Hall Hlayout Hok Hrp Hwfp Hidx.
  destruct (main_index_spec numIIDs numOvls overlapLen freshIdx Hnum Hfresh Hlen Hall)
    as (idx0 & Hl0 & Hcells & Hrun).
  rewrite Hrun in Hidx.
  destruct (sumU (drop 1 overlapLen) (Z.to_nat numIIDs) =? numOvls) eqn:Etot; [|discriminate].
  apply Z.eqb_eq in Etot. inversion Hidx; subst idx0. clear Hidx Hrun.
  assert (Hpos : Forall (fun x => 0 <= x) overlapLen).
  { eapply Forall_impl; [exact Hall|]. simpl. intros; lia. }
  assert (Hposd : Forall (fun x => 0 <= x) (drop 1 overlapLen)).
  { apply Forall_drop. exact Hpos. }
  assert (Hstore : Z.of_nat (length store) = numOvls).
  { rewrite <- (length_map ovl_a_iid store), Hlayout. unfold sortedByRead.
    rewrite (sortedByRead_length iidMin overlapLen _ Hpos 0%nat).
    rewrite sumU_0. simpl. lia. }
  assert (Hsorted : sorted_b idx = true).
  { apply sorted_b_intro. intros i x y Hx Hy.
    assert (Hi : Z.of_nat (S i) <= numIIDs).
    { apply lookup_lt_Some in Hy. lia. }
    rewrite Hcells in Hx by lia. rewrite Hcells in Hy by lia.
    inversion Hx; inversion Hy; subst. apply sumU_mono; [assumption|lia]. }
  split; [|split; [exact Hsorted|exact Hstore]].
  unfold wf_state_b. simpl.
  repeat (apply andb_true_iff; split); try (apply Z.leb_le; lia); try (apply Z.ltb_lt; lia).
  - apply Z.eqb_eq. exact Hrp.
  - exact Hwfp.
  - apply wf_overlaps_intro. intros k o Hk.
    rewrite list_lookup_fmap in Hk.
    destruct (store !! k) as [r|] eqn:Hr; [|discriminate]. simpl in Hk.
    inversion Hk; subst o. clear Hk.
    assert (Hokr : populate_ok r = true).
    { apply forallb_Forall in Hok. exact (Forall_lookup_1 _ _ _ _ Hok Hr). }
    destruct (populate_ok_fields r Hokr) as (Ha & Har & Hah & Hbh).
    assert (Hlk : sortedByRead iidMin numIIDs overlapLen !! k = Some (ovl_a_iid r)).
    { rewrite <- Hlayout, list_lookup_fmap, Hr. reflexivity. }
    destruct (sortedByRead_lookup iidMin overlapLen _ Hpos _ _ _ Hlk)
      as (i & Hi & Hv & Hlo & Hhi).
    rewrite sumU_0 in Hlo, Hhi.
    assert (Hw : wrap32 (a_iid (populate_fields r) - iidMin) = Z.of_nat i).
    { rewrite Ha, Hv. replace (iidMin + Z.of_nat i - iidMin) with (Z.of_nat i) by lia.
      apply wrap32_small. lia. }
    unfold wf_overlap_b. rewrite Hw.
    unfold fits_signed in Hah, Hbh. simpl in Hah, Hbh.
    repeat (apply andb_true_iff; split);
      first [ apply Z.leb_le; lia | apply Z.ltb_lt; lia
            | apply Z.leb_le; simpl; lia | apply Z.ltb_lt; simpl; lia | idtac ].
    unfold in_slice_b. rewrite Nat2Z.id.
    replace (Z.to_nat (Z.of_nat i + 1)) with (S i) by lia.
    rewrite (Hcells i) by lia. rewrite (Hcells (S i)) by lia.
    apply andb_true_iff. split; [apply Z.leb_le; lia|apply Z.ltb_lt; lia].
Qed.

End MoreProperties.

(** ** The partitioner *)

Lemma aget_total {A : Type} (a : list A) (i : Z) :
  0 <= i < Z.of_nat (length a) -> exists x, aget a i = Done x.
Proof.
  intros Hi. destruct (lookup_lt_is_Some_2 a (Z.to_nat i)) as (x & Hx); [lia|].
  exists x. apply aget_Done. split; [lia|assumption].
Qed.

Lemma wrap32_pred_succ (b : Z) : wrap32 (wrap32 (b - 1) + 1) = wrap32 b.
Proof. rewrite wrap32_add_l. f_equal. lia. Qed.

Lemma hashBlock_spec (readLen : list Z) (minOverlapLength ovlHashBlockLength hashMax : Z) :
  0 <= hashMax < 2 ^ 32 ->
  hashMax < Z.of_nat (length readLen) ->
  forall (fuel : nat) (e hl hr hb : Z),
    0 <= wrap32 (e + 1) <= hashMax ->
    (Z.to_nat (hashMax - wrap32 (e + 1)) < fuel)%nat ->
    exists e' hl' hr' hb',
      Partition.hashBlock fuel readLen minOverlapLength ovlHashBlockLength hashMax e hl hr hb
      = Done (e', hl', hr', hb')
      /\ wrap32 (e + 1) <= e' <= hashMax.
Proof.
  intros Hmax Hlen. induction fuel as [|fuel IH]; intros e hl hr hb He Hfuel; [lia|].
  simpl. set (e1 := wrap32 (e + 1)) in *.
  destruct (aget_total readLen e1) as (len & Hget); [lia|].
  rewrite Hget. simpl obind.
  match goal with
  | |- context [if ?c then Partition.hashBlock _ _ _ _ _ _ ?a ?b ?d else _] =>
      destruct c eqn:Hc
  end.
  2:{ do 4 eexists. split; [reflexivity|lia]. }
  apply andb_true_iff in Hc as (_ & Hlt). apply Z.ltb_lt in Hlt.
  assert (Hw : wrap32 (e1 + 1) = e1 + 1) by (apply wrap32_small; lia).
  match goal with
  | |- context [Partition.hashBlock fuel _ _ _ _ e1 ?a ?b ?d] =>
      destruct (IH e1 a b d) as (e' & hl' & hr' & hb' & Hrun & Hr)
  end.
  - rewrite Hw. lia.
  - rewrite Hw. lia.
  - rewrite Hrun. do 4 eexists. split; [reflexivity|lia].
Qed.

Lemma refBlock_spec (readLen : list Z) (minOverlapLength ovlRefBlockLength refMax : Z) :
  0 <= refMax < 2 ^ 32 ->
  refMax < Z.of_nat (length readLen) ->
  forall (fuel : nat) (e rl : Z),
    0 <= wrap32 (e + 1) <= refMax ->
    (Z.to_nat (refMax - wrap32 (e + 1)) < fuel)%nat ->
    exists e' rl',
      Partition.refBlock fuel readLen minOverlapLength ovlRefBlockLength refMax e rl
      = Done (e', rl')
      /\ wrap32 (e + 1) <= e' <= refMax.
Proof.
  intros Hmax Hlen. induction fuel as [|fuel IH]; intros e rl He Hfuel; [lia|].
  simpl. set (e1 := wrap32 (e + 1)) in *.
  destruct (aget_total readLen e1) as (len & Hget); [lia|].
  rewrite Hget. simpl obind.
  match goal with
  | |- context [if ?c then Partition.refBlock _ _ _ _ _ _ ?a else _] =>
      destruct c eqn:Hc
  end.
  2:{ do 2 eexists. split; [reflexivity|lia]. }
  apply andb_true_iff in Hc as (_ & Hlt). apply Z.ltb_lt in Hlt.
  assert (Hw : wrap32 (e1 + 1) = e1 + 1) by (apply wrap32_small; lia).
  match goal with
  | |- context [Partition.refBlock fuel _ _ _ _ e1 ?a] =>
      destruct (IH e1 a) as (e' & rl' & Hrun & Hr)
  end.
  - rewrite Hw. lia.
  - rewrite Hw. lia.
  - rewrite Hrun. do 2 eexists. split; [reflexivity|lia].
Qed.

Lemma nextJob_countersAt (n : Z) (c : Partition.counters) :
  0 <= n -> countersAt n c -> countersAt (n + 1) (Partition.nextJob c).
Proof.
  intros Hn (Hs & Hb & Hj). unfold countersAt, Partition.nextJob, Partition.batchMax in *.
  rewrite Hs, Hb, Hj.
  pose proof (Z.mod_pos_bound n 1000 ltac:(lia)) as Hm.
  pose proof (Z.div_mod n 1000 ltac:(lia)) as Hd.
  rewrite (wrap32_small (n mod 1000 + 1)) by lia.
  assert (Hcase : (n mod 1000 = 999 /\ (n + 1) mod 1000 = 0 /\ (n + 1) / 1000 = n / 1000 + 1)
                  \/ (n mod 1000 < 999 /\ (n + 1) mod 1000 = n mod 1000 + 1
                      /\ (n + 1) / 1000 = n / 1000)).
  { destruct (Z.eq_dec (n mod 1000) 999) as [E|E].
    - left. split; [assumption|].
      assert (n + 1 = (n / 1000 + 1) * 1000 + 0) by lia.
      split.
      + symmetry. apply (Z.mod_unique (n + 1) 1000 (n / 1000 + 1) 0); lia.
      + symmetry. apply (Z.div_unique (n + 1) 1000 (n / 1000 + 1) 0); lia.
    - right. split; [lia|].
      assert (n + 1 = (n / 1000) * 1000 + (n mod 1000 + 1)) by lia.
      split.
      + symmetry. apply (Z.mod_unique (n + 1) 1000 (n / 1000) (n mod 1000 + 1)); lia.
      + symmetry. apply (Z.div_unique (n + 1) 1000 (n / 1000) (n mod 1000 + 1)); lia. }
  simpl.
  destruct Hcase as [(E & Em & Ed)|(E & Em & Ed)]; rewrite Em, Ed.
  - destruct (Z.leb_spec 1000 (n mod 1000 + 1)); [|lia].
    split; [reflexivity|]. split.
    + rewrite wrap32_add_l. f_equal. lia.
    + rewrite wrap32_add_l. f_equal. lia.
  - destruct (Z.leb_spec 1000 (n mod 1000 + 1)); [lia|].
    split; [reflexivity|]. split; [reflexivity|].
    rewrite wrap32_add_l. f_equal. lia.
Qed.

Lemma numbered_snoc (out : list Partition.job) (c : Partition.counters) (j : Partition.job) :
  numbered out ->
  countersAt (Z.of_nat (length out)) c ->
  Partition.jobName j = Partition.c_jobName c ->
  Partition.batchName j = Partition.c_batchName c ->
  numbered (out ++ [j]).
Proof.
  intros Hn (_ & Hb & Hj) Ej Eb k j' Hk.
  destruct (Nat.lt_ge_cases k (length out)) as [Hlt|Hge].
  - rewrite lookup_app_l in Hk by assumption. apply Hn. assumption.
  - rewrite lookup_app_r in Hk by assumption.
    destruct (k - length out)%nat as [|m] eqn:Em; simpl in Hk; [|discriminate].
    inversion Hk; subst j'. replace k with (length out) by lia.
    rewrite Ej, Eb, Hj, Hb. split; reflexivity.
Qed.

Lemma refLoop_unfold (fuel : nat) (readLen : list Z)
    (minOverlapLength ovlRefBlockLength refMax : Z) (sameLibs : bool)
    (hashBeg hashEnd hashReads hashBases refBeg refEnd : Z)
    (c : Partition.counters) (out : list Partition.job) :
  Partition.refLoop (S fuel) readLen minOverlapLength ovlRefBlockLength refMax sameLibs
    hashBeg hashEnd hashReads hashBases refBeg refEnd c out =
  if (refBeg <? refMax) && ((refBeg <? hashEnd) || sameLibs) then
    let! rb := Partition.refBlock (S (Z.to_nat refMax)) readLen minOverlapLength
                 ovlRefBlockLength refMax refEnd 0 in
    let refEnd1 := if refMax <? fst rb then refMax else fst rb in
    let refEnd2 := if (hashEnd <? refEnd1) && negb sameLibs then hashEnd else refEnd1 in
    Partition.refLoop fuel readLen minOverlapLength ovlRefBlockLength refMax sameLibs
      hashBeg hashEnd hashReads hashBases (wrap32 (refEnd2 + 1)) refEnd2
      (Partition.nextJob c)
      (out ++ [ {| Partition.batchName := Partition.c_batchName c;
                   Partition.jobName := Partition.c_jobName c;
                   Partition.hashBeg := hashBeg; Partition.hashEnd := hashEnd;
                   Partition.refBeg := refBeg; Partition.refEnd := refEnd2;
                   Partition.hashReads := hashReads;
                   Partition.hashBases := hashBases |} ])
  else Done (c, out).
Proof. reflexivity. Qed.

Lemma hashLoop_unfold (fuel : nat) (readLen : list Z)
    (minOverlapLength ovlHashBlockLength ovlRefBlockLength : Z) (sameLibs : bool)
    (hashMax refMin refMax hashBeg hashEnd : Z)
    (c : Partition.counters) (out : list Partition.job) :
  Partition.hashLoop (S fuel) readLen minOverlapLength ovlHashBlockLength
    ovlRefBlockLength sameLibs hashMax refMin refMax hashBeg hashEnd c out =
  if hashBeg <? hashMax then
    assert! hashEnd =? wrap32 (hashBeg - 1);
    let! hb := Partition.hashBlock (S (Z.to_nat hashMax)) readLen minOverlapLength
                 ovlHashBlockLength hashMax hashEnd 0 0 0 in
    assert! fst (fst (fst hb)) <=? hashMax;
    let! r := Partition.refLoop (S (Z.to_nat refMax)) readLen minOverlapLength
                ovlRefBlockLength refMax sameLibs
                hashBeg (fst (fst (fst hb))) (snd (fst hb)) (snd hb) refMin 0 c out in
    Partition.hashLoop fuel readLen minOverlapLength ovlHashBlockLength
      ovlRefBlockLength sameLibs hashMax refMin refMax
      (wrap32 (fst (fst (fst hb)) + 1)) (fst (fst (fst hb))) (fst r) (snd r)
  else Done out.
Proof. reflexivity. Qed.

Lemma refLoop_spec (readLen : list Z) (minOverlapLength ovlRefBlockLength : Z)
    (sameLibs : bool) (hashMin hashMax refMin refMax : Z)
    (hashBeg hashEnd hashReads hashBases : Z) :
  0 <= refMax < 2 ^ 32 - 1 ->
  refMax < Z.of_nat (length readLen) ->
  hashMin <= hashBeg < hashMax ->
  hashBeg <= hashEnd <= hashMax ->
  forall (fuel : nat) (refBeg refEnd : Z) (c : Partition.counters)
         (out : list Partition.job),
    0 <= refBeg ->
    0 <= refEnd <= refMax ->
    (refEnd = 0 /\ refBeg = refMin) \/ (1 <= refEnd /\ refBeg = refEnd + 1) ->
    (Z.to_nat (refMax - refEnd) < fuel)%nat ->
    countersAt (Z.of_nat (length out)) c ->
    Forall (jobInRange hashMin hashMax refMin refMax sameLibs) out ->
    numbered out ->
    exists c' out',
      Partition.refLoop fuel readLen minOverlapLength ovlRefBlockLength refMax sameLibs
        hashBeg hashEnd hashReads hashBases refBeg refEnd c out = Done (c', out')
      /\ countersAt (Z.of_nat (length out')) c'
      /\ Forall (jobInRange hashMin hashMax refMin refMax sameLibs) out'
      /\ numbered out'.
Proof.
  intros Hmax Hlen Hhb Hhe.
  induction fuel as [|fuel IH];
    intros refBeg refEnd c out Hrb Hre Hinv Hfuel Hc Hall Hnum; [lia|].
  rewrite refLoop_unfold.
  destruct ((refBeg <? refMax) && ((refBeg <? hashEnd) || sameLibs)) eqn:Hcond.
  2:{ exists c, out. auto. }
  apply andb_true_iff in Hcond as (Hlt & Hor). apply Z.ltb_lt in Hlt.
  assert (He1 : wrap32 (refEnd + 1) = refEnd + 1) by (apply wrap32_small; lia).
  destruct (refBlock_spec readLen minOverlapLength ovlRefBlockLength refMax
              ltac:(lia) Hlen (S (Z.to_nat refMax)) refEnd 0)
    as (re & rl & Hrun & Hr).
  { rewrite He1. destruct Hinv as [(-> & _) | (_ & ->)]; lia. }
  { lia. }
  rewrite Hrun. cbn [obind fst snd]. cbv zeta. cbn [fst snd]. rewrite He1 in Hr.
  destruct (Z.ltb_spec refMax re) as [Hbad|_]; [lia|].
  set (re2 := if (hashEnd <? re) && negb sameLibs then hashEnd else re).
  assert (Hre2 : refEnd + 1 <= re2 <= refMax
                 /\ (sameLibs = false -> refBeg < hashEnd /\ re2 <= hashEnd)).
  { unfold re2. destruct sameLibs; simpl.
    - rewrite andb_false_r. split; [lia|discriminate].
    - rewrite andb_true_r. rewrite orb_false_r in Hor. apply Z.ltb_lt in Hor.
      destruct (Z.ltb_spec hashEnd re); (split; [|intros _]; destruct Hinv as [(-> & _) | (_ & ->)]; lia). }
  destruct Hre2 as (Hre2 & Hlibs).
  assert (Hw : wrap32 (re2 + 1) = re2 + 1) by (apply wrap32_small; lia).
  rewrite Hw.
  match goal with
  | |- context [Partition.refLoop fuel _ _ _ _ _ _ _ _ _ _ _ ?c1 (out ++ [?j])] =>
      destruct (IH (re2 + 1) re2 c1 (out ++ [j])) as (c' & out' & Hrun' & Hc' & Hall' & Hnum')
  end.
  - lia.
  - lia.
  - right. split; [lia|reflexivity].
  - lia.
  - rewrite length_app. simpl length. rewrite Nat2Z.inj_add.
    apply nextJob_countersAt; [lia|assumption].
  - apply Forall_app. split; [assumption|]. constructor; [|constructor].
    unfold jobInRange. simpl.
    repeat (split; [lia|]). exact Hlibs.
  - apply (numbered_snoc out c); [assumption|assumption|reflexivity|reflexivity].
  - exists c', out'. auto.
Qed.

Lemma hashLoop_spec (readLen : list Z)
    (minOverlapLength ovlHashBlockLength ovlRefBlockLength : Z)
    (sameLibs : bool) (hashMin hashMax refMin refMax : Z) :
  0 <= hashMax < 2 ^ 32 - 1 ->
  hashMax < Z.of_nat (length readLen) ->
  0 <= refMax < 2 ^ 32 - 1 ->
  refMax < Z.of_nat (length readLen) ->
  0 <= refMin ->
  forall (fuel : nat) (hashBeg hashEnd : Z) (c : Partition.counters)
         (out : list Partition.job),
    hashMin <= hashBeg ->
    0 <= hashBeg < 2 ^ 32 ->
    hashEnd = wrap32 (hashBeg - 1) ->
    (Z.to_nat (hashMax - hashBeg) < fuel)%nat ->
    countersAt (Z.of_nat (length out)) c ->
    Forall (jobInRange hashMin hashMax refMin refMax sameLibs) out ->
    numbered out ->
    exists out',
      Partition.hashLoop fuel readLen minOverlapLength ovlHashBlockLength
        ovlRefBlockLength sameLibs hashMax refMin refMax hashBeg hashEnd c out
      = Done out'
      /\ Forall (jobInRange hashMin hashMax refMin refMax sameLibs) out'
      /\ numbered out'.
Proof.
  intros Hhm Hhl Hrm Hrl Hrmin.
  induction fuel as [|fuel IH];
    intros hashBeg hashEnd c out Hmin Hhb Hhe Hfuel Hc Hall Hnum; [lia|].
  rewrite hashLoop_unfold.
  destruct (Z.ltb_spec hashBeg hashMax) as [Hlt|Hge].
  2:{ exists out. auto. }
  rewrite Hhe, Z.eqb_refl.
  assert (He1 : wrap32 (wrap32 (hashBeg - 1) + 1) = hashBeg).
  { rewrite wrap32_pred_succ. apply wrap32_small. lia. }
  destruct (hashBlock_spec readLen minOverlapLength ovlHashBlockLength hashMax
              ltac:(lia) Hhl (S (Z.to_nat hashMax)) (wrap32 (hashBeg - 1)) 0 0 0)
    as (he & hl & hr & hbz & Hrun & Hr).
  { rewrite He1. lia. }
  { rewrite He1. lia. }
  rewrite Hrun. cbn [obind fst snd]. rewrite He1 in Hr.
  destruct (Z.leb_spec he hashMax) as [_|Hbad]; [|lia].
  destruct (refLoop_spec readLen minOverlapLength ovlRefBlockLength sameLibs
              hashMin hashMax refMin refMax hashBeg he hr hbz Hrm Hrl ltac:(lia) ltac:(lia)
              (S (Z.to_nat refMax)) refMin 0 c out)
    as (c' & out1 & Hrun1 & Hc1 & Hall1 & Hnum1); try assumption; try lia.
  rewrite Hrun1. cbn [obind fst snd].
  assert (Hw : wrap32 (he + 1) = he + 1) by (apply wrap32_small; lia).
  rewrite Hw.
  destruct (IH (he + 1) he c' out1) as (out' & Hrun' & Hall' & Hnum'); try assumption; try lia.
  { replace (he + 1 - 1) with he by lia. symmetry. apply wrap32_small. lia. }
  exists out'. auto.
Qed.

Lemma libFlags_aget (numLibs : Z) (libs : gset Z) (lib : Z) (d : bool) :
  aget (Partition.libFlags numLibs libs) lib = Done d ->
  d = bool_decide (lib ∈ libs).
Proof.
  intros Hget. apply aget_Done in Hget as (Hlib & Hl).
  unfold Partition.libFlags in Hl.
  change (map ?f ?l) with (f <$> l) in Hl.
  rewrite list_lookup_fmap in Hl.
  destruct (seq 0 (Z.to_nat (numLibs + 1)) !! Z.to_nat lib) as [i|] eqn:Hi; [|discriminate].
  apply lookup_seq in Hi as (Hi & _). simpl in Hi. subst i.
  simpl in Hl. inversion Hl. rewrite Z2Nat.id by assumption. reflexivity.
Qed.

Lemma widen_spec (libs : gset Z) (numLibs lib ii : Z) (test : bool) (lohi lohi' : Z * Z) :
  Partition.widen test (Partition.libFlags numLibs libs) lib ii lohi = Done lohi' ->
  lohi' = if test && bool_decide (lib ∈ libs)
          then (Z.min (fst lohi) ii, Z.max (snd lohi) ii) else lohi.
Proof.
  unfold Partition.widen. destruct test; simpl; [|intros [= <-]; reflexivity].
  destruct (aget (Partition.libFlags numLibs libs) lib) as [d| |] eqn:Hd; simpl; try discriminate.
  apply libFlags_aget in Hd. subst d.
  destruct (bool_decide (lib ∈ libs)); intros [= <-]; reflexivity.
Qed.

Lemma lengthLoop_spec (numLibs : Z) (libToHash libToRef : gset Z) (testHash testRef : bool) :
  forall (rest : list Partition.sqRead) (ii : Z) (pre : list Z) (r : Partition.ranges)
         (readLen' : list Z) (r' : Partition.ranges),
    Z.of_nat (length pre) = ii ->
    Partition.lengthLoop testHash testRef (Partition.libFlags numLibs libToHash)
      (Partition.libFlags numLibs libToRef) ii rest
      (pre ++ replicate (length rest) 0, r) = Done (readLen', r') ->
    readLen' = pre ++ map Partition.sqRead_sequenceLength rest
    /\ (forall (k : nat) (read : Partition.sqRead),
          rest !! k = Some read -> Partition.sqRead_readID read = ii + Z.of_nat k)
    /\ (Partition.hashMin r', Partition.hashMax r')
       = (if testHash
          then spanOf libToHash ii rest (Partition.hashMin r, Partition.hashMax r)
          else (Partition.hashMin r, Partition.hashMax r))
    /\ (Partition.refMin r', Partition.refMax r')
       = (if testRef
          then spanOf libToRef ii rest (Partition.refMin r, Partition.refMax r)
          else (Partition.refMin r, Partition.refMax r)).
Proof.
  induction rest as [|read rest IH]; intros ii pre r readLen' r' Hpre Hrun.
  - simpl in Hrun. inversion Hrun; subst. simpl. rewrite !app_nil_r.
    split; [reflexivity|]. split; [intros k read Hk; rewrite lookup_nil in Hk; discriminate|].
    destruct testHash, testRef; auto.
  - simpl in Hrun. unfold Partition.lengthStep in Hrun. cbn [fst snd] in Hrun.
    destruct (Partition.sqRead_readID read =? ii) eqn:Eid; [|discriminate].
    apply Z.eqb_eq in Eid.
    assert (Hset : aset (pre ++ 0 :: replicate (length rest) 0) ii
                     (Partition.sqRead_sequenceLength read)
                   = Done ((pre ++ [Partition.sqRead_sequenceLength read])
                           ++ replicate (length rest) 0)).
    { rewrite <- Hpre. rewrite aset_nat by (rewrite length_app; simpl; lia).
      f_equal. rewrite insert_app_r_alt by lia.
      replace (length pre - length pre)%nat with 0%nat by lia. simpl.
      rewrite <- app_assoc. reflexivity. }
    rewrite Hset in Hrun. cbn [obind] in Hrun.
    destruct (Partition.widen testHash _ _ ii (Partition.hashMin r, Partition.hashMax r))
      as [h| |] eqn:Hh; try discriminate.
    cbn [obind] in Hrun.
    destruct (Partition.widen testRef _ _ ii (Partition.refMin r, Partition.refMax r))
      as [f| |] eqn:Hf; try discriminate.
    cbn [obind] in Hrun.
    apply widen_spec in Hh. apply widen_spec in Hf.
    apply IH in Hrun; [|rewrite length_app; simpl; lia].
    destruct Hrun as (Hlen & Hids & Hhash & Href). cbn [Partition.hashMin Partition.hashMax
      Partition.refMin Partition.refMax] in Hhash, Href.
    split; [|split; [|split]].
    + rewrite Hlen. rewrite <- app_assoc. reflexivity.
    + intros k rd Hk. destruct k as [|k]; simpl in Hk.
      * inversion Hk; subst rd. lia.
      * rewrite (Hids k rd Hk). lia.
    + rewrite Hhash. subst h. destruct testHash; simpl; [|reflexivity].
      destruct (bool_decide (Partition.sqRead_libraryID read ∈ libToHash)); reflexivity.
    + rewrite Href. subst f. destruct testRef; simpl; [|reflexivity].
      destruct (bool_decide (Partition.sqRead_libraryID read ∈ libToRef)); reflexivity.
Qed.

Lemma spanOf_spec (libs : gset Z) :
  forall (rest : list Partition.sqRead) (ii lo hi : Z),
    let lohi' := spanOf libs ii rest (lo, hi) in
    fst lohi' <= lo /\ hi <= snd lohi'
    /\ (forall (k : nat) (read : Partition.sqRead),
          rest !! k = Some read -> Partition.sqRead_libraryID read ∈ libs ->
          fst lohi' <= ii + Z.of_nat k <= snd lohi')
    /\ (fst lohi' = lo
        \/ exists (k : nat) (read : Partition.sqRead),
             rest !! k = Some read /\ Partition.sqRead_libraryID read ∈ libs
             /\ fst lohi' = ii + Z.of_nat k)
    /\ (snd lohi' = hi
        \/ exists (k : nat) (read : Partition.sqRead),
             rest !! k = Some read /\ Partition.sqRead_libraryID read ∈ libs
             /\ snd lohi' = ii + Z.of_nat k).
Proof.
  induction rest as [|read rest IH]; intros ii lo hi; simpl.
  - split; [lia|]. split; [lia|]. split; [intros k read Hk; rewrite lookup_nil in Hk; discriminate|].
    auto.
  - destruct (bool_decide_reflect (Partition.sqRead_libraryID read ∈ libs)) as [Hin|Hnin];
      cbn [fst snd].
    + destruct (IH (ii + 1) (Z.min lo ii) (Z.max hi ii)) as (Hlo & Hhi & Hcov & Hmin & Hmax).
      cbv zeta in Hlo, Hhi, Hcov, Hmin, Hmax.
      split; [lia|]. split; [lia|]. split; [|split].
      * intros k rd Hk Hrd. destruct k as [|k]; simpl in Hk.
        -- lia.
        -- specialize (Hcov k rd Hk Hrd). lia.
      * destruct Hmin as [E|(k & rd & Hk & Hrd & E)].
        -- destruct (Z.min_spec lo ii) as [(_ & Em)|(_ & Em)].
           ++ left. rewrite E. exact Em.
           ++ right. exists 0%nat, read. split; [reflexivity|]. split; [assumption|].
              rewrite E. lia.
        -- right. exists (S k), rd. split; [assumption|]. split; [assumption|]. lia.
      * destruct Hmax as [E|(k & rd & Hk & Hrd & E)].
        -- destruct (Z.max_spec hi ii) as [(_ & Em)|(_ & Em)].
           ++ right. exists 0%nat, read. split; [reflexivity|]. split; [assumption|].
              rewrite E. lia.
           ++ left. rewrite E. exact Em.
        -- right. exists (S k), rd. split; [assumption|]. split; [assumption|]. lia.
    + destruct (IH (ii + 1) lo hi) as (Hlo & Hhi & Hcov & Hmin & Hmax).
      cbv zeta in Hlo, Hhi, Hcov, Hmin, Hmax.
      split; [lia|]. split; [lia|]. split; [|split].
      * intros k rd Hk Hrd. destruct k as [|k]; simpl in Hk.
        -- inversion Hk; subst rd. contradiction.
        -- specialize (Hcov k rd Hk Hrd). lia.
      * destruct Hmin as [E|(k & rd & Hk & Hrd & E)]; [left; exact E|].
        right. exists (S k), rd. split; [assumption|]. split; [assumption|]. lia.
      * destruct Hmax as [E|(k & rd & Hk & Hrd & E)]; [left; exact E|].
        right. exists (S k), rd. split; [assumption|]. split; [assumption|]. lia.
Qed.

Lemma spanOf_rangeOfLibs (libs : gset Z) (reads : list Partition.sqRead) (lo0 hi0 lo hi : Z) :
  Z.of_nat (length reads) < UINT32_MAX ->
  (lo, hi) = (if negb (size libs =? 0)%nat
              then spanOf libs 1 reads (UINT32_MAX, 0)
              else (lo0, hi0)) ->
  rangeOfLibs libs reads lo0 hi0 lo hi.
Proof.
  intros Hn Hlohi. unfold rangeOfLibs.
  destruct (size libs =? 0)%nat eqn:Es; simpl in Hlohi.
  - apply Nat.eqb_eq in Es. apply size_empty_iff in Es.
    apply leibniz_equiv in Es. split; [intros _; inversion Hlohi; auto|].
    intros Hne. contradiction.
  - apply Nat.eqb_neq in Es. split.
    { intros He. subst libs. rewrite size_empty in Es. contradiction. }
    intros _.
    destruct (spanOf_spec libs reads 1 UINT32_MAX 0) as (Hlo & Hhi & Hcov & Hmin & Hmax).
    cbv zeta in Hlo, Hhi, Hcov, Hmin, Hmax. rewrite <- Hlohi in *. cbn [fst snd] in *.
    split.
    { intros k read Hk Hin. specialize (Hcov k read Hk Hin). lia. }
    destruct Hmin as [E|(k1 & read1 & Hk1 & Hin1 & E1)].
    + left. assert (Hnone : forall (k : nat) (read : Partition.sqRead),
                      reads !! k = Some read -> Partition.sqRead_libraryID read ∉ libs).
      { intros k read Hk Hin. specialize (Hcov k read Hk Hin).
        apply lookup_lt_Some in Hk. lia. }
      split; [assumption|]. split; [|assumption].
      destruct Hmax as [E2|(k2 & read2 & Hk2 & Hin2 & _)]; [assumption|].
      exfalso. exact (Hnone k2 read2 Hk2 Hin2).
    + right. destruct Hmax as [E2|(k2 & read2 & Hk2 & Hin2 & E2)].
      * specialize (Hcov k1 read1 Hk1 Hin1). lia.
      * exists k1, k2, read1, read2. repeat split; try assumption; lia.
Qed.

Lemma loadReadLengths_spans (numLibs : Z) (reads : list Partition.sqRead)
    (libToHash libToRef : gset Z) (r r' : Partition.ranges) (readLen : list Z) :
  Partition.loadReadLengths numLibs reads libToHash libToRef r = Done (readLen, r') ->
  readLen = 0 :: map Partition.sqRead_sequenceLength reads
  /\ (forall (k : nat) (read : Partition.sqRead),
        reads !! k = Some read -> Partition.sqRead_readID read = Z.of_nat k + 1)
  /\ (Partition.hashMin r', Partition.hashMax r')
     = (if negb (size libToHash =? 0)%nat
        then spanOf libToHash 1 reads (UINT32_MAX, 0)
        else (Partition.hashMin r, Partition.hashMax r))
  /\ (Partition.refMin r', Partition.refMax r')
     = (if negb (size libToRef =? 0)%nat
        then spanOf libToRef 1 reads (UINT32_MAX, 0)
        else (Partition.refMin r, Partition.refMax r)).
Proof.
  intros Hrun. unfold Partition.loadReadLengths in Hrun.
  replace (replicate (length reads + 1) 0) with ([0] ++ replicate (length reads) 0) in Hrun.
  2:{ rewrite Nat.add_comm. reflexivity. }
  apply (lengthLoop_spec numLibs libToHash libToRef) in Hrun; [|reflexivity].
  destruct Hrun as (Hlen & Hids & Hhash & Href).
  cbn [Partition.hashMin Partition.hashMax Partition.refMin Partition.refMax] in Hhash, Href.
  split; [exact Hlen|]. split; [intros k read Hk; rewrite (Hids k read Hk); lia|].
  split.
  - rewrite Hhash. destruct (negb (size libToHash =? 0)%nat); reflexivity.
  - rewrite Href. destruct (negb (size libToRef =? 0)%nat); reflexivity.
Qed.

(** X13. [loadReadLengths] returns the lengths of the reads, in the order
    of the store behind a first cell that is 0, after it has checked that
    every read carries its place in the store as its identifier; and for
    each of the two sets of libraries it leaves the parameters alone when
    the set is empty, and else sets them to the first and the last read of
    one of its libraries ([UINT32_MAX] and 0 when there is none). *)
Theorem loadReadLengths_ranges (numLibs : Z) (reads : list Partition.sqRead)
    (libToHash libToRef : gset Z) (r r' : Partition.ranges) (readLen : list Z) :
  Z.of_nat (length reads) < UINT32_MAX ->
  Partition.loadReadLengths numLibs reads libToHash libToRef r = Done (readLen, r') ->
  readLen = 0 :: map Partition.sqRead_sequenceLength reads
  /\ (forall (k : nat) (read : Partition.sqRead),
        reads !! k = Some read -> Partition.sqRead_readID read = Z.of_nat k + 1)
  /\ rangeOfLibs libToHash reads (Partition.hashMin r) (Partition.hashMax r)
       (Partition.hashMin r') (Partition.hashMax r')
  /\ rangeOfLibs libToRef reads (Partition.refMin r) (Partition.refMax r)
       (Partition.refMin r') (Partition.refMax r').
Proof.
  intros Hn Hrun.
  destruct (loadReadLengths_spans numLibs reads libToHash libToRef r r' readLen Hrun)
    as (Hlen & Hids & Hhash & Href).
  split; [exact Hlen|]. split; [exact Hids|].
  split; apply spanOf_rangeOfLibs; assumption.
Qed.

Lemma partitionLength_spec (numReads : Z) (readLen : list Z)
    (minOverlapLength ovlHashBlockLength ovlRefBlockLength : Z)
    (libToHash libToRef : gset Z) (r : Partition.ranges) :
  0 <= numReads < UINT32_MAX ->
  Z.of_nat (length readLen) = numReads + 1 ->
  0 <= Partition.hashMin r < 2 ^ 32 ->
  0 <= Partition.hashMax r ->
  0 <= Partition.refMin r ->
  0 <= Partition.refMax r ->
  exists jobs,
    Partition.partitionLength numReads readLen minOverlapLength ovlHashBlockLength
      ovlRefBlockLength libToHash libToRef r = Done jobs
    /\ Forall (jobInRange (Partition.hashMin r)
                 (Z.min numReads (Partition.hashMax r))
                 (Partition.refMin r)
                 (Z.min numReads (Partition.refMax r))
                 (negb (size libToHash =? 0)%nat && bool_decide (libToHash = libToRef)))
         jobs
    /\ numbered jobs.
Proof.
  unfold UINT32_MAX. intros Hn Hlen Hhmin Hhmax Hrmin Hrmax.
  unfold Partition.partitionLength.
  assert (Eh : (if numReads <? Partition.hashMax r then numReads else Partition.hashMax r)
               = Z.min numReads (Partition.hashMax r)).
  { destruct (Z.ltb_spec numReads (Partition.hashMax r)); lia. }
  assert (Er : (if numReads <? Partition.refMax r then numReads else Partition.refMax r)
               = Z.min numReads (Partition.refMax r)).
  { destruct (Z.ltb_spec numReads (Partition.refMax r)); lia. }
  rewrite Eh, Er.
  assert (Hc0 : countersAt (Z.of_nat (length (@nil Partition.job)))
                  {| Partition.c_batchSize := 0; Partition.c_batchName := 1;
                     Partition.c_jobName := 1 |}).
  { unfold countersAt, Partition.batchMax. simpl. repeat split; reflexivity. }
  assert (Hn0 : numbered []).
  { intros k j Hk. rewrite lookup_nil in Hk. discriminate. }
  apply (hashLoop_spec readLen minOverlapLength ovlHashBlockLength ovlRefBlockLength
           _ (Partition.hashMin r) _ (Partition.refMin r));
    first [ lia | reflexivity | exact Hc0 | exact Hn0 | constructor ].
Qed.

(** X14. [partitionLength] always returns: no assertion of it fails and it
    reads no cell outside of [readLen]; and the ranges of every job it
    writes lie within the limits: the hash range starts at or after
    [hashMin] and below the last read to hash, the reference range ends
    at or below the last read to stream, and, unless the same libraries
    are given for the hash table and for the stream, the reference range
    starts below and ends at or below the end of the hash range.  A
    reference range can end before it starts only when it starts at
    [refMin], for the count of its reads starts at read 1 whatever
    [refMin] is. *)
Theorem partitionLength_jobs_in_range (numReads : Z) (readLen : list Z)
    (minOverlapLength ovlHashBlockLength ovlRefBlockLength : Z)
    (libToHash libToRef : gset Z) (r : Partition.ranges) :
  0 <= numReads < UINT32_MAX ->
  Z.of_nat (length readLen) = numReads + 1 ->
  0 <= Partition.hashMin r < 2 ^ 32 ->
  0 <= Partition.hashMax r ->
  0 <= Partition.refMin r ->
  0 <= Partition.refMax r ->
  exists jobs,
    Partition.partitionLength numReads readLen minOverlapLength ovlHashBlockLength
      ovlRefBlockLength libToHash libToRef r = Done jobs
    /\ forall j : Partition.job,
         In j jobs ->
         Partition.hashMin r <= Partition.hashBeg j
         /\ Partition.hashBeg j < Partition.hashMax r
         /\ Partition.hashBeg j < numReads
         /\ Partition.hashBeg j <= Partition.hashEnd j
         /\ Partition.hashEnd j <= Partition.hashMax r
         /\ Partition.hashEnd j <= numReads
         /\ Partition.refBeg j < Partition.refMax r
         /\ 1 <= Partition.refEnd j
         /\ Partition.refEnd j <= Partition.refMax r
         /\ Partition.refEnd j <= numReads
         /\ (Partition.refBeg j = Partition.refMin r
             \/ 1 < Partition.refBeg j <= Partition.refEnd j)
         /\ (libToHash = ∅ \/ libToHash <> libToRef ->
             Partition.refBeg j < Partition.hashEnd j
             /\ Partition.refEnd j <= Partition.hashEnd j).
Proof.
  intros Hn Hlen Hhmin Hhmax Hrmin Hrmax.
  destruct (partitionLength_spec numReads readLen minOverlapLength ovlHashBlockLength
              ovlRefBlockLength libToHash libToRef r Hn Hlen Hhmin Hhmax Hrmin Hrmax)
    as (jobs & Hrun & Hall & _).
  exists jobs. split; [exact Hrun|].
  intros j Hj. rewrite Forall_forall in Hall.
  destruct (Hall j (proj2 (list_elem_of_In _ _) Hj)) as (Hb & He & Hrb & Hre & Hord & Hlibs).
  repeat (split; [lia|]).
  intros Hdiff. apply Hlibs.
  apply andb_false_iff. destruct Hdiff as [He0|Hne].
  - left. subst libToHash. rewrite size_empty. reflexivity.
  - right. apply bool_decide_eq_false. exact Hne.
Qed.

(** X15. The jobs are named by their place in the output: the job written
    after [k] others has job name [k + 1] and batch name [k / 1000 + 1]
    (both [uint32]), so a batch holds [batchMax = 1000] jobs. *)
Theorem partitionLength_jobs_numbered (numReads : Z) (readLen : list Z)
    (minOverlapLength ovlHashBlockLength ovlRefBlockLength : Z)
    (libToHash libToRef : gset Z) (r : Partition.ranges) (jobs : list Partition.job) :
  0 <= numReads < UINT32_MAX ->
  Z.of_nat (length readLen) = numReads + 1 ->
  0 <= Partition.hashMin r < 2 ^ 32 ->
  0 <= Partition.hashMax r ->
  0 <= Partition.refMin r ->
  0 <= Partition.refMax r ->
  Partition.partitionLength numReads readLen minOverlapLength ovlHashBlockLength
    ovlRefBlockLength libToHash libToRef r = Done jobs ->
  numbered jobs
  /\ (Z.of_nat (length jobs) < 2 ^ 32 ->
      forall (k : nat) (j : Partition.job),
        jobs !! k = Some j ->
        Partition.jobName j = Z.of_nat k + 1
        /\ Partition.batchName j = Z.of_nat k / Partition.batchMax + 1
        /\ forall (k' : nat) (j' : Partition.job),
             jobs !! k' = Some j' ->
             Partition.batchName j' = Partition.batchName j ->
             Z.abs (Z.of_nat k' - Z.of_nat k) < Partition.batchMax).
Proof.
  intros Hn Hlen Hhmin Hhmax Hrmin Hrmax Hrun.
  destruct (partitionLength_spec numReads readLen minOverlapLength ovlHashBlockLength
              ovlRefBlockLength libToHash libToRef r Hn Hlen Hhmin Hhmax Hrmin Hrmax)
    as (jobs' & Hrun' & _ & Hnum).
  assert (jobs' = jobs) by congruence. subst jobs'.
  split; [exact Hnum|].
  intros Hshort.
  assert (Hname : forall (k : nat) (j : Partition.job),
            jobs !! k = Some j ->
            Partition.jobName j = Z.of_nat k + 1
            /\ Partition.batchName j = Z.of_nat k / Partition.batchMax + 1).
  { intros k j Hk. destruct (Hnum k j Hk) as (Hj & Hb).
    apply lookup_lt_Some in Hk.
    assert (Hdiv : 0 <= Z.of_nat k / Partition.batchMax <= Z.of_nat k).
    { unfold Partition.batchMax. split; [apply Z.div_pos; lia|].
      apply Z.div_le_upper_bound; lia. }
    rewrite Hj, Hb. rewrite !wrap32_small by lia. lia. }
  intros k j Hk. destruct (Hname k j Hk) as (Hj & Hb).
  split; [exact Hj|]. split; [exact Hb|].
  intros k' j' Hk' Hsame. destruct (Hname k' j' Hk') as (_ & Hb').
  rewrite Hb, Hb' in Hsame. unfold Partition.batchMax in *.
  pose proof (Z.div_mod (Z.of_nat k) 1000 ltac:(lia)) as D1.
  pose proof (Z.div_mod (Z.of_nat k') 1000 ltac:(lia)) as D2.
  pose proof (Z.mod_pos_bound (Z.of_nat k) 1000 ltac:(lia)) as M1.
  pose proof (Z.mod_pos_bound (Z.of_nat k') 1000 ltac:(lia)) as M2.
  lia.
Qed.






Lemma wrap64_add_l x y : wrap64 (wrap64 x + y) = wrap64 (x + y).
Proof. unfold wrap64, wrap. apply Zplus_mod_idemp_l. Qed.

Lemma wrap64_range x : 0 <= wrap64 x < 2 ^ 64.
Proof. apply wrap_range. lia. Qed.

Lemma wrap64_fix x : 0 <= x < 2 ^ 64 -> wrap64 x = x.
Proof. apply wrap_small. Qed.

Lemma hashBytes_app (l1 l2 : list Z) : hashBytes (l1 ++ l2) = hashBytes l1 + hashBytes l2.
Proof.
  unfold hashBytes. induction l1 as [|x l1 IH]; simpl; [reflexivity|]. rewrite IH. lia.
Qed.

Lemma longReads_empty (minOverlapLength : Z) (readLen : list Z) (b e : Z) :
  e < b -> longReads minOverlapLength readLen b e = [].
Proof.
  intros Hlt. unfold longReads. replace (Z.to_nat (e + 1 - b)) with 0%nat by lia. reflexivity.
Qed.

Lemma longReads_cons (minOverlapLength : Z) (readLen : list Z) (b e len : Z) :
  0 <= b <= e ->
  readLen !! Z.to_nat b = Some len ->
  longReads minOverlapLength readLen b e
  = (if len <? minOverlapLength then [] else [len])
    ++ longReads minOverlapLength readLen (b + 1) e.
Proof.
  intros Hbe Hget. unfold longReads.
  replace (Z.to_nat (e + 1 - b)) with (S (Z.to_nat (e + 1 - (b + 1)))) by lia.
  rewrite (drop_S _ _ _ Hget). simpl.
  replace (S (Z.to_nat b)) with (Z.to_nat (b + 1)) by lia.
  destruct (len <? minOverlapLength); reflexivity.
Qed.

Lemma longReads_length (minOverlapLength : Z) (readLen : list Z) (b e : Z) :
  b <= e + 1 ->
  Z.of_nat (length (longReads minOverlapLength readLen b e)) <= e + 1 - b.
Proof.
  intros Hbe. unfold longReads.
  pose proof (List.filter_length_le (fun len => negb (len <? minOverlapLength))
                (take (Z.to_nat (e + 1 - b)) (drop (Z.to_nat b) readLen))) as Hf.
  pose proof (length_take_le (drop (Z.to_nat b) readLen) (Z.to_nat (e + 1 - b))) as Ht.
  rewrite length_take in Hf. lia.
Qed.

Lemma hashBlock_counts (readLen : list Z) (minOverlapLength limit hashMax : Z) :
  hashMax < 2 ^ 32 ->
  forall (fuel : nat) (e b hl hr hb e' hl' hr' hb' : Z),
    b = wrap32 (e + 1) ->
    0 <= hl < 2 ^ 64 ->
    0 <= hr < 2 ^ 32 ->
    0 <= hb < 2 ^ 64 ->
    Partition.hashBlock fuel readLen minOverlapLength limit hashMax e hl hr hb
    = Done (e', hl', hr', hb') ->
    b <= e'
    /\ hl' = wrap64 (hl + hashBytes (longReads minOverlapLength readLen b e'))
    /\ hr' = wrap32 (hr + Z.of_nat (length (longReads minOverlapLength readLen b e')))
    /\ hb' = wrap64 (hb + hashBytes (longReads minOverlapLength readLen b e'))
    /\ (hashMax <= e' \/ limit <= hl')
    /\ (e' = b
        \/ wrap64 (hl + hashBytes (longReads minOverlapLength readLen b (e' - 1))) < limit).
Proof.
  intros Hmax. induction fuel as [|fuel IH];
    intros e b hl hr hb e' hl' hr' hb' Hb Hhl Hhr Hhb Hrun; [discriminate|].
  simpl in Hrun. rewrite <- Hb in Hrun.
  destruct (aget readLen b) as [len| |] eqn:Hget; try discriminate.
  cbn [obind] in Hrun. apply aget_Done in Hget as (Hb0 & Hget).
  set (hl1 := if len <? minOverlapLength then hl else wrap64 (hl + wrap32 (len + 1))) in *.
  set (hr1 := if len <? minOverlapLength then hr else wrap32 (hr + 1)) in *.
  set (hb1 := if len <? minOverlapLength then hb else wrap64 (hb + wrap32 (len + 1))) in *.
  assert (Hone : hashBytes (if len <? minOverlapLength then [] else [len])
                 = if len <? minOverlapLength then 0 else wrap32 (len + 1)).
  { destruct (len <? minOverlapLength); simpl; lia. }
  assert (Hhl1 : hl1 = wrap64 (hl + hashBytes (if len <? minOverlapLength then [] else [len]))
                 /\ 0 <= hl1 < 2 ^ 64).
  { rewrite Hone. unfold hl1. destruct (len <? minOverlapLength).
    - rewrite Z.add_0_r, wrap64_fix by assumption. auto.
    - split; [reflexivity|apply wrap64_range]. }
  assert (Hhb1 : hb1 = wrap64 (hb + hashBytes (if len <? minOverlapLength then [] else [len]))
                 /\ 0 <= hb1 < 2 ^ 64).
  { rewrite Hone. unfold hb1. destruct (len <? minOverlapLength).
    - rewrite Z.add_0_r, wrap64_fix by assumption. auto.
    - split; [reflexivity|apply wrap64_range]. }
  assert (Hhr1 : hr1 = wrap32 (hr + Z.of_nat (length (if len <? minOverlapLength
                                                       then [] else [len])))
                 /\ 0 <= hr1 < 2 ^ 32).
  { unfold hr1. destruct (len <? minOverlapLength); simpl.
    - rewrite Z.add_0_r, wrap32_small by assumption. auto.
    - split; [reflexivity|apply wrap32_range]. }
  destruct Hhl1 as (Ehl1 & Rhl1). destruct Hhb1 as (Ehb1 & Rhb1).
  destruct Hhr1 as (Ehr1 & Rhr1).
  pose proof (longReads_cons minOverlapLength readLen b b len ltac:(lia) Hget) as Hbb.
  rewrite (longReads_empty _ _ (b + 1) b) in Hbb by lia. rewrite app_nil_r in Hbb.
  destruct ((hl1 <? limit) && (b <? hashMax)) eqn:Hc.
  - apply andb_true_iff in Hc as (Hc1 & Hc2). apply Z.ltb_lt in Hc1, Hc2.
    assert (Hw : wrap32 (b + 1) = b + 1) by (apply wrap32_small; lia).
    destruct (IH b (b + 1) hl1 hr1 hb1 e' hl' hr' hb' (eq_sym Hw) Rhl1 Rhr1 Rhb1 Hrun)
      as (Hle & El & Er & Eb & Hfull & Hprev).
    rewrite (longReads_cons minOverlapLength readLen b e' len ltac:(lia) Hget).
    rewrite hashBytes_app, length_app, Nat2Z.inj_add.
    split; [lia|].
    split; [rewrite El, Ehl1, wrap64_add_l; f_equal; lia|].
    split; [rewrite Er, Ehr1, wrap32_add_l; f_equal; lia|].
    split; [rewrite Eb, Ehb1, wrap64_add_l; f_equal; lia|].
    split; [exact Hfull|]. right.
    destruct Hprev as [->|Hprev].
    + replace (b + 1 - 1) with b by lia. rewrite Hbb, <- Ehl1. exact Hc1.
    + rewrite (longReads_cons minOverlapLength readLen b (e' - 1) len ltac:(lia) Hget).
      rewrite hashBytes_app. rewrite Ehl1, wrap64_add_l in Hprev.
      rewrite Z.add_assoc. exact Hprev.
  - inversion Hrun; subst e' hl' hr' hb'. rewrite Hbb.
    split; [lia|]. split; [exact Ehl1|]. split; [exact Ehr1|]. split; [exact Ehb1|].
    split; [|left; reflexivity].
    apply andb_false_iff in Hc as [Hc|Hc]; apply Z.ltb_ge in Hc; [right|left]; assumption.
Qed.

Lemma refLoop_jobs (P : Partition.job -> Prop) (readLen : list Z)
    (minOverlapLength ovlRefBlockLength refMax : Z) (sameLibs : bool)
    (hashBeg hashEnd hashReads hashBases : Z) :
  (forall j : Partition.job,
      Partition.hashBeg j = hashBeg -> Partition.hashEnd j = hashEnd ->
      Partition.hashReads j = hashReads -> Partition.hashBases j = hashBases -> P j) ->
  forall (fuel : nat) (refBeg refEnd : Z) (c c' : Partition.counters)
         (out out' : list Partition.job),
    Forall P out ->
    Partition.refLoop fuel readLen minOverlapLength ovlRefBlockLength refMax sameLibs
      hashBeg hashEnd hashReads hashBases refBeg refEnd c out = Done (c', out') ->
    Forall P out'.
Proof.
  intros HP. induction fuel as [|fuel IH]; intros refBeg refEnd c c' out out' Hall Hrun.
  - simpl in Hrun.
    destruct ((refBeg <? refMax) && ((refBeg <? hashEnd) || sameLibs)); [discriminate|].
    inversion Hrun; subst. exact Hall.
  - rewrite refLoop_unfold in Hrun.
    destruct ((refBeg <? refMax) && ((refBeg <? hashEnd) || sameLibs)).
    2:{ inversion Hrun; subst. exact Hall. }
    destruct (Partition.refBlock (S (Z.to_nat refMax)) readLen minOverlapLength
                ovlRefBlockLength refMax refEnd 0) as [rb| |]; try discriminate.
    cbn [obind] in Hrun. cbv zeta in Hrun.
    apply IH in Hrun; [exact Hrun|].
    apply Forall_app. split; [exact Hall|]. constructor; [|constructor].
    apply HP; reflexivity.
Qed.

Lemma hashLoop_counts (readLen : list Z)
    (minOverlapLength ovlHashBlockLength ovlRefBlockLength : Z) (sameLibs : bool)
    (hashMax refMin refMax : Z) :
  hashMax < 2 ^ 32 - 1 ->
  forall (fuel : nat) (hashBeg hashEnd : Z) (c : Partition.counters)
         (out out' : list Partition.job),
    0 <= hashBeg < 2 ^ 32 ->
    Forall (hashCounts minOverlapLength ovlHashBlockLength hashMax readLen) out ->
    Partition.hashLoop fuel readLen minOverlapLength ovlHashBlockLength
      ovlRefBlockLength sameLibs hashMax refMin refMax hashBeg hashEnd c out = Done out' ->
    Forall (hashCounts minOverlapLength ovlHashBlockLength hashMax readLen) out'.
Proof.
  intros Hmax. induction fuel as [|fuel IH]; intros hashBeg hashEnd c out out' Hb Hall Hrun.
  - simpl in Hrun. destruct (hashBeg <? hashMax); [discriminate|].
    inversion Hrun; subst. exact Hall.
  - rewrite hashLoop_unfold in Hrun.
    destruct (Z.ltb_spec hashBeg hashMax) as [Hlt|_].
    2:{ inversion Hrun; subst. exact Hall. }
    destruct (Z.eqb_spec hashEnd (wrap32 (hashBeg - 1))) as [He|_]; [|discriminate].
    destruct (Partition.hashBlock (S (Z.to_nat hashMax)) readLen minOverlapLength
                ovlHashBlockLength hashMax hashEnd 0 0 0)
      as [[[[he hl] hr] hb]| |] eqn:Hblock; try discriminate.
    cbn [obind fst snd] in Hrun.
    destruct (Z.leb_spec he hashMax) as [Hhe|_]; [|discriminate].
    destruct (Partition.refLoop (S (Z.to_nat refMax)) readLen minOverlapLength
                ovlRefBlockLength refMax sameLibs hashBeg he hr hb refMin 0 c out)
      as [[c1 out1]| |] eqn:Hrefs; try discriminate.
    cbn [obind fst snd] in Hrun.
    assert (Hbeg : hashBeg = wrap32 (hashEnd + 1)).
    { rewrite He, wrap32_pred_succ, wrap32_small; [reflexivity|assumption]. }
    destruct (hashBlock_counts readLen minOverlapLength ovlHashBlockLength hashMax
                ltac:(lia) (S (Z.to_nat hashMax)) hashEnd hashBeg 0 0 0 he hl hr hb
                Hbeg ltac:(lia) ltac:(lia) ltac:(lia) Hblock)
      as (Hle & El & Er & Eb & Hfull & Hprev).
    rewrite Z.add_0_l in El, Er, Eb, Hprev.
    apply IH in Hrun; [exact Hrun| |].
    + rewrite wrap32_small by lia. lia.
    + refine (refLoop_jobs _ readLen minOverlapLength ovlRefBlockLength refMax sameLibs
                hashBeg he hr hb _ _ _ _ _ _ _ _ Hall Hrefs).
      intros j E1 E2 E3 E4. unfold hashCounts. rewrite E1, E2, E3, E4.
      pose proof (longReads_length minOverlapLength readLen hashBeg he ltac:(lia)) as Hlen.
      split; [rewrite Er; apply wrap32_small; lia|].
      split; [exact Eb|].
      split; [|exact Hprev].
      destruct Hfull as [Hf|Hf]; [left; lia|right; rewrite Eb, <- El; exact Hf].
Qed.

(** X17. Every job tells the overlapper what its hash range holds:
    [hashReads] is the number of the reads [hashBeg .. hashEnd] that are at
    least [minOverlapLength] long, and [hashBases], the [--hashdatalen] of
    the job, is the sum of their lengths and one more for each ([uint64]).
    A hash range is full, that is, it ends at the last read to hash or
    holds [ovlHashBlockLength] bytes or more; and it holds fewer without
    its last read. *)
Theorem partitionLength_hash_counts (numReads : Z) (readLen : list Z)
    (minOverlapLength ovlHashBlockLength ovlRefBlockLength : Z)
    (libToHash libToRef : gset Z) (r : Partition.ranges) (jobs : list Partition.job) :
  numReads < UINT32_MAX ->
  0 <= Partition.hashMin r < 2 ^ 32 ->
  Partition.partitionLength numReads readLen minOverlapLength ovlHashBlockLength
    ovlRefBlockLength libToHash libToRef r = Done jobs ->
  forall j : Partition.job,
    In j jobs ->
    let lens := longReads minOverlapLength readLen (Partition.hashBeg j) (Partition.hashEnd j) in
    Partition.hashReads j = Z.of_nat (length lens)
    /\ Partition.hashBases j = wrap64 (hashBytes lens)
    /\ (Partition.hashEnd j = Z.min numReads (Partition.hashMax r)
        \/ ovlHashBlockLength <= Partition.hashBases j)
    /\ (Partition.hashEnd j = Partition.hashBeg j
        \/ wrap64 (hashBytes (longReads minOverlapLength readLen (Partition.hashBeg j)
                                (Partition.hashEnd j - 1))) < ovlHashBlockLength).
Proof.
  unfold UINT32_MAX. intros Hn Hmin Hrun j Hj.
  unfold Partition.partitionLength in Hrun.
  assert (Eh : (if numReads <? Partition.hashMax r then numReads else Partition.hashMax r)
               = Z.min numReads (Partition.hashMax r)).
  { destruct (Z.ltb_spec numReads (Partition.hashMax r)); lia. }
  rewrite Eh in Hrun.
  apply hashLoop_counts in Hrun; [|lia|assumption|constructor].
  rewrite Forall_forall in Hrun.
  exact (Hrun j (proj2 (list_elem_of_In _ _) Hj)).
Qed.

(** * Concrete runs *)

Import Sample.

(** C1, as stated, fails on [st_outlier]: after iteration 0 the first cell
    of [errorMeanS] of the first read is [errorMeanU[0] = 2000], not 0, and
    the cell at [seqLen = 4] still holds what it held before the iteration
    (5000), which is below the cell before it (8000). *)
Lemma errorMeanS_counterexample :
  wf_state_b 1 2 st_outlier = true
  /\ recomputeErrorProfile 1 2 st_outlier 0 = Done st_outlier_1
  /\ exists p',
       aget (readProfile st_outlier_1) 0 = Done p'
       /\ seqLen p' = 4
       /\ errorMeanU p' = [2000; 2000; 2000; 2000; 0]
       /\ errorMeanS p' !! 0%nat <> Some 0
       /\ errorMeanS p' !! 3%nat = Some 8000
       /\ errorMeanS p' !! 4%nat = Some 5000.
Proof.
  split; [vm_compute; reflexivity |]. split; [vm_compute; reflexivity |].
  eexists. split; [reflexivity |]. split; [reflexivity |]. split; [reflexivity |].
  split; [discriminate |]. split; reflexivity.
Qed.

Lemma errorMeanS_running_sum_witness :
  wf_state_b 1 2 st_outlier = true
  /\ recomputeErrorProfile 1 2 st_outlier 0 = Done st_outlier_1
  /\ errorMeanS (mkProfile 4 [2000; 4000; 6000; 8000; 5000] [2000; 2000; 2000; 2000; 0])
       !! 3%nat
     = Some (wrap32 (sumU [2000; 2000; 2000; 2000; 0] 4)).
Proof.
  assert (Hwf : wf_state_b 1 2 st_outlier = true) by (vm_compute; reflexivity).
  assert (Hrun : recomputeErrorProfile 1 2 st_outlier 0 = Done st_outlier_1)
    by (vm_compute; reflexivity).
  split; [exact Hwf |]. split; [exact Hrun |].
  destruct (errorMeanS_running_sum 1 2 st_outlier st_outlier_1 0 0
              (mkProfile 4 [2000; 4000; 6000; 8000; 5000] [2000; 2000; 2000; 2000; 0])
              Hwf Hrun eq_refl ltac:(discriminate))
    as (_ & _ & _ & Hcells & _).
  apply (Hcells 3%nat). reflexivity.
Defined.

(** C2, as stated, fails on [sp_odd]: both range sums are 1, the code
    decodes [1 / 2 + 1 / 2 = 0], the formula decodes [(1 + 1) / 2 = 1]. *)
Lemma computeEstimatedErate_counterexample :
  exists est,
    computeEstimatedErate 1 sp_odd rp_odd = Done est
    /\ ~ (est == formula_estimate (1 - 0) (3 - 2))%Q.
Proof.
  eexists. split; [vm_compute; reflexivity |].
  vm_compute. discriminate.
Qed.

Lemma computeEstimatedErate_value_witness :
  a_beg sp_odd < a_end sp_odd /\ b_beg sp_odd < b_end sp_odd
  /\ computeEstimatedErate 1 sp_odd rp_odd
     = Done (AS_OVS_decodeEvalue (wrap32 (1 - 0) / 2 + wrap32 (3 - 2) / 2)).
Proof.
  assert (Ha : a_beg sp_odd < a_end sp_odd) by reflexivity.
  assert (Hb : b_beg sp_odd < b_end sp_odd) by reflexivity.
  split; [exact Ha |]. split; [exact Hb |].
  apply (computeEstimatedErate_value 1 sp_odd rp_odd
           (mkProfile 2 [0; 5; 1] [0; 5; 0]) (mkProfile 2 [2; 9; 3] [2; 7; 0])
           1 0 3 2); try reflexivity; assumption.
Defined.

(** The rule at the tolerance: with the estimate 0.20, the overlap reported
    at 0.23 is kept ([0.20 + 0.03 < 0.23] does not hold) and the one
    reported at 0.2301 is discarded. *)
Lemma discard_rule_witness :
  wf_state_b 1 2 st_edge = true
  /\ recomputeErrorProfile 1 2 st_edge 1 = Done st_edge_1
  /\ (exists o', overlaps st_edge_1 !! 0%nat = Some o' /\ discarded o' = false)
  /\ (exists o', overlaps st_edge_1 !! 1%nat = Some o' /\ discarded o' = true).
Proof.
  assert (Hwf : wf_state_b 1 2 st_edge = true) by (vm_compute; reflexivity).
  assert (Hrun : recomputeErrorProfile 1 2 st_edge 1 = Done st_edge_1)
    by (vm_compute; reflexivity).
  split; [exact Hwf |]. split; [exact Hrun |].
  pose proof (proj1 (discard_rule 1 2 st_edge st_edge_1 1 Hwf Hrun)) as Hrule.
  split.
  - destruct (Hrule 0%nat (mkOverlap 1 2 0 0 2300 false) eq_refl) as (o' & Ho' & Hiff).
    exists o'. split; [exact Ho' |].
    destruct (discarded o') eqn:Hd; [| reflexivity].
    destruct (proj1 Hiff (conj eq_refl eq_refl))
      as (_ & _ & ovl & estimate & Hmk & Hest & Hlt).
    vm_compute in Hmk. inversion Hmk; subst ovl.
    vm_compute in Hest. inversion Hest; subst estimate.
    vm_compute in Hlt. discriminate.
  - destruct (Hrule 1%nat (mkOverlap 2 1 0 0 2301 false) eq_refl) as (o' & Ho' & Hiff).
    exists o'. split; [exact Ho' |].
    apply (proj2 Hiff). split; [lia |]. split; [reflexivity |].
    eexists. eexists.
    split; [vm_compute; reflexivity |]. split; [vm_compute; reflexivity |].
    vm_compute. reflexivity.
Defined.

Lemma discarded_never_reset_witness :
  runIterations 1 2 2 2 st_outlier_2 = Done st_outlier_2
  /\ overlaps st_outlier_2 !! 0%nat = Some (mkOverlap 1 2 0 0 4000 true).
Proof.
  assert (Hrun : runIterations 1 2 2 2 st_outlier_2 = Done st_outlier_2)
    by (vm_compute; reflexivity).
  split; [exact Hrun |].
  apply (proj1 (proj2 (discarded_never_reset 1 2)) 2%nat 2 st_outlier_2 st_outlier_2 Hrun 0%nat);
    reflexivity.
Defined.

(** C5, as stated, fails in iteration 0: the span of [o_reach] has
    [b_end] far beyond the second read, the span of [o_empty] has
    [a_beg = a_end], and both iterations run to completion with the overlap
    kept; in iteration 1 the span of [o_reach] leads to a read outside the
    array, not to a failed assertion. *)
Lemma span_checks_counterexample :
  wf_state_b 1 2 st_reach = true
  /\ wf_state_b 1 2 st_empty = true
  /\ (exists st' ovl,
      recomputeErrorProfile 1 2 st_reach 0 = Done st'
      /\ overlaps st' !! 0%nat = Some o_reach
      /\ discarded o_reach = false
      /\ mkSpan o_reach (readProfile st_reach) 1 = Done ovl
      /\ b_end ovl = 4294967290 /\ 4 < b_end ovl)
  /\ (exists st' ovl,
        recomputeErrorProfile 1 2 st_empty 0 = Done st'
        /\ overlaps st' !! 0%nat = Some o_empty
        /\ discarded o_empty = false
        /\ mkSpan o_empty (readProfile st_empty) 1 = Done ovl
        /\ a_beg ovl = a_end ovl)
  /\ recomputeErrorProfile 1 2 st_reach 1 = Undefined.
Proof.
  split; [vm_compute; reflexivity |]. split; [vm_compute; reflexivity |].
  split; [| split].
  - eexists. eexists. split; [vm_compute; reflexivity |].
    split; [reflexivity |]. split; [reflexivity |].
    split; [vm_compute; reflexivity |]. split; reflexivity.
  - eexists. eexists. split; [vm_compute; reflexivity |].
    split; [reflexivity |]. split; [reflexivity |].
    split; [vm_compute; reflexivity |]. reflexivity.
  - vm_compute. reflexivity.
Qed.

Lemma span_checks_witness :
  wf_state_b 1 2 st_pair = true
  /\ recomputeErrorProfile 1 2 st_pair 0 = Done st_pair_0
  /\ exists ovl,
       mkSpan (mkOverlap 1 2 0 0 200 false) (readProfile st_pair) 1 = Done ovl
       /\ a_beg ovl <= a_end ovl
       /\ a_end ovl <= 4.
Proof.
  assert (Hwf : wf_state_b 1 2 st_pair = true) by (vm_compute; reflexivity).
  assert (Hrun : recomputeErrorProfile 1 2 st_pair 0 = Done st_pair_0)
    by (vm_compute; reflexivity).
  split; [exact Hwf |]. split; [exact Hrun |].
  destruct (proj1 (span_checks 1 2 st_pair st_pair_0 0 Hwf Hrun)
              0%nat (mkOverlap 1 2 0 0 200 false)
              (mkProfile 4 [11; 22; 33; 44; 55] [7; 7; 7; 7; 7])
              eq_refl eq_refl eq_refl ltac:(discriminate))
    as (ovl & Hmk & Hle & Hkept & _).
  exists ovl. split; [exact Hmk |]. split; [exact Hle |].
  apply Hkept. reflexivity.
Defined.

(** C6, as stated, fails on [o_before] with reads of length 5: [a_end] is
    [5 - 10] reduced to 32 bits, not [-5]. *)
Lemma span_of_counterexample :
  a_end (span_of o_before (int32_of 5) (int32_of 5)) = 4294967291
  /\ formula_a_end (b_hang o_before) 5 = -5
  /\ a_end (span_of o_before (int32_of 5) (int32_of 5))
     <> formula_a_end (b_hang o_before) 5.
Proof. repeat split. discriminate. Qed.

Lemma span_of_coordinates_witness :
  fits_signed 17 (a_hang o_before) /\ fits_signed 17 (b_hang o_before)
  /\ a_end (span_of o_before (int32_of 5) (int32_of 5))
     = formula_a_end (b_hang o_before) 5 mod 2 ^ 32.
Proof.
  assert (Ha : fits_signed 17 (a_hang o_before)) by (unfold fits_signed; simpl; lia).
  assert (Hb : fits_signed 17 (b_hang o_before)) by (unfold fits_signed; simpl; lia).
  split; [exact Ha |]. split; [exact Hb |].
  apply (span_of_coordinates o_before 5 5 Ha Hb).
Defined.

Lemma errorMeanU_rebuilt_witness :
  wf_state_b 1 2 st_pair = true
  /\ recomputeErrorProfile 1 2 st_pair 0 = Done st_pair_0
  /\ exists el : list ilEntry,
       unpackMap 4 (intervalDepth el) (replicate (Z.to_nat (4 + 1)) 0)
       = Done [100; 100; 100; 100; 0].
Proof.
  assert (Hwf : wf_state_b 1 2 st_pair = true) by (vm_compute; reflexivity).
  assert (Hrun : recomputeErrorProfile 1 2 st_pair 0 = Done st_pair_0)
    by (vm_compute; reflexivity).
  split; [exact Hwf |]. split; [exact Hrun |].
  destruct (errorMeanU_rebuilt 1 2 st_pair st_pair_0 0 0
              (mkProfile 4 [100; 200; 300; 400; 55] [100; 100; 100; 100; 0])
              Hwf Hrun eq_refl ltac:(discriminate))
    as (el & _ & Hun & _).
  exists el. exact Hun.
Defined.

Lemma outputOverlaps_writes_witness :
  0 < 1 /\ (length store_pair <= length ovs_half)%nat
  /\ outputOverlapsWith 1 (Z.of_nat (length store_pair)) store_pair ovs_half
     = Done [mkNative 2 1 0 0 4000 (2 # 5) false].
Proof.
  assert (H1 : 0 < 1) by lia.
  assert (H2 : (length store_pair <= length ovs_half)%nat) by (simpl; lia).
  split; [exact H1 |]. split; [exact H2 |].
  rewrite (proj1 (outputOverlaps_writes 1 store_pair ovs_half H1 H2)).
  reflexivity.
Defined.



Lemma iteration_frame_witness :
  recomputeErrorProfile 1 2 st_outlier_1 1 = Done st_outlier_2
  /\ overlapIndex st_outlier_2 = overlapIndex st_outlier_1
  /\ length (overlaps st_outlier_2) = length (overlaps st_outlier_1).
Proof.
  assert (Hrun : recomputeErrorProfile 1 2 st_outlier_1 1 = Done st_outlier_2)
    by (vm_compute; reflexivity).
  split; [exact Hrun |].
  destruct (iteration_frame 1 2 st_outlier_1 st_outlier_2 1 Hrun) as (Hidx & Hlen & _).
  split; [exact Hidx | exact Hlen].
Defined.

(** The depth map on the example of the specification: two inputs over
    [[0, 10)] of total weight 6 and one over [[5, 15)] of weight 4 give
    depth 2 and weight 6 on [[0, 5)], depth 3 and weight 10 on [[5, 10)],
    depth 1 and weight 4 on [[10, 15)]. *)
Lemma intervalDepth_example :
  intervalDepth
    [ {| il_lo := 0; il_hi := 10; il_value := inject_Z 3 |};
      {| il_lo := 0; il_hi := 10; il_value := inject_Z 3 |};
      {| il_lo := 5; il_hi := 15; il_value := inject_Z 4 |} ]
  = [ {| iv_lo := 0; iv_hi := 5; iv_value := inject_Z 6; iv_depth := 2 |};
      {| iv_lo := 5; iv_hi := 10; iv_value := inject_Z 10; iv_depth := 3 |};
      {| iv_lo := 10; iv_hi := 15; iv_value := inject_Z 4; iv_depth := 1 |} ].
Proof. vm_compute. reflexivity. Qed.

(** * Concrete runs of the set-up and of the loops *)

Import Cases.

Lemma work_items_any_order_witness :
  sorted_b (overlapIndex st_pair_0) = true
  /\ Permutation [1; 0] (map Z.of_nat (seq 0 (Z.to_nat 2)))
  /\ runItems 1 1 [1; 0] st_pair_0 = Done st_pair_0.
Proof.
  assert (Hs : sorted_b (overlapIndex st_pair_0) = true) by reflexivity.
  assert (Hp : Permutation [1; 0] (map Z.of_nat (seq 0 (Z.to_nat 2))))
    by (exact (perm_swap 0 1 [])).
  split; [exact Hs |]. split; [exact Hp |].
  apply (proj2 (work_items_any_order 1 1 2 st_pair_0 st_pair_0 [1; 0] Hs Hp)).
  vm_compute. reflexivity.
Defined.

Lemma first_iteration_ignores_arrays_witness :
  wf_state_b 1 2 st_pair = true
  /\ wf_state_b 1 2 st_pair_other = true
  /\ recomputeErrorProfile 1 2 st_pair 0 = Done st_pair_0
  /\ exists s2',
       recomputeErrorProfile 1 2 st_pair_other 0 = Done s2'
       /\ overlaps s2' = overlaps st_pair_0.
Proof.
  assert (Hwf1 : wf_state_b 1 2 st_pair = true) by (vm_compute; reflexivity).
  assert (Hwf2 : wf_state_b 1 2 st_pair_other = true) by (vm_compute; reflexivity).
  assert (Hrun : recomputeErrorProfile 1 2 st_pair 0 = Done st_pair_0)
    by (vm_compute; reflexivity).
  split; [exact Hwf1 |]. split; [exact Hwf2 |]. split; [exact Hrun |].
  destruct (first_iteration_ignores_arrays 1 2 st_pair st_pair_other st_pair_0
              Hwf1 Hwf2 eq_refl eq_refl eq_refl Hrun) as (s2' & Hrun2 & _ & Hov & _).
  exists s2'. split; [exact Hrun2 | exact Hov].
Defined.

Lemma quiet_iteration_is_stationary_witness :
  wf_state_b 1 2 st_pair = true
  /\ recomputeErrorProfile 1 2 st_pair 0 = Done st_pair_0
  /\ recomputeErrorProfile 1 2 st_pair_0 1 = Done st_pair_0
  /\ runIterations 1 2 2 2 st_pair_0 = Done st_pair_0.
Proof.
  assert (Hwf : wf_state_b 1 2 st_pair = true) by (vm_compute; reflexivity).
  assert (Hrun1 : recomputeErrorProfile 1 2 st_pair 0 = Done st_pair_0)
    by (vm_compute; reflexivity).
  assert (Hrun2 : recomputeErrorProfile 1 2 st_pair_0 1 = Done st_pair_0)
    by (vm_compute; reflexivity).
  split; [exact Hwf |]. split; [exact Hrun1 |]. split; [exact Hrun2 |].
  apply (proj2 (quiet_iteration_is_stationary 1 2 st_pair st_pair_0 st_pair_0 0 1
                  Hwf Hrun1 Hrun2 eq_refl)); lia.
Defined.

Lemma errorMeanS_last_cell_kept_witness :
  wf_state_b 1 2 st_pair = true
  /\ exists st' p',
       runIterations 1 2 4 0 st_pair = Done st'
       /\ readProfile st' !! 0%nat = Some p'
       /\ errorMeanS p' !! 4%nat = Some 55.
Proof.
  assert (Hwf : wf_state_b 1 2 st_pair = true) by (vm_compute; reflexivity).
  split; [exact Hwf |].
  destruct (runIterations 1 2 4 0 st_pair) as [st'| |] eqn:Hrun;
    [| vm_compute in Hrun; discriminate | vm_compute in Hrun; discriminate].
  destruct (errorMeanS_last_cell_kept 1 2 4 0 st_pair st' 0%nat
              (mkProfile 4 [11; 22; 33; 44; 55] [7; 7; 7; 7; 7]) Hwf Hrun eq_refl)
    as (p' & Hk & _ & Hcell).
  exists st', p'. split; [reflexivity |]. split; [exact Hk | exact Hcell].
Defined.

Lemma deleted_reads_skipped_witness :
  wf_state_b 1 2 st_deleted = true
  /\ exists st',
       runIterations 1 2 4 0 st_deleted = Done st'
       /\ readProfile st' !! 1%nat = Some (mkProfile 0 [13] [17])
       /\ overlaps st' !! 0%nat = Some (mkOverlap 2 1 0 0 200 false).
Proof.
  assert (Hwf : wf_state_b 1 2 st_deleted = true) by (vm_compute; reflexivity).
  split; [exact Hwf |].
  destruct (runIterations 1 2 4 0 st_deleted) as [st'| |] eqn:Hrun;
    [| vm_compute in Hrun; discriminate | vm_compute in Hrun; discriminate].
  destruct (deleted_reads_skipped 1 2 4 0 st_deleted st' Hwf Hrun) as (Hp & Ho).
  exists st'. split; [reflexivity |]. split.
  - apply Hp; reflexivity.
  - apply (Ho 0%nat _ (mkProfile 0 [13] [17])); reflexivity.
Defined.

Lemma partitions_tile_witness :
  0 < 4 < 2 ^ 31 /\ 0 <= 10 /\ 4 * 10 < 2 ^ 32
  /\ main_select atoi10 ["-p"; "2"; "4"] 10 = Done (Some (3, 5, 3)).
Proof.
  assert (H1 : 0 < 4 < 2 ^ 31) by lia.
  assert (H2 : 0 <= 10) by lia.
  assert (H3 : 4 * 10 < 2 ^ 32) by lia.
  split; [exact H1 |]. split; [exact H2 |]. split; [exact H3 |].
  rewrite (proj1 (partitions_tile atoi10 4 10 H1 H2 H3) "2" "4" eq_refl ltac:(vm_compute; split; discriminate)).
  vm_compute. reflexivity.
Defined.

Lemma main_index_running_sum_witness :
  0 <= 2 < 2 ^ 32
  /\ exists idx, main_index 2 2 [0; 1; 1] [9; 9; 9] = Done idx /\ sorted_b idx = true.
Proof.
  assert (H1 : 0 <= 2 < 2 ^ 32) by lia.
  split; [exact H1 |].
  destruct (proj2 (main_index_running_sum 2 2 [0; 1; 1] [9; 9; 9] H1 eq_refl
                     ltac:(simpl; lia)
                     ltac:(repeat constructor; lia)) eq_refl)
    as (idx & Hrun & _ & _ & _ & Hs & _).
  exists idx. split; [exact Hrun | exact Hs].
Defined.

Lemma main_load_packs_witness :
  length fresh_pair = length store_zero
  /\ main_load (length store_zero) (Z.of_nat (length store_zero)) store_zero fresh_pair
     = Some (Done [mkOverlap 1 2 0 0 0 false; mkOverlap 2 1 0 0 0 false]).
Proof.
  assert (H1 : length fresh_pair = length store_zero) by reflexivity.
  split; [exact H1 |].
  rewrite (proj1 (main_load_packs store_zero fresh_pair H1)).
  vm_compute. reflexivity.
Defined.

Lemma loaded_store_written_back_witness :
  forallb populate_ok store_zero = true
  /\ overlaps st_zero = map populate_fields store_zero
  /\ outputOverlaps (Z.of_nat (length store_zero)) store_zero (overlaps st_zero)
     = Done store_zero.
Proof.
  assert (H1 : forallb populate_ok store_zero = true) by (vm_compute; reflexivity).
  assert (H2 : overlaps st_zero = map populate_fields store_zero) by reflexivity.
  split; [exact H1 |]. split; [exact H2 |].
  exact (proj1 (loaded_store_written_back 1 2 store_zero st_zero H1 H2)).
Defined.

Lemma starved_loops_witness :
  0 < 1 /\ Z.of_nat (length store_zero) < 3
  /\ outputOverlapsWith 1 3 store_zero (overlaps st_zero ++ fresh_pair) = AssertFailed
  /\ loadLoop 5 1 3 0 store_zero (fresh_pair ++ fresh_pair) = None.
Proof.
  assert (H1 : 0 < 1) by lia.
  assert (H2 : Z.of_nat (length store_zero) < 3) by (simpl; lia).
  split; [exact H1 |]. split; [exact H2 |].
  destruct (starved_loops 1 3 store_zero H1 H2) as (Hout & Hload).
  split.
  - apply Hout. simpl. lia.
  - apply Hload; [simpl; lia | vm_compute; reflexivity].
Defined.

Lemma unknown_option_exits_witness :
  isOption "500" = false
  /\ main_select atoi10 ["-L"; "500"; "-S"; "reads"] 10 = Done None
  /\ main_select atoi10 ["-L"; "500"; "-p"; "1"] 10 = Undefined.
Proof.
  assert (H1 : isOption "500" = false) by reflexivity.
  split; [exact H1 |]. split.
  - rewrite (proj1 (proj2 (proj2 (unknown_option_exits atoi10 "500" ["-S"; "reads"] 10 H1)))).
    reflexivity.
  - rewrite (proj1 (proj2 (proj2 (unknown_option_exits atoi10 "500" ["-p"; "1"] 10 H1)))).
    reflexivity.
Defined.

Lemma main_setup_wellformed_witness :
  map ovl_a_iid store_zero = sortedByRead 1 2 [0; 1; 1]
  /\ forallb populate_ok store_zero = true
  /\ main_index 2 2 [0; 1; 1] [9; 9; 9] = Done [0; 1; 2]
  /\ wf_state_b 1 2 st_zero = true.
Proof.
  assert (H1 : map ovl_a_iid store_zero = sortedByRead 1 2 [0; 1; 1]) by reflexivity.
  assert (H2 : forallb populate_ok store_zero = true) by (vm_compute; reflexivity).
  assert (H3 : main_index 2 2 [0; 1; 1] [9; 9; 9] = Done [0; 1; 2]) by reflexivity.
  split; [exact H1 |]. split; [exact H2 |]. split; [exact H3 |].
  exact (proj1 (main_setup_wellformed 1 2 2 [0; 1; 1] [9; 9; 9] store_zero [0; 1; 2]
                  (readProfile st_zero)
                  ltac:(lia) ltac:(lia) eq_refl ltac:(simpl; lia)
                  ltac:(repeat constructor; lia) H1 H2 eq_refl
                  ltac:(vm_compute; reflexivity) H3)).
Defined.

(** * Concrete runs of the partitioner *)

Import PartitionCases.

Lemma loadReadLengths_ranges_witness :
  Z.of_nat (length reads3) < UINT32_MAX
  /\ Partition.loadReadLengths 2 reads3 ∅ lib2 all_reads = Done (lens3, stream_lib2)
  /\ rangeOfLibs lib2 reads3 1 UINT32_MAX 2 3.
Proof.
  assert (Hn : Z.of_nat (length reads3) < UINT32_MAX) by (vm_compute; reflexivity).
  assert (Hrun : Partition.loadReadLengths 2 reads3 ∅ lib2 all_reads
                 = Done (lens3, stream_lib2)) by (vm_compute; reflexivity).
  split; [exact Hn |]. split; [exact Hrun |].
  exact (proj2 (proj2 (proj2 (loadReadLengths_ranges 2 reads3 ∅ lib2 all_reads stream_lib2
                                lens3 Hn Hrun)))).
Defined.

Lemma partitionLength_jobs_in_range_witness :
  0 <= 3 < UINT32_MAX
  /\ Z.of_nat (length lens3) = 3 + 1
  /\ 0 <= Partition.hashMin stream_lib2 < 2 ^ 32
  /\ 0 <= Partition.hashMax stream_lib2
  /\ 0 <= Partition.refMin stream_lib2
  /\ 0 <= Partition.refMax stream_lib2
  /\ exists jobs,
       Partition.partitionLength 3 lens3 0 100 5 ∅ lib2 stream_lib2 = Done jobs
       /\ forall j : Partition.job,
            In j jobs ->
            Partition.hashEnd j <= 3
            /\ (Partition.refBeg j = 2 \/ 1 < Partition.refBeg j <= Partition.refEnd j).
Proof.
  assert (H1 : 0 <= 3 < UINT32_MAX) by (unfold UINT32_MAX; lia).
  assert (H2 : Z.of_nat (length lens3) = 3 + 1) by reflexivity.
  assert (H3 : 0 <= Partition.hashMin stream_lib2 < 2 ^ 32) by (simpl; lia).
  assert (H4 : 0 <= Partition.hashMax stream_lib2) by (unfold UINT32_MAX; simpl; lia).
  assert (H5 : 0 <= Partition.refMin stream_lib2) by (simpl; lia).
  assert (H6 : 0 <= Partition.refMax stream_lib2) by (simpl; lia).
  repeat (split; [assumption |]).
  destruct (partitionLength_jobs_in_range 3 lens3 0 100 5 ∅ lib2 stream_lib2 H1 H2 H3 H4 H5 H6)
    as (jobs & Hrun & Hjobs).
  exists jobs. split; [exact Hrun |].
  intros j Hj. destruct (Hjobs j Hj) as (_ & _ & _ & _ & _ & He & _ & _ & _ & _ & Hord & _).
  split; [exact He | exact Hord].
Defined.

Lemma partitionLength_jobs_numbered_witness :
  0 <= 5 < UINT32_MAX
  /\ Z.of_nat (length lens5) = 5 + 1
  /\ 0 <= Partition.hashMin all_reads < 2 ^ 32
  /\ 0 <= Partition.hashMax all_reads
  /\ 0 <= Partition.refMin all_reads
  /\ 0 <= Partition.refMax all_reads
  /\ exists jobs,
       Partition.partitionLength 5 lens5 8 20 15 ∅ ∅ all_reads = Done jobs
       /\ numbered jobs.
Proof.
  assert (H1 : 0 <= 5 < UINT32_MAX) by (unfold UINT32_MAX; lia).
  assert (H2 : Z.of_nat (length lens5) = 5 + 1) by reflexivity.
  assert (H3 : 0 <= Partition.hashMin all_reads < 2 ^ 32) by (simpl; lia).
  assert (H4 : 0 <= Partition.hashMax all_reads) by (unfold UINT32_MAX; simpl; lia).
  assert (H5 : 0 <= Partition.refMin all_reads) by (simpl; lia).
  assert (H6 : 0 <= Partition.refMax all_reads) by (unfold UINT32_MAX; simpl; lia).
  repeat (split; [assumption |]).
  destruct (Partition.partitionLength 5 lens5 8 20 15 ∅ ∅ all_reads) as [jobs| |] eqn:Hrun;
    [| vm_compute in Hrun; discriminate | vm_compute in Hrun; discriminate].
  exists jobs. split; [reflexivity |].
  exact (proj1 (partitionLength_jobs_numbered 5 lens5 8 20 15 ∅ ∅ all_reads jobs
                  H1 H2 H3 H4 H5 H6 Hrun)).
Defined.


Lemma partitionLength_hash_counts_witness :
  5 < UINT32_MAX
  /\ 0 <= Partition.hashMin all_reads < 2 ^ 32
  /\ exists jobs,
       Partition.partitionLength 5 lens5 8 20 15 ∅ ∅ all_reads = Done jobs
       /\ forall j : Partition.job,
            In j jobs ->
            Partition.hashBases j
            = wrap64 (hashBytes (longReads 8 lens5 (Partition.hashBeg j)
                                   (Partition.hashEnd j))).
Proof.
  assert (H1 : 5 < UINT32_MAX) by (unfold UINT32_MAX; lia).
  assert (H3 : 0 <= Partition.hashMin all_reads < 2 ^ 32) by (simpl; lia).
  repeat (split; [assumption |]).
  destruct (Partition.partitionLength 5 lens5 8 20 15 ∅ ∅ all_reads) as [jobs| |] eqn:Hrun;
    [| vm_compute in Hrun; discriminate | vm_compute in Hrun; discriminate].
  exists jobs. split; [reflexivity |].
  intros j Hj.
  exact (proj1 (proj2 (partitionLength_hash_counts 5 lens5 8 20 15 ∅ ∅ all_reads jobs
                         H1 H3 Hrun j Hj))).
Defined.
